(** * Ball-pivoting surface reconstruction: a shallow embedding

    The development follows [SurfaceReconstructionBallPivoting.cpp].  The
    program computes with C++ [double]s and Eigen 3-vectors; every numeric
    definition below is written once, over an interface [Arith] of the
    operations the source uses, and is then read at two instances:

    - [float_arith]: IEEE binary64 ([PrimFloat]), the arithmetic of the
      program, which evaluates, and
    - [R_arith]: exact real arithmetic (no rounding, no NaN), an
      idealisation; a statement made there says so.

    The theorems hold for every instance of [Arith], binary64 included,
    unless they say that they are read over the real numbers.  The
    topological part of the engine (vertices, edges, triangles, the front
    queue and the border list) never looks inside a number. *)

From Stdlib Require Import PrimFloat Reals Lra Lia List Bool Arith.
From stdpp Require Import base list.

Set Warnings "-inexact-float".

(** ** The arithmetic the source uses *)

Class Arith (D : Type) := {
  d0 : D;                       (* 0.0 *)
  d1 : D;                       (* 1.0 *)
  d2 : D;                       (* 2.0 *)
  dhalf : D;                    (* 0.5 *)
  deps16 : D;                   (* 1e-16 *)
  deps12 : D;                   (* 1e-12 *)
  dpi : D;                      (* M_PI *)
  dadd : D -> D -> D;
  dsub : D -> D -> D;
  dmul : D -> D -> D;
  ddiv : D -> D -> D;
  dopp : D -> D;
  dsqrt : D -> D;
  dltb : D -> D -> bool;        (* x < y *)
  dleb : D -> D -> bool         (* x <= y *)
}.

Declare Scope D_scope.
Delimit Scope D_scope with D.
Infix "+" := dadd : D_scope.
Infix "-" := dsub : D_scope.
Infix "*" := dmul : D_scope.
Infix "/" := ddiv : D_scope.
Notation "- x" := (dopp x) : D_scope.
Notation "x <? y" := (dltb x y) : D_scope.
Notation "x <=? y" := (dleb x y) : D_scope.
Notation "x >? y" := (dltb y x) : D_scope.
Notation "x >=? y" := (dleb y x) : D_scope.

(** IEEE binary64, as the compiled program computes. *)
#[export] Instance float_arith : Arith float := {|
  d0 := 0%float; d1 := 1%float; d2 := 2%float; dhalf := 0.5%float;
  deps16 := 1e-16%float; deps12 := 1e-12%float;
  dpi := 3.141592653589793%float;
  dadd := PrimFloat.add; dsub := PrimFloat.sub; dmul := PrimFloat.mul;
  ddiv := PrimFloat.div; dopp := PrimFloat.opp; dsqrt := PrimFloat.sqrt;
  dltb := PrimFloat.ltb; dleb := PrimFloat.leb
|}.

Definition Rltb (x y : R) : bool := if Rlt_dec x y then true else false.
Definition Rleb (x y : R) : bool := if Rle_dec x y then true else false.

(** Exact real arithmetic. *)
#[export] Instance R_arith : Arith R := {|
  d0 := 0%R; d1 := 1%R; d2 := 2%R; dhalf := (1 / 2)%R;
  deps16 := (1 / 10 ^ 16)%R; deps12 := (1 / 10 ^ 12)%R;
  dpi := PI;
  dadd := Rplus; dsub := Rminus; dmul := Rmult;
  ddiv := Rdiv; dopp := Ropp; dsqrt := sqrt;
  dltb := Rltb; dleb := Rleb
|}.

(** ** Eigen::Vector3d *)

Section Vector.
Context {D : Type} {AR : Arith D}.
Local Open Scope D_scope.

Record Vector3d := Vec3 { vx : D; vy : D; vz : D }.

Definition vadd (u v : Vector3d) : Vector3d :=
  Vec3 (vx u + vx v) (vy u + vy v) (vz u + vz v).
Definition vsub (u v : Vector3d) : Vector3d :=
  Vec3 (vx u - vx v) (vy u - vy v) (vz u - vz v).
(* s * v *)
Definition vscale (s : D) (v : Vector3d) : Vector3d :=
  Vec3 (s * vx v) (s * vy v) (s * vz v).
(* v *= s *)
Definition vmuls (v : Vector3d) (s : D) : Vector3d :=
  Vec3 (vx v * s) (vy v * s) (vz v * s).
(* v /= s *)
Definition vdivs (v : Vector3d) (s : D) : Vector3d :=
  Vec3 (vx v / s) (vy v / s) (vz v / s).
Definition dot (u v : Vector3d) : D :=
  vx u * vx v + vy u * vy v + vz u * vz v.
Definition cross (u v : Vector3d) : Vector3d :=
  Vec3 (vy u * vz v - vz u * vy v)
       (vz u * vx v - vx u * vz v)
       (vx u * vy v - vy u * vx v).
Definition squaredNorm (v : Vector3d) : D := dot v v.
Definition norm (v : Vector3d) : D := dsqrt (squaredNorm v).
Definition vzero : Vector3d := Vec3 d0 d0 d0.
End Vector.

Arguments Vector3d D : clear implicits.

(** ** The data model

    A [BallPivotingVertexPtr] points into the engine's [vertices] vector and
    is modelled by the vertex index; [BallPivotingEdgePtr] and
    [BallPivotingTrianglePtr] are shared pointers to heap objects and are
    modelled by the position of the object in an allocation-ordered heap.
    [nullptr] is [None]. *)

Module Vertex.
Inductive Type_ := Orphan | Front | Inner.
End Vertex.

Module Edge.
Inductive Type_ := Border | Front | Inner.
End Edge.

#[export] Instance vertex_type_eq_dec : EqDecision Vertex.Type_.
Proof. solve_decision. Defined.
#[export] Instance edge_type_eq_dec : EqDecision Edge.Type_.
Proof. solve_decision. Defined.

Abbreviation VertexPtr := nat (only parsing).
Abbreviation EdgePtr := nat (only parsing).
Abbreviation TrianglePtr := nat (only parsing).

Section Model.
Context {D : Type} {AR : Arith D}.
Local Open Scope D_scope.

Record BallPivotingVertex := mkVertex {
  idx_ : nat;
  point_ : Vector3d D;
  normal_ : Vector3d D;
  (* std::unordered_set<BallPivotingEdgePtr>: kept without repetition, in
     insertion order *)
  edges_ : list EdgePtr;
  vtype_ : Vertex.Type_
}.

Record BallPivotingEdge := mkEdge {
  source_ : VertexPtr;
  target_ : VertexPtr;
  triangle0_ : option TrianglePtr;
  triangle1_ : option TrianglePtr;
  type_ : Edge.Type_
}.

Record BallPivotingTriangle := mkTriangle {
  vert0_ : VertexPtr;
  vert1_ : VertexPtr;
  vert2_ : VertexPtr;
  ball_center_ : Vector3d D
}.

(** The engine: the members of [class BallPivoting], the two heaps, and
    the two lists of the output mesh the engine appends to. *)
Record BallPivoting := mkBP {
  has_normals_ : bool;
  vertices : list BallPivotingVertex;
  edge_heap : list BallPivotingEdge;
  triangle_heap : list BallPivotingTriangle;
  edge_front_ : list EdgePtr;
  border_edges_ : list EdgePtr;
  mesh_triangles_ : list (nat * nat * nat);
  mesh_triangle_normals_ : list (Vector3d D)
}.

(** The constructors of the three classes: a vertex starts [Orphan] with
    no edge, an edge starts [Front] with both triangle slots null. *)
Definition BallPivotingVertex_new (idx : nat) (point normal : Vector3d D)
  : BallPivotingVertex :=
  mkVertex idx point normal [] Vertex.Orphan.
Definition BallPivotingEdge_new (source target : VertexPtr) : BallPivotingEdge :=
  mkEdge source target None None Edge.Front.
Definition BallPivotingTriangle_new (vert0 vert1 vert2 : VertexPtr)
    (ball_center : Vector3d D) : BallPivotingTriangle :=
  mkTriangle vert0 vert1 vert2 ball_center.

(** Dereferencing.  The source indexes [vertices] and follows pointers
    without a check; a read outside the vector or heap is undefined there
    and yields a fixed dummy object here.  Every theorem about the engine
    is stated for states in which all pointers are in range. *)
Definition dummy_vertex : BallPivotingVertex :=
  mkVertex 0 vzero vzero [] Vertex.Orphan.
Definition dummy_edge : BallPivotingEdge :=
  mkEdge 0 0 None None Edge.Front.
Definition dummy_triangle : BallPivotingTriangle :=
  mkTriangle 0 0 0 vzero.

Definition vertex_at (vs : list BallPivotingVertex) (i : VertexPtr) :=
  default dummy_vertex (vs !! i).
Definition edge_at (es : list BallPivotingEdge) (e : EdgePtr) :=
  default dummy_edge (es !! e).
Definition triangle_at (ts : list BallPivotingTriangle) (t : TrianglePtr) :=
  default dummy_triangle (ts !! t).

(** ** Geometric predicates *)

(** [BallPivoting::ComputeBallCenter]: [Some center] when the source
    returns [true] (and has written [center]), [None] when it returns
    [false]. *)
Definition ComputeBallCenter (vs : list BallPivotingVertex)
    (vidx1 vidx2 vidx3 : nat) (radius : D) : option (Vector3d D) :=
  let v1 := point_ (vertex_at vs vidx1) in
  let v2 := point_ (vertex_at vs vidx2) in
  let v3 := point_ (vertex_at vs vidx3) in
  let c := squaredNorm (vsub v2 v1) in
  let b := squaredNorm (vsub v1 v3) in
  let a := squaredNorm (vsub v3 v2) in
  let alpha := a * (b + c - a) in
  let beta := b * (a + c - b) in
  let gamma := c * (a + b - c) in
  let abg := alpha + beta + gamma in
  if abg <? deps16 then None
  else
    let alpha := alpha / abg in
    let beta := beta / abg in
    let gamma := gamma / abg in
    let circ_center :=
      vadd (vadd (vscale alpha v1) (vscale beta v2)) (vscale gamma v3) in
    let circ_radius2 := a * b * c in
    let a := dsqrt a in
    let b := dsqrt b in
    let c := dsqrt c in
    let circ_radius2 :=
      circ_radius2 / ((a + b + c) * (b + c - a) * (c + a - b) * (a + b - c)) in
    let height := radius * radius - circ_radius2 in
    if height >=? d0 then
      let tr_norm := cross (vsub v2 v1) (vsub v3 v1) in
      let tr_norm := vdivs tr_norm (norm tr_norm) in
      let pt_norm :=
        vadd (vadd (normal_ (vertex_at vs vidx1))
                   (normal_ (vertex_at vs vidx2)))
             (normal_ (vertex_at vs vidx3)) in
      let pt_norm := vdivs pt_norm (norm pt_norm) in
      let tr_norm :=
        if dot tr_norm pt_norm <? d0 then vmuls tr_norm (- d1) else tr_norm in
      let height := dsqrt height in
      Some (vadd circ_center (vscale height tr_norm))
    else None.

(** [BallPivoting::ComputeFaceNormal] *)
Definition ComputeFaceNormal (v0 v1 v2 : Vector3d D) : Vector3d D :=
  let normal := cross (vsub v1 v0) (vsub v2 v0) in
  let norm := norm normal in
  if norm >? d0 then vdivs normal norm else normal.

(** [BallPivoting::IsCompatible] *)
Definition IsCompatible (v0 v1 v2 : BallPivotingVertex) : bool :=
  let normal := ComputeFaceNormal (point_ v0) (point_ v1) (point_ v2) in
  let normal :=
    if dot normal (normal_ v0) <? - deps16 then vmuls normal (- d1)
    else normal in
  (dot normal (normal_ v0) >? - deps16) &&
  (dot normal (normal_ v1) >? - deps16) &&
  (dot normal (normal_ v2) >? - deps16).

End Model.

Arguments BallPivotingVertex D : clear implicits.
Arguments BallPivotingEdge : clear implicits.
Arguments BallPivotingTriangle D : clear implicits.
Arguments BallPivoting D : clear implicits.

(** ** Failures

    [utility::LogError] throws; the exception leaves [Run].  Following a null
    shared pointer is undefined in the source and is a failure of its own
    here.  [OutOfFuel] is the model's only artefact: the [while] loop of
    [ExpandTriangulation] runs on fuel. *)

Inductive Failure :=
| MissingNormals        (* "ReconstructBallPivoting requires normals" *)
| InvalidRadius         (* "got an invalid, negative radius as parameter" *)
| OppositeVertexNull    (* "...GetOppositeVertex() returns nullptr." *)
| NullPointer
| OutOfFuel.

Inductive result (A : Type) :=
| Ok (a : A)
| Err (f : Failure).
Arguments Ok {A} a.
Arguments Err {A} f.

Definition rbind {A B : Type} (m : result A) (k : A -> result B) : result B :=
  match m with
  | Ok a => k a
  | Err f => Err f
  end.

Notation "'let*' x ':=' m 'in' k" := (rbind m (fun x => k))
  (at level 10, x pattern, m at level 100, k at level 200).

(** [std::unordered_set::insert] *)
Definition set_insert (e : nat) (s : list nat) : list nat :=
  if decide (e ∈ s) then s else s ++ [e].

Section Store.
Context {D : Type} {AR : Arith D}.
Local Open Scope D_scope.

(** Field updates of the engine state. *)
Definition with_vertices (bp : BallPivoting D) vs : BallPivoting D :=
  mkBP (has_normals_ bp) vs (edge_heap bp) (triangle_heap bp)
       (edge_front_ bp) (border_edges_ bp)
       (mesh_triangles_ bp) (mesh_triangle_normals_ bp).
Definition with_edge_heap (bp : BallPivoting D) es : BallPivoting D :=
  mkBP (has_normals_ bp) (vertices bp) es (triangle_heap bp)
       (edge_front_ bp) (border_edges_ bp)
       (mesh_triangles_ bp) (mesh_triangle_normals_ bp).
Definition with_triangle_heap (bp : BallPivoting D) ts : BallPivoting D :=
  mkBP (has_normals_ bp) (vertices bp) (edge_heap bp) ts
       (edge_front_ bp) (border_edges_ bp)
       (mesh_triangles_ bp) (mesh_triangle_normals_ bp).
Definition with_edge_front (bp : BallPivoting D) q : BallPivoting D :=
  mkBP (has_normals_ bp) (vertices bp) (edge_heap bp) (triangle_heap bp)
       q (border_edges_ bp)
       (mesh_triangles_ bp) (mesh_triangle_normals_ bp).
Definition with_border_edges (bp : BallPivoting D) b : BallPivoting D :=
  mkBP (has_normals_ bp) (vertices bp) (edge_heap bp) (triangle_heap bp)
       (edge_front_ bp) b
       (mesh_triangles_ bp) (mesh_triangle_normals_ bp).
Definition with_mesh (bp : BallPivoting D) tris nrms : BallPivoting D :=
  mkBP (has_normals_ bp) (vertices bp) (edge_heap bp) (triangle_heap bp)
       (edge_front_ bp) (border_edges_ bp) tris nrms.

Definition set_edges (v : BallPivotingVertex D) (s : list EdgePtr) :=
  mkVertex (idx_ v) (point_ v) (normal_ v) s (vtype_ v).
Definition set_vtype (v : BallPivotingVertex D) (t : Vertex.Type_) :=
  mkVertex (idx_ v) (point_ v) (normal_ v) (edges_ v) t.
Definition set_type (e : BallPivotingEdge) (t : Edge.Type_) :=
  mkEdge (source_ e) (target_ e) (triangle0_ e) (triangle1_ e) t.

(** *** BallPivotingVertex::UpdateType

    The loop over [edges_] leaves with [Front] at the first edge that is
    not [Inner]. *)
Fixpoint UpdateType_loop (es : list BallPivotingEdge) (l : list EdgePtr)
  : Vertex.Type_ :=
  match l with
  | [] => Vertex.Inner
  | edge :: l' =>
      if decide (type_ (edge_at es edge) ≠ Edge.Inner) then Vertex.Front
      else UpdateType_loop es l'
  end.

Definition UpdateType (es : list BallPivotingEdge) (v : BallPivotingVertex D)
  : BallPivotingVertex D :=
  match edges_ v with
  | [] => set_vtype v Vertex.Orphan
  | _ => set_vtype v (UpdateType_loop es (edges_ v))
  end.

(** *** BallPivotingEdge::GetOppositeVertex

    [p->idx_] of a vertex pointer [p] is the index [p] itself: the
    constructor stores position [i] in the [idx_] of [vertices[i]], and
    nothing writes the field afterwards. *)
Definition GetOppositeVertex (ts : list (BallPivotingTriangle D))
    (e : BallPivotingEdge) : option VertexPtr :=
  match triangle0_ e with
  | Some t0 =>
      let T := triangle_at ts t0 in
      if negb (vert0_ T =? source_ e) && negb (vert0_ T =? target_ e)
      then Some (vert0_ T)
      else if negb (vert1_ T =? source_ e) && negb (vert1_ T =? target_ e)
      then Some (vert1_ T)
      else Some (vert2_ T)
  | None => None
  end.

(** *** BallPivotingEdge::AddAdjacentTriangle *)
Definition AddAdjacentTriangle (vs : list (BallPivotingVertex D))
    (ts : list (BallPivotingTriangle D))
    (e : BallPivotingEdge) (triangle : TrianglePtr) : result BallPivotingEdge :=
  if decide (Some triangle ≠ triangle0_ e ∧ Some triangle ≠ triangle1_ e) then
    match triangle0_ e with
    | None =>
        let e := mkEdge (source_ e) (target_ e) (Some triangle) (triangle1_ e)
                        Edge.Front in
        (* update orientation *)
        match GetOppositeVertex ts e with
        | Some opp =>
            let src := vertex_at vs (source_ e) in
            let tgt := vertex_at vs (target_ e) in
            let oppv := vertex_at vs opp in
            let tr_norm := cross (vsub (point_ tgt) (point_ src))
                                 (vsub (point_ oppv) (point_ src)) in
            let tr_norm := vdivs tr_norm (norm tr_norm) in
            let pt_norm :=
              vadd (vadd (normal_ src) (normal_ tgt)) (normal_ oppv) in
            let pt_norm := vdivs pt_norm (norm pt_norm) in
            if dot pt_norm tr_norm <? d0
            then Ok (mkEdge (target_ e) (source_ e) (triangle0_ e)
                            (triangle1_ e) (type_ e))
            else Ok e
        | None => Err OppositeVertexNull
        end
    | Some _ =>
        match triangle1_ e with
        | None => Ok (mkEdge (source_ e) (target_ e) (triangle0_ e)
                             (Some triangle) Edge.Inner)
        | Some _ => Ok e   (* "!!! This case should not happen" *)
        end
    end
  else Ok e.

(** *** BallPivoting::GetLinkingEdge *)
Definition same_ends (es : list BallPivotingEdge) (edge0 edge1 : EdgePtr) : bool :=
  (source_ (edge_at es edge0) =? source_ (edge_at es edge1)) &&
  (target_ (edge_at es edge0) =? target_ (edge_at es edge1)).

Fixpoint GetLinkingEdge_loop (es : list BallPivotingEdge)
    (l0 l1 : list EdgePtr) : option EdgePtr :=
  match l0 with
  | [] => None
  | edge0 :: l0' =>
      if existsb (same_ends es edge0) l1 then Some edge0
      else GetLinkingEdge_loop es l0' l1
  end.

Definition GetLinkingEdge (bp : BallPivoting D) (v0 v1 : VertexPtr)
  : option EdgePtr :=
  GetLinkingEdge_loop (edge_heap bp)
    (edges_ (vertex_at (vertices bp) v0))
    (edges_ (vertex_at (vertices bp) v1)).

End Store.

(** ** The engine

    The collaborators the file includes but does not define are parameters:
    the radius search of [KDTreeFlann], the two predicates of
    [IntersectionTest], and [std::acos]. *)

Section Engine.
Context {D : Type} {AR : Arith D}.
Local Open Scope D_scope.

(* kdtree_.SearchRadius(query, radius, indices, dists2): the indices
   returned; the engine never reads the squared distances *)
Variable SearchRadius : Vector3d D -> D -> list nat.
Variable PointsCoplanar :
  Vector3d D -> Vector3d D -> Vector3d D -> Vector3d D -> bool.
Variable LineSegmentsMinimumDistance :
  Vector3d D -> Vector3d D -> Vector3d D -> Vector3d D -> D.
Variable acos : D -> D.

(** *** BallPivoting::CreateTriangle

    The source repeats one block for each of the three sides: find the
    linking edge or allocate one, record the triangle on it, insert it in
    the edge sets of both ends.  [link_side] is that block. *)
Definition insert_edge (vs : list (BallPivotingVertex D)) (v : VertexPtr)
    (e : EdgePtr) : list (BallPivotingVertex D) :=
  <[v := set_edges (vertex_at vs v) (set_insert e (edges_ (vertex_at vs v)))]> vs.

Definition link_side (bp : BallPivoting D) (va vb : VertexPtr)
    (triangle : TrianglePtr) : result (BallPivoting D) :=
  let '(e, es) :=
    match GetLinkingEdge bp va vb with
    | Some e => (e, edge_heap bp)
    | None => (length (edge_heap bp),
               edge_heap bp ++ [BallPivotingEdge_new va vb])
    end in
  let* E := AddAdjacentTriangle (vertices bp) (triangle_heap bp)
                                (edge_at es e) triangle in
  let es := <[e := E]> es in
  let vs := insert_edge (vertices bp) va e in
  let vs := insert_edge vs vb e in
  Ok (with_vertices (with_edge_heap bp es) vs).

Definition update_type (bp : BallPivoting D) (v : VertexPtr) : BallPivoting D :=
  with_vertices bp
    (<[v := UpdateType (edge_heap bp) (vertex_at (vertices bp) v)]> (vertices bp)).

Definition CreateTriangle (bp : BallPivoting D) (v0 v1 v2 : VertexPtr)
    (center : Vector3d D) : result (BallPivoting D) :=
  let triangle := length (triangle_heap bp) in
  let bp := with_triangle_heap bp
              (triangle_heap bp ++ [BallPivotingTriangle_new v0 v1 v2 center]) in
  let* bp := link_side bp v0 v1 triangle in
  let* bp := link_side bp v1 v2 triangle in
  let* bp := link_side bp v2 v0 triangle in
  let bp := update_type bp v0 in
  let bp := update_type bp v1 in
  let bp := update_type bp v2 in
  let p0 := vertex_at (vertices bp) v0 in
  let p1 := vertex_at (vertices bp) v1 in
  let p2 := vertex_at (vertices bp) v2 in
  let face_normal := ComputeFaceNormal (point_ p0) (point_ p1) (point_ p2) in
  let tri :=
    if dot face_normal (normal_ p0) >? - deps16 then (v0, v1, v2)
    else (v0, v2, v1) in
  Ok (with_mesh bp (mesh_triangles_ bp ++ [tri])
                   (mesh_triangle_normals_ bp ++ [face_normal])).

(** *** BallPivoting::FindCandidateVertex *)

(* the inner loop: is the ball around [new_center] empty? *)
Fixpoint empty_ball_loop (vs : list (BallPivotingVertex D)) (src tgt candidate : VertexPtr)
    (new_center : Vector3d D) (radius : D) (indices : list nat) : bool :=
  match indices with
  | [] => true
  | nbidx2 :: rest =>
      if (nbidx2 =? src) || (nbidx2 =? tgt) || (nbidx2 =? candidate)
      then empty_ball_loop vs src tgt candidate new_center radius rest
      else if norm (vsub new_center (point_ (vertex_at vs nbidx2)))
                <? radius - deps16
      then false
      else empty_ball_loop vs src tgt candidate new_center radius rest
  end.

(* the loop state: min_candidate, min_angle, candidate_center *)
Definition candidate_state : Type := option VertexPtr * D * option (Vector3d D).

Definition FindCandidateVertex_body (vs : list (BallPivotingVertex D))
    (src tgt opp : VertexPtr) (mp a v : Vector3d D) (radius : D)
    (indices : list nat) (st : candidate_state) (nbidx : nat)
  : candidate_state :=
  let '(min_candidate, min_angle, candidate_center) := st in
  let candidate := nbidx in
  if (candidate =? src) || (candidate =? tgt) || (candidate =? opp) then st
  else
    let coplanar :=
      PointsCoplanar (point_ (vertex_at vs src)) (point_ (vertex_at vs tgt))
                     (point_ (vertex_at vs opp))
                     (point_ (vertex_at vs candidate)) in
    if coplanar &&
       ((LineSegmentsMinimumDistance mp (point_ (vertex_at vs candidate))
           (point_ (vertex_at vs src)) (point_ (vertex_at vs opp)) <? deps12)
        || (LineSegmentsMinimumDistance mp (point_ (vertex_at vs candidate))
              (point_ (vertex_at vs tgt)) (point_ (vertex_at vs opp)) <? deps12))
    then st
    else
      match ComputeBallCenter vs src tgt candidate radius with
      | None => st
      | Some new_center =>
          let b := vsub new_center mp in
          let b := vdivs b (norm b) in
          let cosinus := dot a b in
          (* std::min(cosinus, 1.0); std::max(cosinus, -1.0) *)
          let cosinus := if d1 <? cosinus then d1 else cosinus in
          let cosinus := if cosinus <? - d1 then - d1 else cosinus in
          let angle := acos cosinus in
          let c := cross a b in
          let angle := if dot c v <? d0 then d2 * dpi - angle else angle in
          if angle >=? min_angle then st
          else if empty_ball_loop vs src tgt candidate new_center radius indices
          then (Some nbidx, angle, Some new_center)
          else st
      end.

Definition FindCandidateVertex (bp : BallPivoting D) (edge : EdgePtr)
    (radius : D) : result (option (VertexPtr * Vector3d D)) :=
  let vs := vertices bp in
  let E := edge_at (edge_heap bp) edge in
  let src := source_ E in
  let tgt := target_ E in
  match GetOppositeVertex (triangle_heap bp) E with
  | None => Err OppositeVertexNull
  | Some opp =>
      let mp := vscale dhalf (vadd (point_ (vertex_at vs src))
                                   (point_ (vertex_at vs tgt))) in
      match triangle0_ E with
      | None => Err NullPointer
      | Some triangle =>
          let center := ball_center_ (triangle_at (triangle_heap bp) triangle) in
          let v := vsub (point_ (vertex_at vs tgt)) (point_ (vertex_at vs src)) in
          let v := vdivs v (norm v) in
          let a := vsub center mp in
          let a := vdivs a (norm a) in
          let indices := SearchRadius mp (d2 * radius) in
          let '(min_candidate, _, candidate_center) :=
            fold_left
              (FindCandidateVertex_body vs src tgt opp mp a v radius indices)
              indices (None, d2 * dpi, None) in
          match min_candidate, candidate_center with
          | Some c, Some ctr => Ok (Some (c, ctr))
          | _, _ => Ok None
          end
      end
  end.

(** *** BallPivoting::ExpandTriangulation *)

Definition is_front (bp : BallPivoting D) (e : EdgePtr) : bool :=
  bool_decide (type_ (edge_at (edge_heap bp) e) = Edge.Front).

Definition mark_border (bp : BallPivoting D) (edge : EdgePtr) : BallPivoting D :=
  let bp := with_edge_heap bp
    (<[edge := set_type (edge_at (edge_heap bp) edge) Edge.Border]> (edge_heap bp)) in
  with_border_edges bp (border_edges_ bp ++ [edge]).

(* [if (e->type_ == Front) edge_front_.push_front(e)] on a pointer that the
   source does not test for null *)
Definition push_front_if_front (bp : BallPivoting D) (e : option EdgePtr)
  : result (BallPivoting D) :=
  match e with
  | None => Err NullPointer
  | Some e =>
      if is_front bp e then Ok (with_edge_front bp (e :: edge_front_ bp))
      else Ok bp
  end.

(* an existing linking edge that is not Front *)
Definition not_front (bp : BallPivoting D) (e : option EdgePtr) : bool :=
  match e with
  | Some e => negb (is_front bp e)
  | None => false
  end.

(** One turn of the [while] loop, on the state from which [edge] has
    already been popped. *)
Definition ExpandTriangulation_body (bp : BallPivoting D) (edge : EdgePtr)
    (radius : D) : result (BallPivoting D) :=
  if negb (is_front bp edge) then Ok bp
  else
    let* found := FindCandidateVertex bp edge radius in
    let E := edge_at (edge_heap bp) edge in
    match found with
    | None => Ok (mark_border bp edge)
    | Some (candidate, center) =>
        if bool_decide (vtype_ (vertex_at (vertices bp) candidate) = Vertex.Inner)
           || negb (IsCompatible (vertex_at (vertices bp) candidate)
                                 (vertex_at (vertices bp) (source_ E))
                                 (vertex_at (vertices bp) (target_ E)))
        then Ok (mark_border bp edge)
        else
          let e0 := GetLinkingEdge bp candidate (source_ E) in
          let e1 := GetLinkingEdge bp candidate (target_ E) in
          if not_front bp e0 || not_front bp e1
          then Ok (mark_border bp edge)
          else
            let* bp := CreateTriangle bp (source_ E) (target_ E) candidate center in
            let E := edge_at (edge_heap bp) edge in
            let e0 := GetLinkingEdge bp candidate (source_ E) in
            let e1 := GetLinkingEdge bp candidate (target_ E) in
            let* bp := push_front_if_front bp e0 in
            push_front_if_front bp e1
    end.

Fixpoint ExpandTriangulation (fuel : nat) (bp : BallPivoting D) (radius : D)
  : result (BallPivoting D) :=
  match edge_front_ bp with
  | [] => Ok bp
  | edge :: rest =>
      match fuel with
      | O => Err OutOfFuel
      | S fuel' =>
          let* bp := ExpandTriangulation_body (with_edge_front bp rest) edge radius in
          ExpandTriangulation fuel' bp radius
      end
  end.

(** *** BallPivoting::TryTriangleSeed

    [Some center] when the source returns [true]. *)
Fixpoint seed_ball_loop (vs : list (BallPivotingVertex D)) (v0 v1 v2 : VertexPtr)
    (center : Vector3d D) (radius : D) (nb_indices : list nat) : bool :=
  match nb_indices with
  | [] => true
  | nbidx :: rest =>
      if (nbidx =? v0) || (nbidx =? v1) || (nbidx =? v2)
      then seed_ball_loop vs v0 v1 v2 center radius rest
      else if norm (vsub center (point_ (vertex_at vs nbidx))) <? radius - deps16
      then false
      else seed_ball_loop vs v0 v1 v2 center radius rest
  end.

Definition is_inner (bp : BallPivoting D) (e : option EdgePtr) : bool :=
  match e with
  | Some e => bool_decide (type_ (edge_at (edge_heap bp) e) = Edge.Inner)
  | None => false
  end.

Definition TryTriangleSeed (bp : BallPivoting D) (v0 v1 v2 : VertexPtr)
    (nb_indices : list nat) (radius : D) : option (Vector3d D) :=
  let vs := vertices bp in
  if negb (IsCompatible (vertex_at vs v0) (vertex_at vs v1) (vertex_at vs v2))
  then None
  else
    let e0 := GetLinkingEdge bp v0 v2 in
    let e1 := GetLinkingEdge bp v1 v2 in
    if is_inner bp e0 then None
    else if is_inner bp e1 then None
    else
      match ComputeBallCenter vs v0 v1 v2 radius with
      | None => None
      | Some center =>
          if seed_ball_loop vs v0 v1 v2 center radius nb_indices
          then Some center
          else None
      end.

(** *** BallPivoting::TrySeed *)

Definition is_orphan (bp : BallPivoting D) (v : VertexPtr) : bool :=
  bool_decide (vtype_ (vertex_at (vertices bp) v) = Vertex.Orphan).

(* the loop over [nbidx1]: the first [nb1] that passes, with its center *)
Fixpoint TrySeed_inner (bp : BallPivoting D) (v nb0 : VertexPtr)
    (indices : list nat) (radius : D) (rest1 : list nat)
  : option (VertexPtr * Vector3d D) :=
  match rest1 with
  | [] => None
  | nb1 :: rest1' =>
      if negb (is_orphan bp nb1)
      then TrySeed_inner bp v nb0 indices radius rest1'
      else if nb1 =? v
      then TrySeed_inner bp v nb0 indices radius rest1'
      else
        match TryTriangleSeed bp v nb0 nb1 indices radius with
        | Some center => Some (nb1, center)
        | None => TrySeed_inner bp v nb0 indices radius rest1'
        end
  end.

(* the loop over [nbidx0]; [rest0] is [indices] from position [nbidx0] on *)
Fixpoint TrySeed_loop (bp : BallPivoting D) (v : VertexPtr)
    (indices : list nat) (radius : D) (rest0 : list nat)
  : result (bool * BallPivoting D) :=
  match rest0 with
  | [] => Ok (false, bp)
  | nb0 :: rest0' =>
      if negb (is_orphan bp nb0) then TrySeed_loop bp v indices radius rest0'
      else if nb0 =? v then TrySeed_loop bp v indices radius rest0'
      else
        match TrySeed_inner bp v nb0 indices radius rest0' with
        | None => TrySeed_loop bp v indices radius rest0'
        | Some (nb1, center) =>
            let e0 := GetLinkingEdge bp v nb1 in
            let e1 := GetLinkingEdge bp nb0 nb1 in
            let e2 := GetLinkingEdge bp v nb0 in
            if not_front bp e0 then TrySeed_loop bp v indices radius rest0'
            else if not_front bp e1 then TrySeed_loop bp v indices radius rest0'
            else if not_front bp e2 then TrySeed_loop bp v indices radius rest0'
            else
              let* bp := CreateTriangle bp v nb0 nb1 center in
              let e0 := GetLinkingEdge bp v nb1 in
              let e1 := GetLinkingEdge bp nb0 nb1 in
              let e2 := GetLinkingEdge bp v nb0 in
              let* bp := push_front_if_front bp e0 in
              let* bp := push_front_if_front bp e1 in
              let* bp := push_front_if_front bp e2 in
              if 0 <? length (edge_front_ bp) then Ok (true, bp)
              else TrySeed_loop bp v indices radius rest0'
        end
  end%nat.

Definition TrySeed (bp : BallPivoting D) (v : VertexPtr) (radius : D)
  : result (bool * BallPivoting D) :=
  let indices :=
    SearchRadius (point_ (vertex_at (vertices bp) v)) (d2 * radius) in
  if (length indices <? 3)%nat then Ok (false, bp)
  else TrySeed_loop bp v indices radius indices.

(** *** BallPivoting::FindSeedTriangle *)
Fixpoint FindSeedTriangle_loop (fuel : nat) (bp : BallPivoting D) (radius : D)
    (vidxs : list nat) : result (BallPivoting D) :=
  match vidxs with
  | [] => Ok bp
  | vidx :: rest =>
      if is_orphan bp vidx then
        let* (seeded, bp) := TrySeed bp vidx radius in
        if (seeded : bool) then
          let* bp := ExpandTriangulation fuel bp radius in
          FindSeedTriangle_loop fuel bp radius rest
        else FindSeedTriangle_loop fuel bp radius rest
      else FindSeedTriangle_loop fuel bp radius rest
  end.

Definition FindSeedTriangle (fuel : nat) (bp : BallPivoting D) (radius : D)
  : result (BallPivoting D) :=
  FindSeedTriangle_loop fuel bp radius (seq 0 (length (vertices bp))).

(** *** BallPivoting::Run *)

(* the ball of the border revisit is empty when the search returns no
   index other than the triangle's own *)
Fixpoint Run_empty_ball (v0 v1 v2 : VertexPtr) (indices : list nat) : bool :=
  match indices with
  | [] => true
  | idx :: rest =>
      if negb (idx =? v0) && negb (idx =? v1) && negb (idx =? v2) then false
      else Run_empty_ball v0 v1 v2 rest
  end.

Definition border_edge_ready (bp : BallPivoting D) (triangle : TrianglePtr)
    (radius : D) : bool :=
  let T := triangle_at (triangle_heap bp) triangle in
  match ComputeBallCenter (vertices bp) (vert0_ T) (vert1_ T) (vert2_ T) radius with
  | Some center =>
      Run_empty_ball (vert0_ T) (vert1_ T) (vert2_ T) (SearchRadius center radius)
  | None => false
  end.

(* the loop over [border_edges_]: [it] is the part of the list not yet
   visited; the result carries the entries that were not erased *)
Fixpoint Run_border_loop (bp : BallPivoting D) (radius : D) (it : list EdgePtr)
  : result (BallPivoting D * list EdgePtr) :=
  match it with
  | [] => Ok (bp, [])
  | edge :: it' =>
      match triangle0_ (edge_at (edge_heap bp) edge) with
      | None => Err NullPointer
      | Some triangle =>
          if border_edge_ready bp triangle radius then
            let bp := with_edge_heap bp
              (<[edge := set_type (edge_at (edge_heap bp) edge) Edge.Front]>
                 (edge_heap bp)) in
            let bp := with_edge_front bp (edge_front_ bp ++ [edge]) in
            Run_border_loop bp radius it'
          else
            let* (bp, kept) := Run_border_loop bp radius it' in
            Ok (bp, edge :: kept)
      end
  end.

Definition update_border_edges (bp : BallPivoting D) (radius : D)
  : result (BallPivoting D) :=
  let* (bp, kept) := Run_border_loop bp radius (border_edges_ bp) in
  Ok (with_border_edges bp kept).

Definition Run_radius (fuel : nat) (bp : BallPivoting D) (radius : D)
  : result (BallPivoting D) :=
  if radius <=? d0 then Err InvalidRadius
  else
    let* bp := update_border_edges bp radius in
    match edge_front_ bp with
    | [] => FindSeedTriangle fuel bp radius
    | _ => ExpandTriangulation fuel bp radius
    end.

Fixpoint Run_loop (fuel : nat) (bp : BallPivoting D) (radii : list D)
  : result (BallPivoting D) :=
  match radii with
  | [] => Ok bp
  | radius :: rest =>
      let* bp := Run_radius fuel bp radius in
      Run_loop fuel bp rest
  end.

Definition Run (fuel : nat) (bp : BallPivoting D) (radii : list D)
  : result (BallPivoting D) :=
  if negb (has_normals_ bp) then Err MissingNormals
  else Run_loop fuel (with_mesh bp [] (mesh_triangle_normals_ bp)) radii.

(** *** The constructor and the entry point

    [PointCloud] is a collaborator: its points, its normals, and its answer
    to [HasNormals()]. *)
Record PointCloud := mkPointCloud {
  points_ : list (Vector3d D);
  normals_ : list (Vector3d D);
  HasNormals : bool
}.

Definition BallPivoting_new (pcd : PointCloud) : BallPivoting D :=
  mkBP (HasNormals pcd)
       (imap (fun vidx p =>
                BallPivotingVertex_new vidx p
                  (default vzero (normals_ pcd !! vidx)))
             (points_ pcd))
       [] [] [] [] [] [].

(* TriangleMesh::CreateFromPointCloudBallPivoting; the mesh returned is
   the [mesh_triangles_] and [mesh_triangle_normals_] of the final state *)
Definition CreateFromPointCloudBallPivoting (fuel : nat) (pcd : PointCloud)
    (radii : list D) : result (BallPivoting D) :=
  Run fuel (BallPivoting_new pcd) radii.

End Engine.

Arguments candidate_state D : clear implicits.
Arguments PointCloud D : clear implicits.

(** * Part II: the vocabulary of the specification and of the proofs *)

Section SpecDefs.
Context {D : Type} {AR : Arith D}.
Local Open Scope D_scope.

(** IsCompatible as the specification words it: the face normal is turned
    so that its dot with [v0]'s normal is not negative, and the three dots
    are then compared with [>=]. *)
Definition IsCompatible_claimed (v0 v1 v2 : BallPivotingVertex D) : bool :=
  let normal := ComputeFaceNormal (point_ v0) (point_ v1) (point_ v2) in
  let normal :=
    if dot normal (normal_ v0) <? d0 then vmuls normal (- d1) else normal in
  (dot normal (normal_ v0) >=? - deps16) &&
  (dot normal (normal_ v1) >=? - deps16) &&
  (dot normal (normal_ v2) >=? - deps16).

(** The rejection test of ExpandTriangulation, in the words of the
    specification. *)
Definition candidate_rejected (bp : BallPivoting D) (edge : nat)
    (found : option (nat * Vector3d D)) : bool :=
  let E := edge_at (edge_heap bp) edge in
  match found with
  | None => true
  | Some (candidate, _) =>
      bool_decide (vtype_ (vertex_at (vertices bp) candidate) = Vertex.Inner)
      || negb (IsCompatible (vertex_at (vertices bp) candidate)
                            (vertex_at (vertices bp) (source_ E))
                            (vertex_at (vertices bp) (target_ E)))
      || not_front bp (GetLinkingEdge bp candidate (source_ E))
      || not_front bp (GetLinkingEdge bp candidate (target_ E))
  end.

(** Two emitted triangles name the same unordered triple of indices. *)
Definition same_triple (m m' : nat * nat * nat) : Prop :=
  [m.1.1; m.1.2; m.2] ≡ₚ [m'.1.1; m'.1.2; m'.2].

End SpecDefs.

(** ** The ball center over the real numbers *)

Section BallCenterDefs.
Local Open Scope R_scope.
Implicit Types u v w : Vector3d R.

(** The quantities the specification names: the squared side lengths
    [a], [b], [c], the barycentric weights and their sum [S], the weighted
    circumcenter [P], the squared circumradius and [h2]. *)
Definition bc_a (v1 v2 v3 : Vector3d R) : R := squaredNorm (vsub v3 v2).

Definition bc_b (v1 v2 v3 : Vector3d R) : R := squaredNorm (vsub v1 v3).

Definition bc_c (v1 v2 v3 : Vector3d R) : R := squaredNorm (vsub v2 v1).

Definition bc_alpha v1 v2 v3 :=
  let a := bc_a v1 v2 v3 in let b := bc_b v1 v2 v3 in let c := bc_c v1 v2 v3 in
  a * (b + c - a).

Definition bc_beta v1 v2 v3 :=
  let a := bc_a v1 v2 v3 in let b := bc_b v1 v2 v3 in let c := bc_c v1 v2 v3 in
  b * (a + c - b).

Definition bc_gamma v1 v2 v3 :=
  let a := bc_a v1 v2 v3 in let b := bc_b v1 v2 v3 in let c := bc_c v1 v2 v3 in
  c * (a + b - c).

Definition bc_S v1 v2 v3 := bc_alpha v1 v2 v3 + bc_beta v1 v2 v3 + bc_gamma v1 v2 v3.

Definition bc_P v1 v2 v3 : Vector3d R :=
  let S := bc_S v1 v2 v3 in
  vadd (vadd (vscale (bc_alpha v1 v2 v3 / S) v1) (vscale (bc_beta v1 v2 v3 / S) v2))
       (vscale (bc_gamma v1 v2 v3 / S) v3).

Definition bc_circumradius2 v1 v2 v3 : R :=
  let a := bc_a v1 v2 v3 in let b := bc_b v1 v2 v3 in let c := bc_c v1 v2 v3 in
  (a * b * c) /
  ((sqrt a + sqrt b + sqrt c) * (- sqrt a + sqrt b + sqrt c)
   * (sqrt a - sqrt b + sqrt c) * (sqrt a + sqrt b - sqrt c)).

Definition bc_h2 v1 v2 v3 (r : R) := r * r - bc_circumradius2 v1 v2 v3.

(** The unit normal of the triangle, and the same turned towards [s], the
    sum of the three vertex normals. *)
Definition unit_normal v1 v2 v3 : Vector3d R :=
  let n := cross (vsub v2 v1) (vsub v3 v1) in vdivs n (norm n).

Definition oriented_normal (v1 v2 v3 s : Vector3d R) : Vector3d R :=
  let u := unit_normal v1 v2 v3 in
  if Rltb (dot u (vdivs s (norm s))) 0 then vmuls u (-1) else u.

End BallCenterDefs.

(** ** Well-formed states of the engine *)

Section InvariantDefs.
Context {D : Type} {AR : Arith D}.
Implicit Types (bp : BallPivoting D) (E : BallPivotingEdge)
  (T : BallPivotingTriangle D) (V : BallPivotingVertex D)
  (vs : list (BallPivotingVertex D)) (es : list BallPivotingEdge)
  (ts : list (BallPivotingTriangle D)).

Definition ends_are E (a b : VertexPtr) : Prop :=
  (source_ E = a ∧ target_ E = b) ∨ (source_ E = b ∧ target_ E = a).

Definition incident E (v : VertexPtr) : Prop := source_ E = v ∨ target_ E = v.

Definition tri_has T (v : VertexPtr) : Prop :=
  vert0_ T = v ∨ vert1_ T = v ∨ vert2_ T = v.

Definition tri_distinct T : Prop :=
  vert0_ T ≠ vert1_ T ∧ vert1_ T ≠ vert2_ T ∧ vert2_ T ≠ vert0_ T.

Definition lists E (t : TrianglePtr) : Prop :=
  triangle0_ E = Some t ∨ triangle1_ E = Some t.

Definition side_linked es (t : TrianglePtr) (a b : VertexPtr) : Prop :=
  ∃ e E, es !! e = Some E ∧ ends_are E a b ∧ lists E t.

Definition emitted (m : nat * nat * nat) T : Prop :=
  m = (vert0_ T, vert1_ T, vert2_ T) ∨ m = (vert0_ T, vert2_ T, vert1_ T).

Record core_ok bp : Prop := {
  ok_ends : ∀ e E, edge_heap bp !! e = Some E →
    source_ E < length (vertices bp) ∧ target_ E < length (vertices bp)
    ∧ source_ E ≠ target_ E;
  ok_inc : ∀ v V, vertices bp !! v = Some V →
    ∀ e, e ∈ edges_ V ↔ ∃ E, edge_heap bp !! e = Some E ∧ incident E v;
  ok_uniq : ∀ e e' E E', edge_heap bp !! e = Some E →
    edge_heap bp !! e' = Some E' →
    ends_are E' (source_ E) (target_ E) → e = e';
  ok_slot0 : ∀ e E, edge_heap bp !! e = Some E →
    ∃ t T, triangle0_ E = Some t ∧ triangle_heap bp !! t = Some T
           ∧ tri_has T (source_ E) ∧ tri_has T (target_ E);
  ok_type : ∀ e E, edge_heap bp !! e = Some E →
    (type_ E = Edge.Inner ↔ triangle1_ E ≠ None);
  ok_border_nodup : NoDup (border_edges_ bp);
  ok_border : ∀ e, e ∈ border_edges_ bp ↔
    ∃ E, edge_heap bp !! e = Some E ∧ type_ E = Edge.Border;
  ok_front : ∀ e, e ∈ edge_front_ bp → e < length (edge_heap bp)
}.

Record tri_ok bp : Prop := {
  ok_tri : ∀ t T, triangle_heap bp !! t = Some T →
    tri_distinct T
    ∧ (∀ v, tri_has T v → v < length (vertices bp))
    ∧ side_linked (edge_heap bp) t (vert0_ T) (vert1_ T)
    ∧ side_linked (edge_heap bp) t (vert1_ T) (vert2_ T)
    ∧ side_linked (edge_heap bp) t (vert2_ T) (vert0_ T);
  ok_tri_uniq : ∀ t t' T T', triangle_heap bp !! t = Some T →
    triangle_heap bp !! t' = Some T' →
    (∀ v, tri_has T v ↔ tri_has T' v) → t = t';
  ok_mesh : Forall2 emitted (mesh_triangles_ bp) (triangle_heap bp);
  ok_orphan : ∀ v V, vertices bp !! v = Some V →
    (vtype_ V = Vertex.Orphan ↔ edges_ V = [])
}.

Definition Inv bp : Prop := core_ok bp ∧ tri_ok bp.

(** The two effects of [link_side] *)
Definition fill_second E (t : TrianglePtr) : BallPivotingEdge :=
  mkEdge (source_ E) (target_ E) (triangle0_ E) (Some t) Edge.Inner.

Definition add_edge bp (va vb : VertexPtr) E' : BallPivoting D :=
  with_vertices (with_edge_heap bp (edge_heap bp ++ [E']))
    (insert_edge (insert_edge (vertices bp) va (length (edge_heap bp)))
                 vb (length (edge_heap bp))).

(** Transfer of the topological fields along a heap that keeps, edge by
    edge, the ends and the first slot. *)
Definition same_shape E E' : Prop :=
  source_ E' = source_ E ∧ target_ E' = target_ E ∧ triangle0_ E' = triangle0_ E.

(** What one [link_side] does to the state *)
Definition fresh_edge (t : TrianglePtr) E : Prop :=
  triangle0_ E = Some t ∧ triangle1_ E = None ∧ type_ E = Edge.Front.

Definition same_lists bp bp' : Prop :=
  edge_front_ bp' = edge_front_ bp
  ∧ border_edges_ bp' = border_edges_ bp
  ∧ mesh_triangles_ bp' = mesh_triangles_ bp
  ∧ mesh_triangle_normals_ bp' = mesh_triangle_normals_ bp
  ∧ has_normals_ bp' = has_normals_ bp.

Definition same_vertex V V' : Prop :=
  idx_ V' = idx_ V ∧ point_ V' = point_ V ∧ normal_ V' = normal_ V
  ∧ vtype_ V' = vtype_ V.

Record link_post bp (va vb : VertexPtr) (t : TrianglePtr) bp' : Prop := {
  lp_ts : triangle_heap bp' = triangle_heap bp;
  lp_lists : same_lists bp bp';
  lp_len : length (vertices bp') = length (vertices bp);
  lp_vtx : ∀ v V, vertices bp !! v = Some V →
    ∃ V', vertices bp' !! v = Some V' ∧ same_vertex V V'
          ∧ (v ≠ va → v ≠ vb → V' = V);
  lp_other : ∀ e E, edge_heap bp !! e = Some E → ¬ ends_are E va vb →
    edge_heap bp' !! e = Some E;
  lp_filled : ∀ e E, edge_heap bp !! e = Some E → ends_are E va vb →
    edge_heap bp' !! e = Some (fill_second E t);
  lp_new : ∀ e E', edge_heap bp !! e = None → edge_heap bp' !! e = Some E' →
    ends_are E' va vb ∧ fresh_edge t E';
  lp_linked : side_linked (edge_heap bp') t va vb
}.

(** The accumulated effect of several [link_side]s for one triangle [t]:
    [P] tells the sides already linked, [Q] the vertices they touch. *)
Record links_post bp (P : BallPivotingEdge → Prop) (Q : VertexPtr → Prop)
    (t : TrianglePtr) bp' : Prop := {
  ls_ts : triangle_heap bp' = triangle_heap bp;
  ls_lists : same_lists bp bp';
  ls_len : length (vertices bp') = length (vertices bp);
  ls_vtx : ∀ v V, vertices bp !! v = Some V →
    ∃ V', vertices bp' !! v = Some V' ∧ same_vertex V V' ∧ (¬ Q v → V' = V);
  ls_other : ∀ e E, edge_heap bp !! e = Some E → ¬ P E →
    edge_heap bp' !! e = Some E;
  ls_filled : ∀ e E, edge_heap bp !! e = Some E → P E →
    edge_heap bp' !! e = Some (fill_second E t);
  ls_new : ∀ e E', edge_heap bp !! e = None → edge_heap bp' !! e = Some E' →
    P E' ∧ fresh_edge t E'
}.

Definition on_side (v0 v1 v2 : VertexPtr) E : Prop :=
  ends_are E v0 v1 ∨ ends_are E v1 v2 ∨ ends_are E v2 v0.

Definition orphan_iff V : Prop := vtype_ V = Vertex.Orphan ↔ edges_ V = [].

Record create_post bp (v0 v1 v2 : VertexPtr) (c : Vector3d D) bp' : Prop := {
  cp_ts : triangle_heap bp' = triangle_heap bp ++ [mkTriangle v0 v1 v2 c];
  cp_front : edge_front_ bp' = edge_front_ bp;
  cp_border : border_edges_ bp' = border_edges_ bp;
  cp_normals : has_normals_ bp' = has_normals_ bp;
  cp_mesh : ∃ m, mesh_triangles_ bp' = mesh_triangles_ bp ++ [m]
                 ∧ emitted m (mkTriangle v0 v1 v2 c);
  cp_len : length (vertices bp') = length (vertices bp);
  cp_vtx : ∀ v V, vertices bp !! v = Some V →
    ∃ V', vertices bp' !! v = Some V'
          ∧ idx_ V' = idx_ V ∧ point_ V' = point_ V ∧ normal_ V' = normal_ V
          ∧ (v ≠ v0 → v ≠ v1 → v ≠ v2 → V' = V)
          ∧ (v = v0 ∨ v = v1 ∨ v = v2 → orphan_iff V');
  cp_other : ∀ e E, edge_heap bp !! e = Some E → ¬ on_side v0 v1 v2 E →
    edge_heap bp' !! e = Some E;
  cp_filled : ∀ e E, edge_heap bp !! e = Some E → on_side v0 v1 v2 E →
    edge_heap bp' !! e = Some (fill_second E (length (triangle_heap bp)));
  cp_new : ∀ e E', edge_heap bp !! e = None → edge_heap bp' !! e = Some E' →
    on_side v0 v1 v2 E' ∧ fresh_edge (length (triangle_heap bp)) E';
  cp_linked :
    side_linked (edge_heap bp') (length (triangle_heap bp)) v0 v1
    ∧ side_linked (edge_heap bp') (length (triangle_heap bp)) v1 v2
    ∧ side_linked (edge_heap bp') (length (triangle_heap bp)) v2 v0
}.

Definition good_candidate (src tgt opp : nat) (seen : list nat)
    (st : candidate_state D) : Prop :=
  match st with
  | (Some c, _, ctr) => c ∈ seen ∧ c ≠ src ∧ c ≠ tgt ∧ c ≠ opp ∧ is_Some ctr
  | (None, _, _) => True
  end.

Definition inner_ids es : list nat :=
  filter (λ e, type_ (edge_at es e) = Edge.Inner) (seq 0 (length es)).

Definition potential bp : nat :=
  2 * (length (vertices bp) * length (vertices bp)
       - length (inner_ids (edge_heap bp)))
  + length (edge_front_ bp).

(** The triangle invariants only read the ends and the slots of edges. *)
Definition same_slots E E' : Prop :=
  source_ E' = source_ E ∧ target_ E' = target_ E
  ∧ triangle0_ E' = triangle0_ E ∧ triangle1_ E' = triangle1_ E.

(** What one turn of the expansion loop gives on a well-formed state *)
Record turn_post bp (edge : nat) bp' : Prop := {
  tp_inv : Inv bp';
  tp_len : length (vertices bp') = length (vertices bp);
  tp_normals : has_normals_ bp' = has_normals_ bp;
  tp_potential : potential bp' ≤ potential bp;
  tp_heap : length (edge_heap bp) ≤ length (edge_heap bp');
  tp_inner : ∀ e E, edge_heap bp !! e = Some E → type_ E = Edge.Inner →
    edge_heap bp' !! e = Some E;
  tp_front : ∃ pushed, edge_front_ bp' = pushed ++ edge_front_ bp
                       ∧ length pushed ≤ 2;
  tp_created :
    triangle_heap bp' = triangle_heap bp
    ∨ ∃ E', edge_heap bp' !! edge = Some E' ∧ type_ E' = Edge.Inner
            ∧ triangle1_ E' = Some (length (triangle_heap bp))
            ∧ length (triangle_heap bp') = S (length (triangle_heap bp))
}.

(** A seed was committed: the triangle [(v, nb0, nb1)] is created on three
    fresh edges, which are pushed at the front of the queue, [e0] first. *)
Record seeded bp (v : nat) bp' : Prop := {
  sd_inv : Inv bp';
  sd_len : length (vertices bp') = length (vertices bp);
  sd_normals : has_normals_ bp' = has_normals_ bp;
  sd_inner : ∀ e E, edge_heap bp !! e = Some E → edge_heap bp' !! e = Some E;
  sd_front : ∃ nb0 nb1 ctr bp1 e0 e1 e2,
    CreateTriangle bp v nb0 nb1 ctr = Ok bp1
    ∧ GetLinkingEdge bp1 v nb1 = Some e0
    ∧ GetLinkingEdge bp1 nb0 nb1 = Some e1
    ∧ GetLinkingEdge bp1 v nb0 = Some e2
    ∧ bp' = with_edge_front bp1 (e2 :: e1 :: e0 :: edge_front_ bp)
}.

End InvariantDefs.

(** ** The states the engine passes through *)

Section EngineDefs.
Context {D : Type} {AR : Arith D}.
Variable SearchRadius : Vector3d D → D → list nat.
Variable PointsCoplanar :
  Vector3d D → Vector3d D → Vector3d D → Vector3d D → bool.
Variable LineSegmentsMinimumDistance :
  Vector3d D → Vector3d D → Vector3d D → Vector3d D → D.
Variable acos : D → D.

Implicit Types (bp : BallPivoting D) (E : BallPivotingEdge)
  (T : BallPivotingTriangle D) (V : BallPivotingVertex D)
  (vs : list (BallPivotingVertex D)) (es : list BallPivotingEdge)
  (ts : list (BallPivotingTriangle D)).

Local Abbreviation FindCandidateVertex' :=
  (FindCandidateVertex SearchRadius PointsCoplanar LineSegmentsMinimumDistance acos).
Local Abbreviation ExpandTriangulation_body' :=
  (ExpandTriangulation_body SearchRadius PointsCoplanar
     LineSegmentsMinimumDistance acos).
Local Abbreviation ExpandTriangulation' :=
  (ExpandTriangulation SearchRadius PointsCoplanar
     LineSegmentsMinimumDistance acos).
Local Abbreviation TrySeed' := (TrySeed SearchRadius).

(** The border revisit *)
Definition ready bp (radius : D) (e : nat) : bool :=
  match triangle0_ (edge_at (edge_heap bp) e) with
  | Some t => border_edge_ready SearchRadius bp t radius
  | None => false
  end.

Definition refront bp (radius : D) (it : list nat) (e : nat) E : BallPivotingEdge :=
  if decide (e ∈ it ∧ ready bp radius e = true) then set_type E Edge.Front else E.

Record revisit_post bp (radius : D) (it : list nat) bp' (kept : list nat) : Prop := {
  rp_kept : kept = filter (λ e, ready bp radius e = false) it;
  rp_front : edge_front_ bp' =
             edge_front_ bp ++ filter (λ e, ready bp radius e = true) it;
  rp_vertices : vertices bp' = vertices bp;
  rp_ts : triangle_heap bp' = triangle_heap bp;
  rp_border : border_edges_ bp' = border_edges_ bp;
  rp_mesh : mesh_triangles_ bp' = mesh_triangles_ bp;
  rp_meshn : mesh_triangle_normals_ bp' = mesh_triangle_normals_ bp;
  rp_normals : has_normals_ bp' = has_normals_ bp;
  rp_len : length (edge_heap bp') = length (edge_heap bp);
  rp_heap : ∀ e E, edge_heap bp !! e = Some E →
    edge_heap bp' !! e = Some (refront bp radius it e E)
}.

(** States the engine passes through, between operations, from [bp0] on *)
Inductive evolves (bp0 : BallPivoting D) : BallPivoting D → Prop :=
| ev_refl : evolves bp0 bp0
| ev_turn bp edge rest radius bp' :
    evolves bp0 bp → edge_front_ bp = edge :: rest →
    ExpandTriangulation_body' (with_edge_front bp rest) edge radius = Ok bp' →
    evolves bp0 bp'
| ev_seed bp v radius b bp' :
    evolves bp0 bp → v < length (vertices bp) →
    TrySeed' bp v radius = Ok (b, bp') →
    evolves bp0 bp'
| ev_border bp radius bp' :
    evolves bp0 bp →
    update_border_edges SearchRadius bp radius = Ok bp' →
    evolves bp0 bp'.

Definition reachable (pcd : PointCloud D) (bp : BallPivoting D) : Prop :=
  evolves (BallPivoting_new pcd) bp.

(** The ball of radius [radius] on the triangle [T] exists and holds no
    vertex but those of [T]. *)
Definition revisit_ball_empty (bp : BallPivoting D) (T : BallPivotingTriangle D)
    (radius : D) : Prop :=
  ∃ center,
    ComputeBallCenter (vertices bp) (vert0_ T) (vert1_ T) (vert2_ T) radius
      = Some center
    ∧ ∀ i, i ∈ SearchRadius center radius →
        i = vert0_ T ∨ i = vert1_ T ∨ i = vert2_ T.

End EngineDefs.

(** ** The vocabulary of the further properties *)

Section CandidateDefs.
Context {D : Type} {AR : Arith D}.
Local Open Scope D_scope.

(** The candidate kept by the loop of [FindCandidateVertex] comes with the
    ball through the edge and itself, and that ball passed the emptiness
    test. *)
Definition sound_candidate (vs : list (BallPivotingVertex D)) (src tgt : nat)
    (radius : D) (indices : list nat) (st : candidate_state D) : Prop :=
  match st with
  | (Some c, _, Some ctr) =>
      ComputeBallCenter vs src tgt c radius = Some ctr
      ∧ empty_ball_loop vs src tgt c ctr radius indices = true
  | _ => True
  end.
End CandidateDefs.

Section PivotDefs.
Context {D : Type} {AR : Arith D}.
Local Open Scope D_scope.
Variable PointsCoplanar :
  Vector3d D → Vector3d D → Vector3d D → Vector3d D → bool.
Variable LineSegmentsMinimumDistance :
  Vector3d D → Vector3d D → Vector3d D → Vector3d D → D.
Variable acos : D → D.

(** The angle of the loop of [FindCandidateVertex]: how far the ball turns
    around the edge, from the center of the triangle of the edge ([a] is the
    unit vector from the middle [mp] of the edge to that center, [v] the unit
    vector along the edge) to [new_center]. *)
Definition pivot_angle (mp a v new_center : Vector3d D) : D :=
  let b := vsub new_center mp in
  let b := vdivs b (norm b) in
  let cosinus := dot a b in
  let cosinus := if d1 <? cosinus then d1 else cosinus in
  let cosinus := if cosinus <? - d1 then - d1 else cosinus in
  let angle := acos cosinus in
  let c := cross a b in
  if dot c v <? d0 then d2 * dpi - angle else angle.

(** The test of the loop that discards a candidate coplanar with the
    triangle of the edge when the segment from [mp] to it comes within
    [1e-12] of a side of that triangle. *)
Definition crosses_triangle (vs : list (BallPivotingVertex D))
    (src tgt opp : nat) (mp : Vector3d D) (candidate : nat) : bool :=
  PointsCoplanar (point_ (vertex_at vs src)) (point_ (vertex_at vs tgt))
                 (point_ (vertex_at vs opp)) (point_ (vertex_at vs candidate))
  && ((LineSegmentsMinimumDistance mp (point_ (vertex_at vs candidate))
         (point_ (vertex_at vs src)) (point_ (vertex_at vs opp)) <? deps12)
      || (LineSegmentsMinimumDistance mp (point_ (vertex_at vs candidate))
            (point_ (vertex_at vs tgt)) (point_ (vertex_at vs opp)) <? deps12)).

(** A vertex the loop can keep: it passes every test but the one on the
    angle, with [ctr] the center of its ball. *)
Definition admissible (vs : list (BallPivotingVertex D)) (src tgt opp : nat)
    (mp : Vector3d D) (radius : D) (indices : list nat)
    (i : nat) (ctr : Vector3d D) : Prop :=
  i ≠ src ∧ i ≠ tgt ∧ i ≠ opp
  ∧ crosses_triangle vs src tgt opp mp i = false
  ∧ ComputeBallCenter vs src tgt i radius = Some ctr
  ∧ empty_ball_loop vs src tgt i ctr radius indices = true.

End PivotDefs.

Section LeastDefs.
Context {D : Type} {AR : Arith D}.
Local Open Scope D_scope.
Variable PointsCoplanar :
  Vector3d D → Vector3d D → Vector3d D → Vector3d D → bool.
Variable LineSegmentsMinimumDistance :
  Vector3d D → Vector3d D → Vector3d D → Vector3d D → D.
Variable acos : D → D.

(** The values the loop compares: [2 pi], with which it starts, and the
    angles of the admissible vertices of the search. *)
Definition pivot_angles (vs : list (BallPivotingVertex D)) (src tgt opp : nat)
    (mp a v : Vector3d D) (radius : D) (indices : list nat) (x : D) : Prop :=
  x = d2 * dpi
  ∨ ∃ i ctr, i ∈ indices
             ∧ admissible PointsCoplanar LineSegmentsMinimumDistance
                 vs src tgt opp mp radius indices i ctr
             ∧ x = pivot_angle acos mp a v ctr.

(** [<=] of the program compares any two of the values [A] and is
    transitive on them.  This holds of all real numbers, and in binary64 of
    values none of which is a NaN. *)
Definition ordered_on (A : D → Prop) : Prop :=
  (∀ x y, A x → A y → (x <=? y) = true ∨ (y <=? x) = true)
  ∧ (∀ x y z, A x → A y → A z →
              (x <=? y) = true → (y <=? z) = true → (x <=? z) = true).

(** The state of the loop after the indices [l]: the angle kept is the
    least angle of the admissible vertices among them, or [2 pi]. *)
Definition least_so_far (vs : list (BallPivotingVertex D)) (src tgt opp : nat)
    (mp a v : Vector3d D) (radius : D) (indices l : list nat)
    (st : candidate_state D) : Prop :=
  let adm := admissible PointsCoplanar LineSegmentsMinimumDistance
               vs src tgt opp mp radius indices in
  pivot_angles vs src tgt opp mp a v radius indices st.1.2
  ∧ (st.1.2 <=? d2 * dpi) = true
  ∧ (∀ i ctr, i ∈ l → adm i ctr → (st.1.2 <=? pivot_angle acos mp a v ctr) = true)
  ∧ match st.1.1, st.2 with
    | Some c, Some ctr =>
        c ∈ l ∧ adm c ctr ∧ pivot_angle acos mp a v ctr = st.1.2
        ∧ (d2 * dpi <=? st.1.2) = false
    | None, None => st.1.2 = d2 * dpi
    | _, _ => False
    end.
End LeastDefs.

(** ** The steps of the engine

    What one operation of the engine does to a well-formed state: a turn
    of the expansion loop skips the popped edge, marks it Border or creates
    a triangle on it; a seed creates a triangle on two Orphan vertices; the
    border revisit gives some Border edges back to the front. *)

Section StepDefs.
Context {D : Type} {AR : Arith D}.
Variable SearchRadius : Vector3d D → D → list nat.
Variable PointsCoplanar :
  Vector3d D → Vector3d D → Vector3d D → Vector3d D → bool.
Variable LineSegmentsMinimumDistance :
  Vector3d D → Vector3d D → Vector3d D → Vector3d D → D.
Variable acos : D → D.
Implicit Types (bp : BallPivoting D) (E : BallPivotingEdge).

(** [CreateTriangle] was called where it is meant to be. *)
Record created bp (v0 v1 v2 : VertexPtr) (c : Vector3d D) bp1 : Prop := {
  cr_distinct : v0 ≠ v1 ∧ v1 ≠ v2 ∧ v2 ≠ v0;
  cr_range : v0 < length (vertices bp) ∧ v1 < length (vertices bp)
             ∧ v2 < length (vertices bp);
  cr_sides : ∀ e E, edge_heap bp !! e = Some E → on_side v0 v1 v2 E →
    type_ E = Edge.Front;
  cr_fresh : ∀ t T, triangle_heap bp !! t = Some T →
    ¬ (tri_has T v0 ∧ tri_has T v1 ∧ tri_has T v2);
  cr_call : CreateTriangle bp v0 v1 v2 c = Ok bp1;
  cr_post : create_post bp v0 v1 v2 c bp1;
  cr_inv : Inv bp1
}.

(** The edges pushed after a creation are the sides of the new triangle
    that are Front. *)
Definition pushed_sides bp1 (v0 v1 v2 : VertexPtr) (pushed : list EdgePtr) : Prop :=
  ∀ e, e ∈ pushed ↔
       ∃ E, edge_heap bp1 !! e = Some E ∧ type_ E = Edge.Front
            ∧ on_side v0 v1 v2 E.

Inductive step bp : BallPivoting D → Prop :=
| step_skip edge rest :
    edge_front_ bp = edge :: rest → is_front bp edge = false →
    step bp (with_edge_front bp rest)
| step_border edge rest E :
    edge_front_ bp = edge :: rest →
    edge_heap bp !! edge = Some E → type_ E = Edge.Front →
    step bp (mark_border (with_edge_front bp rest) edge)
| step_expand edge rest E c ctr bp1 pushed :
    edge_front_ bp = edge :: rest →
    edge_heap bp !! edge = Some E → type_ E = Edge.Front →
    created (with_edge_front bp rest) (source_ E) (target_ E) c ctr bp1 →
    pushed_sides bp1 (source_ E) (target_ E) c pushed →
    (∃ radius,
       FindCandidateVertex SearchRadius PointsCoplanar LineSegmentsMinimumDistance
         acos (with_edge_front bp rest) edge radius = Ok (Some (c, ctr))) →
    step bp (with_edge_front bp1 (pushed ++ rest))
| step_seed v nb0 nb1 ctr bp1 pushed :
    is_orphan bp nb0 = true → is_orphan bp nb1 = true →
    created bp v nb0 nb1 ctr bp1 →
    pushed_sides bp1 v nb0 nb1 pushed →
    (∃ radius,
       TryTriangleSeed bp v nb0 nb1
         (SearchRadius (point_ (vertex_at (vertices bp) v)) (dmul d2 radius)) radius
       = Some ctr) →
    step bp (with_edge_front bp1 (pushed ++ edge_front_ bp))
| step_revisit radius bp1 kept :
    revisit_post SearchRadius bp radius (border_edges_ bp) bp1 kept →
    step bp (with_border_edges bp1 kept).

(** Every Front edge waits in the front queue. *)
Definition front_complete bp : Prop :=
  ∀ e E, edge_heap bp !! e = Some E → type_ E = Edge.Front → e ∈ edge_front_ bp.

(** The classification of every vertex is the one [UpdateType] would
    compute now. *)
Definition types_fresh bp : Prop :=
  ∀ v V, vertices bp !! v = Some V → UpdateType (edge_heap bp) V = V.

(** The vertices are those of [bp0], up to their edges and classification. *)
Definition same_points bp0 bp : Prop :=
  length (vertices bp) = length (vertices bp0)
  ∧ ∀ v V, vertices bp !! v = Some V →
      ∃ V0, vertices bp0 !! v = Some V0
            ∧ idx_ V = idx_ V0 ∧ point_ V = point_ V0 ∧ normal_ V = normal_ V0.

(** The mesh and the triangle heap of [bp0] are kept, and extended
    together with the list of normals. *)
Definition mesh_extends bp0 bp : Prop :=
  ∃ ms ns ts,
    mesh_triangles_ bp = mesh_triangles_ bp0 ++ ms
    ∧ mesh_triangle_normals_ bp = mesh_triangle_normals_ bp0 ++ ns
    ∧ triangle_heap bp = triangle_heap bp0 ++ ts
    ∧ length ms = length ts ∧ length ns = length ts.

(** [v] is one of the three indices of the mesh triangle [m]. *)
Definition triple_has (m : nat * nat * nat) (v : nat) : Prop :=
  v = m.1.1 ∨ v = m.1.2 ∨ v = m.2.

(** The triangle [T] stores the center of the ball of [radius] through
    its three vertices, and no other vertex that the search of radius
    [2 * radius] around [q] returns lies deeper than [1e-16] inside that
    ball. *)
Definition empty_ball_at (vs : list (BallPivotingVertex D)) (q : Vector3d D)
    (radius : D) (T : BallPivotingTriangle D) : Prop :=
  ComputeBallCenter vs (vert0_ T) (vert1_ T) (vert2_ T) radius = Some (ball_center_ T)
  ∧ ∀ i, i ∈ SearchRadius q (dmul d2 radius) →
         i ≠ vert0_ T → i ≠ vert1_ T → i ≠ vert2_ T →
         dltb (norm (vsub (ball_center_ T) (point_ (vertex_at vs i))))
              (dsub radius deps16) = false.

(** Every triangle of the heap has such a ball, for a search around its
    first vertex (a seed) or around the middle of its first side (an
    expansion). *)
Definition balls_empty bp : Prop :=
  ∀ t T, triangle_heap bp !! t = Some T →
    ∃ radius q,
      (q = point_ (vertex_at (vertices bp) (vert0_ T))
       ∨ q = vscale dhalf (vadd (point_ (vertex_at (vertices bp) (vert0_ T)))
                                (point_ (vertex_at (vertices bp) (vert1_ T)))))
      ∧ empty_ball_at (vertices bp) q radius T.

End StepDefs.

Section WindingDefs.
Local Open Scope R_scope.

(** The right-hand normal of the mesh triangle [m] does not oppose the
    normal of its first vertex. *)
Definition wound (vs : list (BallPivotingVertex R)) (m : nat * nat * nat) : Prop :=
  - (1 / 10 ^ 16) <
  dot (ComputeFaceNormal (point_ (vertex_at vs m.1.1)) (point_ (vertex_at vs m.1.2))
                         (point_ (vertex_at vs m.2)))
      (normal_ (vertex_at vs m.1.1)).

(** The mesh of the state is wound along the vertex normals, and the
    normal stored with each triangle is its right-hand normal or the
    opposite vector. *)
Definition mesh_wound (bp : BallPivoting R) : Prop :=
  length (mesh_triangle_normals_ bp) = length (mesh_triangles_ bp)
  ∧ ∀ i m, mesh_triangles_ bp !! i = Some m →
      wound (vertices bp) m
      ∧ ∃ n, mesh_triangle_normals_ bp !! i = Some n
             ∧ let F := ComputeFaceNormal (point_ (vertex_at (vertices bp) m.1.1))
                                          (point_ (vertex_at (vertices bp) m.1.2))
                                          (point_ (vertex_at (vertices bp) m.2)) in
               n = F ∨ n = vmuls F (-1).
End WindingDefs.

(** ** Concrete inputs

    A radius search by exhaustion, and two small clouds on which the engine
    is run in binary64 arithmetic: three points, which give one triangle
    that cannot be expanded, and the four corners of a square.  On these
    clouds the three remaining collaborators are given simple values. *)

Section Search.
Context {D : Type} {AR : Arith D}.
Definition exhaustive_search (points : list (Vector3d D)) (q : Vector3d D) (r : D) : list nat :=
  filter (λ i, dleb (squaredNorm (vsub (nth i points vzero) q)) (dmul r r) = true)
         (seq 0 (length points)).
End Search.

Definition V (x y z : float) : Vector3d float := Vec3 x y z.
Definition tri_cloud : PointCloud float :=
  mkPointCloud [V 0 0 0; V 1 0 0; V 0 1 0] [V 0 0 1; V 0 0 1; V 0 0 1] true.
Definition quad_cloud : PointCloud float :=
  mkPointCloud [V 0 0 0; V 1 0 0; V 0 1 0; V 1 1 0]
               [V 0 0 1; V 0 0 1; V 0 0 1; V 0 0 1] true.
Definition never_coplanar (a b c d : Vector3d float) : bool := false.
Definition far_apart (a b c d : Vector3d float) : float := 1%float.
Definition acos_stand_in (x : float) : float := (1 - x)%float.

Definition tri_search := exhaustive_search (points_ tri_cloud).
Definition quad_search := exhaustive_search (points_ quad_cloud).
Definition tri_bp0 := BallPivoting_new tri_cloud.
Definition quad_bp0 := BallPivoting_new quad_cloud.

Definition tri_seeded : BallPivoting float :=
  match TrySeed tri_search tri_bp0 0 1%float with
  | Ok (_, bp) => bp
  | Err _ => tri_bp0
  end.
Definition tri_final : BallPivoting float :=
  match Run tri_search never_coplanar far_apart acos_stand_in 30 tri_bp0 [1%float] with
  | Ok bp => bp
  | Err _ => tri_bp0
  end.
Definition quad_seeded : BallPivoting float :=
  match TrySeed quad_search quad_bp0 0 1%float with
  | Ok (_, bp) => bp
  | Err _ => quad_bp0
  end.
Definition quad_turn : BallPivoting float :=
  match ExpandTriangulation_body quad_search never_coplanar far_apart acos_stand_in
          (with_edge_front quad_seeded [1; 2]) 0 1%float with
  | Ok bp => bp
  | Err _ => quad_seeded
  end.
Definition quad_final : BallPivoting float :=
  match Run quad_search never_coplanar far_apart acos_stand_in 51 quad_bp0 [1%float] with
  | Ok bp => bp
  | Err _ => quad_bp0
  end.
Definition skew_vertices : list (BallPivotingVertex float) :=
  [BallPivotingVertex_new 0 (V 0 0 0) (V 1 0 (-5e-17));
   BallPivotingVertex_new 1 (V 1 0 0) (V 0 0 1);
   BallPivotingVertex_new 2 (V 0 1 0) (V 0 0 1)].

Section EdgeCases.
Context {D : Type} {AR : Arith D}.

(** Two inputs of [ComputeBallCenter], written once for every arithmetic:
    the right triangle (1,0,0), (-1,0,0), (0,1,0), whose circumradius is
    exactly 1, and three points of the x axis. *)
Definition right_triangle : list (BallPivotingVertex D) :=
  [BallPivotingVertex_new 0 (Vec3 d1 d0 d0) (Vec3 d0 d0 d1);
   BallPivotingVertex_new 1 (Vec3 (dopp d1) d0 d0) (Vec3 d0 d0 d1);
   BallPivotingVertex_new 2 (Vec3 d0 d1 d0) (Vec3 d0 d0 d1)].

Definition on_the_x_axis (x1 x2 : D) : list (BallPivotingVertex D) :=
  [BallPivotingVertex_new 0 (Vec3 d0 d0 d0) (Vec3 d0 d0 d1);
   BallPivotingVertex_new 1 (Vec3 x1 d0 d0) (Vec3 d0 d0 d1);
   BallPivotingVertex_new 2 (Vec3 x2 d0 d0) (Vec3 d0 d0 d1)].
End EdgeCases.

(** A cloud in which the edge (0, 1) of the seed triangle has two vertices
    to pivot to, 3 and 4, the later the nearer. *)
Definition fan_cloud : PointCloud float :=
  mkPointCloud [V 0 0 0; V 1 0 0; V 0 1 0; V 0.5 (-1.5) 0; V 0.5 (-1) 1.5]
               [V 0 0 1; V 0 0 1; V 0 0 1; V 0 0 1; V 0 0 1] true.
Definition fan_search := exhaustive_search (points_ fan_cloud).
Definition fan_seeded : BallPivoting float :=
  match TrySeed fan_search (BallPivoting_new fan_cloud) 0 1%float with
  | Ok (_, bp) => bp
  | Err _ => BallPivoting_new fan_cloud
  end.

(** A cloud of two points, and a cloud over the real numbers with its
    exhaustive search and three simple collaborators. *)
Definition pair_cloud : PointCloud float :=
  mkPointCloud [V 0 0 0; V 1 0 0] [V 0 0 1; V 0 0 1] true.
Definition pair_search := exhaustive_search (points_ pair_cloud).

Definition real_cloud : PointCloud R :=
  mkPointCloud [Vec3 0 0 0; Vec3 1 0 0; Vec3 0 1 0]%R
               [Vec3 0 0 1; Vec3 0 0 1; Vec3 0 0 1]%R true.
Definition real_search := exhaustive_search (points_ real_cloud).
Definition real_bp0 := BallPivoting_new real_cloud.
Definition real_coplanar (a b c d : Vector3d R) : bool := false.
Definition real_distance (a b c d : Vector3d R) : R := 1%R.
Definition real_acos (x : R) : R := (1 - x)%R.

(** * Part III: lemmas and theorems *)

Section BallCenterSpec.
Local Open Scope R_scope.
Implicit Types u v w : Vector3d R.

Lemma Rltb_true x y : Rltb x y = true <-> x < y.
Proof. unfold Rltb; destruct (Rlt_dec x y); split; intros; auto; discriminate. Qed.

Lemma Rltb_false x y : Rltb x y = false <-> y <= x.
Proof. unfold Rltb; destruct (Rlt_dec x y); split; intros; auto; try discriminate; lra. Qed.

Lemma Rleb_true x y : Rleb x y = true <-> x <= y.
Proof. unfold Rleb; destruct (Rle_dec x y); split; intros; auto; discriminate. Qed.

Lemma Rleb_false x y : Rleb x y = false <-> y < x.
Proof. unfold Rleb; destruct (Rle_dec x y); split; intros; auto; try discriminate; lra. Qed.

Lemma bc_S_cross v1 v2 v3 :
  bc_S v1 v2 v3 = 4 * squaredNorm (cross (vsub v2 v1) (vsub v3 v1)).
Proof.
  destruct v1, v2, v3.
  unfold bc_S, bc_alpha, bc_beta, bc_gamma, bc_a, bc_b, bc_c, squaredNorm, dot, cross, vsub; simpl.
  ring.
Qed.

Lemma dot_vdivs_r u v (s : R) : dot u (vdivs v s) = dot u v * / s.
Proof. destruct u, v; unfold dot, vdivs; simpl. unfold Rdiv. ring. Qed.

Lemma dot_vmuls_l u v (s : R) : dot (vmuls u s) v = s * dot u v.
Proof. destruct u, v; unfold dot, vmuls; simpl. ring. Qed.

Lemma squaredNorm_nonneg v : 0 <= squaredNorm v.
Proof. destruct v; unfold squaredNorm, dot; simpl. nra. Qed.

Lemma squaredNorm_zero v : squaredNorm v = 0 -> v = Vec3 0 0 0.
Proof.
  destruct v as [x y z]; unfold squaredNorm, dot; simpl; intros H.
  assert (x = 0) by nra. assert (y = 0) by nra. assert (z = 0) by nra.
  subst; reflexivity.
Qed.

Lemma squaredNorm_vmuls_opp v : squaredNorm (vmuls v (-1)) = squaredNorm v.
Proof. destruct v; unfold squaredNorm, dot, vmuls; simpl. ring. Qed.

Lemma squaredNorm_unit v :
  0 < squaredNorm v -> squaredNorm (vdivs v (norm v)) = 1.
Proof.
  intros H. unfold norm.
  assert (Hs : sqrt (squaredNorm v) * sqrt (squaredNorm v) = squaredNorm v)
    by (apply sqrt_sqrt; lra).
  assert (Hp : 0 < sqrt (squaredNorm v)) by (apply sqrt_lt_R0; exact H).
  destruct v as [x y z]; unfold squaredNorm, dot, vdivs in *; simpl in *.
  set (q := sqrt (x * x + y * y + z * z)) in *.
  replace (x / q * (x / q) + y / q * (y / q) + z / q * (z / q))
    with ((x * x + y * y + z * z) / (q * q)) by (field; lra).
  rewrite Hs. field. lra.
Qed.

(** The sign test of the source is against the normalised normal sum; it
    decides the sign against the sum itself. *)
Lemma orient_sign u s :
  let p := vdivs s (norm s) in
  let n := if Rltb (dot u p) 0 then vmuls u (-1) else u in
  0 <= dot n s.
Proof.
  intros p n. subst p n.
  rewrite dot_vdivs_r.
  pose proof (squaredNorm_nonneg s) as Hs.
  destruct (Req_dec (squaredNorm s) 0) as [Hz|Hnz].
  - apply squaredNorm_zero in Hz. subst s.
    destruct (Rltb _ _); destruct u; unfold dot, vmuls; simpl; lra.
  - assert (Hp : 0 < norm s) by (apply sqrt_lt_R0; lra).
    assert (Hi : 0 < / norm s) by (apply Rinv_0_lt_compat; exact Hp).
    destruct (Rltb (dot u s * / norm s) 0) eqn:Hlt.
    + apply Rltb_true in Hlt. rewrite dot_vmuls_l. nra.
    + apply Rltb_false in Hlt. nra.
Qed.

Lemma ComputeBallCenter_R (vs : list (BallPivotingVertex R))
    (i j k : nat) (r : R) :
  let v1 := point_ (vertex_at vs i) in
  let v2 := point_ (vertex_at vs j) in
  let v3 := point_ (vertex_at vs k) in
  let s := vadd (vadd (normal_ (vertex_at vs i)) (normal_ (vertex_at vs j)))
                (normal_ (vertex_at vs k)) in
  ComputeBallCenter vs i j k r =
    if Rltb (bc_S v1 v2 v3) (1 / 10 ^ 16) then None
    else if Rleb 0 (bc_h2 v1 v2 v3 r)
         then Some (vadd (bc_P v1 v2 v3)
                         (vscale (sqrt (bc_h2 v1 v2 v3 r))
                                 (oriented_normal v1 v2 v3 s)))
         else None.
Proof.
  intros v1 v2 v3 s.
  assert (Hh : forall a b c : R,
             r * r - a * b * c /
               ((sqrt a + sqrt b + sqrt c) * (sqrt b + sqrt c - sqrt a)
                * (sqrt c + sqrt a - sqrt b) * (sqrt a + sqrt b - sqrt c))
             = r * r - a * b * c /
               ((sqrt a + sqrt b + sqrt c) * (- sqrt a + sqrt b + sqrt c)
                * (sqrt a - sqrt b + sqrt c) * (sqrt a + sqrt b - sqrt c))).
  { intros a b c. do 2 f_equal. ring. }
  unfold ComputeBallCenter, bc_h2, bc_circumradius2, bc_P, bc_S, bc_alpha,
    bc_beta, bc_gamma, bc_a, bc_b, bc_c, oriented_normal, unit_normal.
  cbn [dltb dleb deps16 d0 d1 dadd dsub dmul ddiv dsqrt dopp R_arith].
  cbv zeta. fold v1 v2 v3 s.
  rewrite Hh. reflexivity.
Qed.

(** Without rounding, [ComputeBallCenter] returns a center exactly
    when the sum [S] of the three barycentric weights is at least [1e-16]
    and [h2 = r * r - circumradius2] is not negative.  The center returned is
    then the weighted circumcenter [P] plus [sqrt h2] times a unit vector
    [n], which is the normalised cross product [(v2 - v1) x (v3 - v1)] or
    its opposite, and whose dot with the sum of the three vertex normals is
    not negative. *)
Lemma ComputeBallCenter_exact (vs : list (BallPivotingVertex R))
    (i j k : nat) (r : R) :
  let v1 := point_ (vertex_at vs i) in
  let v2 := point_ (vertex_at vs j) in
  let v3 := point_ (vertex_at vs k) in
  let s := vadd (vadd (normal_ (vertex_at vs i)) (normal_ (vertex_at vs j)))
                (normal_ (vertex_at vs k)) in
  (is_Some (ComputeBallCenter vs i j k r)
     <-> 1 / 10 ^ 16 <= bc_S v1 v2 v3 /\ 0 <= bc_h2 v1 v2 v3 r) /\
  (forall center, ComputeBallCenter vs i j k r = Some center ->
     exists n : Vector3d R,
       center = vadd (bc_P v1 v2 v3) (vscale (sqrt (bc_h2 v1 v2 v3 r)) n)
       /\ (n = unit_normal v1 v2 v3 \/ n = vmuls (unit_normal v1 v2 v3) (-1))
       /\ squaredNorm n = 1
       /\ 0 <= dot n s).
Proof.
  intros v1 v2 v3 s.
  pose proof (ComputeBallCenter_R vs i j k r) as E. cbv zeta in E.
  fold v1 v2 v3 s in E. rewrite E. clear E.
  destruct (Rltb (bc_S v1 v2 v3) (1 / 10 ^ 16)) eqn:HS.
  { apply Rltb_true in HS. split.
    - split; [intros [c Hc]; discriminate | intros [H _]; lra].
    - intros c Hc; discriminate. }
  apply Rltb_false in HS.
  destruct (Rleb 0 (bc_h2 v1 v2 v3 r)) eqn:Hh.
  2:{ apply Rleb_false in Hh. split.
      - split; [intros [c Hc]; discriminate | intros [_ H]; lra].
      - intros c Hc; discriminate. }
  apply Rleb_true in Hh. split.
  - split; [intros _; split; assumption | intros _; eexists; reflexivity].
  - intros c Hc. injection Hc as <-.
    exists (oriented_normal v1 v2 v3 s).
    assert (Hpos : 0 < squaredNorm (cross (vsub v2 v1) (vsub v3 v1))).
    { pose proof (bc_S_cross v1 v2 v3) as HSc.
      assert (0 < 1 / 10 ^ 16) by (apply Rdiv_lt_0_compat; [lra | apply pow_lt; lra]).
      lra. }
    split; [reflexivity|]. split; [|split].
    + unfold oriented_normal. destruct (Rltb _ _); auto.
    + unfold oriented_normal.
      destruct (Rltb _ _); [rewrite squaredNorm_vmuls_opp|];
        apply squaredNorm_unit; exact Hpos.
    + apply (orient_sign (unit_normal v1 v2 v3) s).
Qed.

End BallCenterSpec.

Section BallCenterCode.
Context {D : Type} {AR : Arith D}.
Local Open Scope D_scope.

(** C1, amended. In the arithmetic the program computes with, whatever it
    is, [ComputeBallCenter] returns a center exactly when the weight sum
    [S] it has computed is not below [1e-16] and the [h2] it has computed,
    the squared radius minus the squared circumradius in the order of
    operations of the source, is at least zero.  The center is then the
    computed weighted point [P] plus [sqrt h2] times [n], where [n] is the
    cross product [(v2 - v1) x (v3 - v1)] divided by its computed norm and
    is negated exactly when its dot with the sum of the three vertex
    normals, divided by its computed norm, is below zero. *)
Theorem ComputeBallCenter_spec (vs : list (BallPivotingVertex D))
    (i j k : nat) (r : D) :
  let v1 := point_ (vertex_at vs i) in
  let v2 := point_ (vertex_at vs j) in
  let v3 := point_ (vertex_at vs k) in
  let a := squaredNorm (vsub v3 v2) in
  let b := squaredNorm (vsub v1 v3) in
  let c := squaredNorm (vsub v2 v1) in
  let alpha := a * (b + c - a) in
  let beta := b * (a + c - b) in
  let gamma := c * (a + b - c) in
  let S := alpha + beta + gamma in
  let P := vadd (vadd (vscale (alpha / S) v1) (vscale (beta / S) v2))
                (vscale (gamma / S) v3) in
  let circumradius2 :=
    a * b * c / ((dsqrt a + dsqrt b + dsqrt c) * (dsqrt b + dsqrt c - dsqrt a)
                 * (dsqrt c + dsqrt a - dsqrt b) * (dsqrt a + dsqrt b - dsqrt c)) in
  let h2 := r * r - circumradius2 in
  let u := vdivs (cross (vsub v2 v1) (vsub v3 v1))
                 (norm (cross (vsub v2 v1) (vsub v3 v1))) in
  let s := vadd (vadd (normal_ (vertex_at vs i)) (normal_ (vertex_at vs j)))
                (normal_ (vertex_at vs k)) in
  let n := if dot u (vdivs s (norm s)) <? d0 then vmuls u (- d1) else u in
  (∀ center, ComputeBallCenter vs i j k r = Some center
             ↔ (S <? deps16) = false ∧ (h2 >=? d0) = true
               ∧ center = vadd P (vscale (dsqrt h2) n))
  ∧ (ComputeBallCenter vs i j k r = None
     ↔ (S <? deps16) = true ∨ (h2 >=? d0) = false).
Proof.
  intros v1 v2 v3 a b c alpha beta gamma S P circumradius2 h2 u s n.
  assert (E : ComputeBallCenter vs i j k r =
              if S <? deps16 then None
              else if h2 >=? d0 then Some (vadd P (vscale (dsqrt h2) n)) else None)
    by reflexivity.
  rewrite E. clear E.
  destruct (S <? deps16) eqn:HS.
  { split.
    - intros center. split; [discriminate | intros (H & _); discriminate].
    - split; [intros _; left; reflexivity | reflexivity]. }
  destruct (h2 >=? d0) eqn:Hh.
  - split.
    + intros center. split.
      * intros H. injection H as <-. auto.
      * intros (_ & _ & ->). reflexivity.
    + split; [discriminate | intros [H|H]; discriminate].
  - split.
    + intros center. split; [discriminate | intros (_ & H & _); discriminate].
    + split; [intros _; right; reflexivity | reflexivity].
Qed.
End BallCenterCode.

Section Invariant.
Context {D : Type} {AR : Arith D}.
Implicit Types (bp : BallPivoting D) (E : BallPivotingEdge)
  (T : BallPivotingTriangle D) (V : BallPivotingVertex D)
  (vs : list (BallPivotingVertex D)) (es : list BallPivotingEdge)
  (ts : list (BallPivotingTriangle D)).

(** Basic facts on dereferencing *)
Lemma edge_at_lookup es e E : es !! e = Some E → edge_at es e = E.
Proof. unfold edge_at. intros ->. reflexivity. Qed.

Lemma vertex_at_lookup vs v V : vs !! v = Some V → vertex_at vs v = V.
Proof. unfold vertex_at. intros ->. reflexivity. Qed.

Lemma triangle_at_lookup ts t T : ts !! t = Some T → triangle_at ts t = T.
Proof. unfold triangle_at. intros ->. reflexivity. Qed.

Lemma vertex_lookup_lt vs v : v < length vs → vs !! v = Some (vertex_at vs v).
Proof.
  intros H. destruct (lookup_lt_is_Some_2 vs v H) as [V HV].
  rewrite (vertex_at_lookup _ _ _ HV). exact HV.
Qed.

(** GetLinkingEdge *)
Lemma GetLinkingEdge_loop_Some es l0 l1 e :
  GetLinkingEdge_loop es l0 l1 = Some e →
  e ∈ l0 ∧ ∃ e1, e1 ∈ l1 ∧ same_ends es e e1 = true.
Proof.
  induction l0 as [|a l0 IH]; simpl; [discriminate|].
  destruct (existsb (same_ends es a) l1) eqn:Hex.
  - intros [= <-]. split; [left|].
    apply existsb_exists in Hex as (e1 & Hin & Hs).
    exists e1. split; [apply list_elem_of_In; exact Hin | exact Hs].
  - intros H. destruct (IH H) as [? ?]. split; [right|]; assumption.
Qed.

Lemma GetLinkingEdge_loop_None es l0 l1 :
  GetLinkingEdge_loop es l0 l1 = None →
  ∀ e0 e1, e0 ∈ l0 → e1 ∈ l1 → same_ends es e0 e1 = false.
Proof.
  induction l0 as [|a l0 IH]; simpl; intros H e0 e1 H0 H1.
  - inversion H0.
  - destruct (existsb (same_ends es a) l1) eqn:Hex; [discriminate|].
    apply elem_of_cons in H0 as [->|H0].
    + destruct (same_ends es a e1) eqn:Hs; [|reflexivity].
      assert (existsb (same_ends es a) l1 = true).
      { apply existsb_exists. exists e1. split; [apply list_elem_of_In|]; assumption. }
      congruence.
    + eapply IH; eassumption.
Qed.

Lemma same_ends_true es e0 e1 E0 E1 :
  es !! e0 = Some E0 → es !! e1 = Some E1 →
  same_ends es e0 e1 = true ↔ source_ E0 = source_ E1 ∧ target_ E0 = target_ E1.
Proof.
  intros H0 H1. unfold same_ends.
  rewrite (edge_at_lookup _ _ _ H0), (edge_at_lookup _ _ _ H1).
  rewrite andb_true_iff, !Nat.eqb_eq. reflexivity.
Qed.

Lemma GetLinkingEdge_Some bp va vb e :
  core_ok bp → va ≠ vb →
  va < length (vertices bp) → vb < length (vertices bp) →
  GetLinkingEdge bp va vb = Some e →
  ∃ E, edge_heap bp !! e = Some E ∧ ends_are E va vb.
Proof.
  intros Hok Hne Ha Hb Hg. unfold GetLinkingEdge in Hg.
  apply GetLinkingEdge_loop_Some in Hg as (H0 & e1 & H1 & Hs).
  apply (ok_inc _ Hok va _ (vertex_lookup_lt _ _ Ha)) in H0 as (E0 & HE0 & Hi0).
  apply (ok_inc _ Hok vb _ (vertex_lookup_lt _ _ Hb)) in H1 as (E1 & HE1 & Hi1).
  apply (same_ends_true _ _ _ _ _ HE0 HE1) in Hs as [Hs Ht].
  assert (e = e1).
  { eapply (ok_uniq _ Hok); [exact HE0 | exact HE1 |]. left. split; congruence. }
  subst e1. assert (E1 = E0) by congruence. subst E1.
  exists E0. split; [exact HE0|].
  unfold ends_are, incident in *. destruct Hi0, Hi1; try (left; split; congruence);
    try (right; split; congruence); congruence.
Qed.

Lemma GetLinkingEdge_None bp va vb :
  core_ok bp → va < length (vertices bp) → vb < length (vertices bp) →
  GetLinkingEdge bp va vb = None →
  ∀ e E, edge_heap bp !! e = Some E → ¬ ends_are E va vb.
Proof.
  intros Hok Ha Hb Hg e E HE Hends. unfold GetLinkingEdge in Hg.
  assert (H0 : e ∈ edges_ (vertex_at (vertices bp) va)).
  { apply (ok_inc _ Hok va _ (vertex_lookup_lt _ _ Ha)). exists E.
    split; [exact HE|]. destruct Hends as [[? ?]|[? ?]]; [left|right]; assumption. }
  assert (H1 : e ∈ edges_ (vertex_at (vertices bp) vb)).
  { apply (ok_inc _ Hok vb _ (vertex_lookup_lt _ _ Hb)). exists E.
    split; [exact HE|]. destruct Hends as [[? ?]|[? ?]]; [right|left]; assumption. }
  pose proof (GetLinkingEdge_loop_None _ _ _ Hg e e H0 H1) as Hf.
  assert (same_ends (edge_heap bp) e e = true).
  { apply (same_ends_true _ _ _ _ _ HE HE). split; reflexivity. }
  congruence.
Qed.

Lemma GetLinkingEdge_ends bp va vb e E :
  core_ok bp → va ≠ vb →
  va < length (vertices bp) → vb < length (vertices bp) →
  edge_heap bp !! e = Some E → ends_are E va vb →
  GetLinkingEdge bp va vb = Some e.
Proof.
  intros Hok Hne Ha Hb HE Hends.
  destruct (GetLinkingEdge bp va vb) as [e'|] eqn:Hg.
  - destruct (GetLinkingEdge_Some _ _ _ _ Hok Hne Ha Hb Hg) as (E' & HE' & Hends').
    f_equal. eapply (ok_uniq _ Hok); [exact HE' | exact HE |].
    unfold ends_are in *. destruct Hends as [[? ?]|[? ?]], Hends' as [[? ?]|[? ?]];
      first [left; split; congruence | right; split; congruence].
  - exfalso. exact (GetLinkingEdge_None _ _ _ Hok Ha Hb Hg e E HE Hends).
Qed.

(** AddAdjacentTriangle *)
Lemma GetOppositeVertex_Some ts E t :
  triangle0_ E = Some t → is_Some (GetOppositeVertex ts E).
Proof.
  intros H. unfold GetOppositeVertex. rewrite H.
  repeat match goal with |- context [if ?b then _ else _] => destruct b end;
    eexists; reflexivity.
Qed.

Lemma AddAdjacentTriangle_fresh vs ts va vb t :
  AddAdjacentTriangle vs ts (mkEdge va vb None None Edge.Front) t
    = Ok (mkEdge va vb (Some t) None Edge.Front)
  ∨ AddAdjacentTriangle vs ts (mkEdge va vb None None Edge.Front) t
    = Ok (mkEdge vb va (Some t) None Edge.Front).
Proof.
  unfold AddAdjacentTriangle.
  cbn [triangle0_ triangle1_ source_ target_ type_].
  case_decide as Hn; [|exfalso; apply Hn; split; discriminate].
  destruct (GetOppositeVertex_Some ts (mkEdge va vb (Some t) None Edge.Front) t eq_refl)
    as [opp ->].
  destruct (dltb _ _); [right|left]; reflexivity.
Qed.

Lemma AddAdjacentTriangle_second vs ts E t t0 :
  triangle0_ E = Some t0 → t0 ≠ t → triangle1_ E = None →
  AddAdjacentTriangle vs ts E t
    = Ok (mkEdge (source_ E) (target_ E) (triangle0_ E) (Some t) Edge.Inner).
Proof.
  intros H0 Hne H1. unfold AddAdjacentTriangle. rewrite H0, H1.
  case_decide as Hn; [reflexivity|].
  exfalso; apply Hn; split; congruence.
Qed.

Lemma AddAdjacentTriangle_Ok vs ts E t :
  ∃ E', AddAdjacentTriangle vs ts E t = Ok E'.
Proof.
  unfold AddAdjacentTriangle.
  case_decide; [|eexists; reflexivity].
  destruct (triangle0_ E) eqn:H0.
  - destruct (triangle1_ E); eexists; reflexivity.
  - destruct (GetOppositeVertex_Some ts
                (mkEdge (source_ E) (target_ E) (Some t) (triangle1_ E) Edge.Front)
                t eq_refl) as [opp ->].
    simpl. destruct (dltb _ _); eexists; reflexivity.
Qed.

(** Record eta for the state updates *)
Lemma set_edges_id V : set_edges V (edges_ V) = V.
Proof. destruct V; reflexivity. Qed.

Lemma with_vertices_id bp : with_vertices bp (vertices bp) = bp.
Proof. destruct bp; reflexivity. Qed.

Lemma set_insert_elem e s x : x ∈ set_insert e s ↔ x ∈ s ∨ x = e.
Proof.
  unfold set_insert. destruct (decide (e ∈ s)).
  - split; [auto|]. intros [?| ->]; assumption.
  - rewrite elem_of_app, list_elem_of_singleton. reflexivity.
Qed.

Lemma set_insert_in e s : e ∈ s → set_insert e s = s.
Proof. unfold set_insert. intros H. destruct (decide (e ∈ s)); [reflexivity|contradiction]. Qed.

Lemma insert_edge_in vs v e :
  v < length vs → e ∈ edges_ (vertex_at vs v) → insert_edge vs v e = vs.
Proof.
  intros Hv He. unfold insert_edge. rewrite (set_insert_in _ _ He), set_edges_id.
  apply list_insert_id, vertex_lookup_lt, Hv.
Qed.

Lemma insert_edge_length vs v e : length (insert_edge vs v e) = length vs.
Proof. unfold insert_edge. apply length_insert. Qed.

Lemma insert_edge_lookup vs v e w :
  v < length vs →
  insert_edge vs v e !! w =
    if decide (v = w)
    then Some (set_edges (vertex_at vs v) (set_insert e (edges_ (vertex_at vs v))))
    else vs !! w.
Proof.
  intros Hv. unfold insert_edge. rewrite list_lookup_insert.
  destruct (decide (v = w)) as [->|Hne].
  - case_decide as Hn; [reflexivity|]. exfalso; apply Hn; auto.
  - case_decide as Hn; [destruct Hn; contradiction|reflexivity].
Qed.

Lemma link_side_existing bp va vb t e E t0 :
  core_ok bp → va ≠ vb →
  va < length (vertices bp) → vb < length (vertices bp) →
  edge_heap bp !! e = Some E → ends_are E va vb →
  triangle0_ E = Some t0 → t0 ≠ t → triangle1_ E = None →
  link_side bp va vb t
    = Ok (with_edge_heap bp (<[e := fill_second E t]> (edge_heap bp))).
Proof.
  intros Hok Hne Ha Hb HE Hends H0 Hnt H1.
  unfold link_side.
  rewrite (GetLinkingEdge_ends _ _ _ _ _ Hok Hne Ha Hb HE Hends).
  rewrite (edge_at_lookup _ _ _ HE).
  rewrite (AddAdjacentTriangle_second _ _ _ _ _ H0 Hnt H1). simpl.
  assert (Hina : e ∈ edges_ (vertex_at (vertices bp) va)).
  { apply (ok_inc _ Hok va _ (vertex_lookup_lt _ _ Ha)). exists E.
    split; [exact HE|]. destruct Hends as [[? ?]|[? ?]]; [left|right]; assumption. }
  assert (Hinb : e ∈ edges_ (vertex_at (vertices bp) vb)).
  { apply (ok_inc _ Hok vb _ (vertex_lookup_lt _ _ Hb)). exists E.
    split; [exact HE|]. destruct Hends as [[? ?]|[? ?]]; [right|left]; assumption. }
  rewrite (insert_edge_in _ _ _ Ha Hina), (insert_edge_in _ _ _ Hb Hinb).
  destruct bp; reflexivity.
Qed.

Lemma link_side_new bp va vb t :
  GetLinkingEdge bp va vb = None →
  link_side bp va vb t = Ok (add_edge bp va vb (mkEdge va vb (Some t) None Edge.Front))
  ∨ link_side bp va vb t = Ok (add_edge bp va vb (mkEdge vb va (Some t) None Edge.Front)).
Proof.
  intros Hg. unfold link_side, BallPivotingEdge_new. rewrite Hg.
  assert (Hat : edge_at (edge_heap bp ++ [mkEdge va vb None None Edge.Front])
                  (length (edge_heap bp)) = mkEdge va vb None None Edge.Front).
  { apply edge_at_lookup. rewrite lookup_app_r by lia.
    rewrite Nat.sub_diag. reflexivity. }
  rewrite Hat.
  assert (Hins : ∀ E', <[length (edge_heap bp) := E']>
             (edge_heap bp ++ [mkEdge va vb None None Edge.Front])
             = edge_heap bp ++ [E']).
  { intros E'. rewrite insert_app_r_alt by lia. rewrite Nat.sub_diag. reflexivity. }
  destruct (AddAdjacentTriangle_fresh (vertices bp) (triangle_heap bp) va vb t)
    as [-> | ->]; simpl; rewrite Hins; [left|right]; reflexivity.
Qed.

Lemma core_ok_reshape bp bp' :
  core_ok bp →
  vertices bp' = vertices bp →
  triangle_heap bp' = triangle_heap bp →
  Forall2 same_shape (edge_heap bp) (edge_heap bp') →
  (∀ e E, edge_heap bp' !! e = Some E →
     (type_ E = Edge.Inner ↔ triangle1_ E ≠ None)) →
  NoDup (border_edges_ bp') →
  (∀ e, e ∈ border_edges_ bp' ↔
     ∃ E, edge_heap bp' !! e = Some E ∧ type_ E = Edge.Border) →
  (∀ e, e ∈ edge_front_ bp' → e < length (edge_heap bp')) →
  core_ok bp'.
Proof.
  intros Hok Hv Ht Hsh Hty Hnd Hbo Hfr.
  assert (Hback : ∀ e E', edge_heap bp' !! e = Some E' →
            ∃ E, edge_heap bp !! e = Some E ∧ same_shape E E').
  { intros e E' HE'. destruct (Forall2_lookup_r _ _ _ _ _ Hsh HE') as (E & HE & Hs).
    exists E; split; assumption. }
  assert (Hfwd : ∀ e E, edge_heap bp !! e = Some E →
            ∃ E', edge_heap bp' !! e = Some E' ∧ same_shape E E').
  { intros e E HE. destruct (Forall2_lookup_l _ _ _ _ _ Hsh HE) as (E' & HE' & Hs).
    exists E'; split; assumption. }
  constructor; try assumption.
  - intros e E' HE'. destruct (Hback _ _ HE') as (E & HE & Hs1 & Hs2 & _).
    rewrite Hv, Hs1, Hs2. exact (ok_ends _ Hok _ _ HE).
  - intros v V HV e'. rewrite Hv in HV. rewrite (ok_inc _ Hok v V HV e'). split.
    + intros (E & HE & Hi). destruct (Hfwd _ _ HE) as (E' & HE' & Hs1 & Hs2 & _).
      exists E'. split; [exact HE'|]. unfold incident in *. rewrite Hs1, Hs2. exact Hi.
    + intros (E' & HE' & Hi). destruct (Hback _ _ HE') as (E & HE & Hs1 & Hs2 & _).
      exists E. split; [exact HE|]. unfold incident in *. rewrite <- Hs1, <- Hs2. exact Hi.
  - intros e1 e2 E1' E2' H1 H2 Hends.
    destruct (Hback _ _ H1) as (E1 & HE1 & Ha1 & Ha2 & _).
    destruct (Hback _ _ H2) as (E2 & HE2 & Hb1 & Hb2 & _).
    eapply (ok_uniq _ Hok); [exact HE1 | exact HE2 |].
    unfold ends_are in *. rewrite <- Ha1, <- Ha2, <- Hb1, <- Hb2. exact Hends.
  - intros e E' HE'. destruct (Hback _ _ HE') as (E & HE & Hs1 & Hs2 & Hs3).
    destruct (ok_slot0 _ Hok _ _ HE) as (t & T & H0 & HT & Hh1 & Hh2).
    exists t, T. rewrite Ht, Hs1, Hs2, Hs3. auto.
Qed.

Lemma same_shape_refl E : same_shape E E.
Proof. repeat split. Qed.

Lemma Forall2_same_shape_insert es e E E' :
  es !! e = Some E → same_shape E E' →
  Forall2 same_shape es (<[e := E']> es).
Proof.
  intros HE Hs. apply Forall2_same_length_lookup. split.
  - rewrite length_insert. reflexivity.
  - intros i x y Hx Hy. apply list_lookup_insert_Some in Hy as [(-> & <- & _)|[_ Hy]].
    + congruence.
    + assert (x = y) by congruence. subst. apply same_shape_refl.
Qed.

(** Filling the second slot of a Front edge *)
Lemma core_ok_fill bp e E t :
  core_ok bp → edge_heap bp !! e = Some E → type_ E = Edge.Front →
  core_ok (with_edge_heap bp (<[e := fill_second E t]> (edge_heap bp))).
Proof.
  intros Hok HE Hty.
  apply (core_ok_reshape bp); try reflexivity; try assumption; simpl.
  - apply (Forall2_same_shape_insert _ _ E); [exact HE | repeat split].
  - intros e' E' HE'. apply list_lookup_insert_Some in HE' as [(-> & <- & _)|[_ HE']].
    + simpl. split; [discriminate | reflexivity].
    + exact (ok_type _ Hok _ _ HE').
  - exact (ok_border_nodup _ Hok).
  - intros e'. rewrite (ok_border _ Hok). split.
    + intros (E' & HE' & Hb). destruct (decide (e = e')) as [->|Hne].
      * congruence.
      * exists E'. rewrite list_lookup_insert_ne by exact Hne. auto.
    + intros (E' & HE' & Hb).
      apply list_lookup_insert_Some in HE' as [(-> & <- & _)|[_ HE']].
      * discriminate.
      * exists E'. auto.
  - intros e' He'. rewrite length_insert. exact (ok_front _ Hok _ He').
Qed.

(** Allocating an edge between two vertices that had none *)
Lemma core_ok_add bp va vb E' t T :
  core_ok bp → va ≠ vb →
  va < length (vertices bp) → vb < length (vertices bp) →
  (∀ e E, edge_heap bp !! e = Some E → ¬ ends_are E va vb) →
  ends_are E' va vb →
  triangle0_ E' = Some t → triangle1_ E' = None → type_ E' = Edge.Front →
  triangle_heap bp !! t = Some T → tri_has T va → tri_has T vb →
  core_ok (add_edge bp va vb E').
Proof.
  intros Hok Hne Ha Hb Hno Hends H0 H1 Hty HT Hta Htb.
  set (n := length (edge_heap bp)).
  assert (Hlk : ∀ e E, (edge_heap bp ++ [E']) !! e = Some E ↔
            edge_heap bp !! e = Some E ∨ (e = n ∧ E = E')).
  { intros e E. rewrite lookup_app_Some. split.
    - intros [?|[Hge Hs]]; [left; assumption|].
      apply list_lookup_singleton_Some in Hs as [Hz ->]. right. split; [|reflexivity].
      subst n. lia.
    - intros [?|[-> ->]]; [left; assumption|]. right. split; [subst n; lia|].
      subst n. rewrite Nat.sub_diag. reflexivity. }
  assert (Hlen : length (insert_edge (insert_edge (vertices bp) va n) vb n)
                 = length (vertices bp)).
  { rewrite !insert_edge_length. reflexivity. }
  assert (Hsrc : source_ E' < length (vertices bp) ∧ target_ E' < length (vertices bp)
                 ∧ source_ E' ≠ target_ E').
  { destruct Hends as [[-> ->]|[-> ->]]; auto. }
  constructor; unfold add_edge; simpl; fold n.
  - intros e E HE. rewrite Hlen. apply Hlk in HE as [HE|[-> ->]].
    + exact (ok_ends _ Hok _ _ HE).
    + exact Hsrc.
  - intros v V HV e.
    rewrite insert_edge_lookup in HV by (rewrite insert_edge_length; exact Hb).
    assert (Hold : ∀ V0, vertices bp !! v = Some V0 →
              (e ∈ edges_ V0 ∨ (e = n ∧ incident E' v)) ↔
              ∃ E, (edge_heap bp ++ [E']) !! e = Some E ∧ incident E v).
    { intros V0 HV0. rewrite (ok_inc _ Hok v V0 HV0 e). split.
      - intros [(E & HE & Hi)|[-> Hi]].
        + exists E. split; [apply Hlk; left; exact HE | exact Hi].
        + exists E'. split; [apply Hlk; right; auto | exact Hi].
      - intros (E & HE & Hi). apply Hlk in HE as [HE|[-> ->]].
        + left. exists E. auto.
        + right. auto. }
    destruct (decide (vb = v)) as [<-|Hnb].
    + injection HV as <-. simpl. rewrite set_insert_elem.
      assert (Hvb : vertex_at (insert_edge (vertices bp) va n) vb
                    = vertex_at (vertices bp) vb).
      { unfold vertex_at. rewrite insert_edge_lookup by exact Ha.
        destruct (decide (va = vb)); [contradiction|reflexivity]. }
      rewrite Hvb. rewrite <- (Hold _ (vertex_lookup_lt _ _ Hb)).
      split; [intros [?| ->]; [left; assumption|right; split; [reflexivity|]]
             | intros [?|[-> _]]; [left; assumption|right; reflexivity]].
      destruct Hends as [[? ?]|[? ?]]; [right|left]; assumption.
    + rewrite insert_edge_lookup in HV by exact Ha.
      destruct (decide (va = v)) as [<-|Hna].
      * injection HV as <-. simpl. rewrite set_insert_elem.
        rewrite <- (Hold _ (vertex_lookup_lt _ _ Ha)).
        split; [intros [?| ->]; [left; assumption|right; split; [reflexivity|]]
               | intros [?|[-> _]]; [left; assumption|right; reflexivity]].
        destruct Hends as [[? ?]|[? ?]]; [left|right]; assumption.
      * rewrite <- (Hold _ HV). split; [left; assumption|].
        intros [?|[_ Hi]]; [assumption|]. exfalso.
        destruct Hends as [[? ?]|[? ?]], Hi; congruence.
  - intros e1 e2 E1 E2 HE1 HE2 He.
    apply Hlk in HE1 as [HE1|[-> ->]]; apply Hlk in HE2 as [HE2|[-> ->]].
    + exact (ok_uniq _ Hok _ _ _ _ HE1 HE2 He).
    + exfalso. apply (Hno _ _ HE1). unfold ends_are in *.
      destruct Hends as [[? ?]|[? ?]], He as [[? ?]|[? ?]];
        first [left; split; congruence | right; split; congruence].
    + exfalso. apply (Hno _ _ HE2). unfold ends_are in *.
      destruct Hends as [[? ?]|[? ?]], He as [[? ?]|[? ?]];
        first [left; split; congruence | right; split; congruence].
    + reflexivity.
  - intros e E HE. apply Hlk in HE as [HE|[-> ->]].
    + exact (ok_slot0 _ Hok _ _ HE).
    + exists t, T. split; [exact H0|]. split; [exact HT|].
      destruct Hends as [[-> ->]|[-> ->]]; auto.
  - intros e E HE. apply Hlk in HE as [HE|[-> ->]].
    + exact (ok_type _ Hok _ _ HE).
    + rewrite Hty, H1. split; [discriminate | intros Hc; contradiction].
  - exact (ok_border_nodup _ Hok).
  - intros e. rewrite (ok_border _ Hok). split.
    + intros (E & HE & Hb'). exists E. split; [apply Hlk; left; exact HE | exact Hb'].
    + intros (E & HE & Hb'). apply Hlk in HE as [HE|[-> ->]].
      * exists E. auto.
      * congruence.
  - intros e He. rewrite length_app. pose proof (ok_front _ Hok _ He). lia.
Qed.

Lemma link_side_spec bp va vb t T :
  core_ok bp → va ≠ vb →
  va < length (vertices bp) → vb < length (vertices bp) →
  triangle_heap bp !! t = Some T → tri_has T va → tri_has T vb →
  (∀ e E, edge_heap bp !! e = Some E → ends_are E va vb →
     type_ E = Edge.Front ∧ triangle0_ E ≠ Some t) →
  ∃ bp', link_side bp va vb t = Ok bp' ∧ core_ok bp' ∧ link_post bp va vb t bp'.
Proof.
  intros Hok Hne Ha Hb HT Hta Htb Hpre.
  destruct (GetLinkingEdge bp va vb) as [e|] eqn:Hg.
  - (* the edge exists: its second slot is filled *)
    destruct (GetLinkingEdge_Some _ _ _ _ Hok Hne Ha Hb Hg) as (E & HE & Hends).
    destruct (Hpre _ _ HE Hends) as [Hty Hn0].
    destruct (ok_slot0 _ Hok _ _ HE) as (t0 & T0 & H0 & _).
    assert (H1 : triangle1_ E = None).
    { destruct (triangle1_ E) eqn:H1; [|reflexivity].
      assert (type_ E = Edge.Inner) by (apply (ok_type _ Hok _ _ HE); congruence).
      congruence. }
    assert (Hnt : t0 ≠ t) by congruence.
    eexists. split; [exact (link_side_existing _ _ _ _ _ _ _ Hok Hne Ha Hb HE Hends H0 Hnt H1)|].
    split; [exact (core_ok_fill _ _ _ t Hok HE Hty)|].
    constructor; simpl; try reflexivity.
    + repeat split.
    + intros v V HV. exists V. repeat split; auto.
    + intros e' E' HE' Hn. rewrite list_lookup_insert_ne; [exact HE'|].
      intros ->. assert (E' = E) by congruence. subst. contradiction.
    + intros e' E' HE' He'.
      assert (e' = e).
      { eapply (ok_uniq _ Hok); [exact HE' | exact HE |].
        unfold ends_are in *. destruct Hends as [[? ?]|[? ?]], He' as [[? ?]|[? ?]];
          first [left; split; congruence | right; split; congruence]. }
      subst e'. assert (E' = E) by congruence. subst E'.
      apply list_lookup_insert_eq. eapply lookup_lt_Some; exact HE.
    + intros e' E' Hnone HE'. exfalso.
      apply lookup_lt_Some in HE'. rewrite length_insert in HE'.
      apply lookup_ge_None in Hnone. lia.
    + exists e, (fill_second E t). split; [|split].
      * apply list_lookup_insert_eq. eapply lookup_lt_Some; exact HE.
      * exact Hends.
      * right. reflexivity.
  - (* no edge yet: one is allocated *)
    pose proof (GetLinkingEdge_None _ _ _ Hok Ha Hb Hg) as Hno.
    assert (Hcase : ∃ E', link_side bp va vb t = Ok (add_edge bp va vb E')
              ∧ ends_are E' va vb ∧ fresh_edge t E').
    { destruct (link_side_new bp va vb t Hg) as [H|H]; eexists; (split; [exact H|]);
        (split; [|repeat split]); [left | right]; split; reflexivity. }
    destruct Hcase as (E' & Hl & Hends & Hf0 & Hf1 & Hfty).
    exists (add_edge bp va vb E'). split; [exact Hl|].
    split; [exact (core_ok_add _ _ _ _ _ _ Hok Hne Ha Hb Hno Hends Hf0 Hf1 Hfty HT Hta Htb)|].
    constructor; unfold add_edge; simpl; try reflexivity.
    + repeat split.
    + rewrite !insert_edge_length. reflexivity.
    + intros v V HV.
      rewrite insert_edge_lookup by (rewrite insert_edge_length; exact Hb).
      destruct (decide (vb = v)) as [<-|Hnb].
      * eexists. split; [reflexivity|]. split; [|intros _ Hc; contradiction].
        assert (Hvb : vertex_at (insert_edge (vertices bp) va (length (edge_heap bp))) vb = V).
        { apply vertex_at_lookup. rewrite insert_edge_lookup by exact Ha.
          destruct (decide (va = vb)); [contradiction|exact HV]. }
        rewrite Hvb. repeat split.
      * rewrite insert_edge_lookup by exact Ha.
        destruct (decide (va = v)) as [<-|Hna].
        -- eexists. split; [reflexivity|]. split; [|intros Hc; contradiction].
           rewrite (vertex_at_lookup _ _ _ HV). repeat split.
        -- exists V. repeat split; auto.
    + intros e E HE _. apply lookup_app_l_Some. exact HE.
    + intros e E HE He. exfalso. exact (Hno _ _ HE He).
    + intros e E'' Hnone HE''. apply lookup_app_Some in HE'' as [HE''|[_ HE'']].
      * congruence.
      * apply list_lookup_singleton_Some in HE'' as [_ <-].
        split; [exact Hends | repeat split; assumption].
    + exists (length (edge_heap bp)), E'. split; [|split].
      * rewrite lookup_app_r by lia. rewrite Nat.sub_diag. reflexivity.
      * exact Hends.
      * left. exact Hf0.
Qed.

#[local] Instance ends_are_dec E a b : Decision (ends_are E a b).
Proof. unfold ends_are. apply _. Defined.

Ltac ends_tac :=
  unfold ends_are, fill_second in *; simpl in *;
  repeat match goal with
         | H : _ ∧ _ |- _ => destruct H
         | H : _ ∨ _ |- _ => destruct H
         end;
  first [congruence | lia
        | left; split; congruence | right; split; congruence
        | exfalso; congruence ].

Lemma core_ok_alloc_triangle bp T :
  core_ok bp → core_ok (with_triangle_heap bp (triangle_heap bp ++ [T])).
Proof.
  intros Hok. constructor; simpl; try (apply Hok).
  intros e E HE. destruct (ok_slot0 _ Hok _ _ HE) as (t & T0 & H0 & HT & Hh).
  exists t, T0. split; [exact H0|]. split; [|exact Hh].
  apply lookup_app_l_Some. exact HT.
Qed.

Lemma core_ok_vertices bp vs' :
  core_ok bp →
  Forall2 (λ V V', edges_ V' = edges_ V) (vertices bp) vs' →
  core_ok (with_vertices bp vs').
Proof.
  intros Hok Hf.
  pose proof (Forall2_length _ _ _ Hf) as Hlen.
  constructor; simpl; try (apply Hok).
  - intros e E HE. rewrite <- Hlen. exact (ok_ends _ Hok _ _ HE).
  - intros v V' HV' e.
    destruct (Forall2_lookup_r _ _ _ _ _ Hf HV') as (V & HV & Heq).
    rewrite Heq. exact (ok_inc _ Hok v V HV e).
Qed.

Lemma UpdateType_edges es V : edges_ (UpdateType es V) = edges_ V.
Proof. unfold UpdateType. destruct V as [? ? ? l ?]; simpl. destruct l; reflexivity. Qed.

Lemma Forall2_insert_same {A} (R : A → A → Prop) (l : list A) i x :
  (∀ y, R y y) → (∀ y, l !! i = Some y → R y x) → Forall2 R l (<[i := x]> l).
Proof.
  intros Hrefl Hx. apply Forall2_same_length_lookup. split.
  - rewrite length_insert. reflexivity.
  - intros j a b Ha Hb. apply list_lookup_insert_Some in Hb as [(-> & <- & _)|[_ Hb]].
    + apply Hx. exact Ha.
    + assert (a = b) by congruence. subst. apply Hrefl.
Qed.

Lemma core_ok_update_type bp v : core_ok bp → core_ok (update_type bp v).
Proof.
  intros Hok. unfold update_type. apply core_ok_vertices; [exact Hok|].
  apply Forall2_insert_same; [reflexivity|].
  intros V HV. rewrite (vertex_at_lookup _ _ _ HV). apply UpdateType_edges.
Qed.

Lemma core_ok_with_mesh bp m n : core_ok bp → core_ok (with_mesh bp m n).
Proof. intros Hok. constructor; simpl; apply Hok. Qed.

Lemma core_ok_with_edge_front bp q :
  core_ok bp → (∀ e, e ∈ q → e < length (edge_heap bp)) →
  core_ok (with_edge_front bp q).
Proof. intros Hok Hq. constructor; simpl; try apply Hok. exact Hq. Qed.

Lemma links_post_start bp t : links_post bp (λ _, False) (λ _, False) t bp.
Proof.
  constructor; try reflexivity.
  - repeat split.
  - intros v V HV. exists V. repeat split; auto.
  - intros e E HE _. exact HE.
  - intros e E _ [].
  - intros e E' H1 H2. congruence.
Qed.

Lemma same_vertex_trans V1 V2 V3 :
  same_vertex V1 V2 → same_vertex V2 V3 → same_vertex V1 V3.
Proof. unfold same_vertex. intros (?&?&?&?) (?&?&?&?). repeat split; congruence. Qed.

Lemma links_post_step bp P Q t bp1 va vb bp2 :
  (∀ E, Decision (P E)) →
  (∀ E E', source_ E' = source_ E → target_ E' = target_ E → P E → P E') →
  (∀ E, P E → ¬ ends_are E va vb) →
  links_post bp P Q t bp1 →
  link_post bp1 va vb t bp2 →
  links_post bp (λ E, P E ∨ ends_are E va vb) (λ v, Q v ∨ v = va ∨ v = vb) t bp2.
Proof.
  intros Hdec Hext Hdis H1 H2. constructor.
  - rewrite (lp_ts _ _ _ _ _ H2). exact (ls_ts _ _ _ _ _ H1).
  - destruct (lp_lists _ _ _ _ _ H2) as (?&?&?&?&?).
    destruct (ls_lists _ _ _ _ _ H1) as (?&?&?&?&?).
    repeat split; congruence.
  - rewrite (lp_len _ _ _ _ _ H2). exact (ls_len _ _ _ _ _ H1).
  - intros v V HV.
    destruct (ls_vtx _ _ _ _ _ H1 v V HV) as (V1 & HV1 & Hs1 & Hq1).
    destruct (lp_vtx _ _ _ _ _ H2 v V1 HV1) as (V2 & HV2 & Hs2 & Hq2).
    exists V2. split; [exact HV2|]. split; [exact (same_vertex_trans _ _ _ Hs1 Hs2)|].
    intros Hn. rewrite Hq2 by (intros ->; apply Hn; auto).
    apply Hq1. intros Hq. apply Hn. auto.
  - intros e E HE Hn.
    apply (lp_other _ _ _ _ _ H2); [|intros Hc; apply Hn; auto].
    apply (ls_other _ _ _ _ _ H1); [exact HE|]. intros Hc; apply Hn; auto.
  - intros e E HE [HP|Hends].
    + apply (lp_other _ _ _ _ _ H2).
      * apply (ls_filled _ _ _ _ _ H1); assumption.
      * apply Hdis. apply (Hext E); [reflexivity | reflexivity | exact HP].
    + destruct (decide (P E)) as [HP|HnP].
      * exfalso. exact (Hdis _ HP Hends).
      * apply (lp_filled _ _ _ _ _ H2); [|exact Hends].
        apply (ls_other _ _ _ _ _ H1); assumption.
  - intros e E' Hnone HE'.
    destruct (edge_heap bp1 !! e) as [E1|] eqn:HE1.
    + destruct (ls_new _ _ _ _ _ H1 e E1 Hnone HE1) as [HP Hf].
      pose proof (lp_other _ _ _ _ _ H2 e E1 HE1 (Hdis _ HP)) as Hsame.
      assert (E' = E1) by congruence. subst. split; [left; exact HP | exact Hf].
    + destruct (lp_new _ _ _ _ _ H2 e E' HE1 HE') as [Hends Hf].
      split; [right; exact Hends | exact Hf].
Qed.

Lemma side_linked_other es es' t a b :
  side_linked es t a b →
  (∀ e E, es !! e = Some E → ends_are E a b → es' !! e = Some E) →
  side_linked es' t a b.
Proof.
  intros (e & E & HE & Hends & Hl) Hkeep. exists e, E.
  split; [exact (Hkeep _ _ HE Hends)|]. split; assumption.
Qed.

Lemma links_post_pre bp P Q t bp1 va vb (R : BallPivotingEdge → Prop) :
  (∀ E, Decision (P E)) →
  (∀ E E', source_ E' = source_ E → target_ E' = target_ E → P E → P E') →
  (∀ E, P E → ¬ ends_are E va vb) →
  links_post bp P Q t bp1 →
  (∀ e E, edge_heap bp !! e = Some E → ends_are E va vb → R E) →
  ∀ e E, edge_heap bp1 !! e = Some E → ends_are E va vb → R E.
Proof.
  intros Hdec Hext Hdis H1 Hold e E HE Hends.
  destruct (edge_heap bp !! e) as [E0|] eqn:HE0.
  - destruct (decide (P E0)) as [HP|HnP].
    + pose proof (ls_filled _ _ _ _ _ H1 e E0 HE0 HP) as Hf.
      assert (E = fill_second E0 t) by congruence. subst E.
      exfalso. apply (Hdis (fill_second E0 t)); [|exact Hends].
      apply (Hext E0); [reflexivity | reflexivity | exact HP].
    + pose proof (ls_other _ _ _ _ _ H1 e E0 HE0 HnP) as Hf.
      assert (E = E0) by congruence. subst E. exact (Hold _ _ HE0 Hends).
  - destruct (ls_new _ _ _ _ _ H1 e E HE0 HE) as [HP _].
    exfalso. exact (Hdis _ HP Hends).
Qed.

Lemma UpdateType_orphan_iff es V : orphan_iff (UpdateType es V).
Proof.
  unfold orphan_iff, UpdateType. destruct V as [i p n l ty]; simpl.
  destruct l as [|e l]; simpl; [split; reflexivity|].
  split; [|discriminate]. intros H. exfalso.
  destruct (decide _); [discriminate|].
  clear -H. induction l as [|a l IH]; simpl in H; [discriminate|].
  destruct (decide _); [discriminate | auto].
Qed.

Lemma UpdateType_same es V :
  idx_ (UpdateType es V) = idx_ V ∧ point_ (UpdateType es V) = point_ V
  ∧ normal_ (UpdateType es V) = normal_ V.
Proof. unfold UpdateType. destruct V as [i p n l ty]; simpl. destruct l; repeat split. Qed.

Lemma update_type_lookup bp v w V :
  vertices bp !! w = Some V →
  ∃ V', vertices (update_type bp v) !! w = Some V'
        ∧ idx_ V' = idx_ V ∧ point_ V' = point_ V ∧ normal_ V' = normal_ V
        ∧ edges_ V' = edges_ V
        ∧ (w ≠ v → V' = V) ∧ (w = v → orphan_iff V').
Proof.
  intros HV. unfold update_type; simpl.
  destruct (decide (v = w)) as [->|Hne].
  - eexists. split; [apply list_lookup_insert_eq; eapply lookup_lt_Some; exact HV|].
    rewrite (vertex_at_lookup _ _ _ HV).
    destruct (UpdateType_same (edge_heap bp) V) as (?&?&?).
    repeat split; try assumption.
    + apply UpdateType_edges.
    + intros Hc; contradiction.
    + apply UpdateType_orphan_iff.
    + apply UpdateType_orphan_iff.
  - exists V. rewrite list_lookup_insert_ne by exact Hne.
    repeat split; auto; intros; congruence.
Qed.

Lemma CreateTriangle_spec bp v0 v1 v2 c :
  core_ok bp → v0 ≠ v1 → v1 ≠ v2 → v2 ≠ v0 →
  v0 < length (vertices bp) → v1 < length (vertices bp) →
  v2 < length (vertices bp) →
  (∀ e E, edge_heap bp !! e = Some E → on_side v0 v1 v2 E →
     type_ E = Edge.Front) →
  ∃ bp', CreateTriangle bp v0 v1 v2 c = Ok bp' ∧ core_ok bp'
         ∧ create_post bp v0 v1 v2 c bp'.
Proof.
  intros Hok H01 H12 H20 Hr0 Hr1 Hr2 Hfront.
  set (t := length (triangle_heap bp)).
  set (T := mkTriangle v0 v1 v2 c).
  set (bp0 := with_triangle_heap bp (triangle_heap bp ++ [T])).
  assert (Hok0 : core_ok bp0) by (apply core_ok_alloc_triangle; exact Hok).
  assert (HT : triangle_heap bp0 !! t = Some T).
  { simpl. rewrite lookup_app_r by (subst t; lia).
    subst t. rewrite Nat.sub_diag. reflexivity. }
  assert (Hpre : ∀ e E, edge_heap bp0 !! e = Some E → on_side v0 v1 v2 E →
             type_ E = Edge.Front ∧ triangle0_ E ≠ Some t).
  { intros e E HE Hs. split; [exact (Hfront _ _ HE Hs)|].
    destruct (ok_slot0 _ Hok _ _ HE) as (t0 & T0 & H0 & HT0 & _).
    apply lookup_lt_Some in HT0. rewrite H0. intros [= ->]. subst t. lia. }
  (* first side *)
  destruct (link_side_spec bp0 v0 v1 t T Hok0 H01 Hr0 Hr1 HT)
    as (bp1 & Hl1 & Hok1 & L1); [left; reflexivity | right; left; reflexivity | |].
  { intros e E HE He. apply (Hpre _ _ HE). left. exact He. }
  assert (A1 : links_post bp0 (λ E, False ∨ ends_are E v0 v1)
                 (λ v, False ∨ v = v0 ∨ v = v1) t bp1).
  { apply (links_post_step bp0 (λ _, False) (λ _, False) t bp0 v0 v1 bp1);
      [intros; apply _ | intros ? ? _ _ [] | intros ? [] | apply links_post_start
      | exact L1]. }
  set (P1 := λ E, False ∨ ends_are E v0 v1) in A1.
  assert (Hdec1 : ∀ E, Decision (P1 E)) by (intros E; unfold P1; apply _).
  assert (Hext1 : ∀ E E', source_ E' = source_ E → target_ E' = target_ E → P1 E → P1 E').
  { intros E E' Hs Ht [[]|He]. right. unfold ends_are in *. rewrite Hs, Ht. exact He. }
  assert (Hdis1 : ∀ E, P1 E → ¬ ends_are E v1 v2).
  { intros E [[]|He] He'. ends_tac. }
  (* second side *)
  assert (Hlen1 : length (vertices bp1) = length (vertices bp)).
  { rewrite (lp_len _ _ _ _ _ L1). reflexivity. }
  assert (HT1 : triangle_heap bp1 !! t = Some T).
  { rewrite (lp_ts _ _ _ _ _ L1). exact HT. }
  destruct (link_side_spec bp1 v1 v2 t T Hok1 H12) as (bp2 & Hl2 & Hok2 & L2);
    [rewrite Hlen1; exact Hr1 | rewrite Hlen1; exact Hr2 | exact HT1
    | right; left; reflexivity | right; right; reflexivity | |].
  { apply (links_post_pre bp0 P1 _ t bp1 v1 v2 _ Hdec1 Hext1 Hdis1 A1).
    intros e E HE He. apply (Hpre _ _ HE). right; left. exact He. }
  pose proof (links_post_step bp0 _ _ t bp1 v1 v2 bp2 Hdec1 Hext1 Hdis1 A1 L2) as A2.
  set (P2 := λ E, P1 E ∨ ends_are E v1 v2) in A2.
  assert (Hdec2 : ∀ E, Decision (P2 E)) by (intros E; unfold P2; apply _).
  assert (Hext2 : ∀ E E', source_ E' = source_ E → target_ E' = target_ E → P2 E → P2 E').
  { intros E E' Hs Ht [HP|He]; [left; exact (Hext1 _ _ Hs Ht HP)|].
    right. unfold ends_are in *. rewrite Hs, Ht. exact He. }
  assert (Hdis2 : ∀ E, P2 E → ¬ ends_are E v2 v0).
  { intros E [[[]|He]|He] He'; ends_tac. }
  (* third side *)
  assert (Hlen2 : length (vertices bp2) = length (vertices bp)).
  { rewrite (lp_len _ _ _ _ _ L2). exact Hlen1. }
  assert (HT2 : triangle_heap bp2 !! t = Some T).
  { rewrite (lp_ts _ _ _ _ _ L2). exact HT1. }
  destruct (link_side_spec bp2 v2 v0 t T Hok2 H20) as (bp3 & Hl3 & Hok3 & L3);
    [rewrite Hlen2; exact Hr2 | rewrite Hlen2; exact Hr0 | exact HT2
    | right; right; reflexivity | left; reflexivity | |].
  { apply (links_post_pre bp0 P2 _ t bp2 v2 v0 _ Hdec2 Hext2 Hdis2 A2).
    intros e E HE He. apply (Hpre _ _ HE). right; right. exact He. }
  pose proof (links_post_step bp0 _ _ t bp2 v2 v0 bp3 Hdec2 Hext2 Hdis2 A2 L3) as A3.
  assert (Hlen3 : length (vertices bp3) = length (vertices bp)).
  { rewrite (lp_len _ _ _ _ _ L3). exact Hlen2. }
  (* the result *)
  unfold CreateTriangle, BallPivotingTriangle_new. fold t T bp0. rewrite Hl1. simpl. rewrite Hl2. simpl.
  rewrite Hl3. simpl.
  set (u0 := update_type bp3 v0). set (u1 := update_type u0 v1).
  set (u2 := update_type u1 v2).
  eexists. split; [reflexivity|].
  assert (Hoku : core_ok u2) by (repeat apply core_ok_update_type; exact Hok3).
  split; [apply core_ok_with_mesh; exact Hoku|].
  destruct (ls_lists _ _ _ _ _ A3) as (Hf & Hb & Hm & Hmn & Hn). simpl in *.
  assert (Hside : ∀ E, on_side v0 v1 v2 E ↔ (P2 E ∨ ends_are E v2 v0)).
  { intros E. unfold on_side, P2, P1. tauto. }
  constructor; simpl.
  - exact (ls_ts _ _ _ _ _ A3).
  - exact Hf.
  - exact Hb.
  - exact Hn.
  - eexists. rewrite Hm. split; [reflexivity|].
    unfold emitted. simpl. destruct (dltb _ _); [left|right]; reflexivity.
  - rewrite !length_insert. exact Hlen3.
  - intros v V HV.
    destruct (ls_vtx _ _ _ _ _ A3 v V HV) as (V3 & HV3 & (Hi3 & Hp3 & Hn3 & _) & Hq3).
    destruct (update_type_lookup bp3 v0 v V3 HV3)
      as (Va & HVa & Hia & Hpa & Hna & Hea & Hqa & Hoa). fold u0 in HVa.
    destruct (update_type_lookup u0 v1 v Va HVa)
      as (Vb & HVb & Hib & Hpb & Hnb & Heb & Hqb & Hob). fold u1 in HVb.
    destruct (update_type_lookup u1 v2 v Vb HVb)
      as (Vc & HVc & Hic & Hpc & Hnc & Hec & Hqc & Hoc). fold u2 in HVc.
    exists Vc. split; [exact HVc|].
    split; [congruence|]. split; [congruence|]. split; [congruence|]. split.
    + intros N0 N1 N2. rewrite (Hqc N2), (Hqb N1), (Hqa N0).
      apply Hq3. intros [[[[]|[?|?]]|[?|?]]|[?|?]]; congruence.
    + intros Hv. destruct (decide (v = v2)) as [E2|N2]; [exact (Hoc E2)|].
      rewrite (Hqc N2). destruct (decide (v = v1)) as [E1|N1]; [exact (Hob E1)|].
      rewrite (Hqb N1). apply Hoa. destruct Hv as [?|[?|?]]; congruence.
  - intros e E HE Hns. apply (ls_other _ _ _ _ _ A3 e E HE).
    intros Hc. apply Hns. apply Hside. exact Hc.
  - intros e E HE Hs. apply (ls_filled _ _ _ _ _ A3 e E HE). apply Hside. exact Hs.
  - intros e E' Hnone HE'.
    destruct (ls_new _ _ _ _ _ A3 e E' Hnone HE') as [HP Hfr].
    split; [apply Hside; exact HP | exact Hfr].
  - split; [|split].
    + apply (side_linked_other (edge_heap bp2)).
      * apply (side_linked_other (edge_heap bp1)); [exact (lp_linked _ _ _ _ _ L1)|].
        intros e E HE He. apply (lp_other _ _ _ _ _ L2 e E HE). intros He'. ends_tac.
      * intros e E HE He. apply (lp_other _ _ _ _ _ L3 e E HE). intros He'. ends_tac.
    + apply (side_linked_other (edge_heap bp2)); [exact (lp_linked _ _ _ _ _ L2)|].
      intros e E HE He. apply (lp_other _ _ _ _ _ L3 e E HE). intros He'. ends_tac.
    + exact (lp_linked _ _ _ _ _ L3).
Qed.

Lemma ends_are_sym E a b : ends_are E a b → ends_are E b a.
Proof. unfold ends_are. tauto. Qed.

Lemma side_linked_sym es t a b : side_linked es t a b → side_linked es t b a.
Proof.
  intros (e & E & HE & He & Hl). exists e, E.
  split; [exact HE|]. split; [apply ends_are_sym; exact He | exact Hl].
Qed.

(** Any two vertices of a stored triangle are joined by an edge that
    lists it. *)
Lemma tri_side bp t T a b :
  tri_ok bp → triangle_heap bp !! t = Some T →
  tri_has T a → tri_has T b → a ≠ b →
  side_linked (edge_heap bp) t a b.
Proof.
  intros Hok HT Ha Hb Hne.
  destruct (ok_tri _ Hok _ _ HT) as (_ & _ & S01 & S12 & S20).
  unfold tri_has in *.
  destruct Ha as [<-|[<-|<-]], Hb as [<-|[<-|<-]]; try contradiction;
    first [assumption | apply side_linked_sym; assumption].
Qed.

Lemma Front_slot1 bp e E :
  core_ok bp → edge_heap bp !! e = Some E → type_ E ≠ Edge.Inner →
  triangle1_ E = None.
Proof.
  intros Hok HE Hty. destruct (triangle1_ E) eqn:H1; [|reflexivity].
  exfalso. apply Hty. apply (ok_type _ Hok _ _ HE). congruence.
Qed.

Lemma CreateTriangle_tri_ok bp v0 v1 v2 c bp' :
  Inv bp → core_ok bp' →
  v0 ≠ v1 → v1 ≠ v2 → v2 ≠ v0 →
  v0 < length (vertices bp) → v1 < length (vertices bp) →
  v2 < length (vertices bp) →
  (∀ e E, edge_heap bp !! e = Some E → on_side v0 v1 v2 E →
     type_ E = Edge.Front) →
  (∀ t T, triangle_heap bp !! t = Some T →
     ¬ (tri_has T v0 ∧ tri_has T v1 ∧ tri_has T v2)) →
  create_post bp v0 v1 v2 c bp' →
  tri_ok bp'.
Proof.
  intros [Hok Htri] Hok' H01 H12 H20 Hr0 Hr1 Hr2 Hfront Hnodup Hp.
  set (t := length (triangle_heap bp)) in *.
  assert (Hlk : ∀ t' T', triangle_heap bp' !! t' = Some T' ↔
            triangle_heap bp !! t' = Some T'
            ∨ (t' = t ∧ T' = mkTriangle v0 v1 v2 c)).
  { intros t' T'. rewrite (cp_ts _ _ _ _ _ _ Hp), lookup_app_Some. split.
    - intros [?|[Hge Hs]]; [left; assumption|].
      apply list_lookup_singleton_Some in Hs as [Hz <-]. right.
      split; [subst t; lia | reflexivity].
    - intros [?|[-> ->]]; [left; assumption|]. right. split; [subst t; lia|].
      subst t. rewrite Nat.sub_diag. reflexivity. }
  assert (Hkeep : ∀ t' a b, t' ≠ t ∨ True →
            (∃ T', triangle_heap bp !! t' = Some T') →
            side_linked (edge_heap bp) t' a b →
            side_linked (edge_heap bp') t' a b).
  { intros t' a b _ _ (e & E & HE & He & Hl).
    destruct (decide (on_side v0 v1 v2 E)) as [Hs|Hns].
    - exists e, (fill_second E t). split; [exact (cp_filled _ _ _ _ _ _ Hp e E HE Hs)|].
      split; [exact He|].
      pose proof (Hfront _ _ HE Hs) as Hty.
      assert (H1 : triangle1_ E = None)
        by (apply (Front_slot1 bp e E Hok HE); rewrite Hty; discriminate).
      destruct Hl as [Hl|Hl]; [left; exact Hl | congruence].
    - exists e, E. split; [exact (cp_other _ _ _ _ _ _ Hp e E HE Hns)|].
      split; assumption. }
  constructor.
  - intros t' T' HT'. apply Hlk in HT' as [HT'|[-> ->]].
    + destruct (ok_tri _ Htri _ _ HT') as (Hd & Hrange & S01 & S12 & S20).
      split; [exact Hd|]. split; [rewrite (cp_len _ _ _ _ _ _ Hp); exact Hrange|].
      repeat split; apply Hkeep; eauto.
    + split; [repeat split; assumption|]. split.
      * rewrite (cp_len _ _ _ _ _ _ Hp). intros v [<-|[<-|<-]]; assumption.
      * exact (cp_linked _ _ _ _ _ _ Hp).
  - intros t1 t2 T1 T2 HT1 HT2 Hsame.
    apply Hlk in HT1 as [HT1|[-> ->]]; apply Hlk in HT2 as [HT2|[-> ->]].
    + exact (ok_tri_uniq _ Htri _ _ _ _ HT1 HT2 Hsame).
    + exfalso. apply (Hnodup _ _ HT1).
      repeat split; apply Hsame; unfold tri_has; simpl; auto.
    + exfalso. apply (Hnodup _ _ HT2).
      repeat split; apply Hsame; unfold tri_has; simpl; auto.
    + reflexivity.
  - destruct (cp_mesh _ _ _ _ _ _ Hp) as (m & -> & Hm).
    rewrite (cp_ts _ _ _ _ _ _ Hp). apply Forall2_app; [exact (ok_mesh _ Htri)|].
    constructor; [exact Hm | constructor].
  - intros v V' HV'.
    assert (Hlt : v < length (vertices bp)).
    { rewrite <- (cp_len _ _ _ _ _ _ Hp). eapply lookup_lt_Some; exact HV'. }
    destruct (lookup_lt_is_Some_2 _ _ Hlt) as [V HV].
    destruct (cp_vtx _ _ _ _ _ _ Hp v V HV) as (V2 & HV2 & _ & _ & _ & Hkeepv & Horph).
    assert (V2 = V') by congruence. subst V2.
    destruct (decide (v = v0 ∨ v = v1 ∨ v = v2)) as [Hin|Hout].
    + exact (Horph Hin).
    + rewrite Hkeepv by (intros ->; apply Hout; auto).
      exact (ok_orphan _ Htri v V HV).
Qed.

(** GetOppositeVertex on a well-formed edge is the third vertex of the
    triangle in its first slot. *)
Lemma GetOppositeVertex_third ts E t T :
  triangle0_ E = Some t → ts !! t = Some T → tri_distinct T →
  tri_has T (source_ E) → tri_has T (target_ E) → source_ E ≠ target_ E →
  ∃ opp, GetOppositeVertex ts E = Some opp
         ∧ opp ≠ source_ E ∧ opp ≠ target_ E ∧ tri_has T opp
         ∧ ∀ v, tri_has T v → v = source_ E ∨ v = target_ E ∨ v = opp.
Proof.
  intros H0 HT (D01 & D12 & D20) Hs Ht Hne.
  unfold GetOppositeVertex. rewrite H0, (triangle_at_lookup _ _ _ HT).
  unfold tri_has in *.
  destruct (Nat.eqb_spec (vert0_ T) (source_ E)) as [E0s|N0s];
    destruct (Nat.eqb_spec (vert0_ T) (target_ E)) as [E0t|N0t];
    destruct (Nat.eqb_spec (vert1_ T) (source_ E)) as [E1s|N1s];
    destruct (Nat.eqb_spec (vert1_ T) (target_ E)) as [E1t|N1t]; simpl;
    try (exfalso; congruence);
    eexists; (split; [reflexivity|]);
    (split; [try congruence; destruct Hs as [?|[?|?]], Ht as [?|[?|?]]; congruence|]);
    (split; [try congruence; destruct Hs as [?|[?|?]], Ht as [?|[?|?]]; congruence|]);
    (split; [auto|]);
    intros v [<-|[<-|<-]]; auto;
    destruct Hs as [?|[?|?]], Ht as [?|[?|?]]; auto; congruence.
Qed.

End Invariant.

Section Candidate.
Context {D : Type} {AR : Arith D}.
Variable SearchRadius : Vector3d D → D → list nat.
Variable PointsCoplanar :
  Vector3d D → Vector3d D → Vector3d D → Vector3d D → bool.
Variable LineSegmentsMinimumDistance :
  Vector3d D → Vector3d D → Vector3d D → Vector3d D → D.
Variable acos : D → D.

Local Abbreviation body := (FindCandidateVertex_body PointsCoplanar LineSegmentsMinimumDistance acos).

Lemma FindCandidateVertex_body_good vs src tgt opp mp a v radius indices seen st nbidx :
  good_candidate src tgt opp seen st →
  good_candidate src tgt opp (seen ++ [nbidx])
    (body vs src tgt opp mp a v radius indices st nbidx).
Proof.
  intros Hg.
  assert (Hmono : good_candidate src tgt opp (seen ++ [nbidx]) st).
  { destruct st as [[[c|] ang] ctr]; simpl in *; [|exact I].
    destruct Hg as (? & ? & ? & ? & ?). repeat split; try assumption.
    apply elem_of_app. left. assumption. }
  unfold FindCandidateVertex_body. destruct st as [[mc ang] ctr].
  destruct (Nat.eqb_spec nbidx src) as [|Ns]; simpl; [exact Hmono|].
  destruct (Nat.eqb_spec nbidx tgt) as [|Nt]; simpl; [exact Hmono|].
  destruct (Nat.eqb_spec nbidx opp) as [|No]; simpl; [exact Hmono|].
  destruct (_ && _); [exact Hmono|].
  destruct (ComputeBallCenter _ _ _ _ _); [|exact Hmono].
  destruct (dleb _ _); [exact Hmono|].
  destruct (empty_ball_loop _ _ _ _ _ _ _); [|exact Hmono].
  simpl. repeat split; try assumption; [|eexists; reflexivity].
  apply elem_of_app. right. apply list_elem_of_singleton. reflexivity.
Qed.

Lemma fold_body_good vs src tgt opp mp a v radius indices l seen st :
  good_candidate src tgt opp seen st →
  good_candidate src tgt opp (seen ++ l)
    (fold_left (body vs src tgt opp mp a v radius indices) l st).
Proof.
  revert seen st. induction l as [|x l IH]; intros seen st Hg; simpl.
  - rewrite app_nil_r. exact Hg.
  - replace (seen ++ x :: l) with ((seen ++ [x]) ++ l)
      by (rewrite <- app_assoc; reflexivity).
    apply IH. apply FindCandidateVertex_body_good. exact Hg.
Qed.

(** FindCandidateVertex never proposes an end of the edge or the vertex
    opposite to it, and proposes only what the radius search returned. *)
Lemma FindCandidateVertex_found bp edge radius c ctr :
  FindCandidateVertex SearchRadius PointsCoplanar LineSegmentsMinimumDistance
    acos bp edge radius = Ok (Some (c, ctr)) →
  ∃ opp mp r2,
    GetOppositeVertex (triangle_heap bp) (edge_at (edge_heap bp) edge) = Some opp
    ∧ c ∈ SearchRadius mp r2
    ∧ c ≠ source_ (edge_at (edge_heap bp) edge)
    ∧ c ≠ target_ (edge_at (edge_heap bp) edge) ∧ c ≠ opp.
Proof.
  unfold FindCandidateVertex. intros H.
  set (E := edge_at (edge_heap bp) edge) in *.
  destruct (GetOppositeVertex (triangle_heap bp) E) as [opp|] eqn:Hopp; [|discriminate].
  destruct (triangle0_ E) as [t0|]; [|discriminate].
  match type of H with
  | context [fold_left (FindCandidateVertex_body _ _ _ _ _ _ _ ?mp ?a ?v _ ?ind) ?l ?s] =>
      pose proof (fold_body_good (vertices bp) (source_ E) (target_ E) opp
                    mp a v radius ind l [] s I) as Hg;
      destruct (fold_left (body (vertices bp) (source_ E) (target_ E) opp
                             mp a v radius ind) l s) as [[mc ang] mctr]
  end.
  destruct mc as [c'|]; [|discriminate].
  destruct mctr as [ctr'|]; [|discriminate].
  injection H as -> ->. simpl in Hg. destruct Hg as (Hin & Hs & Ht & Ho & _).
  eexists opp, _, _. split; [reflexivity|]. split; [exact Hin|]. auto.
Qed.

Lemma FindCandidateVertex_Ok bp edge radius t0 :
  triangle0_ (edge_at (edge_heap bp) edge) = Some t0 →
  ∃ found, FindCandidateVertex SearchRadius PointsCoplanar
             LineSegmentsMinimumDistance acos bp edge radius = Ok found.
Proof.
  intros H0. unfold FindCandidateVertex.
  destruct (GetOppositeVertex_Some (triangle_heap bp) _ t0 H0) as [opp ->].
  rewrite H0.
  match goal with
  | |- context [fold_left ?f ?l ?s] => destruct (fold_left f l s) as [[mc ang] mctr]
  end.
  destruct mc, mctr; eexists; reflexivity.
Qed.

End Candidate.

Section Measure.
Context {D : Type} {AR : Arith D}.
Implicit Types (bp : BallPivoting D) (E : BallPivotingEdge)
  (T : BallPivotingTriangle D) (V : BallPivotingVertex D)
  (vs : list (BallPivotingVertex D)) (es : list BallPivotingEdge)
  (ts : list (BallPivotingTriangle D)).

Lemma inner_ids_elem es e :
  e ∈ inner_ids es ↔ ∃ E, es !! e = Some E ∧ type_ E = Edge.Inner.
Proof.
  unfold inner_ids. rewrite list_elem_of_filter, elem_of_seq. split.
  - intros [Hty [_ Hlt]]. simpl in Hlt.
    destruct (lookup_lt_is_Some_2 es e Hlt) as [E HE].
    exists E. split; [exact HE|]. rewrite (edge_at_lookup _ _ _ HE) in Hty. exact Hty.
  - intros (E & HE & Hty). rewrite (edge_at_lookup _ _ _ HE).
    split; [exact Hty|]. apply lookup_lt_Some in HE. lia.
Qed.

Lemma inner_ids_NoDup es : NoDup (inner_ids es).
Proof. unfold inner_ids. apply NoDup_filter, NoDup_seq. Qed.

Lemma inner_ids_length es : length (inner_ids es) ≤ length es.
Proof.
  unfold inner_ids. etransitivity; [apply length_filter|].
  rewrite length_seq. reflexivity.
Qed.

Lemma inner_ids_mono es es' :
  (∀ e E, es !! e = Some E → type_ E = Edge.Inner →
     ∃ E', es' !! e = Some E' ∧ type_ E' = Edge.Inner) →
  length (inner_ids es) ≤ length (inner_ids es').
Proof.
  intros H. apply submseteq_length, NoDup_submseteq; [apply inner_ids_NoDup|].
  intros e He. apply inner_ids_elem in He as (E & HE & Hty).
  apply inner_ids_elem. exact (H _ _ HE Hty).
Qed.

Lemma inner_ids_strict es es' x :
  (∀ e E, es !! e = Some E → type_ E = Edge.Inner →
     ∃ E', es' !! e = Some E' ∧ type_ E' = Edge.Inner) →
  x ∈ inner_ids es' → x ∉ inner_ids es →
  length (inner_ids es) < length (inner_ids es').
Proof.
  intros H Hx Hnx.
  assert (Hle : length (x :: inner_ids es) ≤ length (inner_ids es')).
  { apply submseteq_length, NoDup_submseteq.
    - apply NoDup_cons. split; [exact Hnx | apply inner_ids_NoDup].
    - intros e He. apply elem_of_cons in He as [->|He]; [exact Hx|].
      apply inner_ids_elem in He as (E & HE & Hty).
      apply inner_ids_elem. exact (H _ _ HE Hty). }
  simpl in Hle. lia.
Qed.

(** There are at most [nv * nv] edges: distinct edges have distinct ends. *)
Lemma edge_heap_bound bp :
  core_ok bp →
  length (edge_heap bp) ≤ length (vertices bp) * length (vertices bp).
Proof.
  intros Hok. set (nv := length (vertices bp)).
  set (ends := (λ E, (source_ E, target_ E)) <$> edge_heap bp).
  assert (Hnd : NoDup ends).
  { apply NoDup_alt. intros i j p Hi Hj. unfold ends in *.
    rewrite list_lookup_fmap in Hi, Hj.
    destruct (edge_heap bp !! i) as [Ei|] eqn:HEi; [|discriminate].
    destruct (edge_heap bp !! j) as [Ej|] eqn:HEj; [|discriminate].
    simpl in Hi, Hj. injection Hi as <-. injection Hj as Hs Ht.
    eapply (ok_uniq _ Hok); [exact HEi | exact HEj |].
    left. split; assumption. }
  assert (Hsub : ∀ p, p ∈ ends → p ∈ list_prod (seq 0 nv) (seq 0 nv)).
  { intros [a b] Hp. unfold ends in Hp.
    apply list_elem_of_fmap in Hp as (E & Heq & HE). injection Heq as -> ->.
    apply list_elem_of_lookup in HE as [e HE].
    destruct (ok_ends _ Hok _ _ HE) as (Hs & Ht & _).
    apply list_elem_of_In, in_prod_iff. split; apply in_seq; lia. }
  pose proof (submseteq_length _ _ (NoDup_submseteq _ _ Hnd Hsub)) as Hle.
  unfold ends in Hle. rewrite length_fmap, length_prod, !length_seq in Hle.
  exact Hle.
Qed.

Lemma inner_bound bp :
  core_ok bp →
  length (inner_ids (edge_heap bp)) ≤ length (vertices bp) * length (vertices bp).
Proof.
  intros Hok. etransitivity; [apply inner_ids_length | apply edge_heap_bound; exact Hok].
Qed.

End Measure.

Section Retype.
Context {D : Type} {AR : Arith D}.
Implicit Types (bp : BallPivoting D) (E : BallPivotingEdge)
  (T : BallPivotingTriangle D) (V : BallPivotingVertex D)
  (vs : list (BallPivotingVertex D)) (es : list BallPivotingEdge)
  (ts : list (BallPivotingTriangle D)).

Lemma tri_ok_reslot bp bp' :
  tri_ok bp →
  vertices bp' = vertices bp →
  triangle_heap bp' = triangle_heap bp →
  mesh_triangles_ bp' = mesh_triangles_ bp →
  (∀ e E, edge_heap bp !! e = Some E →
     ∃ E', edge_heap bp' !! e = Some E' ∧ same_slots E E') →
  tri_ok bp'.
Proof.
  intros Htri Hv Ht Hm Hes.
  assert (Hside : ∀ t a b, side_linked (edge_heap bp) t a b →
            side_linked (edge_heap bp') t a b).
  { intros t a b (e & E & HE & He & Hl).
    destruct (Hes _ _ HE) as (E' & HE' & Hs & Htg & H0 & H1).
    exists e, E'. split; [exact HE'|].
    unfold ends_are, lists in *. rewrite Hs, Htg, H0, H1. auto. }
  constructor.
  - intros t T HT. rewrite Ht in HT. rewrite Hv.
    destruct (ok_tri _ Htri _ _ HT) as (Hd & Hr & S01 & S12 & S20).
    split; [exact Hd|]. split; [exact Hr|].
    split; [apply Hside; exact S01|]. split; apply Hside; assumption.
  - rewrite Ht. exact (ok_tri_uniq _ Htri).
  - rewrite Hm, Ht. exact (ok_mesh _ Htri).
  - rewrite Hv. exact (ok_orphan _ Htri).
Qed.

Lemma set_type_lookup es edge E ty e E0 :
  es !! edge = Some E → es !! e = Some E0 →
  ∃ E', <[edge := set_type E ty]> es !! e = Some E' ∧ same_slots E0 E'
        ∧ (e ≠ edge → E' = E0) ∧ (e = edge → E' = set_type E ty).
Proof.
  intros HE HE0. destruct (decide (edge = e)) as [->|Hne].
  - assert (E0 = E) by congruence. subst E0.
    exists (set_type E ty). split.
    + apply list_lookup_insert_eq. eapply lookup_lt_Some; exact HE.
    + repeat split; auto. intros Hc; contradiction.
  - exists E0. rewrite list_lookup_insert_ne by exact Hne.
    repeat split; auto. intros Hc; congruence.
Qed.

Lemma set_type_lookup_inv es edge E ty e E' :
  es !! edge = Some E → <[edge := set_type E ty]> es !! e = Some E' →
  (e = edge ∧ E' = set_type E ty) ∨ (e ≠ edge ∧ es !! e = Some E').
Proof.
  intros HE HE'. apply list_lookup_insert_Some in HE' as [(-> & <- & _)|[Hne HE']].
  - left. auto.
  - right. auto.
Qed.

Lemma Forall2_same_shape_set_type es edge E ty :
  es !! edge = Some E → Forall2 same_shape es (<[edge := set_type E ty]> es).
Proof.
  intros HE. apply (Forall2_same_shape_insert es edge E); [exact HE|].
  repeat split.
Qed.

(** Marking a Front edge Border *)
Lemma mark_border_Inv bp edge E :
  Inv bp → edge_heap bp !! edge = Some E → type_ E = Edge.Front →
  Inv (mark_border bp edge).
Proof.
  intros [Hok Htri] HE Hty. unfold mark_border.
  rewrite (edge_at_lookup _ _ _ HE).
  assert (Hnb : edge ∉ border_edges_ bp).
  { intros Hin. apply (ok_border _ Hok) in Hin as (E' & HE' & Hb). congruence. }
  split.
  - apply (core_ok_reshape bp); simpl; try reflexivity; try assumption.
    + apply Forall2_same_shape_set_type. exact HE.
    + intros e E' HE'.
      destruct (set_type_lookup_inv _ _ _ _ _ _ HE HE') as [[-> ->]|[Hne HE0]].
      * simpl. rewrite (Front_slot1 bp edge E Hok HE) by (rewrite Hty; discriminate).
        split; [discriminate | intros Hc; contradiction].
      * exact (ok_type _ Hok _ _ HE0).
    + apply NoDup_app. split; [exact (ok_border_nodup _ Hok)|].
      split; [|apply NoDup_singleton].
      intros x Hx Hx'. apply list_elem_of_singleton in Hx'. subst. contradiction.
    + intros e. rewrite elem_of_app, list_elem_of_singleton, (ok_border _ Hok). split.
      * intros [(E' & HE' & Hb)| ->].
        -- destruct (set_type_lookup _ _ _ Edge.Border _ _ HE HE')
             as (E2 & HE2 & _ & Hk & _).
           exists E2. split; [exact HE2|].
           rewrite Hk; [exact Hb|]. intros ->. congruence.
        -- exists (set_type E Edge.Border). split; [|reflexivity].
           apply list_lookup_insert_eq. eapply lookup_lt_Some; exact HE.
      * intros (E' & HE' & Hb).
        destruct (set_type_lookup_inv _ _ _ _ _ _ HE HE') as [[-> ->]|[Hne HE0]].
        -- right. reflexivity.
        -- left. exists E'. auto.
    + intros e He. rewrite length_insert. exact (ok_front _ Hok _ He).
  - apply (tri_ok_reslot bp); simpl; try reflexivity; try assumption.
    intros e E0 HE0.
    destruct (set_type_lookup _ _ _ Edge.Border _ _ HE HE0) as (E' & HE' & Hs & _).
    exists E'. auto.
Qed.

Lemma mark_border_inner bp edge E :
  edge_heap bp !! edge = Some E → type_ E ≠ Edge.Inner →
  length (inner_ids (edge_heap (mark_border bp edge)))
  = length (inner_ids (edge_heap bp)).
Proof.
  intros HE Hty. unfold mark_border. simpl. rewrite (edge_at_lookup _ _ _ HE).
  apply Nat.le_antisymm; apply inner_ids_mono; intros e E0 HE0 Hin.
  - destruct (set_type_lookup_inv _ _ _ _ _ _ HE HE0) as [[-> ->]|[Hne HE1]].
    + discriminate.
    + exists E0. auto.
  - destruct (set_type_lookup _ _ _ Edge.Border _ _ HE HE0) as (E' & HE' & _ & Hk & _).
    exists E'. split; [exact HE'|]. rewrite Hk; [exact Hin|].
    intros ->. assert (E0 = E) by congruence. subst. contradiction.
Qed.

Lemma tri_ok_with_edge_front bp q : tri_ok bp → tri_ok (with_edge_front bp q).
Proof. intros H. constructor; simpl; apply H. Qed.

End Retype.

Section Expand.
Context {D : Type} {AR : Arith D}.
Variable SearchRadius : Vector3d D → D → list nat.
Variable PointsCoplanar :
  Vector3d D → Vector3d D → Vector3d D → Vector3d D → bool.
Variable LineSegmentsMinimumDistance :
  Vector3d D → Vector3d D → Vector3d D → Vector3d D → D.
Variable acos : D → D.

Variable nv : nat.
Hypothesis SearchRadius_range : ∀ q r i, i ∈ SearchRadius q r → i < nv.
Hypothesis SearchRadius_NoDup : ∀ q r, NoDup (SearchRadius q r).

Implicit Types (bp : BallPivoting D) (E : BallPivotingEdge)
  (T : BallPivotingTriangle D) (V : BallPivotingVertex D)
  (vs : list (BallPivotingVertex D)) (es : list BallPivotingEdge)
  (ts : list (BallPivotingTriangle D)).

Local Abbreviation FindCandidateVertex' :=
  (FindCandidateVertex SearchRadius PointsCoplanar LineSegmentsMinimumDistance acos).
Local Abbreviation ExpandTriangulation_body' :=
  (ExpandTriangulation_body SearchRadius PointsCoplanar
     LineSegmentsMinimumDistance acos).
Local Abbreviation ExpandTriangulation' :=
  (ExpandTriangulation SearchRadius PointsCoplanar
     LineSegmentsMinimumDistance acos).
Local Abbreviation TrySeed' := (TrySeed SearchRadius).

Local Abbreviation FindSeedTriangle_loop' :=
  (FindSeedTriangle_loop SearchRadius PointsCoplanar
     LineSegmentsMinimumDistance acos).
Local Abbreviation Run_radius' :=
  (Run_radius SearchRadius PointsCoplanar LineSegmentsMinimumDistance acos).
Local Abbreviation Run_loop' :=
  (Run_loop SearchRadius PointsCoplanar LineSegmentsMinimumDistance acos).
Local Abbreviation Run' :=
  (Run SearchRadius PointsCoplanar LineSegmentsMinimumDistance acos).

(** Inside this section the four collaborators are fixed, and the
    definitions of Part II that depend on them are read at these. *)
Local Abbreviation ready := (ready SearchRadius).
Local Abbreviation refront := (refront SearchRadius).
Local Abbreviation revisit_post := (revisit_post SearchRadius).
Local Abbreviation rp_kept := (rp_kept SearchRadius).
Local Abbreviation rp_front := (rp_front SearchRadius).
Local Abbreviation rp_vertices := (rp_vertices SearchRadius).
Local Abbreviation rp_ts := (rp_ts SearchRadius).
Local Abbreviation rp_border := (rp_border SearchRadius).
Local Abbreviation rp_mesh := (rp_mesh SearchRadius).
Local Abbreviation rp_meshn := (rp_meshn SearchRadius).
Local Abbreviation rp_normals := (rp_normals SearchRadius).
Local Abbreviation rp_len := (rp_len SearchRadius).
Local Abbreviation rp_heap := (rp_heap SearchRadius).
Local Abbreviation revisit_ball_empty := (revisit_ball_empty SearchRadius).
Local Abbreviation evolves :=
  (evolves SearchRadius PointsCoplanar LineSegmentsMinimumDistance acos).
Local Abbreviation ev_refl :=
  (ev_refl SearchRadius PointsCoplanar LineSegmentsMinimumDistance acos).
Local Abbreviation ev_turn :=
  (ev_turn SearchRadius PointsCoplanar LineSegmentsMinimumDistance acos).
Local Abbreviation ev_seed :=
  (ev_seed SearchRadius PointsCoplanar LineSegmentsMinimumDistance acos).
Local Abbreviation ev_border :=
  (ev_border SearchRadius PointsCoplanar LineSegmentsMinimumDistance acos).
Local Abbreviation reachable :=
  (reachable SearchRadius PointsCoplanar LineSegmentsMinimumDistance acos).

Lemma is_front_true bp e E :
  edge_heap bp !! e = Some E → is_front bp e = true ↔ type_ E = Edge.Front.
Proof.
  intros HE. unfold is_front. rewrite (edge_at_lookup _ _ _ HE).
  apply bool_decide_eq_true.
Qed.

Lemma not_front_false bp va vb e E :
  core_ok bp → va ≠ vb →
  va < length (vertices bp) → vb < length (vertices bp) →
  not_front bp (GetLinkingEdge bp va vb) = false →
  edge_heap bp !! e = Some E → ends_are E va vb → type_ E = Edge.Front.
Proof.
  intros Hok Hne Ha Hb Hnf HE He.
  rewrite (GetLinkingEdge_ends _ _ _ _ _ Hok Hne Ha Hb HE He) in Hnf.
  simpl in Hnf. apply negb_false_iff in Hnf.
  apply (is_front_true _ _ _ HE). exact Hnf.
Qed.

Lemma no_triangle_on_front_edge bp edge E opp c :
  Inv bp → edge_heap bp !! edge = Some E → type_ E = Edge.Front →
  GetOppositeVertex (triangle_heap bp) E = Some opp →
  c ≠ opp → c ≠ source_ E → c ≠ target_ E →
  ∀ t T, triangle_heap bp !! t = Some T →
    ¬ (tri_has T (source_ E) ∧ tri_has T (target_ E) ∧ tri_has T c).
Proof.
  intros [Hok Htri] HE Hty Hopp Hco Hcs Hct t T HT (Hs & Ht & Hc).
  destruct (ok_ends _ Hok _ _ HE) as (_ & _ & Hne).
  destruct (tri_side bp t T _ _ Htri HT Hs Ht Hne) as (e' & E' & HE' & He' & Hl).
  assert (edge = e') by (eapply (ok_uniq _ Hok); eassumption). subst e'.
  assert (E' = E) by congruence. subst E'.
  assert (H1 : triangle1_ E = None)
    by (apply (Front_slot1 bp edge E Hok HE); rewrite Hty; discriminate).
  assert (H0 : triangle0_ E = Some t) by (destruct Hl as [?|?]; congruence).
  destruct (ok_tri _ Htri _ _ HT) as (Hd & _).
  destruct (GetOppositeVertex_third _ E t T H0 HT Hd Hs Ht Hne)
    as (opp' & Ho & _ & _ & _ & Hall).
  assert (opp' = opp) by congruence. subst opp'.
  destruct (Hall c Hc) as [?|[?|?]]; contradiction.
Qed.

Lemma push_front_if_front_spec bp e :
  ∃ bp', push_front_if_front bp (Some e) = Ok bp'
         ∧ (bp' = bp ∨ bp' = with_edge_front bp (e :: edge_front_ bp)).
Proof.
  unfold push_front_if_front. destruct (is_front bp e); eexists; split; eauto.
Qed.

Lemma ExpandTriangulation_body_post bp edge radius :
  Inv bp → length (vertices bp) = nv → edge < length (edge_heap bp) →
  ∃ bp', ExpandTriangulation_body' bp edge radius = Ok bp'
         ∧ turn_post bp edge bp'.
Proof.
  intros HInv Hnv Hedge. pose proof HInv as [Hok Htri].
  destruct (lookup_lt_is_Some_2 _ _ Hedge) as [E HE].
  unfold ExpandTriangulation_body.
  assert (Hsame : turn_post bp edge bp).
  { constructor; auto. exists []. split; [reflexivity | simpl; lia]. }
  destruct (is_front bp edge) eqn:Hfr; simpl; [|exists bp; split; [reflexivity|exact Hsame]].
  apply (is_front_true _ _ _ HE) in Hfr.
  assert (Hborder : turn_post bp edge (mark_border bp edge)).
  { constructor; simpl; auto.
    - exact (mark_border_Inv bp edge E HInv HE Hfr).
    - unfold potential. simpl.
      pose proof (mark_border_inner bp edge E HE) as Hin. unfold mark_border in Hin.
      simpl in Hin. rewrite Hin by (rewrite Hfr; discriminate). reflexivity.
    - rewrite length_insert. reflexivity.
    - intros e E' HE' Hin'. rewrite (edge_at_lookup _ _ _ HE).
      destruct (set_type_lookup _ _ _ Edge.Border _ _ HE HE') as (E2 & HE2 & _ & Hk & _).
      rewrite HE2. f_equal. apply Hk. intros ->. congruence.
    - exists []. split; [reflexivity | simpl; lia]. }
  destruct (ok_slot0 _ Hok _ _ HE) as (t0 & T0 & H0 & HT0 & Hh0s & Hh0t).
  rewrite (edge_at_lookup _ _ _ HE).
  destruct (FindCandidateVertex_Ok SearchRadius PointsCoplanar
              LineSegmentsMinimumDistance acos bp edge radius t0) as [found Hfound].
  { rewrite (edge_at_lookup _ _ _ HE). exact H0. }
  rewrite Hfound. simpl.
  destruct found as [[c ctr]|]; [|eexists; split; [reflexivity|exact Hborder]].
  destruct (_ || _); [eexists; split; [reflexivity|exact Hborder]|].
  destruct (not_front bp (GetLinkingEdge bp c (source_ E))) eqn:Hn0;
    [eexists; split; [reflexivity|exact Hborder]|].
  destruct (not_front bp (GetLinkingEdge bp c (target_ E))) eqn:Hn1;
    [eexists; split; [reflexivity|exact Hborder]|].
  simpl.
  (* a triangle is created *)
  destruct (FindCandidateVertex_found _ _ _ _ _ _ _ _ _ Hfound)
    as (opp & mp & r2 & Hopp & Hin & Hcs & Hct & Hco).
  rewrite (edge_at_lookup _ _ _ HE) in Hopp, Hcs, Hct.
  pose proof (SearchRadius_range _ _ _ Hin) as Hc. rewrite <- Hnv in Hc.
  destruct (ok_ends _ Hok _ _ HE) as (Hs & Ht & Hst).
  assert (Hfront : ∀ e' E', edge_heap bp !! e' = Some E' →
            on_side (source_ E) (target_ E) c E' → type_ E' = Edge.Front).
  { intros e' E' HE' [He|[He|He]].
    - assert (edge = e') by (eapply (ok_uniq _ Hok); eassumption). congruence.
    - apply (not_front_false bp c (target_ E) e' E' Hok Hct Hc Ht Hn1 HE').
      apply ends_are_sym. exact He.
    - exact (not_front_false bp c (source_ E) e' E' Hok Hcs Hc Hs Hn0 HE' He). }
  destruct (CreateTriangle_spec bp (source_ E) (target_ E) c ctr Hok Hst
              (not_eq_sym Hct) Hcs Hs Ht Hc Hfront) as (bp1 & Hcr & Hok1 & Hp).
  rewrite Hcr. simpl.
  assert (Htri1 : tri_ok bp1).
  { apply (CreateTriangle_tri_ok bp (source_ E) (target_ E) c ctr bp1 HInv Hok1 Hst
             (not_eq_sym Hct) Hcs Hs Ht Hc Hfront); [|exact Hp].
    exact (no_triangle_on_front_edge bp edge E opp c HInv HE Hfr Hopp Hco Hcs Hct). }
  assert (HE1 : edge_heap bp1 !! edge = Some (fill_second E (length (triangle_heap bp)))).
  { apply (cp_filled _ _ _ _ _ _ Hp edge E HE). left. left. split; reflexivity. }
  rewrite (edge_at_lookup _ _ _ HE1). simpl.
  pose proof (cp_len _ _ _ _ _ _ Hp) as Hlen1.
  destruct (cp_linked _ _ _ _ _ _ Hp) as (_ & (e1 & E1 & HEe1 & He1 & _) & (e0 & E0' & HEe0 & He0 & _)).
  rewrite (GetLinkingEdge_ends bp1 c (source_ E) e0 E0' Hok1 Hcs
             ltac:(rewrite Hlen1; exact Hc) ltac:(rewrite Hlen1; exact Hs) HEe0 He0).
  rewrite (GetLinkingEdge_ends bp1 c (target_ E) e1 E1 Hok1 Hct
             ltac:(rewrite Hlen1; exact Hc) ltac:(rewrite Hlen1; exact Ht) HEe1
             (ends_are_sym _ _ _ He1)).
  destruct (push_front_if_front_spec bp1 e0) as (bp2 & Hpush0 & Hbp2).
  rewrite Hpush0. cbn [rbind].
  destruct (push_front_if_front_spec bp2 e1) as (bp3 & Hpush1 & Hbp3).
  rewrite Hpush1. exists bp3. split; [reflexivity|].
  assert (Hshape : edge_heap bp3 = edge_heap bp1 ∧ vertices bp3 = vertices bp1
            ∧ triangle_heap bp3 = triangle_heap bp1
            ∧ has_normals_ bp3 = has_normals_ bp1
            ∧ length (edge_front_ bp3) ≤ 2 + length (edge_front_ bp1)
            ∧ (∀ e, e ∈ edge_front_ bp3 → e ∈ edge_front_ bp1 ∨ e = e0 ∨ e = e1)
            ∧ bp3 = with_edge_front bp1 (edge_front_ bp3)
            ∧ ∃ pushed, edge_front_ bp3 = pushed ++ edge_front_ bp1
                        ∧ length pushed ≤ 2).
  { destruct Hbp2 as [->| ->], Hbp3 as [->| ->]; simpl;
      repeat split; try lia; try (destruct bp1; reflexivity);
      try (intros e He; repeat (apply elem_of_cons in He as [->|He]); auto).
    - exists []. split; [reflexivity | simpl; lia].
    - exists [e1]. split; [reflexivity | simpl; lia].
    - exists [e0]. split; [reflexivity | simpl; lia].
    - exists [e1; e0]. split; [reflexivity | simpl; lia]. }
  destruct Hshape as (Hes3 & Hvs3 & Hts3 & Hn3 & Hfl3 & Hfe3 & Heq3 & Hpushed).
  assert (Hgrow : length (edge_heap bp) ≤ length (edge_heap bp1)).
  { destruct (Nat.le_gt_cases (length (edge_heap bp)) (length (edge_heap bp1)))
      as [?|Hlt]; [assumption|]. exfalso.
    destruct (lookup_lt_is_Some_2 _ _ Hlt) as [Ex HEx].
    assert (Hin1 : is_Some (edge_heap bp1 !! length (edge_heap bp1))).
    { destruct (decide (on_side (source_ E) (target_ E) c Ex)) as [Hy|Hn].
      - eexists. exact (cp_filled _ _ _ _ _ _ Hp _ _ HEx Hy).
      - eexists. exact (cp_other _ _ _ _ _ _ Hp _ _ HEx Hn). }
    apply lookup_lt_is_Some_1 in Hin1. lia. }
  constructor.
  - rewrite Heq3. split.
    + apply core_ok_with_edge_front; [exact Hok1|].
      intros e He. destruct (Hfe3 e He) as [He'|[->| ->]].
      * rewrite (cp_front _ _ _ _ _ _ Hp) in He'.
        pose proof (ok_front _ Hok _ He'). lia.
      * eapply lookup_lt_Some; exact HEe0.
      * eapply lookup_lt_Some; exact HEe1.
    + apply tri_ok_with_edge_front. exact Htri1.
  - rewrite Hvs3. exact Hlen1.
  - rewrite Hn3. exact (cp_normals _ _ _ _ _ _ Hp).
  - unfold potential. rewrite Hes3, Hvs3, Hlen1.
    rewrite (cp_front _ _ _ _ _ _ Hp) in Hfl3.
    assert (Hstrict : length (inner_ids (edge_heap bp))
                      < length (inner_ids (edge_heap bp1))).
    { apply (inner_ids_strict _ _ edge).
      - intros e E' HE' Hin'. exists E'. split; [|exact Hin'].
        apply (cp_other _ _ _ _ _ _ Hp e E' HE'). intros Hside.
        rewrite (Hfront _ _ HE' Hside) in Hin'. discriminate.
      - apply inner_ids_elem. eexists. split; [exact HE1 | reflexivity].
      - intros Hx. apply inner_ids_elem in Hx as (E' & HE' & Hin').
        assert (E' = E) by congruence. subst. congruence. }
    pose proof (inner_bound bp1 Hok1) as Hb1. rewrite Hlen1 in Hb1.
    lia.
  - rewrite Hes3. exact Hgrow.
  - intros e E' HE' Hin'. rewrite Hes3.
    apply (cp_other _ _ _ _ _ _ Hp e E' HE'). intros Hside.
    rewrite (Hfront _ _ HE' Hside) in Hin'. discriminate.
  - destruct Hpushed as (pushed & Hpq & Hpl). exists pushed.
    rewrite Hpq, (cp_front _ _ _ _ _ _ Hp). auto.
  - right. exists (fill_second E (length (triangle_heap bp))).
    rewrite Hes3, Hts3, (cp_ts _ _ _ _ _ _ Hp), length_app. simpl.
    repeat split; [exact HE1 | lia].
Qed.

Lemma potential_pop bp edge rest :
  edge_front_ bp = edge :: rest →
  S (potential (with_edge_front bp rest)) = potential bp.
Proof. intros H. unfold potential. simpl. rewrite H. simpl. lia. Qed.

Lemma Inv_with_edge_front bp q :
  Inv bp → (∀ e, e ∈ q → e < length (edge_heap bp)) → Inv (with_edge_front bp q).
Proof.
  intros [Hok Htri] Hq. split;
    [apply core_ok_with_edge_front | apply tri_ok_with_edge_front]; assumption.
Qed.

(** The expansion loop ends: each turn lowers [potential]. *)
Lemma ExpandTriangulation_total fuel bp radius :
  Inv bp → length (vertices bp) = nv → potential bp ≤ fuel →
  ∃ bp', ExpandTriangulation' fuel bp radius = Ok bp'
         ∧ Inv bp' ∧ length (vertices bp') = nv
         ∧ has_normals_ bp' = has_normals_ bp
         ∧ edge_front_ bp' = [].
Proof.
  revert bp. induction fuel as [|fuel IH]; intros bp HInv Hnv Hpot.
  - destruct (edge_front_ bp) as [|edge rest] eqn:Hq.
    + exists bp. simpl. rewrite Hq. auto.
    + exfalso. unfold potential in Hpot. rewrite Hq in Hpot. simpl in Hpot. lia.
  - simpl. destruct (edge_front_ bp) as [|edge rest] eqn:Hq.
    + exists bp. auto.
    + pose proof HInv as [Hok _].
      assert (HInv0 : Inv (with_edge_front bp rest)).
      { apply Inv_with_edge_front; [exact HInv|]. intros e He.
        apply (ok_front _ Hok). rewrite Hq. right. exact He. }
      destruct (ExpandTriangulation_body_post (with_edge_front bp rest) edge radius
                  HInv0 Hnv) as (bp1 & Hb & Hp).
      { simpl. apply (ok_front _ Hok). rewrite Hq. left. }
      rewrite Hb. simpl.
      pose proof (potential_pop bp edge rest Hq) as Hpop.
      pose proof (tp_potential _ _ _ Hp) as Hle.
      destruct (IH bp1 (tp_inv _ _ _ Hp)) as (bp' & He & HInv' & Hnv' & Hn' & Hq').
      * rewrite (tp_len _ _ _ Hp). exact Hnv.
      * lia.
      * exists bp'. split; [exact He|]. split; [exact HInv'|].
        split; [exact Hnv'|]. split; [|exact Hq'].
        rewrite Hn', (tp_normals _ _ _ Hp). reflexivity.
Qed.

Lemma potential_bound bp :
  length (vertices bp) = nv →
  potential bp ≤ 2 * (nv * nv) + length (edge_front_ bp).
Proof. intros Hnv. unfold potential. rewrite Hnv. lia. Qed.

Lemma TrySeed_inner_Some bp v nb0 indices radius rest1 nb1 ctr :
  TrySeed_inner bp v nb0 indices radius rest1 = Some (nb1, ctr) →
  nb1 ∈ rest1 ∧ nb1 ≠ v ∧ is_orphan bp nb1 = true.
Proof.
  induction rest1 as [|x rest1 IH]; simpl; [discriminate|].
  destruct (is_orphan bp x) eqn:Ho; simpl.
  - destruct (Nat.eqb_spec x v) as [->|Hne].
    + intros H. destruct (IH H) as (? & ? & ?). split; [right|]; auto.
    + destruct (TryTriangleSeed bp v nb0 x indices radius).
      * intros [= <- <-]. split; [left|]; auto.
      * intros H. destruct (IH H) as (? & ? & ?). split; [right|]; auto.
  - intros H. destruct (IH H) as (? & ? & ?). split; [right|]; auto.
Qed.

Lemma orphan_no_edge bp v :
  Inv bp → v < length (vertices bp) → is_orphan bp v = true →
  ∀ e E, edge_heap bp !! e = Some E → ¬ incident E v.
Proof.
  intros [Hok Htri] Hv Ho e E HE Hi.
  unfold is_orphan in Ho. apply bool_decide_eq_true in Ho.
  pose proof (vertex_lookup_lt _ _ Hv) as HV.
  apply (ok_orphan _ Htri v _ HV) in Ho.
  assert (Hin : e ∈ edges_ (vertex_at (vertices bp) v)).
  { apply (ok_inc _ Hok v _ HV). exists E. auto. }
  rewrite Ho in Hin. inversion Hin.
Qed.

Lemma seed_commit bp v nb0 nb1 ctr :
  Inv bp → length (vertices bp) = nv → v < nv → nb0 < nv → nb1 < nv →
  nb0 ≠ v → nb1 ≠ v → nb0 ≠ nb1 →
  is_orphan bp nb0 = true → is_orphan bp nb1 = true →
  ∃ bp1 e0 e1 e2,
    CreateTriangle bp v nb0 nb1 ctr = Ok bp1
    ∧ Inv bp1 ∧ length (vertices bp1) = length (vertices bp)
    ∧ has_normals_ bp1 = has_normals_ bp
    ∧ edge_front_ bp1 = edge_front_ bp
    ∧ GetLinkingEdge bp1 v nb1 = Some e0 ∧ is_front bp1 e0 = true
    ∧ GetLinkingEdge bp1 nb0 nb1 = Some e1 ∧ is_front bp1 e1 = true
    ∧ GetLinkingEdge bp1 v nb0 = Some e2 ∧ is_front bp1 e2 = true
    ∧ e0 < length (edge_heap bp1) ∧ e1 < length (edge_heap bp1)
    ∧ e2 < length (edge_heap bp1)
    ∧ (∀ e E, edge_heap bp !! e = Some E → edge_heap bp1 !! e = Some E).
Proof.
  intros HInv Hnv Hv H0 H1 N0 N1 N01 Ho0 Ho1. pose proof HInv as [Hok Htri].
  rewrite <- Hnv in Hv, H0, H1.
  pose proof (orphan_no_edge bp nb0 HInv H0 Ho0) as Hno0.
  pose proof (orphan_no_edge bp nb1 HInv H1 Ho1) as Hno1.
  assert (Hnone : ∀ e E, edge_heap bp !! e = Some E → ¬ on_side v nb0 nb1 E).
  { intros e E HE [He|[He|He]].
    - apply (Hno0 e E HE). destruct He as [[_ ?]|[? _]]; [right|left]; assumption.
    - apply (Hno0 e E HE). destruct He as [[? _]|[_ ?]]; [left|right]; assumption.
    - apply (Hno1 e E HE). destruct He as [[? _]|[_ ?]]; [left|right]; assumption. }
  destruct (CreateTriangle_spec bp v nb0 nb1 ctr Hok (not_eq_sym N0) N01 N1 Hv H0 H1)
    as (bp1 & Hcr & Hok1 & Hp).
  { intros e E HE Hs. exfalso. exact (Hnone e E HE Hs). }
  assert (Htri1 : tri_ok bp1).
  { apply (CreateTriangle_tri_ok bp v nb0 nb1 ctr bp1 HInv Hok1 (not_eq_sym N0) N01 N1
             Hv H0 H1); [| |exact Hp].
    - intros e E HE Hs. exfalso. exact (Hnone e E HE Hs).
    - intros t T HT (Hhv & Hh0 & _).
      destruct (tri_side bp t T v nb0 Htri HT Hhv Hh0 (not_eq_sym N0))
        as (e & E & HE & He & _).
      apply (Hnone e E HE). left. exact He. }
  pose proof (cp_len _ _ _ _ _ _ Hp) as Hlen1.
  assert (Hfresh : ∀ a b e E, edge_heap bp1 !! e = Some E → ends_are E a b →
            on_side v nb0 nb1 E → type_ E = Edge.Front).
  { intros a b e E HE He Hs.
    destruct (edge_heap bp !! e) as [E0|] eqn:HE0.
    - exfalso. destruct (decide (on_side v nb0 nb1 E0)) as [Hy|Hn].
      + exact (Hnone e E0 HE0 Hy).
      + pose proof (cp_other _ _ _ _ _ _ Hp e E0 HE0 Hn) as Hk.
        assert (E = E0) by congruence. subst. contradiction.
    - destruct (cp_new _ _ _ _ _ _ Hp e E HE0 HE) as (_ & _ & _ & Hty). exact Hty. }
  destruct (cp_linked _ _ _ _ _ _ Hp)
    as ((e2 & E2 & HE2 & He2 & _) & (e1 & E1 & HE1 & He1 & _) & (e0 & E0 & HE0 & He0 & _)).
  exists bp1, e0, e1, e2.
  split; [exact Hcr|]. split; [split; assumption|]. split; [exact Hlen1|].
  split; [exact (cp_normals _ _ _ _ _ _ Hp)|].
  split; [exact (cp_front _ _ _ _ _ _ Hp)|].
  split; [apply (GetLinkingEdge_ends bp1 v nb1 e0 E0 Hok1 (not_eq_sym N1));
          [rewrite Hlen1; exact Hv | rewrite Hlen1; exact H1 | exact HE0
          | apply ends_are_sym; exact He0]|].
  split; [apply (is_front_true _ _ _ HE0);
          apply (Hfresh _ _ _ _ HE0 He0); right; right; exact He0|].
  split; [apply (GetLinkingEdge_ends bp1 nb0 nb1 e1 E1 Hok1 N01);
          [rewrite Hlen1; exact H0 | rewrite Hlen1; exact H1 | exact HE1 | exact He1]|].
  split; [apply (is_front_true _ _ _ HE1);
          apply (Hfresh _ _ _ _ HE1 He1); right; left; exact He1|].
  split; [apply (GetLinkingEdge_ends bp1 v nb0 e2 E2 Hok1 (not_eq_sym N0));
          [rewrite Hlen1; exact Hv | rewrite Hlen1; exact H0 | exact HE2 | exact He2]|].
  split; [apply (is_front_true _ _ _ HE2);
          apply (Hfresh _ _ _ _ HE2 He2); left; exact He2|].
  split; [eapply lookup_lt_Some; eassumption|].
  split; [eapply lookup_lt_Some; eassumption|].
  split; [eapply lookup_lt_Some; eassumption|].
  intros e E HE. exact (cp_other _ _ _ _ _ _ Hp e E HE (Hnone e E HE)).
Qed.

Lemma push_front_if_front_true bp e :
  is_front bp e = true →
  push_front_if_front bp (Some e) = Ok (with_edge_front bp (e :: edge_front_ bp)).
Proof. intros H. unfold push_front_if_front. rewrite H. reflexivity. Qed.

Lemma TrySeed_loop_post bp v indices radius rest0 :
  Inv bp → length (vertices bp) = nv → v < nv →
  (∀ i, i ∈ rest0 → i < nv) → NoDup rest0 →
  TrySeed_loop bp v indices radius rest0 = Ok (false, bp)
  ∨ ∃ bp', TrySeed_loop bp v indices radius rest0 = Ok (true, bp')
           ∧ seeded bp v bp'.
Proof.
  intros HInv Hnv Hv. induction rest0 as [|nb0 rest0 IH]; intros Hr Hnd.
  - left. reflexivity.
  - apply NoDup_cons in Hnd as [Hnotin Hnd].
    assert (IH' := IH (λ i Hi, Hr i (list_elem_of_further _ _ _ Hi)) Hnd).
    simpl. destruct (is_orphan bp nb0) eqn:Ho0; simpl; [|exact IH'].
    destruct (Nat.eqb_spec nb0 v) as [|N0]; [exact IH'|].
    destruct (TrySeed_inner bp v nb0 indices radius rest0) as [[nb1 ctr]|] eqn:Hin;
      [|exact IH'].
    destruct (TrySeed_inner_Some _ _ _ _ _ _ _ _ Hin) as (Hin1 & N1 & Ho1).
    destruct (not_front bp (GetLinkingEdge bp v nb1)); [exact IH'|].
    destruct (not_front bp (GetLinkingEdge bp nb0 nb1)); [exact IH'|].
    destruct (not_front bp (GetLinkingEdge bp v nb0)); [exact IH'|].
    assert (N01 : nb0 ≠ nb1) by (intros ->; contradiction).
    destruct (seed_commit bp v nb0 nb1 ctr HInv Hnv Hv (Hr nb0 (list_elem_of_here _ _))
                (Hr nb1 (list_elem_of_further _ _ _ Hin1)) N0 N1 N01 Ho0 Ho1)
      as (bp1 & e0 & e1 & e2 & Hcr & HInv1 & Hlen1 & Hn1 & Hf1 & Hg0 & Hfr0
          & Hg1 & Hfr1 & Hg2 & Hfr2 & Hlt0 & Hlt1 & Hlt2 & Hkeep).
    right. rewrite Hcr. cbn [rbind]. rewrite Hg0, Hg1, Hg2.
    rewrite (push_front_if_front_true bp1 e0 Hfr0). cbn [rbind].
    rewrite (push_front_if_front_true _ e1) by exact Hfr1. cbn [rbind].
    rewrite (push_front_if_front_true _ e2) by exact Hfr2. cbn [rbind].
    simpl. eexists. split; [reflexivity|].
    change (seeded bp v (with_edge_front bp1 (e2 :: e1 :: e0 :: edge_front_ bp1))).
    constructor.
    + apply Inv_with_edge_front; [exact HInv1|].
      intros e He. repeat (apply elem_of_cons in He as [->|He]); try assumption.
      destruct HInv1 as [Hok1 _]. exact (ok_front _ Hok1 _ He).
    + exact Hlen1.
    + exact Hn1.
    + exact Hkeep.
    + exists nb0, nb1, ctr, bp1, e0, e1, e2. rewrite Hf1. auto.
Qed.

Lemma TrySeed_post bp v radius :
  Inv bp → length (vertices bp) = nv → v < nv →
  TrySeed' bp v radius = Ok (false, bp)
  ∨ ∃ bp', TrySeed' bp v radius = Ok (true, bp') ∧ seeded bp v bp'.
Proof.
  intros HInv Hnv Hv. unfold TrySeed.
  destruct (_ <? 3); [left; reflexivity|].
  apply TrySeed_loop_post; auto.
  intros i Hi. eapply SearchRadius_range; exact Hi.
Qed.

Lemma FindSeedTriangle_loop_total fuel bp radius vidxs :
  2 * (nv * nv) + 3 ≤ fuel →
  Inv bp → length (vertices bp) = nv → edge_front_ bp = [] →
  (∀ i, i ∈ vidxs → i < nv) →
  ∃ bp', FindSeedTriangle_loop' fuel bp radius vidxs = Ok bp'
         ∧ Inv bp' ∧ length (vertices bp') = nv
         ∧ has_normals_ bp' = has_normals_ bp
         ∧ edge_front_ bp' = [].
Proof.
  intros Hfuel. revert bp.
  induction vidxs as [|vidx rest IH]; intros bp HInv Hnv Hq Hr.
  - exists bp. simpl. auto.
  - assert (Hr' : ∀ i, i ∈ rest → i < nv)
      by (intros i Hi; apply Hr; right; exact Hi).
    simpl. destruct (is_orphan bp vidx); [|exact (IH bp HInv Hnv Hq Hr')].
    destruct (TrySeed_post bp vidx radius HInv Hnv (Hr vidx (list_elem_of_here _ _)))
      as [Hs|(bp1 & Hs & Hsd)]; rewrite Hs; cbn [rbind].
    + exact (IH bp HInv Hnv Hq Hr').
    + destruct (sd_front _ _ _ Hsd)
        as (nb0 & nb1 & ctr & bp0 & e0 & e1 & e2 & _ & _ & _ & _ & Heq).
      assert (Hlen1 : length (vertices bp1) = nv)
        by (rewrite (sd_len _ _ _ Hsd); exact Hnv).
      destruct (ExpandTriangulation_total fuel bp1 radius (sd_inv _ _ _ Hsd) Hlen1)
        as (bp2 & He & HInv2 & Hnv2 & Hn2 & Hq2).
      { pose proof (potential_bound bp1 Hlen1) as Hb.
        assert (Hl3 : length (edge_front_ bp1) = 3)
          by (rewrite Heq; simpl; rewrite Hq; reflexivity).
        lia. }
      rewrite He. cbn [rbind].
      destruct (IH bp2 HInv2 Hnv2 Hq2 Hr') as (bp' & Hl & HInv' & Hnv' & Hn' & Hq').
      exists bp'. split; [exact Hl|]. split; [exact HInv'|]. split; [exact Hnv'|].
      split; [|exact Hq']. rewrite Hn', Hn2. exact (sd_normals _ _ _ Hsd).
Qed.

Lemma ready_retype bp bp' radius e :
  vertices bp' = vertices bp → triangle_heap bp' = triangle_heap bp →
  triangle0_ (edge_at (edge_heap bp') e) = triangle0_ (edge_at (edge_heap bp) e) →
  ready bp' radius e = ready bp radius e.
Proof.
  intros Hv Ht H0. unfold ready, border_edge_ready. rewrite H0, Hv, Ht. reflexivity.
Qed.

Lemma Run_border_loop_post bp radius it :
  (∀ e, e ∈ it → ∃ E, edge_heap bp !! e = Some E ∧ triangle0_ E ≠ None) →
  ∃ bp' kept, Run_border_loop SearchRadius bp radius it = Ok (bp', kept)
              ∧ revisit_post bp radius it bp' kept.
Proof.
  revert bp. induction it as [|edge it IH]; intros bp Hit.
  - exists bp, []. split; [reflexivity|]. constructor; try reflexivity.
    + simpl. rewrite app_nil_r. reflexivity.
    + intros e E HE. unfold refront. case_decide as Hc; [|exact HE].
      destruct Hc as [Hc _]. inversion Hc.
  - destruct (Hit edge (list_elem_of_here _ _)) as (E & HE & H0).
    destruct (triangle0_ E) as [t|] eqn:Ht0; [|contradiction]. clear H0.
    assert (Hready : ready bp radius edge = border_edge_ready SearchRadius bp t radius).
    { unfold ready. rewrite (edge_at_lookup _ _ _ HE), Ht0. reflexivity. }
    simpl. rewrite (edge_at_lookup _ _ _ HE), Ht0.
    destruct (border_edge_ready SearchRadius bp t radius) eqn:Hr.
    + set (bp1 := with_edge_front
                    (with_edge_heap bp (<[edge := set_type E Edge.Front]> (edge_heap bp)))
                    (edge_front_ bp ++ [edge])).
      assert (H01 : ∀ e, triangle0_ (edge_at (edge_heap bp1) e)
                         = triangle0_ (edge_at (edge_heap bp) e)).
      { intros e. unfold edge_at. simpl.
        destruct (edge_heap bp !! e) as [E0|] eqn:HE0.
        - destruct (set_type_lookup _ _ _ Edge.Front _ _ HE HE0)
            as (E' & HE' & (_ & _ & Hs0 & _) & _).
          rewrite HE'. simpl. exact Hs0.
        - assert (Hn : <[edge := set_type E Edge.Front]> (edge_heap bp) !! e = None).
          { apply lookup_ge_None. rewrite length_insert.
            apply lookup_ge_None. exact HE0. }
          rewrite Hn. reflexivity. }
      assert (Hrd : ∀ e, ready bp1 radius e = ready bp radius e).
      { intros e. apply ready_retype; [reflexivity | reflexivity | apply H01]. }
      destruct (IH bp1) as (bp' & kept & Hl & Hp).
      { intros e He. destruct (Hit e (list_elem_of_further _ _ _ He)) as (E0 & HE0 & Hn0).
        destruct (set_type_lookup _ _ _ Edge.Front _ _ HE HE0)
          as (E' & HE' & (_ & _ & Hs0 & _) & _).
        exists E'. split; [exact HE'|]. rewrite Hs0. exact Hn0. }
      exists bp', kept. split; [exact Hl|].
      destruct Hp as [Hk Hf Hv Hts Hb Hm Hmn Hn Hlen Hheap].
      constructor; simpl in *; try assumption.
      * rewrite Hk. rewrite filter_cons_False by (rewrite Hready; discriminate).
        apply list_filter_iff. intros e. rewrite Hrd. reflexivity.
      * rewrite Hf. rewrite filter_cons_True by exact Hready.
        rewrite <- app_assoc. simpl. do 2 f_equal.
        apply list_filter_iff. intros e. rewrite Hrd. reflexivity.
      * rewrite Hlen, length_insert. reflexivity.
      * intros e E0 HE0.
        destruct (set_type_lookup _ _ _ Edge.Front _ _ HE HE0)
          as (E' & HE' & _ & Hne & Heq).
        rewrite (Hheap e E' HE'). f_equal. unfold refront.
        rewrite Hrd. destruct (decide (e = edge)) as [->|Hned].
        -- rewrite (Heq eq_refl). assert (E0 = E) by congruence. subst E0.
           destruct (decide (edge ∈ edge :: it ∧ ready bp radius edge = true))
             as [_|Hnd]; [|exfalso; apply Hnd; split; [left | exact Hready]].
           case_decide; reflexivity.
        -- rewrite (Hne Hned).
           repeat case_decide; try reflexivity; exfalso.
           ++ match goal with H : ¬ _ |- _ => apply H end.
              match goal with H : _ ∧ _ |- _ => destruct H as [Hi Hrr] end.
              split; [right; exact Hi | exact Hrr].
           ++ match goal with H : ¬ _ |- _ => apply H end.
              match goal with H : _ ∧ _ |- _ => destruct H as [Hi Hrr] end.
              split; [|exact Hrr]. apply elem_of_cons in Hi as [?|?]; [contradiction|assumption].
    + destruct (IH bp) as (bp' & kept & Hl & Hp).
      { intros e He. exact (Hit e (list_elem_of_further _ _ _ He)). }
      rewrite Hl. cbn [rbind]. exists bp', (edge :: kept). split; [reflexivity|].
      destruct Hp as [Hk Hf Hv Hts Hb Hm Hmn Hn Hlen Hheap].
      constructor; try assumption.
      * rewrite filter_cons_True by exact Hready. rewrite Hk. reflexivity.
      * rewrite Hf. rewrite filter_cons_False by (rewrite Hready; discriminate).
        reflexivity.
      * intros e E0 HE0. rewrite (Hheap e E0 HE0). f_equal. unfold refront.
        repeat case_decide; try reflexivity; exfalso.
        -- match goal with H : ¬ _ |- _ => apply H end.
           match goal with H : _ ∧ _ |- _ => destruct H as [Hi Hrr] end.
           split; [right; exact Hi | exact Hrr].
        -- match goal with H : ¬ _ |- _ => apply H end.
           match goal with H : _ ∧ _ |- _ => destruct H as [Hi Hrr] end.
           split; [|exact Hrr]. apply elem_of_cons in Hi as [->|?]; [|assumption].
           congruence.
Qed.

Lemma NoDup_bounded_length (l : list nat) n :
  NoDup l → (∀ x, x ∈ l → x < n) → length l ≤ n.
Proof.
  intros Hnd Hb.
  assert (Hsub : ∀ x, x ∈ l → x ∈ seq 0 n).
  { intros x Hx. apply elem_of_seq. specialize (Hb x Hx). lia. }
  pose proof (submseteq_length _ _ (NoDup_submseteq _ _ Hnd Hsub)) as H.
  rewrite length_seq in H. exact H.
Qed.

Lemma border_valid bp :
  Inv bp → ∀ e, e ∈ border_edges_ bp →
    ∃ E, edge_heap bp !! e = Some E ∧ triangle0_ E ≠ None.
Proof.
  intros [Hok _] e He. apply (ok_border _ Hok) in He as (E & HE & _).
  exists E. split; [exact HE|].
  destruct (ok_slot0 _ Hok _ _ HE) as (t & T & H0 & _). congruence.
Qed.

Lemma update_border_edges_post bp radius :
  Inv bp → length (vertices bp) = nv →
  ∃ bp', update_border_edges SearchRadius bp radius = Ok bp'
         ∧ Inv bp' ∧ length (vertices bp') = nv
         ∧ has_normals_ bp' = has_normals_ bp
         ∧ length (edge_front_ bp') ≤ length (edge_front_ bp) + nv * nv
         ∧ (∀ e E, edge_heap bp !! e = Some E → type_ E = Edge.Inner →
              edge_heap bp' !! e = Some E).
Proof.
  intros HInv Hnv. pose proof HInv as [Hok Htri].
  destruct (Run_border_loop_post bp radius (border_edges_ bp) (border_valid bp HInv))
    as (bp1 & kept & Hl & Hp).
  unfold update_border_edges. rewrite Hl. cbn [rbind].
  exists (with_border_edges bp1 kept). split; [reflexivity|].
  destruct Hp as [Hk Hf Hv Hts Hb Hm Hmn Hn Hlen Hheap].
  assert (Hback : ∀ e E', edge_heap bp1 !! e = Some E' →
            ∃ E, edge_heap bp !! e = Some E
                 ∧ E' = refront bp radius (border_edges_ bp) e E).
  { intros e E' HE'. assert (Hlt : e < length (edge_heap bp))
      by (rewrite <- Hlen; eapply lookup_lt_Some; exact HE').
    destruct (lookup_lt_is_Some_2 _ _ Hlt) as [E HE].
    exists E. split; [exact HE|]. pose proof (Hheap e E HE). congruence. }
  assert (Hslots : ∀ e E, same_slots E (refront bp radius (border_edges_ bp) e E)).
  { intros e E. unfold refront. case_decide; repeat split. }
  split; [split|].
  - apply (core_ok_reshape bp); simpl; try assumption.
    + apply Forall2_same_length_lookup. split; [symmetry; exact Hlen|].
      intros i x y Hx Hy. rewrite (Hheap i x Hx) in Hy. injection Hy as <-.
      destruct (Hslots i x) as (? & ? & ? & _). repeat split; assumption.
    + intros e E' HE'. destruct (Hback e E' HE') as (E & HE & ->).
      unfold refront. case_decide as Hc; [|exact (ok_type _ Hok _ _ HE)].
      destruct Hc as [Hin _]. apply (ok_border _ Hok) in Hin as (E2 & HE2 & Hbd).
      assert (E2 = E) by congruence. subst E2. simpl.
      rewrite (Front_slot1 bp e E Hok HE) by (rewrite Hbd; discriminate).
      split; [discriminate | intros Hc; contradiction].
    + rewrite Hk. apply NoDup_filter. exact (ok_border_nodup _ Hok).
    + intros e. rewrite Hk, list_elem_of_filter, (ok_border _ Hok). split.
      * intros (Hr & E & HE & Hbd). exists E. split; [|exact Hbd].
        rewrite (Hheap e E HE). unfold refront.
        case_decide as Hc; [|reflexivity]. destruct Hc as [_ Hc]. congruence.
      * intros (E' & HE' & Hbd). destruct (Hback e E' HE') as (E & HE & ->).
        unfold refront in Hbd. case_decide as Hc; [discriminate|].
        assert (Hin : e ∈ border_edges_ bp)
          by (apply (ok_border _ Hok); exists E; auto).
        split; [|exists E; auto].
        destruct (ready bp radius e) eqn:Hr; [|reflexivity].
        exfalso. apply Hc. auto.
    + intros e He. rewrite Hf in He. rewrite Hlen.
      apply elem_of_app in He as [He|He].
      * exact (ok_front _ Hok _ He).
      * apply list_elem_of_filter in He as [_ He].
        apply (ok_border _ Hok) in He as (E & HE & _).
        eapply lookup_lt_Some; exact HE.
  - apply (tri_ok_reslot bp); simpl; try assumption.
    intros e E HE. eexists. split; [exact (Hheap e E HE) | apply Hslots].
  - simpl. split; [rewrite Hv; exact Hnv|]. split; [exact Hn|]. split.
    + rewrite Hf, length_app.
      assert (length (filter (λ e, ready bp radius e = true) (border_edges_ bp))
              ≤ nv * nv); [|lia].
      etransitivity; [apply length_filter|].
      etransitivity; [|rewrite <- Hnv; apply (edge_heap_bound bp Hok)].
      apply NoDup_bounded_length; [exact (ok_border_nodup _ Hok)|].
      intros e He. apply (ok_border _ Hok) in He as (E & HE & _).
      eapply lookup_lt_Some; exact HE.
    + intros e E HE Hin. rewrite (Hheap e E HE). f_equal. unfold refront.
      case_decide as Hc; [|reflexivity]. destruct Hc as [Hc _].
      apply (ok_border _ Hok) in Hc as (E2 & HE2 & Hbd). congruence.
Qed.

Lemma Run_radius_total fuel bp radius :
  3 * (nv * nv) + 3 ≤ fuel →
  Inv bp → length (vertices bp) = nv → edge_front_ bp = [] →
  dleb radius d0 = false →
  ∃ bp', Run_radius' fuel bp radius = Ok bp'
         ∧ Inv bp' ∧ length (vertices bp') = nv
         ∧ has_normals_ bp' = has_normals_ bp
         ∧ edge_front_ bp' = [].
Proof.
  intros Hfuel HInv Hnv Hq Hr. unfold Run_radius. rewrite Hr.
  destruct (update_border_edges_post bp radius HInv Hnv)
    as (bp1 & Hu & HInv1 & Hnv1 & Hn1 & Hlen1 & _).
  rewrite Hu. cbn [rbind]. rewrite Hq in Hlen1. simpl in Hlen1.
  destruct (edge_front_ bp1) as [|e q] eqn:Hq1.
  - unfold FindSeedTriangle.
    destruct (FindSeedTriangle_loop_total fuel bp1 radius (seq 0 (length (vertices bp1))))
      as (bp' & Hl & HInv' & Hnv' & Hn' & Hq'); try assumption; [lia | |].
    + intros i Hi. apply elem_of_seq in Hi. lia.
    + exists bp'. rewrite Hn', Hn1. auto.
  - destruct (ExpandTriangulation_total fuel bp1 radius HInv1 Hnv1)
      as (bp' & He & HInv' & Hnv' & Hn' & Hq').
    + pose proof (potential_bound bp1 Hnv1) as Hb. rewrite Hq1 in Hb. lia.
    + exists bp'. rewrite Hn', Hn1. auto.
Qed.

Lemma Run_loop_total fuel bp radii :
  3 * (nv * nv) + 3 ≤ fuel →
  Inv bp → length (vertices bp) = nv → edge_front_ bp = [] →
  (∀ r, r ∈ radii → dleb r d0 = false) →
  ∃ bp', Run_loop' fuel bp radii = Ok bp'
         ∧ Inv bp' ∧ length (vertices bp') = nv ∧ edge_front_ bp' = [].
Proof.
  intros Hfuel. revert bp. induction radii as [|r rest IH]; intros bp HInv Hnv Hq Hr.
  - exists bp. simpl. auto.
  - simpl.
    destruct (Run_radius_total fuel bp r Hfuel HInv Hnv Hq (Hr r (list_elem_of_here _ _)))
      as (bp1 & H1 & HInv1 & Hnv1 & _ & Hq1).
    rewrite H1. cbn [rbind].
    apply (IH bp1 HInv1 Hnv1 Hq1). intros r' Hr'. apply Hr. right. exact Hr'.
Qed.

Lemma Run_loop_invalid fuel bp radii :
  3 * (nv * nv) + 3 ≤ fuel →
  Inv bp → length (vertices bp) = nv → edge_front_ bp = [] →
  (∃ r, r ∈ radii ∧ dleb r d0 = true) →
  Run_loop' fuel bp radii = Err InvalidRadius.
Proof.
  intros Hfuel. revert bp. induction radii as [|r rest IH]; intros bp HInv Hnv Hq Hex.
  - destruct Hex as (r & Hin & _). inversion Hin.
  - simpl. destruct (dleb r d0) eqn:Hr.
    + unfold Run_radius. rewrite Hr. reflexivity.
    + destruct (Run_radius_total fuel bp r Hfuel HInv Hnv Hq Hr)
        as (bp1 & H1 & HInv1 & Hnv1 & _ & Hq1).
      rewrite H1. cbn [rbind]. apply (IH bp1 HInv1 Hnv1 Hq1).
      destruct Hex as (r' & Hin & Hr'). apply elem_of_cons in Hin as [->|Hin].
      * congruence.
      * exists r'. auto.
Qed.

(** The initial state *)
Lemma BallPivoting_new_Inv (pcd : PointCloud D) : Inv (BallPivoting_new pcd).
Proof.
  split; constructor; simpl.
  - intros e E HE. rewrite lookup_nil in HE. discriminate.
  - intros v V HV e. rewrite list_lookup_imap in HV.
    destruct (points_ pcd !! v); [|discriminate]. injection HV as <-. simpl.
    split; [intros H; inversion H|].
    intros (E & HE & _). rewrite lookup_nil in HE. discriminate.
  - intros e e' E E' HE. rewrite lookup_nil in HE. discriminate.
  - intros e E HE. rewrite lookup_nil in HE. discriminate.
  - intros e E HE. rewrite lookup_nil in HE. discriminate.
  - constructor.
  - intros e. split; [intros H; inversion H|].
    intros (E & HE & _). rewrite lookup_nil in HE. discriminate.
  - intros e H. inversion H.
  - intros t T HT. rewrite lookup_nil in HT. discriminate.
  - intros t t' T T' HT. rewrite lookup_nil in HT. discriminate.
  - constructor.
  - intros v V HV. rewrite list_lookup_imap in HV.
    destruct (points_ pcd !! v); [|discriminate]. injection HV as <-. simpl.
    split; reflexivity.
Qed.

Lemma BallPivoting_new_length (pcd : PointCloud D) :
  length (vertices (BallPivoting_new pcd)) = length (points_ pcd).
Proof. simpl. apply length_imap. Qed.

Lemma evolves_Inv bp0 bp :
  Inv bp0 → length (vertices bp0) = nv → evolves bp0 bp →
  Inv bp ∧ length (vertices bp) = nv ∧ has_normals_ bp = has_normals_ bp0
  ∧ (∀ e E, edge_heap bp0 !! e = Some E → type_ E = Edge.Inner →
       edge_heap bp !! e = Some E).
Proof.
  intros HInv0 Hnv0 Hr. induction Hr as [|bp edge rest radius bp' _ IH Hq Hb
                                         |bp v radius b bp' _ IH Hv Hs
                                         |bp radius bp' _ IH Hu].
  - auto.
  - destruct IH as (HInv & Hnv & Hhn & Hst). pose proof HInv as [Hok _].
    assert (HInvq : Inv (with_edge_front bp rest)).
    { apply Inv_with_edge_front; [exact HInv|]. intros e He.
      apply (ok_front _ Hok). rewrite Hq. right. exact He. }
    destruct (ExpandTriangulation_body_post (with_edge_front bp rest) edge radius
                HInvq Hnv) as (bp1 & Hb1 & Hp).
    { simpl. apply (ok_front _ Hok). rewrite Hq. left. }
    assert (bp1 = bp') by congruence. subst bp1.
    split; [exact (tp_inv _ _ _ Hp)|].
    split; [rewrite (tp_len _ _ _ Hp); exact Hnv|].
    split; [rewrite (tp_normals _ _ _ Hp); exact Hhn|].
    intros e E HE Hin. apply (tp_inner _ _ _ Hp); [|exact Hin].
    exact (Hst e E HE Hin).
  - destruct IH as (HInv & Hnv & Hhn & Hst). rewrite Hnv in Hv.
    destruct (TrySeed_post bp v radius HInv Hnv Hv) as [Hs'|(bp1 & Hs' & Hsd)].
    + assert (bp' = bp) by congruence. subst. auto.
    + assert (bp1 = bp') by congruence. subst bp1.
      split; [exact (sd_inv _ _ _ Hsd)|].
      split; [rewrite (sd_len _ _ _ Hsd); exact Hnv|].
      split; [rewrite (sd_normals _ _ _ Hsd); exact Hhn|].
      intros e E HE Hin. apply (sd_inner _ _ _ Hsd). exact (Hst e E HE Hin).
  - destruct IH as (HInv & Hnv & Hhn & Hst).
    destruct (update_border_edges_post bp radius HInv Hnv)
      as (bp1 & Hu1 & HInv1 & Hnv1 & Hn1 & _ & Hin1).
    assert (bp1 = bp') by congruence. subst bp1.
    split; [exact HInv1|]. split; [exact Hnv1|].
    split; [rewrite Hn1; exact Hhn|].
    intros e E HE Hin. apply Hin1; [|exact Hin]. exact (Hst e E HE Hin).
Qed.

Lemma reachable_Inv pcd bp :
  length (points_ pcd) = nv → reachable pcd bp →
  Inv bp ∧ length (vertices bp) = nv ∧ has_normals_ bp = HasNormals pcd.
Proof.
  intros Hn Hr.
  destruct (evolves_Inv (BallPivoting_new pcd) bp (BallPivoting_new_Inv pcd)
              ltac:(rewrite BallPivoting_new_length; exact Hn) Hr)
    as (HInv & Hnv & Hhn & _).
  auto.
Qed.

Lemma evolves_trans bp0 bp1 bp2 :
  evolves bp0 bp1 → evolves bp1 bp2 → evolves bp0 bp2.
Proof.
  intros H01 H12. induction H12.
  - exact H01.
  - eapply ev_turn; eassumption.
  - eapply ev_seed; eassumption.
  - eapply ev_border; eassumption.
Qed.

(** Every state [Run] returns is one of them. *)
Lemma ExpandTriangulation_reachable pcd fuel bp radius bp' :
  reachable pcd bp → ExpandTriangulation' fuel bp radius = Ok bp' →
  reachable pcd bp'.
Proof.
  unfold reachable.
  revert bp. induction fuel as [|fuel IH]; intros bp Hr He; simpl in He;
    destruct (edge_front_ bp) as [|edge rest] eqn:Hq; try discriminate.
  - injection He as <-. exact Hr.
  - injection He as <-. exact Hr.
  - destruct (ExpandTriangulation_body' (with_edge_front bp rest) edge radius)
      as [bp1|] eqn:Hb; [|discriminate].
    cbn [rbind] in He. apply (IH bp1); [|exact He].
    exact (ev_turn _ bp edge rest radius bp1 Hr Hq Hb).
Qed.

Lemma FindSeedTriangle_loop_reachable pcd fuel bp radius vidxs bp' :
  length (points_ pcd) = nv → (∀ v, v ∈ vidxs → v < nv) →
  reachable pcd bp →
  FindSeedTriangle_loop' fuel bp radius vidxs = Ok bp' →
  reachable pcd bp'.
Proof.
  intros Hn. revert bp. induction vidxs as [|vidx rest IH]; intros bp Hv Hr Hl;
    simpl in Hl.
  - injection Hl as <-. exact Hr.
  - assert (Hv' : ∀ v, v ∈ rest → v < nv) by (intros v Hin; apply Hv; right; exact Hin).
    destruct (is_orphan bp vidx); [|exact (IH bp Hv' Hr Hl)].
    destruct (TrySeed' bp vidx radius) as [[b bp1]|] eqn:Hs; [|discriminate].
    cbn [rbind] in Hl.
    assert (Hr1 : reachable pcd bp1).
    { apply (ev_seed _ bp vidx radius b bp1 Hr); [|exact Hs].
      destruct (reachable_Inv pcd bp Hn Hr) as (_ & -> & _).
      apply Hv. left. }
    destruct b.
    + destruct (ExpandTriangulation' fuel bp1 radius) as [bp2|] eqn:He; [|discriminate].
      cbn [rbind] in Hl. apply (IH bp2 Hv'); [|exact Hl].
      exact (ExpandTriangulation_reachable pcd fuel bp1 radius bp2 Hr1 He).
    + exact (IH bp1 Hv' Hr1 Hl).
Qed.

Lemma Run_radius_reachable pcd fuel bp radius bp' :
  length (points_ pcd) = nv → reachable pcd bp →
  Run_radius' fuel bp radius = Ok bp' → reachable pcd bp'.
Proof.
  intros Hn Hr H. unfold Run_radius in H.
  destruct (dleb radius d0); [discriminate|].
  destruct (update_border_edges SearchRadius bp radius) as [bp1|] eqn:Hu; [|discriminate].
  cbn [rbind] in H.
  pose proof (ev_border _ bp radius bp1 Hr Hu : reachable pcd bp1) as Hr1.
  destruct (edge_front_ bp1).
  - unfold FindSeedTriangle in H.
    apply (FindSeedTriangle_loop_reachable pcd fuel bp1 radius
             (seq 0 (length (vertices bp1))) bp' Hn); try assumption.
    intros v Hv. apply elem_of_seq in Hv.
    destruct (reachable_Inv pcd bp1 Hn Hr1) as (_ & Hlen & _). lia.
  - exact (ExpandTriangulation_reachable pcd fuel bp1 radius bp' Hr1 H).
Qed.

Lemma Run_loop_reachable pcd fuel bp radii bp' :
  length (points_ pcd) = nv → reachable pcd bp →
  Run_loop' fuel bp radii = Ok bp' → reachable pcd bp'.
Proof.
  intros Hn. revert bp. induction radii as [|r rest IH]; intros bp Hr H; simpl in H.
  - injection H as <-. exact Hr.
  - destruct (Run_radius' fuel bp r) as [bp1|] eqn:H1; [|discriminate].
    cbn [rbind] in H. apply (IH bp1); [|exact H].
    exact (Run_radius_reachable pcd fuel bp r bp1 Hn Hr H1).
Qed.

Lemma Run_reachable pcd fuel radii bp' :
  length (points_ pcd) = nv →
  Run' fuel (BallPivoting_new pcd) radii = Ok bp' → reachable pcd bp'.
Proof.
  intros Hn H. unfold Run in H. destruct (negb _); [discriminate|].
  apply (Run_loop_reachable pcd fuel (BallPivoting_new pcd) radii bp' Hn);
    [apply ev_refl | exact H].
Qed.

(** *** Properties of the engine *)
Lemma link_side_total bp va vb t :
  ∃ bp', link_side bp va vb t = Ok bp'
         ∧ triangle_heap bp' = triangle_heap bp ∧ same_lists bp bp'.
Proof.
  unfold link_side.
  destruct (GetLinkingEdge bp va vb) as [e|].
  - destruct (AddAdjacentTriangle_Ok (vertices bp) (triangle_heap bp)
                (edge_at (edge_heap bp) e) t) as [E' ->].
    eexists. split; [reflexivity|]. simpl. repeat split.
  - destruct (AddAdjacentTriangle_Ok (vertices bp) (triangle_heap bp)
                (edge_at (edge_heap bp ++ [BallPivotingEdge_new va vb])
                   (length (edge_heap bp))) t) as [E' ->].
    eexists. split; [reflexivity|]. simpl. repeat split.
Qed.

(** CreateTriangle always returns: it allocates the triangle and emits it. *)
Lemma CreateTriangle_total bp v0 v1 v2 c :
  ∃ bp', CreateTriangle bp v0 v1 v2 c = Ok bp'
         ∧ triangle_heap bp' =
             triangle_heap bp ++ [BallPivotingTriangle_new v0 v1 v2 c]
         ∧ border_edges_ bp' = border_edges_ bp
         ∧ edge_front_ bp' = edge_front_ bp
         ∧ ∃ m, mesh_triangles_ bp' = mesh_triangles_ bp ++ [m]
                ∧ emitted m (BallPivotingTriangle_new v0 v1 v2 c).
Proof.
  unfold CreateTriangle.
  set (bp0 := with_triangle_heap bp _).
  destruct (link_side_total bp0 v0 v1 (length (triangle_heap bp)))
    as (bp1 & -> & Ht1 & (Hf1 & Hb1 & Hm1 & _)). cbn [rbind].
  destruct (link_side_total bp1 v1 v2 (length (triangle_heap bp)))
    as (bp2 & -> & Ht2 & (Hf2 & Hb2 & Hm2 & _)). cbn [rbind].
  destruct (link_side_total bp2 v2 v0 (length (triangle_heap bp)))
    as (bp3 & -> & Ht3 & (Hf3 & Hb3 & Hm3 & _)). cbn [rbind].
  eexists. split; [reflexivity|]. simpl.
  split; [rewrite Ht3, Ht2, Ht1; reflexivity|].
  split; [rewrite Hb3, Hb2, Hb1; reflexivity|].
  split; [rewrite Hf3, Hf2, Hf1; reflexivity|].
  eexists. split; [rewrite Hm3, Hm2, Hm1; reflexivity|].
  unfold emitted. simpl. destruct (dltb _ _); [left|right]; reflexivity.
Qed.

Lemma push_front_if_front_frame bp e bp' :
  push_front_if_front bp e = Ok bp' →
  triangle_heap bp' = triangle_heap bp ∧ border_edges_ bp' = border_edges_ bp
  ∧ edge_heap bp' = edge_heap bp ∧ mesh_triangles_ bp' = mesh_triangles_ bp.
Proof.
  unfold push_front_if_front. destruct e as [e|]; [|discriminate].
  destruct (is_front bp e); intros [= <-]; auto.
Qed.

(** C3. One turn of [ExpandTriangulation] on a popped edge that is still
    Front.  When [FindCandidateVertex] gives no candidate, or the candidate
    is Inner, or [IsCompatible] fails, or an existing edge from the candidate
    to the source or to the target is not Front, the edge becomes Border, is
    appended to the border list, and no triangle is created.  Otherwise the
    triangle (source, target, candidate) is created with the center found,
    and the border list is left as it was. *)
Theorem ExpandTriangulation_body_decision bp edge radius found :
  is_front bp edge = true → edge < length (edge_heap bp) →
  FindCandidateVertex' bp edge radius = Ok found →
  (candidate_rejected bp edge found = true →
     ∃ bp', ExpandTriangulation_body' bp edge radius = Ok bp'
       ∧ type_ (edge_at (edge_heap bp') edge) = Edge.Border
       ∧ border_edges_ bp' = border_edges_ bp ++ [edge]
       ∧ triangle_heap bp' = triangle_heap bp
       ∧ mesh_triangles_ bp' = mesh_triangles_ bp)
  ∧ (candidate_rejected bp edge found = false →
     ∃ candidate center bp1,
       found = Some (candidate, center)
       ∧ CreateTriangle bp (source_ (edge_at (edge_heap bp) edge))
           (target_ (edge_at (edge_heap bp) edge)) candidate center = Ok bp1
       ∧ triangle_heap bp1 =
           triangle_heap bp ++
             [BallPivotingTriangle_new (source_ (edge_at (edge_heap bp) edge))
                (target_ (edge_at (edge_heap bp) edge)) candidate center]
       ∧ ExpandTriangulation_body' bp edge radius =
           (let* b := push_front_if_front bp1
                        (GetLinkingEdge bp1 candidate
                           (source_ (edge_at (edge_heap bp1) edge))) in
            push_front_if_front b
              (GetLinkingEdge bp1 candidate
                 (target_ (edge_at (edge_heap bp1) edge))))
       ∧ ∀ bp', ExpandTriangulation_body' bp edge radius = Ok bp' →
           triangle_heap bp' = triangle_heap bp1
           ∧ border_edges_ bp' = border_edges_ bp).
Proof.
  intros Hfr Hlt Hfound.
  assert (Hb : ∀ bp', bp' = mark_border bp edge →
            type_ (edge_at (edge_heap bp') edge) = Edge.Border
            ∧ border_edges_ bp' = border_edges_ bp ++ [edge]
            ∧ triangle_heap bp' = triangle_heap bp
            ∧ mesh_triangles_ bp' = mesh_triangles_ bp).
  { intros bp' ->. unfold mark_border. simpl. repeat split.
    unfold edge_at at 1. rewrite list_lookup_insert_eq by exact Hlt. reflexivity. }
  unfold ExpandTriangulation_body, candidate_rejected. rewrite Hfr, Hfound.
  cbn [negb rbind].
  destruct found as [[c ctr]|].
  2:{ split; [|discriminate]. intros _. eexists. split; [reflexivity|].
      apply Hb. reflexivity. }
  destruct (bool_decide _ || negb _) eqn:H1; cbn [orb].
  { split; [|discriminate]. intros _. eexists. split; [reflexivity|].
    apply Hb. reflexivity. }
  destruct (not_front bp (GetLinkingEdge bp c _) || not_front bp (GetLinkingEdge bp c _)) eqn:H2.
  { split; [|discriminate]. intros _. eexists. split; [reflexivity|].
    apply Hb. reflexivity. }
  split; [discriminate|]. intros _.
  destruct (CreateTriangle_total bp (source_ (edge_at (edge_heap bp) edge))
              (target_ (edge_at (edge_heap bp) edge)) c ctr)
    as (bp1 & Hcr & Hts & Hbd & _).
  exists c, ctr, bp1. split; [reflexivity|]. split; [exact Hcr|].
  split; [exact Hts|]. rewrite Hcr. cbn [rbind]. split; [reflexivity|].
  intros bp' Hbody.
  destruct (push_front_if_front bp1 _) as [b|] eqn:Hp1; [|discriminate].
  cbn [rbind] in Hbody.
  destruct (push_front_if_front_frame _ _ _ Hp1) as (Ha & Hc & _).
  destruct (push_front_if_front_frame _ _ _ Hbody) as (Ha' & Hc' & _).
  split; congruence.
Qed.

Lemma Run_empty_ball_true v0 v1 v2 indices :
  Run_empty_ball v0 v1 v2 indices = true ↔
  ∀ i, i ∈ indices → i = v0 ∨ i = v1 ∨ i = v2.
Proof.
  induction indices as [|idx rest IH]; simpl.
  - split; [intros _ i Hi; inversion Hi | reflexivity].
  - destruct (Nat.eqb_spec idx v0) as [E0|N0]; simpl.
    { rewrite IH. split.
      - intros H i Hi. apply elem_of_cons in Hi as [->|Hi]; auto.
      - intros H i Hi. apply H. right. exact Hi. }
    destruct (Nat.eqb_spec idx v1) as [E1|N1]; simpl.
    { rewrite IH. split.
      - intros H i Hi. apply elem_of_cons in Hi as [->|Hi]; auto.
      - intros H i Hi. apply H. right. exact Hi. }
    destruct (Nat.eqb_spec idx v2) as [E2|N2]; simpl.
    { rewrite IH. split.
      - intros H i Hi. apply elem_of_cons in Hi as [->|Hi]; auto.
      - intros H i Hi. apply H. right. exact Hi. }
    split; [discriminate|]. intros H.
    destruct (H idx (list_elem_of_here _ _)) as [?|[?|?]]; contradiction.
Qed.

Lemma ready_iff bp radius e E t :
  edge_heap bp !! e = Some E → triangle0_ E = Some t →
  ready bp radius e = true ↔
  revisit_ball_empty bp (triangle_at (triangle_heap bp) t) radius.
Proof.
  intros HE H0. unfold ready, border_edge_ready, revisit_ball_empty.
  rewrite (edge_at_lookup _ _ _ HE), H0.
  destruct (ComputeBallCenter _ _ _ _ _) as [c|].
  - rewrite Run_empty_ball_true. split.
    + intros H. exists c. auto.
    + intros (c' & [= <-] & H). exact H.
  - split; [discriminate|]. intros (c' & Hc & _). discriminate.
Qed.

(** C4. The border revisit done at every radius: for each edge of the border
    list, with [T] its first triangle, if [ComputeBallCenter] succeeds on the
    vertices of [T] at the radius and the search of that radius around the
    center returns no vertex but those of [T], the edge becomes Front, is
    appended at the back of the front queue and leaves the border list;
    in all other cases it stays Border and stays in the border list. *)
Theorem border_revisit bp radius :
  (∀ e, e ∈ border_edges_ bp →
     ∃ E, edge_heap bp !! e = Some E ∧ type_ E = Edge.Border
          ∧ triangle0_ E ≠ None) →
  ∃ bp', update_border_edges SearchRadius bp radius = Ok bp'
    ∧ edge_front_ bp' =
        edge_front_ bp
        ++ filter (λ e, ready bp radius e = true) (border_edges_ bp)
    ∧ ∀ e E t, e ∈ border_edges_ bp → edge_heap bp !! e = Some E →
        triangle0_ E = Some t →
        (revisit_ball_empty bp (triangle_at (triangle_heap bp) t) radius →
           type_ (edge_at (edge_heap bp') e) = Edge.Front
           ∧ e ∈ edge_front_ bp' ∧ e ∉ border_edges_ bp')
        ∧ (¬ revisit_ball_empty bp (triangle_at (triangle_heap bp) t) radius →
           type_ (edge_at (edge_heap bp') e) = Edge.Border
           ∧ e ∈ border_edges_ bp').
Proof.
  intros Hb.
  destruct (Run_border_loop_post bp radius (border_edges_ bp)) as (bp1 & kept & Hl & Hp).
  { intros e He. destruct (Hb e He) as (E & HE & _ & H0). exists E. auto. }
  unfold update_border_edges. rewrite Hl. cbn [rbind].
  eexists. split; [reflexivity|]. simpl.
  destruct Hp as [Hk Hf Hv Hts Hbd Hm Hmn Hn Hlen Hheap].
  split; [exact Hf|].
  intros e E t He HE H0.
  pose proof (ready_iff bp radius e E t HE H0) as Hr.
  rewrite (edge_at_lookup _ _ _ (Hheap e E HE)). unfold refront. split.
  - intros Hball. apply Hr in Hball.
    rewrite decide_True by auto. split; [reflexivity|]. split.
    + rewrite Hf. apply elem_of_app. right. apply list_elem_of_filter. auto.
    + rewrite Hk. intros Hin. apply list_elem_of_filter in Hin as [Hc _]. congruence.
  - intros Hnb.
    assert (Hfalse : ready bp radius e = false).
    { destruct (ready bp radius e); [|reflexivity]. exfalso. apply Hnb, Hr. reflexivity. }
    rewrite decide_False by (intros [_ Hc]; congruence).
    destruct (Hb e He) as (E2 & HE2 & Hty & _).
    assert (E2 = E) by congruence. subst E2.
    split; [exact Hty|]. rewrite Hk. apply list_elem_of_filter. auto.
Qed.

(** C2. In every state the engine reaches between two operations, every
    edge has its first slot filled; it is Inner exactly when both slots are
    filled; it is Border exactly when it stands in the border list, and its
    second slot is then empty; it is Front otherwise, that is exactly when
    its second slot is empty and it is not in the border list.  A new edge
    is Front, the first triangle attached to it keeps it Front, and the
    second one makes it Inner. *)
Theorem edge_classification pcd bp :
  length (points_ pcd) = nv → reachable pcd bp →
  (∀ e E, edge_heap bp !! e = Some E →
     is_Some (triangle0_ E)
     ∧ (type_ E = Edge.Inner ↔ is_Some (triangle0_ E) ∧ is_Some (triangle1_ E))
     ∧ (type_ E = Edge.Border ↔ e ∈ border_edges_ bp)
     ∧ (type_ E = Edge.Border → triangle1_ E = None)
     ∧ (type_ E = Edge.Front ↔ triangle1_ E = None ∧ e ∉ border_edges_ bp))
  ∧ (∀ source target, type_ (BallPivotingEdge_new source target) = Edge.Front)
  ∧ (∀ (vs : list (BallPivotingVertex D)) ts E t E',
       triangle0_ E = None → triangle1_ E = None →
       AddAdjacentTriangle vs ts E t = Ok E' →
       triangle0_ E' = Some t ∧ triangle1_ E' = None ∧ type_ E' = Edge.Front)
  ∧ (∀ (vs : list (BallPivotingVertex D)) ts E t t0 E',
       triangle0_ E = Some t0 → t0 ≠ t → triangle1_ E = None →
       AddAdjacentTriangle vs ts E t = Ok E' →
       triangle0_ E' = Some t0 ∧ triangle1_ E' = Some t ∧ type_ E' = Edge.Inner).
Proof.
  intros Hn Hr. destruct (reachable_Inv pcd bp Hn Hr) as ([Hok _] & _).
  split; [|split; [reflexivity|split]].
  - intros e E HE.
    destruct (ok_slot0 _ Hok _ _ HE) as (t & T & H0 & _).
    pose proof (ok_type _ Hok _ _ HE) as Hty.
    assert (Hbd : type_ E = Edge.Border ↔ e ∈ border_edges_ bp).
    { rewrite (ok_border _ Hok). split.
      - intros Hb. exists E. auto.
      - intros (E' & HE' & Hb). congruence. }
    split; [rewrite H0; eexists; reflexivity|]. split; [|split; [exact Hbd|split]].
    + rewrite Hty. split.
      * intros H1. split; [rewrite H0; eexists; reflexivity|].
        destruct (triangle1_ E); [eexists; reflexivity | contradiction].
      * intros [_ [x Hx]]. congruence.
    + intros Hb. apply (Front_slot1 bp e E Hok HE). rewrite Hb. discriminate.
    + rewrite <- Hbd. split.
      * intros Hf. split; [|rewrite Hf; discriminate].
        apply (Front_slot1 bp e E Hok HE). rewrite Hf. discriminate.
      * intros [H1 Hnb]. destruct (type_ E) eqn:Ht; [contradiction | reflexivity|].
        exfalso. destruct Hty as [Hty _]. specialize (Hty eq_refl). congruence.
  - intros vs ts E t E' H0 H1 Ha.
    unfold AddAdjacentTriangle in Ha. rewrite H0, H1 in Ha.
    rewrite decide_True in Ha by (split; discriminate).
    destruct (GetOppositeVertex ts _); [|discriminate].
    destruct (dltb _ _); injection Ha as <-; simpl; auto.
  - intros vs ts E t t0 E' H0 Hne H1 Ha.
    rewrite (AddAdjacentTriangle_second _ _ _ _ _ H0 Hne H1) in Ha.
    injection Ha as <-. simpl. auto.
Qed.

(** C10. In a reachable state, when the turn of [ExpandTriangulation] on the
    popped edge creates a triangle, that edge was Front with its second slot
    empty, and after the turn it is Inner with the new triangle in its second
    slot.  It is Inner in every later state, and a turn on it there does
    nothing: it is never expanded into a triangle again. *)
Theorem expanded_edge_becomes_inner pcd bp edge rest radius bp' :
  length (points_ pcd) = nv → reachable pcd bp →
  edge_front_ bp = edge :: rest →
  ExpandTriangulation_body' (with_edge_front bp rest) edge radius = Ok bp' →
  triangle_heap bp' ≠ triangle_heap bp →
  (∃ E E', edge_heap bp !! edge = Some E ∧ type_ E = Edge.Front
           ∧ triangle1_ E = None
           ∧ edge_heap bp' !! edge = Some E' ∧ type_ E' = Edge.Inner
           ∧ triangle1_ E' = Some (length (triangle_heap bp))
           ∧ length (triangle_heap bp') = S (length (triangle_heap bp)))
  ∧ ∀ bp2, evolves bp' bp2 →
      type_ (edge_at (edge_heap bp2) edge) = Edge.Inner
      ∧ ∀ radius2, ExpandTriangulation_body' bp2 edge radius2 = Ok bp2.
Proof.
  intros Hn Hr Hq Hb Hcreated.
  destruct (reachable_Inv pcd bp Hn Hr) as (HInv & Hnv & _).
  pose proof HInv as [Hok _].
  assert (HInvq : Inv (with_edge_front bp rest)).
  { apply Inv_with_edge_front; [exact HInv|]. intros e He.
    apply (ok_front _ Hok). rewrite Hq. right. exact He. }
  assert (Hlt : edge < length (edge_heap bp)).
  { apply (ok_front _ Hok). rewrite Hq. left. }
  destruct (ExpandTriangulation_body_post (with_edge_front bp rest) edge radius
              HInvq Hnv Hlt) as (bp1 & Hb1 & Hp).
  assert (bp1 = bp') by congruence. subst bp1.
  destruct (tp_created _ _ _ Hp) as [Hsame|(E' & HE' & Hty' & H1' & Hlen')];
    [contradiction|]. simpl in *.
  destruct (lookup_lt_is_Some_2 _ _ Hlt) as [E HE].
  assert (Hfront : type_ E = Edge.Front).
  { unfold ExpandTriangulation_body in Hb.
    destruct (is_front (with_edge_front bp rest) edge) eqn:Hf.
    - apply (is_front_true (with_edge_front bp rest) edge E HE). exact Hf.
    - simpl in Hb. injection Hb as <-. contradiction. }
  split.
  - exists E, E'. split; [exact HE|]. split; [exact Hfront|].
    split; [apply (Front_slot1 bp edge E Hok HE); rewrite Hfront; discriminate|].
    auto.
  - intros bp2 Hev.
    destruct (evolves_Inv bp' bp2 (tp_inv _ _ _ Hp)
                ltac:(rewrite (tp_len _ _ _ Hp); exact Hnv) Hev)
      as (_ & _ & _ & Hst).
    pose proof (Hst edge E' HE' Hty') as HE2.
    rewrite (edge_at_lookup _ _ _ HE2). split; [exact Hty'|].
    intros radius2. unfold ExpandTriangulation_body, is_front.
    rewrite (edge_at_lookup _ _ _ HE2), Hty'. reflexivity.
Qed.

(** C7. No two triangles of the output mesh have the same three vertex
    indices, in whatever order: in every state the engine reaches, and so in
    the state [Run] returns, for every point cloud, radius list and fuel. *)
Theorem no_duplicate_triangles pcd :
  length (points_ pcd) = nv →
  (∀ bp, reachable pcd bp →
     ∀ i j m m', mesh_triangles_ bp !! i = Some m →
       mesh_triangles_ bp !! j = Some m' → same_triple m m' → i = j)
  ∧ (∀ fuel radii bp',
       Run' fuel (BallPivoting_new pcd) radii = Ok bp' →
       ∀ i j m m', mesh_triangles_ bp' !! i = Some m →
         mesh_triangles_ bp' !! j = Some m' → same_triple m m' → i = j).
Proof.
  intros Hn.
  assert (H : ∀ bp, reachable pcd bp →
            ∀ i j m m', mesh_triangles_ bp !! i = Some m →
              mesh_triangles_ bp !! j = Some m' → same_triple m m' → i = j).
  { intros bp Hr i j m m' Hi Hj Hsame.
    destruct (reachable_Inv pcd bp Hn Hr) as ([_ Htri] & _).
    destruct (Forall2_lookup_l _ _ _ _ _ (ok_mesh _ Htri) Hi) as (T & HT & Hm).
    destruct (Forall2_lookup_l _ _ _ _ _ (ok_mesh _ Htri) Hj) as (T' & HT' & Hm').
    apply (ok_tri_uniq _ Htri i j T T' HT HT').
    assert (Hel : ∀ v, tri_has T v ↔ v ∈ [m.1.1; m.1.2; m.2]).
    { intros v. unfold tri_has. destruct Hm as [-> | ->]; simpl;
        rewrite !elem_of_cons, elem_of_nil; intuition congruence. }
    assert (Hel' : ∀ v, tri_has T' v ↔ v ∈ [m'.1.1; m'.1.2; m'.2]).
    { intros v. unfold tri_has. destruct Hm' as [-> | ->]; simpl;
        rewrite !elem_of_cons, elem_of_nil; intuition congruence. }
    intros v. rewrite Hel, Hel'. unfold same_triple in Hsame.
    rewrite Hsame. reflexivity. }
  split; [exact H|].
  intros fuel radii bp' Hrun. apply H.
  exact (Run_reachable pcd fuel radii bp' Hn Hrun).
Qed.

(** C6. With fuel enough for the expansion loop, [Run] fails exactly when the
    point cloud has no normals or a radius of the list is at most zero; the
    failure is [MissingNormals] in the first case and [InvalidRadius] in the
    second, and it is what [Run] returns.  With normals and all radii above
    zero [Run] returns a state, reached by the operations of the engine,
    whose mesh lists the triangles created, in order. *)
Theorem Run_failure pcd radii fuel :
  length (points_ pcd) = nv → 3 * (nv * nv) + 3 ≤ fuel →
  ((∃ f, Run' fuel (BallPivoting_new pcd) radii = Err f) ↔
     HasNormals pcd = false ∨ ∃ r, r ∈ radii ∧ dleb r d0 = true)
  ∧ (HasNormals pcd = false →
       Run' fuel (BallPivoting_new pcd) radii = Err MissingNormals)
  ∧ (HasNormals pcd = true → (∃ r, r ∈ radii ∧ dleb r d0 = true) →
       Run' fuel (BallPivoting_new pcd) radii = Err InvalidRadius)
  ∧ (HasNormals pcd = true → (∀ r, r ∈ radii → dleb r d0 = false) →
       ∃ bp', Run' fuel (BallPivoting_new pcd) radii = Ok bp'
              ∧ reachable pcd bp'
              ∧ Forall2 emitted (mesh_triangles_ bp') (triangle_heap bp')).
Proof.
  intros Hn Hfuel.
  pose proof (BallPivoting_new_Inv pcd) as HInv.
  pose proof (BallPivoting_new_length pcd) as Hlen. rewrite Hn in Hlen.
  assert (Hmissing : HasNormals pcd = false →
            Run' fuel (BallPivoting_new pcd) radii = Err MissingNormals).
  { intros Hh. unfold Run. simpl. rewrite Hh. reflexivity. }
  assert (Hinvalid : HasNormals pcd = true → (∃ r, r ∈ radii ∧ dleb r d0 = true) →
            Run' fuel (BallPivoting_new pcd) radii = Err InvalidRadius).
  { intros Hh Hex. unfold Run. simpl. rewrite Hh. simpl.
    exact (Run_loop_invalid fuel (BallPivoting_new pcd) radii Hfuel HInv Hlen
             eq_refl Hex). }
  assert (Hok : HasNormals pcd = true → (∀ r, r ∈ radii → dleb r d0 = false) →
            ∃ bp', Run' fuel (BallPivoting_new pcd) radii = Ok bp'
                   ∧ reachable pcd bp'
                   ∧ Forall2 emitted (mesh_triangles_ bp') (triangle_heap bp')).
  { intros Hh Hall.
    destruct (Run_loop_total fuel (BallPivoting_new pcd) radii Hfuel HInv Hlen
                eq_refl Hall) as (bp' & Hrun & [_ Htri] & _).
    assert (Hrun' : Run' fuel (BallPivoting_new pcd) radii = Ok bp').
    { unfold Run. simpl. rewrite Hh. simpl. exact Hrun. }
    exists bp'. split; [exact Hrun'|].
    split; [exact (Run_reachable pcd fuel radii bp' Hn Hrun')|].
    exact (ok_mesh _ Htri). }
  split; [|auto].
  split.
  - intros [f Hf]. destruct (HasNormals pcd) eqn:Hh; [|left; reflexivity].
    right.
    destruct (decide (Exists (λ r, dleb r d0 = true) radii)) as [Hex|Hnex].
    + apply Exists_exists in Hex. exact Hex.
    + exfalso. destruct (Hok eq_refl) as (bp' & Hrun & _); [|congruence].
      intros r Hr. destruct (dleb r d0) eqn:Hd; [|reflexivity].
      exfalso. apply Hnex. apply Exists_exists. exists r. auto.
  - intros [Hh|Hex].
    + exists MissingNormals. exact (Hmissing Hh).
    + destruct (HasNormals pcd) eqn:Hh.
      * exists InvalidRadius. exact (Hinvalid eq_refl Hex).
      * exists MissingNormals. exact (Hmissing eq_refl).
Qed.

(** C9, amended. The front queue is a stack for seeds and for expansions
    alike: [TrySeed] pushes its three edges at the head, so the last one
    pushed is the first one popped; a turn of [ExpandTriangulation] pushes
    at most two edges at the head; [ExpandTriangulation] pops at the head.
    Only the border revisit appends at the back. *)
Theorem front_queue_order bp :
  Inv bp → length (vertices bp) = nv →
  (∀ v radius bp', v < nv → TrySeed' bp v radius = Ok (true, bp') →
     ∃ nb0 nb1 ctr bp1 e0 e1 e2,
       CreateTriangle bp v nb0 nb1 ctr = Ok bp1
       ∧ GetLinkingEdge bp1 v nb1 = Some e0
       ∧ GetLinkingEdge bp1 nb0 nb1 = Some e1
       ∧ GetLinkingEdge bp1 v nb0 = Some e2
       ∧ edge_front_ bp' = e2 :: e1 :: e0 :: edge_front_ bp)
  ∧ (∀ edge radius bp', edge < length (edge_heap bp) →
       ExpandTriangulation_body' bp edge radius = Ok bp' →
       ∃ pushed, edge_front_ bp' = pushed ++ edge_front_ bp
                 ∧ length pushed ≤ 2)
  ∧ (∀ radius bp', update_border_edges SearchRadius bp radius = Ok bp' →
       edge_front_ bp' =
         edge_front_ bp
         ++ filter (λ e, ready bp radius e = true) (border_edges_ bp))
  ∧ (∀ fuel edge rest radius, edge_front_ bp = edge :: rest →
       ExpandTriangulation' (S fuel) bp radius =
         (let* b := ExpandTriangulation_body' (with_edge_front bp rest) edge radius in
          ExpandTriangulation' fuel b radius)).
Proof.
  intros HInv Hnv. split; [|split; [|split]].
  - intros v radius bp' Hv Hs.
    destruct (TrySeed_post bp v radius HInv Hnv Hv) as [Hs'|(bp1 & Hs' & Hsd)];
      [congruence|].
    assert (bp1 = bp') by congruence. subst bp1.
    destruct (sd_front _ _ _ Hsd)
      as (nb0 & nb1 & ctr & bp1 & e0 & e1 & e2 & Hcr & H0 & H1 & H2 & ->).
    exists nb0, nb1, ctr, bp1, e0, e1, e2. auto.
  - intros edge radius bp' Hlt Hb.
    destruct (ExpandTriangulation_body_post bp edge radius HInv Hnv Hlt)
      as (bp1 & Hb1 & Hp).
    assert (bp1 = bp') by congruence. subst bp1. exact (tp_front _ _ _ Hp).
  - intros radius bp' Hu.
    destruct (Run_border_loop_post bp radius (border_edges_ bp) (border_valid bp HInv))
      as (bp1 & kept & Hl & Hp).
    unfold update_border_edges in Hu. rewrite Hl in Hu. cbn [rbind] in Hu.
    injection Hu as <-. simpl. exact (rp_front _ _ _ _ _ Hp).
  - intros fuel edge rest radius Hq. simpl. rewrite Hq. reflexivity.
Qed.

End Expand.

Section UnitClaims.
Context {D : Type} {AR : Arith D}.
Local Open Scope D_scope.
Implicit Types (es : list BallPivotingEdge) (V : BallPivotingVertex D).

Lemma UpdateType_loop_Front es l :
  UpdateType_loop es l = Vertex.Front ↔
  ∃ e, e ∈ l ∧ type_ (edge_at es e) ≠ Edge.Inner.
Proof.
  induction l as [|a l IH]; simpl.
  - split; [discriminate|]. intros (e & He & _). inversion He.
  - case_decide as Hc.
    + split; [|reflexivity]. intros _. exists a. split; [left|exact Hc].
    + rewrite IH. split.
      * intros (e & He & Hn). exists e. split; [right; exact He | exact Hn].
      * intros (e & He & Hn). apply elem_of_cons in He as [->|He].
        -- contradiction.
        -- exists e. auto.
Qed.

Lemma UpdateType_loop_cases es l :
  UpdateType_loop es l = Vertex.Front ∨ UpdateType_loop es l = Vertex.Inner.
Proof.
  induction l as [|a l IH]; simpl; [right; reflexivity|].
  case_decide; [left; reflexivity | exact IH].
Qed.

Lemma UpdateType_vtype es V :
  vtype_ (UpdateType es V) =
    match edges_ V with
    | [] => Vertex.Orphan
    | _ => UpdateType_loop es (edges_ V)
    end.
Proof. unfold UpdateType. destruct V as [i p n l ty]; simpl. destruct l; reflexivity. Qed.

(** C5, amended. After [UpdateType] a vertex is Orphan exactly when it has no
    incident edge; it is Front exactly when one of its incident edges is not
    Inner (so Front or Border); it is Inner exactly when it has incident
    edges and all of them are Inner.  The incident edges are not changed. *)
Theorem UpdateType_spec es V :
  (edges_ V = [] → vtype_ (UpdateType es V) = Vertex.Orphan)
  ∧ (vtype_ (UpdateType es V) = Vertex.Orphan ↔ edges_ V = [])
  ∧ (vtype_ (UpdateType es V) = Vertex.Front ↔
       ∃ e, e ∈ edges_ V ∧ type_ (edge_at es e) ≠ Edge.Inner)
  ∧ (vtype_ (UpdateType es V) = Vertex.Inner ↔
       edges_ V ≠ [] ∧ ∀ e, e ∈ edges_ V → type_ (edge_at es e) = Edge.Inner)
  ∧ edges_ (UpdateType es V) = edges_ V.
Proof.
  rewrite UpdateType_vtype, UpdateType_edges.
  destruct (edges_ V) as [|a l] eqn:Hl.
  - repeat split; try discriminate; try congruence.
    + intros (e & He & _). inversion He.
    + intros [Hc _]. contradiction.
  - pose proof (UpdateType_loop_Front es (a :: l)) as HF.
    pose proof (UpdateType_loop_cases es (a :: l)) as HC.
    split; [discriminate|]. split; [|split; [exact HF|split; [|reflexivity]]].
    + split; [|discriminate]. intros Ho. destruct HC; congruence.
    + split.
      * intros Hi. split; [discriminate|]. intros e He.
        destruct (decide (type_ (edge_at es e) = Edge.Inner)) as [|Hn]; [assumption|].
        assert (UpdateType_loop es (a :: l) = Vertex.Front)
          by (apply HF; exists e; auto).
        congruence.
      * intros [_ Hall]. destruct HC as [Hf|Hi]; [|exact Hi].
        apply HF in Hf as (e & He & Hn). exfalso. apply Hn. exact (Hall e He).
Qed.

(** [IsCompatible] with its tests spelled out, for every arithmetic *)
Lemma IsCompatible_unfold (v0 v1 v2 : BallPivotingVertex D) :
  let F := ComputeFaceNormal (point_ v0) (point_ v1) (point_ v2) in
  let F' := if dot F (normal_ v0) <? - deps16 then vmuls F (- d1) else F in
  IsCompatible v0 v1 v2 = true ↔
    (- deps16 <? dot F' (normal_ v0)) = true
    ∧ (- deps16 <? dot F' (normal_ v1)) = true
    ∧ (- deps16 <? dot F' (normal_ v2)) = true.
Proof.
  intros F F'. unfold IsCompatible. fold F. fold F'.
  rewrite !andb_true_iff. tauto.
Qed.

End UnitClaims.

Section RealClaims.
Local Open Scope R_scope.

Lemma dot_vmuls_opp (u v : Vector3d R) : dot (vmuls u (-1)) v = - dot u v.
Proof. destruct u, v; unfold dot, vmuls; simpl. ring. Qed.

(** C8, amended. Over the real numbers, [IsCompatible] turns the face normal
    over only when its dot with the normal of [v0] is below [-1e-16], and
    returns true exactly when the dots of the normal so oriented with the
    three vertex normals are all greater than [-1e-16], strictly. *)
Theorem IsCompatible_spec (v0 v1 v2 : BallPivotingVertex R) :
  let eps := 1 / 10 ^ 16 in
  let F := ComputeFaceNormal (point_ v0) (point_ v1) (point_ v2) in
  let F' := if Rltb (dot F (normal_ v0)) (- eps) then vmuls F (-1) else F in
  (IsCompatible v0 v1 v2 = true ↔
     - eps < dot F' (normal_ v0) ∧ - eps < dot F' (normal_ v1)
     ∧ - eps < dot F' (normal_ v2))
  ∧ (IsCompatible v0 v1 v2 = true ↔
       (- eps < dot F (normal_ v0) ∧ - eps < dot F (normal_ v1)
        ∧ - eps < dot F (normal_ v2))
       ∨ (dot F (normal_ v0) < - eps ∧ dot F (normal_ v1) < eps
          ∧ dot F (normal_ v2) < eps)).
Proof.
  intros eps F F'.
  assert (Heps : 0 < eps).
  { unfold eps. apply Rdiv_lt_0_compat; [lra | apply pow_lt; lra]. }
  assert (H1 : IsCompatible v0 v1 v2 = true ↔
            - eps < dot F' (normal_ v0) ∧ - eps < dot F' (normal_ v1)
            ∧ - eps < dot F' (normal_ v2)).
  { pose proof (IsCompatible_unfold v0 v1 v2) as H. cbv zeta in H.
    cbn [dltb dopp deps16 d1 R_arith] in H. fold F in H.
    change (1 / 10 ^ 16) with eps in H. fold F' in H.
    rewrite H, !Rltb_true. reflexivity. }
  split; [exact H1|]. rewrite H1. unfold F'.
  destruct (Rltb (dot F (normal_ v0)) (- eps)) eqn:Hf.
  - apply Rltb_true in Hf. rewrite !dot_vmuls_opp. split.
    + intros (_ & Ha & Hb). right. repeat split; lra.
    + intros [(Ha & _)|(_ & Ha & Hb)]; [lra|]. repeat split; lra.
  - assert (Hge : - eps <= dot F (normal_ v0)).
    { unfold Rltb in Hf. destruct (Rlt_dec _ _); [discriminate | lra]. }
    split; [intros H; left; exact H|].
    intros [H|(Ha & _)]; [exact H | lra].
Qed.

End RealClaims.

(** ** Geometry over the real numbers *)

Section Geometry.
Local Open Scope R_scope.
Implicit Types u v w : Vector3d R.

(** Heron: the denominator of the squared circumradius is the weight sum. *)
Lemma bc_circumradius2_S v1 v2 v3 :
  bc_circumradius2 v1 v2 v3 =
    bc_a v1 v2 v3 * bc_b v1 v2 v3 * bc_c v1 v2 v3 / bc_S v1 v2 v3.
Proof.
  unfold bc_circumradius2, bc_S, bc_alpha, bc_beta, bc_gamma. cbv zeta.
  pose proof (squaredNorm_nonneg (vsub v3 v2)) as Ha.
  pose proof (squaredNorm_nonneg (vsub v1 v3)) as Hb.
  pose proof (squaredNorm_nonneg (vsub v2 v1)) as Hc.
  fold (bc_a v1 v2 v3) in Ha. fold (bc_b v1 v2 v3) in Hb. fold (bc_c v1 v2 v3) in Hc.
  set (a := bc_a v1 v2 v3) in *. set (b := bc_b v1 v2 v3) in *.
  set (c := bc_c v1 v2 v3) in *.
  pose proof (sqrt_sqrt a Ha) as Sa. pose proof (sqrt_sqrt b Hb) as Sb.
  pose proof (sqrt_sqrt c Hc) as Sc.
  set (A := sqrt a) in *. set (B := sqrt b) in *. set (C := sqrt c) in *.
  f_equal. rewrite <- Sa, <- Sb, <- Sc. ring.
Qed.

Lemma eps16_pos : 0 < 1 / 10 ^ 16.
Proof. apply Rdiv_lt_0_compat; [lra | apply pow_lt; lra]. Qed.

Lemma cross_swap u w : cross w u = vmuls (cross u w) (-1).
Proof. destruct u, w; unfold cross, vmuls; simpl. f_equal; ring. Qed.

Lemma vdivs_vmuls u (s k : R) : vdivs (vmuls u s) k = vmuls (vdivs u k) s.
Proof. destruct u; unfold vdivs, vmuls; simpl. unfold Rdiv. f_equal; ring. Qed.

Lemma ComputeFaceNormal_R v0 v1 v2 :
  ComputeFaceNormal v0 v1 v2 =
    let n := cross (vsub v1 v0) (vsub v2 v0) in
    if Rltb 0 (norm n) then vdivs n (norm n) else n.
Proof. reflexivity. Qed.

Lemma ComputeFaceNormal_swap v0 v1 v2 :
  ComputeFaceNormal v0 v2 v1 = vmuls (ComputeFaceNormal v0 v1 v2) (-1).
Proof.
  rewrite !ComputeFaceNormal_R. cbv zeta.
  rewrite (cross_swap (vsub v1 v0) (vsub v2 v0)).
  set (n := cross (vsub v1 v0) (vsub v2 v0)).
  assert (Hn : norm (vmuls n (-1)) = norm n).
  { unfold norm. rewrite squaredNorm_vmuls_opp. reflexivity. }
  rewrite Hn. destruct (Rltb 0 (norm n)); [apply vdivs_vmuls | reflexivity].
Qed.

End Geometry.

(** ** The store *)

Section StoreFacts.
Context {D : Type} {AR : Arith D}.
Implicit Types (bp : BallPivoting D) (E : BallPivotingEdge)
  (T : BallPivotingTriangle D) (V : BallPivotingVertex D)
  (vs : list (BallPivotingVertex D)) (es : list BallPivotingEdge)
  (ts : list (BallPivotingTriangle D)).

(** X4. [GetOppositeVertex] is null exactly on an edge without a first
    triangle; on an edge of a triangle with three different vertices it
    is the vertex of that triangle which is not an end of the edge. *)
Theorem GetOppositeVertex_opposite ts E t T :
  triangle0_ E = Some t → ts !! t = Some T → tri_distinct T →
  tri_has T (source_ E) → tri_has T (target_ E) → source_ E ≠ target_ E →
  ∃ opp, GetOppositeVertex ts E = Some opp
         ∧ tri_has T opp ∧ opp ≠ source_ E ∧ opp ≠ target_ E
         ∧ (∀ v, tri_has T v → v = source_ E ∨ v = target_ E ∨ v = opp)
         ∧ GetOppositeVertex ts (set_type E Edge.Border) = Some opp
         ∧ GetOppositeVertex ts
             (mkEdge (source_ E) (target_ E) None (triangle1_ E) (type_ E)) = None.
Proof.
  intros H0 HT Hd Hs Ht Hne.
  destruct (GetOppositeVertex_third ts E t T H0 HT Hd Hs Ht Hne)
    as (opp & Ho & N1 & N2 & Hh & Hall).
  exists opp. repeat split; auto.
Qed.

Local Ltac slots_tac :=
  unfold is_Some; repeat split; intros;
  repeat match goal with
         | H : ∃ _, _ |- _ => destruct H
         | H : _ ∨ _ |- _ => destruct H
         | H : _ ∧ _ |- _ => destruct H
         end;
  try congruence;
  first [ solve [intuition congruence] | left; congruence | right; congruence
        | left; left; congruence | left; right; congruence
        | exfalso; congruence
        | match goal with H : ¬ _ |- _ => exfalso; apply H; first [left; congruence | right; congruence] end ].

(** X5. [AddAdjacentTriangle] never empties or overwrites a slot and never
    changes the pair of ends; it does nothing for a triangle the edge
    already lists and for an edge whose two slots are filled; doing it
    twice is doing it once. *)
Theorem AddAdjacentTriangle_slots vs ts E t E' :
  AddAdjacentTriangle vs ts E t = Ok E' →
  ends_are E' (source_ E) (target_ E)
  ∧ (∀ t', lists E t' → lists E' t')
  ∧ (∀ t', lists E' t' → lists E t' ∨ t' = t)
  ∧ (lists E t → E' = E)
  ∧ (is_Some (triangle0_ E) → is_Some (triangle1_ E) → E' = E)
  ∧ (triangle0_ E = None → ¬ lists E t →
       triangle0_ E' = Some t ∧ type_ E' = Edge.Front)
  ∧ (is_Some (triangle0_ E) → triangle1_ E = None → ¬ lists E t →
       triangle1_ E' = Some t ∧ type_ E' = Edge.Inner)
  ∧ AddAdjacentTriangle vs ts E' t = Ok E'.
Proof.
  destruct E as [a b t0 t1 ty]. unfold AddAdjacentTriangle, lists, ends_are.
  cbn [triangle0_ triangle1_ source_ target_ type_].
  case_decide as Hd.
  - destruct Hd as [Hd0 Hd1]. destruct t0 as [t0|].
    + destruct t1 as [t1|]; intros [= <-];
        cbn [triangle0_ triangle1_ source_ target_ type_].
      * rewrite decide_True by (split; congruence).
        slots_tac.
      * rewrite decide_False by (intros [_ Hc]; congruence).
        slots_tac.
    + destruct (GetOppositeVertex ts _) as [opp|]; [|discriminate].
      destruct (dltb _ _); intros [= <-];
        cbn [triangle0_ triangle1_ source_ target_ type_];
        (rewrite decide_False by (intros [Hc _]; congruence));
        slots_tac.
  - intros [= <-]. cbn [triangle0_ triangle1_ source_ target_ type_].
    rewrite decide_False by exact Hd.
    assert (Hl : Some t = t0 ∨ Some t = t1).
    { destruct (decide (Some t = t0)); [left; auto|].
      destruct (decide (Some t = t1)); [right; auto|].
      exfalso. apply Hd. split; auto. }
    slots_tac.
Qed.

(** X7. [GetLinkingEdge] on a well-formed store: it finds the edge between two
    different vertices whenever there is one, whichever vertex comes
    first. *)
Theorem GetLinkingEdge_finds bp va vb :
  core_ok bp → va < length (vertices bp) → vb < length (vertices bp) →
  va ≠ vb →
  (∀ e, GetLinkingEdge bp va vb = Some e ↔
        ∃ E, edge_heap bp !! e = Some E ∧ ends_are E va vb)
  ∧ (GetLinkingEdge bp va vb = None ↔
       ∀ e E, edge_heap bp !! e = Some E → ¬ ends_are E va vb)
  ∧ GetLinkingEdge bp vb va = GetLinkingEdge bp va vb.
Proof.
  intros Hok Ha Hb Hne.
  assert (H1 : ∀ e, GetLinkingEdge bp va vb = Some e ↔
                 ∃ E, edge_heap bp !! e = Some E ∧ ends_are E va vb).
  { intros e. split.
    - apply GetLinkingEdge_Some; assumption.
    - intros (E & HE & Hends). eapply GetLinkingEdge_ends; eassumption. }
  assert (H2 : GetLinkingEdge bp va vb = None ↔
               ∀ e E, edge_heap bp !! e = Some E → ¬ ends_are E va vb).
  { split.
    - apply GetLinkingEdge_None; assumption.
    - intros Hnone. destruct (GetLinkingEdge bp va vb) as [e|] eqn:Hg; [|reflexivity].
      destruct (proj1 (H1 e) eq_refl) as (E & HE & Hends).
      exfalso. exact (Hnone e E HE Hends). }
  split; [exact H1|]. split; [exact H2|].
  destruct (GetLinkingEdge bp va vb) as [e|] eqn:Hg.
  - destruct (proj1 (H1 e) eq_refl) as (E & HE & Hends).
    apply (GetLinkingEdge_ends bp vb va e E); auto. apply ends_are_sym. exact Hends.
  - destruct (GetLinkingEdge bp vb va) as [e|] eqn:Hg'; [|reflexivity].
    apply GetLinkingEdge_Some in Hg' as (E & HE & Hends); auto.
    exfalso. apply (proj1 H2 eq_refl e E HE).
    apply ends_are_sym. exact Hends.
Qed.

(** X8. After [CreateTriangle] on a well-formed store, on three different
    vertices whose existing sides are Front: the triangle stands at the end
    of the heap, [GetLinkingEdge] finds each of its three sides and the edge
    found lists it; the three vertices are not Orphan; the mesh has one
    more triangle, with the same three indices. *)
Theorem CreateTriangle_links bp v0 v1 v2 c :
  core_ok bp → v0 ≠ v1 → v1 ≠ v2 → v2 ≠ v0 →
  v0 < length (vertices bp) → v1 < length (vertices bp) →
  v2 < length (vertices bp) →
  (∀ e E, edge_heap bp !! e = Some E → on_side v0 v1 v2 E →
     type_ E = Edge.Front) →
  ∃ bp', CreateTriangle bp v0 v1 v2 c = Ok bp'
    ∧ triangle_heap bp' = triangle_heap bp ++ [mkTriangle v0 v1 v2 c]
    ∧ (∀ a b, (a = v0 ∧ b = v1) ∨ (a = v1 ∧ b = v2) ∨ (a = v2 ∧ b = v0) →
         ∃ e E, GetLinkingEdge bp' a b = Some e
                ∧ GetLinkingEdge bp' b a = Some e
                ∧ edge_heap bp' !! e = Some E
                ∧ ends_are E a b
                ∧ lists E (length (triangle_heap bp)))
    ∧ (∀ v, v = v0 ∨ v = v1 ∨ v = v2 →
         vtype_ (vertex_at (vertices bp') v) ≠ Vertex.Orphan)
    ∧ (∃ m, mesh_triangles_ bp' = mesh_triangles_ bp ++ [m]
            ∧ emitted m (mkTriangle v0 v1 v2 c))
    ∧ edge_front_ bp' = edge_front_ bp
    ∧ border_edges_ bp' = border_edges_ bp.
Proof.
  intros Hok N01 N12 N20 L0 L1 L2 Hfront.
  destruct (CreateTriangle_spec bp v0 v1 v2 c Hok N01 N12 N20 L0 L1 L2 Hfront)
    as (bp' & Hc & Hok' & Hp).
  exists bp'. split; [exact Hc|]. split; [exact (cp_ts _ _ _ _ _ _ Hp)|].
  pose proof (cp_len _ _ _ _ _ _ Hp) as Hlen.
  destruct (cp_linked _ _ _ _ _ _ Hp) as (S01 & S12 & S20).
  assert (Hside : ∀ a b, (a = v0 ∧ b = v1) ∨ (a = v1 ∧ b = v2) ∨ (a = v2 ∧ b = v0) →
            a ≠ b ∧ a < length (vertices bp') ∧ b < length (vertices bp')
            ∧ side_linked (edge_heap bp') (length (triangle_heap bp)) a b).
  { intros a b [[-> ->]|[[-> ->]|[-> ->]]]; rewrite Hlen; auto. }
  split.
  { intros a b Hab. destruct (Hside a b Hab) as (Hne & La & Lb & (e & E & HE & Hends & Hl)).
    exists e, E. split; [eapply GetLinkingEdge_ends; eassumption|].
    split; [apply (GetLinkingEdge_ends bp' b a e E); auto; apply ends_are_sym; exact Hends|].
    auto. }
  split.
  { intros v Hv Horph.
    assert (Hlv : v < length (vertices bp)) by (destruct Hv as [->|[->| ->]]; assumption).
    destruct (lookup_lt_is_Some_2 _ _ Hlv) as [V HV].
    destruct (cp_vtx _ _ _ _ _ _ Hp v V HV) as (V' & HV' & _ & _ & _ & _ & Ho).
    rewrite (vertex_at_lookup _ _ _ HV') in Horph.
    apply (Ho Hv) in Horph.
    (* an edge of the new triangle is incident to [v] *)
    assert (Hex : ∃ a b, ((a = v0 ∧ b = v1) ∨ (a = v1 ∧ b = v2) ∨ (a = v2 ∧ b = v0))
                         ∧ (a = v ∨ b = v)).
    { destruct Hv as [->|[->| ->]];
        [exists v0, v1 | exists v1, v2 | exists v2, v0]; auto. }
    destruct Hex as (a & b & Hab & Hinc).
    destruct (Hside a b Hab) as (_ & _ & _ & (e & E & HE & Hends & _)).
    assert (He : e ∈ edges_ V').
    { apply (ok_inc _ Hok' v V' HV'). exists E. split; [exact HE|].
      unfold incident. unfold ends_are in Hends.
      destruct Hinc as [<-|<-]; destruct Hends as [[? ?]|[? ?]]; auto. }
    rewrite Horph in He. inversion He. }
  split; [exact (cp_mesh _ _ _ _ _ _ Hp)|].
  split; [exact (cp_front _ _ _ _ _ _ Hp) | exact (cp_border _ _ _ _ _ _ Hp)].
Qed.

(** *** What [CreateTriangle] leaves alone and what it appends *)

Lemma vertex_at_insert vs v X w :
  vertex_at (<[v := X]> vs) w =
    if decide (v = w ∧ v < length vs) then X else vertex_at vs w.
Proof.
  unfold vertex_at. case_decide as Hd.
  - destruct Hd as [<- Hv]. rewrite list_lookup_insert_eq by exact Hv. reflexivity.
  - destruct (decide (v = w)) as [<-|Hne].
    + rewrite list_insert_ge; [reflexivity|].
      destruct (Nat.le_gt_cases (length vs) v); [assumption|].
      exfalso. apply Hd. split; [reflexivity | assumption].
    + rewrite list_lookup_insert_ne by exact Hne. reflexivity.
Qed.

Lemma insert_edge_data vs v e w :
  idx_ (vertex_at (insert_edge vs v e) w) = idx_ (vertex_at vs w)
  ∧ point_ (vertex_at (insert_edge vs v e) w) = point_ (vertex_at vs w)
  ∧ normal_ (vertex_at (insert_edge vs v e) w) = normal_ (vertex_at vs w).
Proof.
  unfold insert_edge. rewrite vertex_at_insert. case_decide as Hd; [|auto].
  destruct Hd as [<- _]. simpl. auto.
Qed.

Lemma link_side_data bp va vb t bp' :
  link_side bp va vb t = Ok bp' →
  length (vertices bp') = length (vertices bp)
  ∧ ∀ w, idx_ (vertex_at (vertices bp') w) = idx_ (vertex_at (vertices bp) w)
         ∧ point_ (vertex_at (vertices bp') w) = point_ (vertex_at (vertices bp) w)
         ∧ normal_ (vertex_at (vertices bp') w) = normal_ (vertex_at (vertices bp) w).
Proof.
  unfold link_side.
  destruct (GetLinkingEdge bp va vb) as [e|]; cbv beta iota zeta;
    (destruct (AddAdjacentTriangle _ _ _ _) as [E'|]; [|discriminate]);
    cbn [rbind]; intros [= <-]; cbn [vertices with_vertices with_edge_heap];
    (split; [rewrite !insert_edge_length; reflexivity|]);
    intros w;
    match goal with
    | |- context [insert_edge (insert_edge ?vs ?a ?x) ?b ?y] =>
        destruct (insert_edge_data (insert_edge vs a x) b y w) as (-> & -> & ->);
        apply insert_edge_data
    end.
Qed.

Lemma update_type_data bp v w :
  idx_ (vertex_at (vertices (update_type bp v)) w) = idx_ (vertex_at (vertices bp) w)
  ∧ point_ (vertex_at (vertices (update_type bp v)) w)
    = point_ (vertex_at (vertices bp) w)
  ∧ normal_ (vertex_at (vertices (update_type bp v)) w)
    = normal_ (vertex_at (vertices bp) w).
Proof.
  unfold update_type. simpl. rewrite vertex_at_insert. case_decide as Hd; [|auto].
  destruct Hd as [<- _]. apply UpdateType_same.
Qed.

(** [CreateTriangle] appends to the mesh the face normal of its three
    points in the order given, and the three indices in that order unless
    the normal opposes the normal of the first vertex by [1e-16] or more,
    in which case the last two are exchanged. *)
Lemma CreateTriangle_emits bp v0 v1 v2 c bp' :
  CreateTriangle bp v0 v1 v2 c = Ok bp' →
  let vs := vertices bp in
  let F := ComputeFaceNormal (point_ (vertex_at vs v0)) (point_ (vertex_at vs v1))
                             (point_ (vertex_at vs v2)) in
  mesh_triangle_normals_ bp' = mesh_triangle_normals_ bp ++ [F]
  ∧ mesh_triangles_ bp' =
      mesh_triangles_ bp ++
      [if dltb (dopp deps16) (dot F (normal_ (vertex_at vs v0)))
       then (v0, v1, v2) else (v0, v2, v1)]
  ∧ triangle_heap bp' = triangle_heap bp ++ [mkTriangle v0 v1 v2 c]
  ∧ length (vertices bp') = length (vertices bp)
  ∧ ∀ w, idx_ (vertex_at (vertices bp') w) = idx_ (vertex_at vs w)
         ∧ point_ (vertex_at (vertices bp') w) = point_ (vertex_at vs w)
         ∧ normal_ (vertex_at (vertices bp') w) = normal_ (vertex_at vs w).
Proof.
  intros H vs F. unfold CreateTriangle in H. cbv zeta in H.
  set (b0 := with_triangle_heap bp _) in H.
  change (length (triangle_heap bp)) with (length (triangle_heap bp)) in H.
  destruct (link_side b0 v0 v1 _) as [b1|] eqn:H1; [|discriminate]. cbn [rbind] in H.
  destruct (link_side b1 v1 v2 _) as [b2|] eqn:H2; [|discriminate]. cbn [rbind] in H.
  destruct (link_side b2 v2 v0 _) as [b3|] eqn:H3; [|discriminate]. cbn [rbind] in H.
  destruct (link_side_total b0 v0 v1 (length (triangle_heap bp)))
    as (b1' & E1 & Ht1 & (_ & _ & Hm1 & Hn1 & _)).
  destruct (link_side_total b1 v1 v2 (length (triangle_heap bp)))
    as (b2' & E2 & Ht2 & (_ & _ & Hm2 & Hn2 & _)).
  destruct (link_side_total b2 v2 v0 (length (triangle_heap bp)))
    as (b3' & E3 & Ht3 & (_ & _ & Hm3 & Hn3 & _)).
  assert (b1' = b1) by congruence. assert (b2' = b2) by congruence.
  assert (b3' = b3) by congruence. subst b1' b2' b3'.
  destruct (link_side_data _ _ _ _ _ H1) as (L1 & D1).
  destruct (link_side_data _ _ _ _ _ H2) as (L2 & D2).
  destruct (link_side_data _ _ _ _ _ H3) as (L3 & D3).
  remember (update_type (update_type (update_type b3 v0) v1) v2) as U eqn:HU.
  assert (Dall : ∀ w,
    idx_ (vertex_at (vertices U) w) = idx_ (vertex_at vs w)
    ∧ point_ (vertex_at (vertices U) w) = point_ (vertex_at vs w)
    ∧ normal_ (vertex_at (vertices U) w) = normal_ (vertex_at vs w)).
  { intros w. rewrite HU.
    destruct (update_type_data (update_type (update_type b3 v0) v1) v2 w) as (-> & -> & ->).
    destruct (update_type_data (update_type b3 v0) v1 w) as (-> & -> & ->).
    destruct (update_type_data b3 v0 w) as (-> & -> & ->).
    destruct (D3 w) as (-> & -> & ->). destruct (D2 w) as (-> & -> & ->).
    destruct (D1 w) as (-> & -> & ->). auto. }
  assert (HUm : mesh_triangle_normals_ U = mesh_triangle_normals_ b3
                ∧ mesh_triangles_ U = mesh_triangles_ b3
                ∧ triangle_heap U = triangle_heap b3
                ∧ length (vertices U) = length (vertices b3)).
  { rewrite HU. unfold update_type. simpl. rewrite !length_insert. auto. }
  destruct HUm as (Un & Um & Ut & Ul).
  injection H as <-. cbn [mesh_triangle_normals_ mesh_triangles_ triangle_heap
                            vertices with_mesh].
  destruct (Dall v0) as (_ & P0 & N0). destruct (Dall v1) as (_ & P1 & _).
  destruct (Dall v2) as (_ & P2 & _).
  rewrite P0, P1, P2, N0. fold F.
  rewrite Un, Um, Ut, Ul, Hn3, Hn2, Hn1, Hm3, Hm2, Hm1, Ht3, Ht2, Ht1, L3, L2, L1.
  split; [reflexivity|]. split; [reflexivity|]. split; [reflexivity|].
  split; [reflexivity | exact Dall].
Qed.

Lemma UpdateType_idem es V : UpdateType es (UpdateType es V) = UpdateType es V.
Proof. destruct V as [i p n l ty]. unfold UpdateType. simpl. destruct l; reflexivity. Qed.

(** [CreateTriangle] leaves its three vertices with the classification
    [UpdateType] gives them on the edges as they are on return. *)
Lemma CreateTriangle_types bp v0 v1 v2 c bp' :
  CreateTriangle bp v0 v1 v2 c = Ok bp' →
  v0 ≠ v1 → v1 ≠ v2 → v2 ≠ v0 →
  v0 < length (vertices bp) → v1 < length (vertices bp) →
  v2 < length (vertices bp) →
  ∀ v, v = v0 ∨ v = v1 ∨ v = v2 →
    UpdateType (edge_heap bp') (vertex_at (vertices bp') v)
    = vertex_at (vertices bp') v.
Proof.
  intros H N01 N12 N20 L0 L1 L2. unfold CreateTriangle in H. cbv zeta in H.
  set (b0 := with_triangle_heap bp _) in H.
  destruct (link_side b0 v0 v1 _) as [b1|] eqn:H1; [|discriminate]. cbn [rbind] in H.
  destruct (link_side b1 v1 v2 _) as [b2|] eqn:H2; [|discriminate]. cbn [rbind] in H.
  destruct (link_side b2 v2 v0 _) as [b3|] eqn:H3; [|discriminate]. cbn [rbind] in H.
  destruct (link_side_data _ _ _ _ _ H1) as (E1 & _).
  destruct (link_side_data _ _ _ _ _ H2) as (E2 & _).
  destruct (link_side_data _ _ _ _ _ H3) as (E3 & _).
  assert (Hl3 : length (vertices b3) = length (vertices bp)).
  { rewrite E3, E2, E1. reflexivity. }
  remember (update_type (update_type (update_type b3 v0) v1) v2) as U eqn:HU.
  injection H as <-. cbn [edge_heap vertices with_mesh].
  set (es := edge_heap b3).
  set (X0 := UpdateType es (vertex_at (vertices b3) v0)).
  set (vsa := <[v0 := X0]> (vertices b3)).
  set (X1 := UpdateType es (vertex_at vsa v1)).
  set (vsb := <[v1 := X1]> vsa).
  set (X2 := UpdateType es (vertex_at vsb v2)).
  assert (HUv : vertices U = <[v2 := X2]> vsb ∧ edge_heap U = es).
  { rewrite HU. split; reflexivity. }
  destruct HUv as (-> & ->).
  assert (La : length vsa = length (vertices bp)).
  { unfold vsa. rewrite length_insert. exact Hl3. }
  assert (Lb : length vsb = length (vertices bp)).
  { unfold vsb. rewrite length_insert. exact La. }
  intros v [->|[->| ->]].
  - rewrite vertex_at_insert. rewrite decide_False by (intros [? _]; congruence).
    unfold vsb. rewrite vertex_at_insert.
    rewrite decide_False by (intros [? _]; congruence).
    unfold vsa. rewrite vertex_at_insert.
    rewrite decide_True by (split; [reflexivity | lia]).
    apply UpdateType_idem.
  - rewrite vertex_at_insert. rewrite decide_False by (intros [? _]; congruence).
    unfold vsb. rewrite vertex_at_insert.
    rewrite decide_True by (split; [reflexivity | lia]).
    apply UpdateType_idem.
  - rewrite vertex_at_insert.
    rewrite decide_True by (split; [reflexivity | lia]).
    apply UpdateType_idem.
Qed.
End StoreFacts.

(** ** The candidate search *)

Section CandidateFacts.
Context {D : Type} {AR : Arith D}.
Local Open Scope D_scope.
Variable SearchRadius : Vector3d D → D → list nat.
Variable PointsCoplanar :
  Vector3d D → Vector3d D → Vector3d D → Vector3d D → bool.
Variable LineSegmentsMinimumDistance :
  Vector3d D → Vector3d D → Vector3d D → Vector3d D → D.
Variable acos : D → D.

Local Abbreviation body := (FindCandidateVertex_body PointsCoplanar LineSegmentsMinimumDistance acos).

Lemma empty_ball_loop_true vs src tgt c ctr radius indices :
  empty_ball_loop vs src tgt c ctr radius indices = true ↔
  ∀ i, i ∈ indices → i ≠ src → i ≠ tgt → i ≠ c →
       (norm (vsub ctr (point_ (vertex_at vs i))) <? radius - deps16) = false.
Proof.
  induction indices as [|x l IH]; simpl.
  - split; [intros _ i Hi; inversion Hi | reflexivity].
  - destruct (Nat.eqb_spec x src) as [Es|Ns]; simpl.
    { rewrite IH. split.
      - intros H i Hi. apply elem_of_cons in Hi as [->|Hi]; [congruence | auto].
      - intros H i Hi. apply H. right. exact Hi. }
    destruct (Nat.eqb_spec x tgt) as [Et|Nt]; simpl.
    { rewrite IH. split.
      - intros H i Hi. apply elem_of_cons in Hi as [->|Hi]; [congruence | auto].
      - intros H i Hi. apply H. right. exact Hi. }
    destruct (Nat.eqb_spec x c) as [Ec|Nc]; simpl.
    { rewrite IH. split.
      - intros H i Hi. apply elem_of_cons in Hi as [->|Hi]; [congruence | auto].
      - intros H i Hi. apply H. right. exact Hi. }
    destruct (norm (vsub ctr (point_ (vertex_at vs x))) <? radius - deps16) eqn:Hd.
    + split; [discriminate|]. intros H.
      assert (Hx : x ∈ x :: l) by left.
      specialize (H x Hx Ns Nt Nc). congruence.
    + rewrite IH. split.
      * intros H i Hi. apply elem_of_cons in Hi as [->|Hi]; [intros; exact Hd | auto].
      * intros H i Hi. apply H. right. exact Hi.
Qed.

Lemma FindCandidateVertex_body_sound vs src tgt opp mp a v radius indices st nbidx :
  sound_candidate vs src tgt radius indices st →
  sound_candidate vs src tgt radius indices
    (body vs src tgt opp mp a v radius indices st nbidx).
Proof.
  intros Hg. unfold FindCandidateVertex_body. destruct st as [[mc ang] ctr].
  destruct (_ || _); [exact Hg|].
  destruct (_ && _); [exact Hg|].
  destruct (ComputeBallCenter vs src tgt nbidx radius) as [nc|] eqn:Hc; [|exact Hg].
  destruct (dleb _ _); [exact Hg|].
  destruct (empty_ball_loop _ _ _ _ _ _ _) eqn:He; [|exact Hg].
  simpl. split; [exact Hc | exact He].
Qed.

Lemma fold_body_sound vs src tgt opp mp a v radius indices l st :
  sound_candidate vs src tgt radius indices st →
  sound_candidate vs src tgt radius indices
    (fold_left (body vs src tgt opp mp a v radius indices) l st).
Proof.
  revert st. induction l as [|x l IH]; intros st Hg; simpl; [exact Hg|].
  apply IH. apply FindCandidateVertex_body_sound. exact Hg.
Qed.

(** The candidate returned comes with its ball, which passed the emptiness
    test on the whole search. *)
Lemma FindCandidateVertex_center bp edge radius c ctr :
  FindCandidateVertex SearchRadius PointsCoplanar LineSegmentsMinimumDistance
    acos bp edge radius = Ok (Some (c, ctr)) →
  let E := edge_at (edge_heap bp) edge in
  let vs := vertices bp in
  let mp := vscale dhalf (vadd (point_ (vertex_at vs (source_ E)))
                               (point_ (vertex_at vs (target_ E)))) in
  ComputeBallCenter vs (source_ E) (target_ E) c radius = Some ctr
  ∧ empty_ball_loop vs (source_ E) (target_ E) c ctr radius
      (SearchRadius mp (d2 * radius)) = true.
Proof.
  intros H E vs mp. unfold FindCandidateVertex in H. fold E vs in H.
  destruct (GetOppositeVertex (triangle_heap bp) E) as [opp|]; [|discriminate].
  destruct (triangle0_ E) as [t0|]; [|discriminate].
  fold mp in H.
  match type of H with
  | context [fold_left (FindCandidateVertex_body _ _ _ _ _ _ _ _ ?a ?v _ ?ind) ?l ?s] =>
      pose proof (fold_body_sound vs (source_ E) (target_ E) opp
                    mp a v radius ind l s I) as Hs;
      destruct (fold_left (body vs (source_ E) (target_ E) opp
                             mp a v radius ind) l s) as [[mc ang] mctr]
  end.
  destruct mc as [c'|]; [|discriminate].
  destruct mctr as [ctr'|]; [|discriminate].
  injection H as -> ->. exact Hs.
Qed.

(** X9. The candidate [FindCandidateVertex] returns was returned by the search
    of radius [2 * radius] around the middle of the edge, is neither an end
    of the edge nor the vertex opposite to it, and comes with the ball of
    [ComputeBallCenter] through the edge and itself; no other vertex of the
    search lies deeper than [1e-16] inside that ball. *)
Theorem FindCandidateVertex_ball bp edge radius c ctr :
  FindCandidateVertex SearchRadius PointsCoplanar LineSegmentsMinimumDistance
    acos bp edge radius = Ok (Some (c, ctr)) →
  let E := edge_at (edge_heap bp) edge in
  let vs := vertices bp in
  let mp := vscale dhalf (vadd (point_ (vertex_at vs (source_ E)))
                               (point_ (vertex_at vs (target_ E)))) in
  c ∈ SearchRadius mp (d2 * radius)
  ∧ c ≠ source_ E ∧ c ≠ target_ E
  ∧ GetOppositeVertex (triangle_heap bp) E ≠ Some c
  ∧ ComputeBallCenter vs (source_ E) (target_ E) c radius = Some ctr
  ∧ ∀ i, i ∈ SearchRadius mp (d2 * radius) →
         i ≠ source_ E → i ≠ target_ E → i ≠ c →
         (norm (vsub ctr (point_ (vertex_at vs i))) <? radius - deps16) = false.
Proof.
  intros H E vs mp. unfold FindCandidateVertex in H. fold E vs in H.
  destruct (GetOppositeVertex (triangle_heap bp) E) as [opp|] eqn:Hopp; [|discriminate].
  destruct (triangle0_ E) as [t0|]; [|discriminate].
  fold mp in H.
  match type of H with
  | context [fold_left (FindCandidateVertex_body _ _ _ _ _ _ _ _ ?a ?v _ ?ind) ?l ?s] =>
      pose proof (fold_body_good PointsCoplanar LineSegmentsMinimumDistance acos
                    vs (source_ E) (target_ E) opp
                    mp a v radius ind l [] s I) as Hg;
      pose proof (fold_body_sound vs (source_ E) (target_ E) opp
                    mp a v radius ind l s I) as Hs;
      destruct (fold_left (body vs (source_ E) (target_ E) opp
                             mp a v radius ind) l s) as [[mc ang] mctr]
  end.
  destruct mc as [c'|]; [|discriminate].
  destruct mctr as [ctr'|]; [|discriminate].
  injection H as -> ->. simpl in Hg, Hs.
  destruct Hg as (Hin & Hsrc & Htgt & Ho & _). destruct Hs as [Hc He].
  split; [exact Hin|]. split; [exact Hsrc|]. split; [exact Htgt|].
  split; [congruence|]. split; [exact Hc|].
  apply empty_ball_loop_true. exact He.
Qed.
End CandidateFacts.

Section Pivot.
Context {D : Type} {AR : Arith D}.
Local Open Scope D_scope.
Variable SearchRadius : Vector3d D → D → list nat.
Variable PointsCoplanar :
  Vector3d D → Vector3d D → Vector3d D → Vector3d D → bool.
Variable LineSegmentsMinimumDistance :
  Vector3d D → Vector3d D → Vector3d D → Vector3d D → D.
Variable acos : D → D.

Local Abbreviation body :=
  (FindCandidateVertex_body PointsCoplanar LineSegmentsMinimumDistance acos).
Local Abbreviation adm :=
  (admissible PointsCoplanar LineSegmentsMinimumDistance).
Local Abbreviation least :=
  (least_so_far PointsCoplanar LineSegmentsMinimumDistance acos).
Local Abbreviation angles :=
  (pivot_angles PointsCoplanar LineSegmentsMinimumDistance acos).
Local Abbreviation angle := (pivot_angle acos).

Lemma FindCandidateVertex_body_unfold (vs : list (BallPivotingVertex D))
    src tgt opp mp a v radius indices (st : candidate_state D) x :
  body vs src tgt opp mp a v radius indices st x =
  if (x =? src)%nat || (x =? tgt)%nat || (x =? opp)%nat then st
  else if crosses_triangle PointsCoplanar LineSegmentsMinimumDistance
            vs src tgt opp mp x then st
  else match ComputeBallCenter vs src tgt x radius with
       | None => st
       | Some nc =>
           if st.1.2 <=? angle mp a v nc then st
           else if empty_ball_loop vs src tgt x nc radius indices
           then (Some x, angle mp a v nc, Some nc)
           else st
       end.
Proof. destruct st as [[mc m] mctr]. reflexivity. Qed.

Lemma least_step vs src tgt opp mp a v radius indices l st x :
  ordered_on (angles vs src tgt opp mp a v radius indices) →
  (∀ i, i ∈ l → i ∈ indices) → x ∈ indices →
  least vs src tgt opp mp a v radius indices l st →
  least vs src tgt opp mp a v radius indices (l ++ [x])
    (body vs src tgt opp mp a v radius indices st x).
Proof.
  intros [Htot Htrans] Hl Hx (HA & Hmax & Hmin & Hc).
  rewrite FindCandidateVertex_body_unfold.
  assert (Hkeep : (∀ ctr, adm vs src tgt opp mp radius indices x ctr →
                          (st.1.2 <=? angle mp a v ctr) = true) →
                  least vs src tgt opp mp a v radius indices (l ++ [x]) st).
  { intros Hx'. split; [exact HA|]. split; [exact Hmax|]. split.
    - intros i ctr Hi Ha. apply elem_of_app in Hi as [Hi|Hi]; [eauto|].
      apply list_elem_of_singleton in Hi as ->. auto.
    - destruct st.1.1 as [c|], st.2 as [ctr|]; try exact Hc.
      destruct Hc as (Hin & Hrest). split; [|exact Hrest].
      apply elem_of_app. left. exact Hin. }
  destruct (Nat.eqb_spec x src) as [Es|Ns]; simpl.
  { apply Hkeep. intros ctr (N & _). contradiction. }
  destruct (Nat.eqb_spec x tgt) as [Et|Nt]; simpl.
  { apply Hkeep. intros ctr (_ & N & _). contradiction. }
  destruct (Nat.eqb_spec x opp) as [Eo|No]; simpl.
  { apply Hkeep. intros ctr (_ & _ & N & _). contradiction. }
  destruct (crosses_triangle _ _ _ _ _ _ _ _) eqn:Hcr.
  { apply Hkeep. intros ctr (_ & _ & _ & N & _). congruence. }
  destruct (ComputeBallCenter vs src tgt x radius) as [nc|] eqn:Hb.
  2:{ apply Hkeep. intros ctr (_ & _ & _ & _ & N & _). congruence. }
  destruct (st.1.2 <=? angle mp a v nc) eqn:Hle.
  { apply Hkeep. intros ctr (_ & _ & _ & _ & N & _).
    assert (ctr = nc) by congruence. subst ctr. exact Hle. }
  destruct (empty_ball_loop vs src tgt x nc radius indices) eqn:He.
  2:{ apply Hkeep. intros ctr (_ & _ & _ & _ & N & N').
      assert (ctr = nc) by congruence. subst ctr. congruence. }
  assert (Hadm : adm vs src tgt opp mp radius indices x nc).
  { repeat split; assumption. }
  assert (HAx : angles vs src tgt opp mp a v radius indices (angle mp a v nc)).
  { right. exists x, nc. auto. }
  assert (HA2 : angles vs src tgt opp mp a v radius indices (d2 * dpi)).
  { left. reflexivity. }
  assert (Hlt : (angle mp a v nc <=? st.1.2) = true).
  { destruct (Htot _ _ HA HAx) as [H|H]; [congruence | exact H]. }
  split; [exact HAx|]. split; [|split].
  - simpl. exact (Htrans _ _ _ HAx HA HA2 Hlt Hmax).
  - simpl. intros i ctr Hi Ha. apply elem_of_app in Hi as [Hi|Hi].
    + assert (HAi : angles vs src tgt opp mp a v radius indices (angle mp a v ctr)).
      { right. exists i, ctr. auto. }
      exact (Htrans _ _ _ HAx HA HAi Hlt (Hmin i ctr Hi Ha)).
    + apply list_elem_of_singleton in Hi as ->.
      destruct Ha as (_ & _ & _ & _ & N & _).
      assert (ctr = nc) by congruence. subst ctr.
      destruct (Htot _ _ HAx HAx) as [H|H]; exact H.
  - simpl. split; [apply elem_of_app; right; left|].
    split; [exact Hadm|]. split; [reflexivity|].
    destruct (d2 * dpi <=? angle mp a v nc) eqn:H2; [|reflexivity].
    rewrite (Htrans _ _ _ HA HA2 HAx Hmax H2) in Hle. discriminate.
Qed.

Lemma least_fold vs src tgt opp mp a v radius indices rest l st :
  ordered_on (angles vs src tgt opp mp a v radius indices) →
  (∀ i, i ∈ l → i ∈ indices) → (∀ i, i ∈ rest → i ∈ indices) →
  least vs src tgt opp mp a v radius indices l st →
  least vs src tgt opp mp a v radius indices (l ++ rest)
    (fold_left (body vs src tgt opp mp a v radius indices) rest st).
Proof.
  intros Hord. revert l st.
  induction rest as [|x rest IH]; intros l st Hl Hrest H; simpl.
  - rewrite app_nil_r. exact H.
  - replace (l ++ x :: rest) with ((l ++ [x]) ++ rest)
      by (rewrite <- app_assoc; reflexivity).
    apply IH.
    + intros i Hi. apply elem_of_app in Hi as [Hi|Hi]; [auto|].
      apply list_elem_of_singleton in Hi as ->. apply Hrest. left.
    + intros i Hi. apply Hrest. right. exact Hi.
    + apply least_step; [exact Hord | exact Hl | apply Hrest; left | exact H].
Qed.

(** X10. Call kept a vertex of the search that passes every test of the
    loop of [FindCandidateVertex] but the one on the angle.  Where the [<=]
    of the program orders the angles of the kept vertices and [2 pi] (no
    NaN among them), the vertex returned is kept, its angle is not
    [2 pi] or more and is at most the angle of every kept vertex; and none
    is returned only when every kept vertex has an angle of [2 pi] or
    more. *)
Theorem FindCandidateVertex_least_angle (bp : BallPivoting D) edge radius found :
  FindCandidateVertex SearchRadius PointsCoplanar LineSegmentsMinimumDistance
    acos bp edge radius = Ok found →
  let E := edge_at (edge_heap bp) edge in
  let vs := vertices bp in
  let src := source_ E in
  let tgt := target_ E in
  let mp := vscale dhalf (vadd (point_ (vertex_at vs src))
                               (point_ (vertex_at vs tgt))) in
  let indices := SearchRadius mp (d2 * radius) in
  ∃ opp t,
    GetOppositeVertex (triangle_heap bp) E = Some opp
    ∧ triangle0_ E = Some t
    ∧ let center := ball_center_ (triangle_at (triangle_heap bp) t) in
      let v := vdivs (vsub (point_ (vertex_at vs tgt)) (point_ (vertex_at vs src)))
                     (norm (vsub (point_ (vertex_at vs tgt))
                                 (point_ (vertex_at vs src)))) in
      let a := vdivs (vsub center mp) (norm (vsub center mp)) in
      let kept i ctr :=
        i ∈ indices
        ∧ admissible PointsCoplanar LineSegmentsMinimumDistance
            vs src tgt opp mp radius indices i ctr in
      ordered_on (λ x, x = d2 * dpi
                       ∨ ∃ i ctr, kept i ctr ∧ x = pivot_angle acos mp a v ctr) →
      match found with
      | Some (c, ctr) =>
          kept c ctr
          ∧ (d2 * dpi <=? pivot_angle acos mp a v ctr) = false
          ∧ ∀ i ctri, kept i ctri →
              (pivot_angle acos mp a v ctr <=? pivot_angle acos mp a v ctri) = true
      | None =>
          ∀ i ctri, kept i ctri → (d2 * dpi <=? pivot_angle acos mp a v ctri) = true
      end.
Proof.
  intros H E vs src tgt mp indices. unfold FindCandidateVertex in H.
  fold E vs in H. fold src tgt in H.
  destruct (GetOppositeVertex (triangle_heap bp) E) as [opp|] eqn:Hopp; [|discriminate].
  destruct (triangle0_ E) as [t|] eqn:Ht; [|discriminate].
  exists opp, t. split; [reflexivity|]. split; [reflexivity|].
  intros center v a kept Hord0.
  assert (Hord : ordered_on (angles vs src tgt opp mp a v radius indices)).
  { destruct Hord0 as [Htot Htrans].
    assert (Hsame : ∀ x, angles vs src tgt opp mp a v radius indices x →
                         x = d2 * dpi
                         ∨ ∃ i ctr, kept i ctr ∧ x = pivot_angle acos mp a v ctr).
    { intros x [Hx|(i & ctr & Hi & Ha & Hx)]; [left; exact Hx|].
      right. exists i, ctr. split; [split; assumption | exact Hx]. }
    split.
    - intros x y Hx Hy. apply Htot; apply Hsame; assumption.
    - intros x y z Hx Hy Hz. apply Htrans; apply Hsame; assumption. }
  change (vscale dhalf (vadd (point_ (vertex_at vs src)) (point_ (vertex_at vs tgt))))
    with mp in H.
  change (SearchRadius mp (d2 * radius)) with indices in H.
  change (ball_center_ (triangle_at (triangle_heap bp) t)) with center in H.
  change (vdivs (vsub (point_ (vertex_at vs tgt)) (point_ (vertex_at vs src)))
            (norm (vsub (point_ (vertex_at vs tgt)) (point_ (vertex_at vs src)))))
    with v in H.
  change (vdivs (vsub center mp) (norm (vsub center mp))) with a in H.
  assert (H0 : least vs src tgt opp mp a v radius indices [] (None, d2 * dpi, None)).
  { split; [left; reflexivity|]. split.
    - simpl. destruct Hord as [Htot _].
      destruct (Htot (d2 * dpi) (d2 * dpi)) as [Hr|Hr];
        try (left; reflexivity); exact Hr.
    - split; [intros i ctr Hi; inversion Hi | reflexivity]. }
  pose proof (least_fold vs src tgt opp mp a v radius indices indices [] _ Hord
                (λ i Hi, False_ind _ (not_elem_of_nil i Hi)) (λ i Hi, Hi) H0) as HL.
  rewrite app_nil_l in HL.
  destruct (fold_left (body vs src tgt opp mp a v radius indices) indices
              (None, d2 * dpi, None)) as [[mc m] mctr].
  destruct HL as (_ & Hmax & Hmin & Hc). simpl in Hmax, Hmin, Hc.
  destruct mc as [c|], mctr as [ctr|]; try contradiction.
  - injection H as <-. destruct Hc as (Hin & Hadm & Ha & Hlt).
    split; [split; assumption|]. split; [rewrite Ha; exact Hlt|].
    intros i ctri [Hi Hai]. rewrite Ha. exact (Hmin i ctri Hi Hai).
  - injection H as <-. intros i ctri [Hi Hai]. rewrite <- Hc.
    exact (Hmin i ctri Hi Hai).
Qed.
End Pivot.

(** ** The steps of the engine and what they keep *)

Section Steps.
Context {D : Type} {AR : Arith D}.
Variable SearchRadius : Vector3d D → D → list nat.
Variable PointsCoplanar :
  Vector3d D → Vector3d D → Vector3d D → Vector3d D → bool.
Variable LineSegmentsMinimumDistance :
  Vector3d D → Vector3d D → Vector3d D → Vector3d D → D.
Variable acos : D → D.
Variable nv : nat.
Hypothesis SearchRadius_range : ∀ q r i, i ∈ SearchRadius q r → i < nv.
Hypothesis SearchRadius_NoDup : ∀ q r, NoDup (SearchRadius q r).

Implicit Types (bp : BallPivoting D) (E : BallPivotingEdge)
  (T : BallPivotingTriangle D) (V : BallPivotingVertex D).

Local Abbreviation FindCandidateVertex' :=
  (FindCandidateVertex SearchRadius PointsCoplanar LineSegmentsMinimumDistance acos).
Local Abbreviation ExpandTriangulation_body' :=
  (ExpandTriangulation_body SearchRadius PointsCoplanar
     LineSegmentsMinimumDistance acos).
Local Abbreviation ExpandTriangulation' :=
  (ExpandTriangulation SearchRadius PointsCoplanar
     LineSegmentsMinimumDistance acos).
Local Abbreviation TrySeed' := (TrySeed SearchRadius).
Local Abbreviation FindSeedTriangle_loop' :=
  (FindSeedTriangle_loop SearchRadius PointsCoplanar
     LineSegmentsMinimumDistance acos).
Local Abbreviation Run_radius' :=
  (Run_radius SearchRadius PointsCoplanar LineSegmentsMinimumDistance acos).
Local Abbreviation Run_loop' :=
  (Run_loop SearchRadius PointsCoplanar LineSegmentsMinimumDistance acos).
Local Abbreviation Run' :=
  (Run SearchRadius PointsCoplanar LineSegmentsMinimumDistance acos).
Local Abbreviation ready := (ready SearchRadius).
Local Abbreviation refront := (refront SearchRadius).
Local Abbreviation revisit_post := (revisit_post SearchRadius).
Local Abbreviation rp_kept := (rp_kept SearchRadius).
Local Abbreviation rp_front := (rp_front SearchRadius).
Local Abbreviation rp_vertices := (rp_vertices SearchRadius).
Local Abbreviation rp_ts := (rp_ts SearchRadius).
Local Abbreviation rp_border := (rp_border SearchRadius).
Local Abbreviation rp_mesh := (rp_mesh SearchRadius).
Local Abbreviation rp_meshn := (rp_meshn SearchRadius).
Local Abbreviation rp_normals := (rp_normals SearchRadius).
Local Abbreviation rp_len := (rp_len SearchRadius).
Local Abbreviation rp_heap := (rp_heap SearchRadius).
Local Abbreviation evolves :=
  (evolves SearchRadius PointsCoplanar LineSegmentsMinimumDistance acos).
Local Abbreviation reachable :=
  (reachable SearchRadius PointsCoplanar LineSegmentsMinimumDistance acos).
Local Abbreviation step :=
  (step SearchRadius PointsCoplanar LineSegmentsMinimumDistance acos).

(** The lemmas of Section Expand, read at the collaborators of this
    section. *)
Local Abbreviation ExpandTriangulation_body_post := (ExpandTriangulation_body_post SearchRadius PointsCoplanar LineSegmentsMinimumDistance acos nv SearchRadius_range).
Local Abbreviation ExpandTriangulation_total := (ExpandTriangulation_total SearchRadius PointsCoplanar LineSegmentsMinimumDistance acos nv SearchRadius_range).
Local Abbreviation potential_bound := (potential_bound nv).
Local Abbreviation seed_commit := (seed_commit SearchRadius nv SearchRadius_range).
Local Abbreviation TrySeed_loop_post := (TrySeed_loop_post SearchRadius nv SearchRadius_range).
Local Abbreviation TrySeed_post := (TrySeed_post SearchRadius nv SearchRadius_range SearchRadius_NoDup).
Local Abbreviation FindSeedTriangle_loop_total := (FindSeedTriangle_loop_total SearchRadius PointsCoplanar LineSegmentsMinimumDistance acos nv SearchRadius_range SearchRadius_NoDup).
Local Abbreviation ready_retype := (ready_retype SearchRadius).
Local Abbreviation Run_border_loop_post := (Run_border_loop_post SearchRadius).
Local Abbreviation update_border_edges_post := (update_border_edges_post SearchRadius nv).
Local Abbreviation Run_radius_total := (Run_radius_total SearchRadius PointsCoplanar LineSegmentsMinimumDistance acos nv SearchRadius_range SearchRadius_NoDup).
Local Abbreviation Run_loop_total := (Run_loop_total SearchRadius PointsCoplanar LineSegmentsMinimumDistance acos nv SearchRadius_range SearchRadius_NoDup).
Local Abbreviation Run_loop_invalid := (Run_loop_invalid SearchRadius PointsCoplanar LineSegmentsMinimumDistance acos nv SearchRadius_range SearchRadius_NoDup).
Local Abbreviation evolves_Inv := (evolves_Inv SearchRadius PointsCoplanar LineSegmentsMinimumDistance acos nv SearchRadius_range SearchRadius_NoDup).
Local Abbreviation reachable_Inv := (reachable_Inv SearchRadius PointsCoplanar LineSegmentsMinimumDistance acos nv SearchRadius_range SearchRadius_NoDup).
Local Abbreviation evolves_trans := (evolves_trans SearchRadius PointsCoplanar LineSegmentsMinimumDistance acos).
Local Abbreviation ExpandTriangulation_reachable := (ExpandTriangulation_reachable SearchRadius PointsCoplanar LineSegmentsMinimumDistance acos).
Local Abbreviation FindSeedTriangle_loop_reachable := (FindSeedTriangle_loop_reachable SearchRadius PointsCoplanar LineSegmentsMinimumDistance acos nv SearchRadius_range SearchRadius_NoDup).
Local Abbreviation Run_radius_reachable := (Run_radius_reachable SearchRadius PointsCoplanar LineSegmentsMinimumDistance acos nv SearchRadius_range SearchRadius_NoDup).
Local Abbreviation Run_loop_reachable := (Run_loop_reachable SearchRadius PointsCoplanar LineSegmentsMinimumDistance acos nv SearchRadius_range SearchRadius_NoDup).
Local Abbreviation Run_reachable := (Run_reachable SearchRadius PointsCoplanar LineSegmentsMinimumDistance acos nv SearchRadius_range SearchRadius_NoDup).
Local Abbreviation ready_iff := (ready_iff SearchRadius).

Lemma pushes_after_create bp1 e0 e1 :
  ∃ pushed,
    (let* b := push_front_if_front bp1 (Some e0) in
     push_front_if_front b (Some e1))
    = Ok (with_edge_front bp1 (pushed ++ edge_front_ bp1))
    ∧ ∀ e, e ∈ pushed ↔ (e = e0 ∨ e = e1) ∧ is_front bp1 e = true.
Proof.
  unfold push_front_if_front.
  destruct (is_front bp1 e0) eqn:H0; cbn [rbind].
  - change (is_front (with_edge_front bp1 (e0 :: edge_front_ bp1)) e1)
      with (is_front bp1 e1).
    destruct (is_front bp1 e1) eqn:H1.
    + exists [e1; e0]. split; [reflexivity|]. intros e. split.
      * intros He. repeat (apply elem_of_cons in He as [->|He]); auto.
        inversion He.
      * intros [[->| ->] _]; [right; left | left].
    + exists [e0]. split; [reflexivity|]. intros e. split.
      * intros He. apply list_elem_of_singleton in He as ->. auto.
      * intros [[->| ->] Hf]; [left | congruence].
  - destruct (is_front bp1 e1) eqn:H1.
    + exists [e1]. split; [reflexivity|]. intros e. split.
      * intros He. apply list_elem_of_singleton in He as ->. auto.
      * intros [[->| ->] Hf]; [congruence | left].
    + exists []. split; [destruct bp1; reflexivity|]. intros e. split.
      * intros He. inversion He.
      * intros [[->| ->] Hf]; congruence.
Qed.

(** A turn of the expansion loop is a step. *)
Lemma turn_step bp edge rest radius bp' :
  Inv bp → length (vertices bp) = nv → edge_front_ bp = edge :: rest →
  ExpandTriangulation_body' (with_edge_front bp rest) edge radius = Ok bp' →
  step bp bp'.
Proof.
  intros HInv0 Hnv0 Hq Hbody.
  assert (Hedge : edge < length (edge_heap bp)).
  { destruct HInv0 as [Hok0 _]. apply (ok_front _ Hok0). rewrite Hq. left. }
  assert (HInv : Inv (with_edge_front bp rest)).
  { apply Inv_with_edge_front; [exact HInv0|]. intros e He.
    destruct HInv0 as [Hok0 _]. apply (ok_front _ Hok0). rewrite Hq. right. exact He. }
  assert (Hnv : length (vertices (with_edge_front bp rest)) = nv) by exact Hnv0.
  destruct (lookup_lt_is_Some_2 _ _ Hedge) as [E HE].
  change (edge_heap bp) with (edge_heap (with_edge_front bp rest)) in HE.
  assert (Hrest : edge_front_ (with_edge_front bp rest) = rest) by reflexivity.
  assert (Hfrb : ∀ e, is_front bp e = is_front (with_edge_front bp rest) e)
    by reflexivity.
  remember (with_edge_front bp rest) as b eqn:Hb.
  pose proof HInv as [Hok Htri].
  unfold ExpandTriangulation_body in Hbody.
  destruct (is_front b edge) eqn:Hfr; simpl in Hbody.
  2:{ injection Hbody as <-. rewrite Hb. apply (step_skip _ _ _ _ bp edge rest Hq).
      rewrite Hfrb. exact Hfr. }
  apply (is_front_true _ _ _ HE) in Hfr.
  assert (Hborder : step bp (mark_border b edge)).
  { rewrite Hb. apply (step_border _ _ _ _ bp edge rest E Hq); [|exact Hfr].
    rewrite Hb in HE. exact HE. }
  destruct (ok_slot0 _ Hok _ _ HE) as (t0 & T0 & H0 & HT0 & Hh0s & Hh0t).
  rewrite (edge_at_lookup _ _ _ HE) in Hbody.
  destruct (FindCandidateVertex' b edge radius) as [found|] eqn:Hfound;
    [|discriminate].
  simpl in Hbody.
  destruct found as [[c ctr]|]; [|injection Hbody as <-; exact Hborder].
  destruct (_ || _); [injection Hbody as <-; exact Hborder|].
  destruct (not_front b (GetLinkingEdge b c (source_ E))) eqn:Hn0;
    [injection Hbody as <-; exact Hborder|].
  destruct (not_front b (GetLinkingEdge b c (target_ E))) eqn:Hn1;
    [injection Hbody as <-; exact Hborder|].
  simpl in Hbody.
  destruct (FindCandidateVertex_found _ _ _ _ _ _ _ _ _ Hfound)
    as (opp & mp & r2 & Hopp & Hin & Hcs & Hct & Hco).
  rewrite (edge_at_lookup _ _ _ HE) in Hopp, Hcs, Hct.
  pose proof (SearchRadius_range _ _ _ Hin) as Hc. rewrite <- Hnv in Hc.
  destruct (ok_ends _ Hok _ _ HE) as (Hs & Ht & Hst).
  assert (Hfront : ∀ e' E', edge_heap b !! e' = Some E' →
            on_side (source_ E) (target_ E) c E' → type_ E' = Edge.Front).
  { intros e' E' HE' [He|[He|He]].
    - assert (edge = e') by (eapply (ok_uniq _ Hok); eassumption). congruence.
    - apply (not_front_false b c (target_ E) e' E' Hok Hct Hc Ht Hn1 HE').
      apply ends_are_sym. exact He.
    - exact (not_front_false b c (source_ E) e' E' Hok Hcs Hc Hs Hn0 HE' He). }
  pose proof (no_triangle_on_front_edge b edge E opp c HInv HE Hfr Hopp Hco Hcs Hct)
    as Hfresh.
  destruct (CreateTriangle_spec b (source_ E) (target_ E) c ctr Hok Hst
              (not_eq_sym Hct) Hcs Hs Ht Hc Hfront) as (bp1 & Hcr & Hok1 & Hp).
  rewrite Hcr in Hbody. cbn [rbind] in Hbody.
  assert (Htri1 : tri_ok bp1).
  { apply (CreateTriangle_tri_ok b (source_ E) (target_ E) c ctr bp1 HInv Hok1 Hst
             (not_eq_sym Hct) Hcs Hs Ht Hc Hfront); [exact Hfresh | exact Hp]. }
  assert (HE1 : edge_heap bp1 !! edge = Some (fill_second E (length (triangle_heap b)))).
  { apply (cp_filled _ _ _ _ _ _ Hp edge E HE). left. left. split; reflexivity. }
  rewrite (edge_at_lookup _ _ _ HE1) in Hbody. simpl in Hbody.
  pose proof (cp_len _ _ _ _ _ _ Hp) as Hlen1.
  destruct (cp_linked _ _ _ _ _ _ Hp)
    as (_ & (e1 & E1 & HEe1 & He1 & _) & (e0 & E0' & HEe0 & He0 & _)).
  rewrite (GetLinkingEdge_ends bp1 c (source_ E) e0 E0' Hok1 Hcs
             ltac:(rewrite Hlen1; exact Hc) ltac:(rewrite Hlen1; exact Hs) HEe0 He0)
    in Hbody.
  rewrite (GetLinkingEdge_ends bp1 c (target_ E) e1 E1 Hok1 Hct
             ltac:(rewrite Hlen1; exact Hc) ltac:(rewrite Hlen1; exact Ht) HEe1
             (ends_are_sym _ _ _ He1)) in Hbody.
  destruct (pushes_after_create bp1 e0 e1) as (pushed & Hpush & Hmem).
  rewrite Hpush in Hbody. injection Hbody as <-.
  rewrite (cp_front _ _ _ _ _ _ Hp), Hrest.
  apply (step_expand _ _ _ _ bp edge rest E c ctr bp1 pushed Hq);
    [rewrite Hb in HE; exact HE | exact Hfr | rewrite <- Hb |
     | rewrite <- Hb; exists radius; exact Hfound].
  - constructor; auto. split; assumption.
  - intros e. rewrite Hmem. split.
    + intros [[->| ->] Hf].
      * exists E0'. split; [exact HEe0|].
        split; [apply (is_front_true _ _ _ HEe0); exact Hf|].
        right. right. exact He0.
      * exists E1. split; [exact HEe1|].
        split; [apply (is_front_true _ _ _ HEe1); exact Hf|].
        right. left. exact He1.
    + intros (Ex & HEx & Hty & [Hs1|[Hs2|Hs3]]).
      * exfalso.
        assert (edge = e).
        { apply (ok_uniq _ Hok1 edge e _ Ex HE1 HEx). exact Hs1. }
        subst e. assert (Ex = fill_second E (length (triangle_heap b))) by congruence.
        subst Ex. discriminate.
      * assert (e1 = e).
        { apply (ok_uniq _ Hok1 e1 e E1 Ex HEe1 HEx).
          destruct He1 as [[Hx1 Hx2]|[Hx1 Hx2]]; rewrite Hx1, Hx2;
            [exact Hs2 | apply ends_are_sym; exact Hs2]. }
        subst e. split; [right; reflexivity|].
        apply (is_front_true _ _ _ HEx). exact Hty.
      * assert (e0 = e).
        { apply (ok_uniq _ Hok1 e0 e E0' Ex HEe0 HEx).
          destruct He0 as [[Hx1 Hx2]|[Hx1 Hx2]]; rewrite Hx1, Hx2;
            [exact Hs3 | apply ends_are_sym; exact Hs3]. }
        subst e. split; [left; reflexivity|].
        apply (is_front_true _ _ _ HEx). exact Hty.
Qed.

Lemma TrySeed_inner_seed bp v nb0 indices radius rest1 nb1 ctr :
  TrySeed_inner bp v nb0 indices radius rest1 = Some (nb1, ctr) →
  TryTriangleSeed bp v nb0 nb1 indices radius = Some ctr.
Proof.
  induction rest1 as [|x rest1 IH]; simpl; [discriminate|].
  destruct (is_orphan bp x); simpl; [|exact IH].
  destruct (x =? v); [exact IH|].
  destruct (TryTriangleSeed bp v nb0 x indices radius) as [c|] eqn:Ht; [|exact IH].
  intros [= <- <-]. exact Ht.
Qed.

(** A committed seed is a creation on three fresh sides, all pushed. *)
Lemma seed_created bp v nb0 nb1 ctr :
  Inv bp → length (vertices bp) = nv → v < nv → nb0 < nv → nb1 < nv →
  nb0 ≠ v → nb1 ≠ v → nb0 ≠ nb1 →
  is_orphan bp nb0 = true → is_orphan bp nb1 = true →
  ∃ bp1 e0 e1 e2,
    created bp v nb0 nb1 ctr bp1
    ∧ GetLinkingEdge bp1 v nb1 = Some e0 ∧ is_front bp1 e0 = true
    ∧ GetLinkingEdge bp1 nb0 nb1 = Some e1 ∧ is_front bp1 e1 = true
    ∧ GetLinkingEdge bp1 v nb0 = Some e2 ∧ is_front bp1 e2 = true
    ∧ pushed_sides bp1 v nb0 nb1 [e2; e1; e0]
    ∧ NoDup [e2; e1; e0].
Proof.
  intros HInv Hnv Hv H0 H1 N0 N1 N01 Ho0 Ho1. pose proof HInv as [Hok Htri].
  destruct (seed_commit bp v nb0 nb1 ctr HInv Hnv Hv H0 H1 N0 N1 N01 Ho0 Ho1)
    as (bp1 & e0 & e1 & e2 & Hcr & HInv1 & Hlen1 & Hn1 & Hf1 & Hg0 & Hfr0
        & Hg1 & Hfr1 & Hg2 & Hfr2 & Hlt0 & Hlt1 & Hlt2 & Hkeep).
  rewrite <- Hnv in Hv, H0, H1.
  pose proof (orphan_no_edge bp nb0 HInv H0 Ho0) as Hno0.
  pose proof (orphan_no_edge bp nb1 HInv H1 Ho1) as Hno1.
  assert (Hnone : ∀ e E, edge_heap bp !! e = Some E → ¬ on_side v nb0 nb1 E).
  { intros e E HE [He|[He|He]].
    - apply (Hno0 e E HE). destruct He as [[_ ?]|[? _]]; [right|left]; assumption.
    - apply (Hno0 e E HE). destruct He as [[? _]|[_ ?]]; [left|right]; assumption.
    - apply (Hno1 e E HE). destruct He as [[? _]|[_ ?]]; [left|right]; assumption. }
  assert (Hsides : ∀ e E, edge_heap bp !! e = Some E → on_side v nb0 nb1 E →
            type_ E = Edge.Front).
  { intros e E HE Hs. exfalso. exact (Hnone e E HE Hs). }
  destruct (CreateTriangle_spec bp v nb0 nb1 ctr Hok (not_eq_sym N0) N01 N1 Hv H0 H1
              Hsides) as (bp1' & Hcr' & Hok1 & Hp).
  assert (bp1' = bp1) by congruence. subst bp1'.
  pose proof HInv1 as [_ Htri1].
  assert (L0 : v < length (vertices bp1)) by (rewrite Hlen1; exact Hv).
  assert (L1 : nb0 < length (vertices bp1)) by (rewrite Hlen1; exact H0).
  assert (L2 : nb1 < length (vertices bp1)) by (rewrite Hlen1; exact H1).
  destruct (GetLinkingEdge_Some bp1 v nb1 e0 Hok1 (not_eq_sym N1) L0 L2 Hg0)
    as (E0 & HE0 & He0).
  destruct (GetLinkingEdge_Some bp1 nb0 nb1 e1 Hok1 N01 L1 L2 Hg1)
    as (E1 & HE1 & He1).
  destruct (GetLinkingEdge_Some bp1 v nb0 e2 Hok1 (not_eq_sym N0) L0 L1 Hg2)
    as (E2 & HE2 & He2).
  exists bp1, e0, e1, e2.
  split.
  { constructor; auto.
    intros t T HT (Hhv & Hh0 & _).
    destruct (tri_side bp t T v nb0 Htri HT Hhv Hh0 (not_eq_sym N0))
      as (e & E & HE & He & _).
    apply (Hnone e E HE). left. exact He. }
  repeat (split; [assumption|]).
  split.
  { intros e. split.
    - intros He. repeat (apply elem_of_cons in He as [->|He]); [| | |inversion He].
      + exists E2. split; [exact HE2|]. split; [apply (is_front_true _ _ _ HE2); exact Hfr2|].
        left. exact He2.
      + exists E1. split; [exact HE1|]. split; [apply (is_front_true _ _ _ HE1); exact Hfr1|].
        right. left. exact He1.
      + exists E0. split; [exact HE0|]. split; [apply (is_front_true _ _ _ HE0); exact Hfr0|].
        right. right. apply ends_are_sym. exact He0.
    - intros (E & HE & _ & [Hs|[Hs|Hs]]).
      + pose proof (GetLinkingEdge_ends bp1 v nb0 e E Hok1 (not_eq_sym N0) L0 L1 HE Hs).
        assert (e = e2) by congruence. subst. left.
      + pose proof (GetLinkingEdge_ends bp1 nb0 nb1 e E Hok1 N01 L1 L2 HE Hs).
        assert (e = e1) by congruence. subst. right. left.
      + pose proof (GetLinkingEdge_ends bp1 v nb1 e E Hok1 (not_eq_sym N1) L0 L2 HE
                      (ends_are_sym _ _ _ Hs)).
        assert (e = e0) by congruence. subst. right. right. left. }
  (* the three edges are different: their ends are *)
  assert (D21 : e2 ≠ e1).
  { intros ->. assert (E2 = E1) by congruence. subst.
    unfold ends_are in He1, He2. destruct He1 as [[? ?]|[? ?]], He2 as [[? ?]|[? ?]];
      congruence. }
  assert (D20 : e2 ≠ e0).
  { intros ->. assert (E2 = E0) by congruence. subst.
    unfold ends_are in He0, He2. destruct He0 as [[? ?]|[? ?]], He2 as [[? ?]|[? ?]];
      congruence. }
  assert (D10 : e1 ≠ e0).
  { intros ->. assert (E1 = E0) by congruence. subst.
    unfold ends_are in He0, He1. destruct He0 as [[? ?]|[? ?]], He1 as [[? ?]|[? ?]];
      congruence. }
  repeat constructor; rewrite ?elem_of_cons, ?elem_of_nil; intuition.
Qed.

(** What [TrySeed] does: nothing, or one creation on the vertex and two
    Orphan vertices of the search, which passed [TryTriangleSeed]. *)
Lemma TrySeed_loop_step bp v indices radius rest0 b bp' :
  Inv bp → length (vertices bp) = nv → v < nv →
  (∀ i, i ∈ rest0 → i < nv) → NoDup rest0 →
  TrySeed_loop bp v indices radius rest0 = Ok (b, bp') →
  (b = false ∧ bp' = bp)
  ∨ (b = true ∧ ∃ nb0 nb1 ctr bp1 e0 e1 e2,
       nb0 ∈ rest0 ∧ nb1 ∈ rest0 ∧ nb0 ≠ v ∧ nb1 ≠ v ∧ nb0 ≠ nb1
       ∧ is_orphan bp nb0 = true ∧ is_orphan bp nb1 = true
       ∧ TryTriangleSeed bp v nb0 nb1 indices radius = Some ctr
       ∧ created bp v nb0 nb1 ctr bp1
       ∧ pushed_sides bp1 v nb0 nb1 [e2; e1; e0]
       ∧ NoDup [e2; e1; e0]
       ∧ bp' = with_edge_front bp1 ([e2; e1; e0] ++ edge_front_ bp)).
Proof.
  intros HInv Hnv Hv. induction rest0 as [|nb0 rest0 IH]; intros Hr Hnd.
  - simpl. intros [= <- <-]. left. auto.
  - apply NoDup_cons in Hnd as [Hnotin Hnd].
    assert (IH' : TrySeed_loop bp v indices radius rest0 = Ok (b, bp') →
              (b = false ∧ bp' = bp)
              ∨ (b = true ∧ ∃ nb0' nb1 ctr bp1 e0 e1 e2,
                   nb0' ∈ nb0 :: rest0 ∧ nb1 ∈ nb0 :: rest0 ∧ nb0' ≠ v ∧ nb1 ≠ v
                   ∧ nb0' ≠ nb1 ∧ is_orphan bp nb0' = true ∧ is_orphan bp nb1 = true
                   ∧ TryTriangleSeed bp v nb0' nb1 indices radius = Some ctr
                   ∧ created bp v nb0' nb1 ctr bp1
                   ∧ pushed_sides bp1 v nb0' nb1 [e2; e1; e0]
                   ∧ NoDup [e2; e1; e0]
                   ∧ bp' = with_edge_front bp1 ([e2; e1; e0] ++ edge_front_ bp))).
    { intros H.
      destruct (IH (λ i Hi, Hr i (list_elem_of_further _ _ _ Hi)) Hnd H)
        as [?|(Hb & a & b1 & c & bp1 & e0 & e1 & e2 & Ha & Hb1 & Hrest)];
        [left; assumption|].
      right. split; [exact Hb|]. exists a, b1, c, bp1, e0, e1, e2.
      split; [right; exact Ha|]. split; [right; exact Hb1|]. exact Hrest. }
    simpl. destruct (is_orphan bp nb0) eqn:Ho0; simpl; [|exact IH'].
    destruct (Nat.eqb_spec nb0 v) as [|N0]; [exact IH'|].
    destruct (TrySeed_inner bp v nb0 indices radius rest0) as [[nb1 ctr]|] eqn:Hin;
      [|exact IH'].
    destruct (TrySeed_inner_Some _ _ _ _ _ _ _ _ Hin) as (Hin1 & N1 & Ho1).
    pose proof (TrySeed_inner_seed _ _ _ _ _ _ _ _ Hin) as Hseed.
    destruct (not_front bp (GetLinkingEdge bp v nb1)); [exact IH'|].
    destruct (not_front bp (GetLinkingEdge bp nb0 nb1)); [exact IH'|].
    destruct (not_front bp (GetLinkingEdge bp v nb0)); [exact IH'|].
    assert (N01 : nb0 ≠ nb1) by (intros ->; contradiction).
    destruct (seed_created bp v nb0 nb1 ctr HInv Hnv Hv (Hr nb0 (list_elem_of_here _ _))
                (Hr nb1 (list_elem_of_further _ _ _ Hin1)) N0 N1 N01 Ho0 Ho1)
      as (bp1 & e0 & e1 & e2 & Hcr & Hg0 & Hfr0 & Hg1 & Hfr1 & Hg2 & Hfr2 & Hps & Hnd3).
    rewrite (cr_call _ _ _ _ _ _ Hcr). cbn [rbind]. rewrite Hg0, Hg1, Hg2.
    rewrite (push_front_if_front_true bp1 e0 Hfr0). cbn [rbind].
    rewrite (push_front_if_front_true _ e1) by exact Hfr1. cbn [rbind].
    rewrite (push_front_if_front_true _ e2) by exact Hfr2. cbn [rbind].
    simpl. intros [= <- <-]. right. split; [reflexivity|].
    exists nb0, nb1, ctr, bp1, e0, e1, e2.
    split; [left|]. split; [right; exact Hin1|].
    repeat (split; [assumption|]).
    rewrite (cp_front _ _ _ _ _ _ (cr_post _ _ _ _ _ _ Hcr)). reflexivity.
Qed.

Lemma seed_step bp v radius b bp' :
  Inv bp → length (vertices bp) = nv → v < nv →
  TrySeed' bp v radius = Ok (b, bp') →
  (b = false ∧ bp' = bp) ∨ (b = true ∧ step bp bp').
Proof.
  intros HInv Hnv Hv. unfold TrySeed.
  destruct (_ <? 3); [intros [= <- <-]; left; auto|].
  intros H.
  destruct (TrySeed_loop_step bp v _ radius _ b bp' HInv Hnv Hv
              (λ i Hi, SearchRadius_range _ _ i Hi) (SearchRadius_NoDup _ _) H)
    as [?|(Hb & nb0 & nb1 & ctr & bp1 & e0 & e1 & e2 & _ & _ & _ & _ & _
           & Ho0 & Ho1 & Hts & Hcr & Hps & _ & ->)];
    [left; assumption|].
  right. split; [exact Hb|].
  exact (step_seed _ _ _ _ bp v nb0 nb1 ctr bp1 [e2; e1; e0] Ho0 Ho1 Hcr Hps
           (ex_intro _ radius Hts)).
Qed.

Lemma revisit_step bp radius bp' :
  Inv bp → update_border_edges SearchRadius bp radius = Ok bp' → step bp bp'.
Proof.
  intros HInv Hu.
  destruct (Run_border_loop_post bp radius (border_edges_ bp) (border_valid bp HInv))
    as (bp1 & kept & Hl & Hp).
  unfold update_border_edges in Hu. rewrite Hl in Hu. cbn [rbind] in Hu.
  injection Hu as <-. exact (step_revisit _ _ _ _ bp radius bp1 kept Hp).
Qed.

(** Every state the engine passes through is reached by steps, so what
    the initial state has and every step keeps holds of all of them. *)
Lemma evolves_invariant (J : BallPivoting D → Prop) bp0 bp :
  Inv bp0 → length (vertices bp0) = nv →
  (∀ b b', Inv b → length (vertices b) = nv → J b → step b b' → J b') →
  J bp0 → evolves bp0 bp → J bp.
Proof.
  intros HInv0 Hnv0 Hstep HJ0 Hev.
  assert (H : Inv bp ∧ length (vertices bp) = nv ∧ J bp); [|tauto].
  induction Hev as [|bp edge rest radius bp' Hev IH Hq Hbody
                    |bp v radius b bp' Hev IH Hv Hseed
                    |bp radius bp' Hev IH Hb].
  - auto.
  - destruct IH as (HInv & Hnv & HJ).
    destruct (evolves_Inv bp0 bp' HInv0 Hnv0)
      as (HI' & Hn' & _).
    { eapply ev_turn; eassumption. }
    split; [exact HI'|]. split; [exact Hn'|].
    apply (Hstep bp bp' HInv Hnv HJ). eapply turn_step; eassumption.
  - destruct IH as (HInv & Hnv & HJ).
    destruct (evolves_Inv bp0 bp' HInv0 Hnv0)
      as (HI' & Hn' & _).
    { eapply ev_seed; eassumption. }
    split; [exact HI'|]. split; [exact Hn'|].
    rewrite Hnv in Hv.
    destruct (seed_step bp v radius b bp' HInv Hnv Hv Hseed) as [[_ ->]|[_ Hs]];
      [exact HJ|].
    exact (Hstep bp bp' HInv Hnv HJ Hs).
  - destruct IH as (HInv & Hnv & HJ).
    destruct (evolves_Inv bp0 bp' HInv0 Hnv0)
      as (HI' & Hn' & _).
    { eapply ev_border; eassumption. }
    split; [exact HI'|]. split; [exact Hn'|].
    apply (Hstep bp bp' HInv Hnv HJ). eapply revisit_step; eassumption.
Qed.

(** *** The front queue holds every Front edge *)

Lemma created_front_complete bp v0 v1 v2 c bp1 pushed q :
  created bp v0 v1 v2 c bp1 → pushed_sides bp1 v0 v1 v2 pushed →
  (∀ e E, edge_heap bp !! e = Some E → type_ E = Edge.Front →
          ¬ on_side v0 v1 v2 E → e ∈ q) →
  front_complete (with_edge_front bp1 (pushed ++ q)).
Proof.
  intros Hcr Hps Hold e E' HE' Hty. simpl in *.
  pose proof (cr_post _ _ _ _ _ _ Hcr) as Hp.
  apply elem_of_app.
  destruct (edge_heap bp !! e) as [E0|] eqn:HE0.
  - destruct (decide (on_side v0 v1 v2 E0)) as [Hy|Hn].
    + pose proof (cp_filled _ _ _ _ _ _ Hp e E0 HE0 Hy) as Hf.
      assert (E' = fill_second E0 (length (triangle_heap bp))) by congruence.
      subst E'. discriminate.
    + pose proof (cp_other _ _ _ _ _ _ Hp e E0 HE0 Hn) as Hk.
      assert (E' = E0) by congruence. subst E'. right. eauto.
  - destruct (cp_new _ _ _ _ _ _ Hp e E' HE0 HE') as (Hs & _).
    left. apply Hps. eauto.
Qed.

Lemma step_front_complete b b' :
  Inv b → front_complete b → step b b' → front_complete b'.
Proof.
  intros [Hok Htri] HJ Hs. destruct Hs as [edge rest Hq Hnf
    |edge rest E Hq HE Hty
    |edge rest E c ctr bp1 pushed Hq HE Hty Hcr Hps
    |v nb0 nb1 ctr bp1 pushed Ho0 Ho1 Hcr Hps
    |radius bp1 kept Hp].
  - intros e E HE Hty. simpl in *.
    pose proof (HJ e E HE Hty) as Hin. rewrite Hq in Hin.
    apply elem_of_cons in Hin as [->|Hin]; [|exact Hin].
    apply (is_front_true _ _ _ HE) in Hty. congruence.
  - intros e E' HE' Hty'. unfold mark_border in HE' |- *. simpl in *.
    rewrite (edge_at_lookup _ _ _ HE) in HE'.
    destruct (set_type_lookup_inv _ _ _ _ _ _ HE HE') as [[-> ->]|[Hne HE1]];
      [discriminate|].
    pose proof (HJ e E' HE1 Hty') as Hin. rewrite Hq in Hin.
    apply elem_of_cons in Hin as [->|Hin]; [contradiction | exact Hin].
  - apply (created_front_complete _ _ _ _ _ _ _ _ Hcr Hps).
    intros e E0 HE0 Hty0 Hn. simpl in HE0.
    pose proof (HJ e E0 HE0 Hty0) as Hin. rewrite Hq in Hin.
    apply elem_of_cons in Hin as [->|Hin]; [|exact Hin].
    exfalso. apply Hn. assert (E0 = E) by congruence. subst E0.
    left. left. auto.
  - apply (created_front_complete _ _ _ _ _ _ _ _ Hcr Hps).
    intros e E0 HE0 Hty0 _. exact (HJ e E0 HE0 Hty0).
  - intros e E' HE' Hty'. simpl in *.
    rewrite (rp_front _ _ _ _ _ Hp). apply elem_of_app.
    assert (Hlt : e < length (edge_heap b)).
    { rewrite <- (rp_len _ _ _ _ _ Hp). eapply lookup_lt_Some. exact HE'. }
    destruct (lookup_lt_is_Some_2 _ _ Hlt) as [E0 HE0].
    pose proof (rp_heap _ _ _ _ _ Hp e E0 HE0) as Hr.
    assert (E' = refront b radius (border_edges_ b) e E0) by congruence. subst E'.
    unfold refront in Hty'. case_decide as Hd.
    + right. apply list_elem_of_filter. destruct Hd. auto.
    + left. exact (HJ e E0 HE0 Hty').
Qed.

(** *** The classification of the vertices is never stale *)

Lemma UpdateType_loop_ext es es' l :
  (∀ e, e ∈ l → (type_ (edge_at es e) = Edge.Inner ↔
                 type_ (edge_at es' e) = Edge.Inner)) →
  UpdateType_loop es' l = UpdateType_loop es l.
Proof.
  induction l as [|a l IH]; intros H; simpl; [reflexivity|].
  assert (Ha : type_ (edge_at es a) = Edge.Inner ↔ type_ (edge_at es' a) = Edge.Inner)
    by (apply H; left).
  rewrite IH by (intros e He; apply H; right; exact He).
  repeat case_decide; tauto.
Qed.

Lemma UpdateType_ext es es' V :
  (∀ e, e ∈ edges_ V → (type_ (edge_at es e) = Edge.Inner ↔
                        type_ (edge_at es' e) = Edge.Inner)) →
  UpdateType es' V = UpdateType es V.
Proof.
  intros H. unfold UpdateType. destruct (edges_ V) as [|a l] eqn:Hl; [reflexivity|].
  rewrite (UpdateType_loop_ext es es' (a :: l) H). reflexivity.
Qed.

Lemma created_types_fresh bp v0 v1 v2 c bp1 :
  core_ok bp → types_fresh bp → created bp v0 v1 v2 c bp1 → types_fresh bp1.
Proof.
  intros Hok HJ Hcr v V' HV'.
  pose proof (cr_post _ _ _ _ _ _ Hcr) as Hp.
  destruct (cr_distinct _ _ _ _ _ _ Hcr) as (N01 & N12 & N20).
  destruct (cr_range _ _ _ _ _ _ Hcr) as (L0 & L1 & L2).
  destruct (decide (v = v0 ∨ v = v1 ∨ v = v2)) as [Hin|Hout].
  - pose proof (CreateTriangle_types bp v0 v1 v2 c bp1 (cr_call _ _ _ _ _ _ Hcr)
                  N01 N12 N20 L0 L1 L2 v Hin) as Ht.
    rewrite (vertex_at_lookup _ _ _ HV') in Ht. exact Ht.
  - assert (Hlt : v < length (vertices bp)).
    { rewrite <- (cp_len _ _ _ _ _ _ Hp). eapply lookup_lt_Some. exact HV'. }
    destruct (lookup_lt_is_Some_2 _ _ Hlt) as [V HV].
    destruct (cp_vtx _ _ _ _ _ _ Hp v V HV) as (V2 & HV2 & _ & _ & _ & Hsame & _).
    assert (V2 = V) by (apply Hsame; intros ->; apply Hout; auto). subst V2.
    assert (V' = V) by congruence. subst V'.
    rewrite <- (HJ v V HV) at 2. apply UpdateType_ext.
    intros e He. apply (ok_inc _ Hok v V HV) in He as (E & HE & Hi).
    assert (Hn : ¬ on_side v0 v1 v2 E).
    { intros Hs. apply Hout. unfold on_side, ends_are, incident in *.
      destruct Hi as [<-|<-]; destruct Hs as [[[? ?]|[? ?]]|[[[? ?]|[? ?]]|[[? ?]|[? ?]]]];
        auto. }
    rewrite (edge_at_lookup _ _ _ HE).
    rewrite (edge_at_lookup _ _ _ (cp_other _ _ _ _ _ _ Hp e E HE Hn)). reflexivity.
Qed.

Lemma step_types_fresh b b' :
  Inv b → types_fresh b → step b b' → types_fresh b'.
Proof.
  intros [Hok Htri] HJ Hs. destruct Hs as [edge rest Hq Hnf
    |edge rest E Hq HE Hty
    |edge rest E c ctr bp1 pushed Hq HE Hty Hcr Hps
    |v nb0 nb1 ctr bp1 pushed Ho0 Ho1 Hcr Hps
    |radius bp1 kept Hp].
  - exact HJ.
  - intros v V HV. unfold mark_border in *. simpl in *.
    rewrite <- (HJ v V HV) at 2. apply UpdateType_ext.
    intros e He. apply (ok_inc _ Hok v V HV) in He as (E0 & HE0 & _).
    rewrite (edge_at_lookup _ _ _ HE).
    destruct (set_type_lookup _ _ _ Edge.Border _ _ HE HE0)
      as (E2 & HE2 & _ & Hk & Heq).
    rewrite (edge_at_lookup _ _ _ HE0), (edge_at_lookup _ _ _ HE2).
    destruct (decide (e = edge)) as [->|Hne].
    + rewrite (Heq eq_refl). assert (E0 = E) by congruence. subst E0.
      simpl. rewrite Hty. split; discriminate.
    + rewrite (Hk Hne). reflexivity.
  - change (types_fresh bp1).
    apply (created_types_fresh (with_edge_front b rest) (source_ E) (target_ E) c
             ctr bp1); [|exact HJ|exact Hcr].
    apply core_ok_with_edge_front; [exact Hok|].
    intros e He. apply (ok_front _ Hok). rewrite Hq. right. exact He.
  - change (types_fresh bp1).
    exact (created_types_fresh b v nb0 nb1 ctr bp1 Hok HJ Hcr).
  - intros v V HV. simpl in *. rewrite (rp_vertices _ _ _ _ _ Hp) in HV.
    rewrite <- (HJ v V HV) at 2. apply UpdateType_ext.
    intros e He. apply (ok_inc _ Hok v V HV) in He as (E0 & HE0 & _).
    rewrite (edge_at_lookup _ _ _ HE0).
    rewrite (edge_at_lookup _ _ _ (rp_heap _ _ _ _ _ Hp e E0 HE0)).
    unfold refront. case_decide as Hd; [|reflexivity].
    destruct Hd as [Hin _]. apply (ok_border _ Hok) in Hin as (E1 & HE1 & Hb).
    assert (E1 = E0) by congruence. subst E1. simpl. rewrite Hb.
    split; discriminate.
Qed.

(** *** The points stay, the mesh grows *)

Lemma same_points_refl bp : same_points bp bp.
Proof. split; [reflexivity|]. intros v V HV. exists V. auto. Qed.

Lemma same_points_trans bp0 bp1 bp2 :
  same_points bp0 bp1 → same_points bp1 bp2 → same_points bp0 bp2.
Proof.
  intros [L1 H1] [L2 H2]. split; [congruence|].
  intros v V HV. destruct (H2 v V HV) as (V1 & HV1 & ? & ? & ?).
  destruct (H1 v V1 HV1) as (V0 & HV0 & ? & ? & ?).
  exists V0. repeat split; congruence.
Qed.

Lemma mesh_extends_refl bp : mesh_extends bp bp.
Proof. exists [], [], []. rewrite !app_nil_r. auto. Qed.

Lemma mesh_extends_trans bp0 bp1 bp2 :
  mesh_extends bp0 bp1 → mesh_extends bp1 bp2 → mesh_extends bp0 bp2.
Proof.
  intros (ms & ns & ts & Hm & Hn & Ht & Lm & Ln)
         (ms' & ns' & ts' & Hm' & Hn' & Ht' & Lm' & Ln').
  exists (ms ++ ms'), (ns ++ ns'), (ts ++ ts').
  rewrite Hm', Hn', Ht', Hm, Hn, Ht, !app_assoc, !length_app. repeat split; lia.
Qed.

Lemma created_same_points bp v0 v1 v2 c bp1 :
  created bp v0 v1 v2 c bp1 → same_points bp bp1 ∧ mesh_extends bp bp1.
Proof.
  intros Hcr. pose proof (cr_post _ _ _ _ _ _ Hcr) as Hp. split.
  - split; [exact (cp_len _ _ _ _ _ _ Hp)|].
    intros v V' HV'.
    assert (Hlt : v < length (vertices bp)).
    { rewrite <- (cp_len _ _ _ _ _ _ Hp). eapply lookup_lt_Some. exact HV'. }
    destruct (lookup_lt_is_Some_2 _ _ Hlt) as [V HV].
    destruct (cp_vtx _ _ _ _ _ _ Hp v V HV) as (V2 & HV2 & ? & ? & ? & _).
    assert (V2 = V') by congruence. subst V2. exists V. auto.
  - destruct (CreateTriangle_emits bp v0 v1 v2 c bp1 (cr_call _ _ _ _ _ _ Hcr))
      as (Hn & Hm & Ht & _).
    eexists [_], [_], [_]. split; [exact Hm|]. split; [exact Hn|].
    split; [exact Ht|]. auto.
Qed.

Lemma step_same_points b b' : step b b' → same_points b b' ∧ mesh_extends b b'.
Proof.
  intros Hs. destruct Hs as [edge rest Hq Hnf
    |edge rest E Hq HE Hty
    |edge rest E c ctr bp1 pushed Hq HE Hty Hcr Hps
    |v nb0 nb1 ctr bp1 pushed Ho0 Ho1 Hcr Hps
    |radius bp1 kept Hp].
  - split; [exact (same_points_refl b) | exact (mesh_extends_refl b)].
  - split; [exact (same_points_refl b) | exact (mesh_extends_refl b)].
  - exact (created_same_points _ _ _ _ _ _ Hcr).
  - exact (created_same_points _ _ _ _ _ _ Hcr).
  - split.
    + split; simpl; rewrite (rp_vertices _ _ _ _ _ Hp); [reflexivity|].
      intros v V HV. exists V. auto.
    + exists [], [], []. simpl.
      rewrite (rp_mesh _ _ _ _ _ Hp), (rp_meshn _ _ _ _ _ Hp), (rp_ts _ _ _ _ _ Hp),
        !app_nil_r. auto.
Qed.

Lemma evolves_same_points bp0 bp :
  Inv bp0 → length (vertices bp0) = nv → evolves bp0 bp →
  same_points bp0 bp ∧ mesh_extends bp0 bp.
Proof.
  intros HInv Hnv Hev.
  apply (evolves_invariant (λ b, same_points bp0 b ∧ mesh_extends bp0 b) bp0 bp
           HInv Hnv); [| |exact Hev].
  - intros b b' _ _ [Hp Hm] Hs. destruct (step_same_points b b' Hs) as [Hp' Hm'].
    split; [eapply same_points_trans | eapply mesh_extends_trans]; eassumption.
  - split; [apply same_points_refl | apply mesh_extends_refl].
Qed.

Lemma evolves_front_types bp0 bp :
  Inv bp0 → length (vertices bp0) = nv →
  front_complete bp0 → types_fresh bp0 → evolves bp0 bp →
  front_complete bp ∧ types_fresh bp.
Proof.
  intros HInv Hnv Hf Ht Hev.
  apply (evolves_invariant (λ b, front_complete b ∧ types_fresh b) bp0 bp
           HInv Hnv); [| |exact Hev].
  - intros b b' HI _ [Hf' Ht'] Hs.
    split; [eapply step_front_complete | eapply step_types_fresh]; eassumption.
  - auto.
Qed.

Lemma BallPivoting_new_fresh (pcd : PointCloud D) :
  front_complete (BallPivoting_new pcd) ∧ types_fresh (BallPivoting_new pcd).
Proof.
  split.
  - intros e E HE. simpl in HE. rewrite lookup_nil in HE. discriminate.
  - intros v V HV. simpl in HV. rewrite list_lookup_imap in HV.
    destruct (points_ pcd !! v); [|discriminate]. injection HV as <-. reflexivity.
Qed.

(** *** The mesh of a reachable state *)

Lemma mesh_entry bp i m :
  Inv bp → mesh_triangles_ bp !! i = Some m →
  ∃ T, triangle_heap bp !! i = Some T ∧ emitted m T
       ∧ ∀ v, triple_has m v ↔ tri_has T v.
Proof.
  intros [_ Htri] Hm.
  destruct (Forall2_lookup_l _ _ _ _ _ (ok_mesh _ Htri) Hm) as (T & HT & He).
  exists T. split; [exact HT|]. split; [exact He|].
  intros v. unfold triple_has, tri_has.
  destruct He as [-> | ->]; simpl; intuition congruence.
Qed.

(** X15. Every triangle of the mesh names three different vertices of the
    cloud, and the mesh has one normal for each triangle. *)
Theorem mesh_triangles_valid pcd bp :
  length (points_ pcd) = nv → reachable pcd bp →
  length (mesh_triangle_normals_ bp) = length (mesh_triangles_ bp)
  ∧ length (triangle_heap bp) = length (mesh_triangles_ bp)
  ∧ ∀ i a b c, mesh_triangles_ bp !! i = Some (a, b, c) →
      a < length (points_ pcd) ∧ b < length (points_ pcd)
      ∧ c < length (points_ pcd) ∧ a ≠ b ∧ b ≠ c ∧ a ≠ c.
Proof.
  intros Hn Hr. destruct (reachable_Inv pcd bp Hn Hr) as (HInv & Hnv & _).
  destruct (evolves_same_points (BallPivoting_new pcd) bp (BallPivoting_new_Inv pcd)
              ltac:(rewrite BallPivoting_new_length; exact Hn) Hr)
    as (_ & (ms & ns & ts & Hm & Hns & Hts & Lm & Ln)).
  simpl in Hm, Hns, Hts. split; [|split].
  - rewrite Hm, Hns. lia.
  - rewrite Hm, Hts. lia.
  - intros i a b c Hi.
    destruct (mesh_entry bp i (a, b, c) HInv Hi) as (T & HT & He & Hh).
    destruct HInv as [_ Htri].
    destruct (ok_tri _ Htri i T HT) as ((D01 & D12 & D20) & Hrange & _).
    rewrite Hn, <- Hnv.
    assert (Ha : tri_has T a) by (apply Hh; left; reflexivity).
    assert (Hb : tri_has T b) by (apply Hh; right; left; reflexivity).
    assert (Hc : tri_has T c) by (apply Hh; right; right; reflexivity).
    split; [apply Hrange; exact Ha|]. split; [apply Hrange; exact Hb|].
    split; [apply Hrange; exact Hc|].
    destruct He as [He|He]; injection He as -> -> ->; repeat split; congruence.
Qed.

(** X16. No side is shared by three triangles: of three triangles of the mesh
    that contain the same two vertices, two are the same. *)
Theorem mesh_edge_manifold pcd bp i j k mi mj mk a b :
  length (points_ pcd) = nv → reachable pcd bp →
  mesh_triangles_ bp !! i = Some mi → mesh_triangles_ bp !! j = Some mj →
  mesh_triangles_ bp !! k = Some mk → a ≠ b →
  triple_has mi a → triple_has mi b → triple_has mj a → triple_has mj b →
  triple_has mk a → triple_has mk b →
  i = j ∨ j = k ∨ i = k.
Proof.
  intros Hn Hr Hi Hj Hk Hab Hia Hib Hja Hjb Hka Hkb.
  destruct (reachable_Inv pcd bp Hn Hr) as (HInv & Hnv & _).
  destruct (mesh_entry bp i mi HInv Hi) as (Ti & HTi & _ & Hhi).
  destruct (mesh_entry bp j mj HInv Hj) as (Tj & HTj & _ & Hhj).
  destruct (mesh_entry bp k mk HInv Hk) as (Tk & HTk & _ & Hhk).
  destruct HInv as [Hok Htri].
  destruct (tri_side bp i Ti a b Htri HTi (proj1 (Hhi a) Hia) (proj1 (Hhi b) Hib) Hab)
    as (e & E & HE & Hends & Hli).
  destruct (tri_side bp j Tj a b Htri HTj (proj1 (Hhj a) Hja) (proj1 (Hhj b) Hjb) Hab)
    as (e' & E' & HE' & Hends' & Hlj).
  destruct (tri_side bp k Tk a b Htri HTk (proj1 (Hhk a) Hka) (proj1 (Hhk b) Hkb) Hab)
    as (e'' & E'' & HE'' & Hends'' & Hlk).
  assert (Hsame : ∀ x X, edge_heap bp !! x = Some X → ends_are X a b → x = e ∧ X = E).
  { intros x X HX HXe.
    assert (e = x).
    { apply (ok_uniq _ Hok e x E X HE HX).
      destruct Hends as [[H1 H2]|[H1 H2]]; rewrite H1, H2;
        [exact HXe | apply ends_are_sym; exact HXe]. }
    subst x. split; [reflexivity | congruence]. }
  destruct (Hsame e' E' HE' Hends') as [-> ->].
  destruct (Hsame e'' E'' HE'' Hends'') as [-> ->].
  unfold lists in Hli, Hlj, Hlk.
  destruct Hli as [Hli|Hli], Hlj as [Hlj|Hlj], Hlk as [Hlk|Hlk];
    first [left; congruence | right; left; congruence | right; right; congruence].
Qed.

(** X20. The engine never moves, adds or removes a point. *)
Theorem vertex_data_fixed pcd bp :
  length (points_ pcd) = nv → reachable pcd bp →
  length (vertices bp) = length (points_ pcd)
  ∧ ∀ v V, vertices bp !! v = Some V →
      idx_ V = v ∧ points_ pcd !! v = Some (point_ V)
      ∧ normal_ V = default vzero (normals_ pcd !! v).
Proof.
  intros Hn Hr.
  destruct (evolves_same_points (BallPivoting_new pcd) bp (BallPivoting_new_Inv pcd)
              ltac:(rewrite BallPivoting_new_length; exact Hn) Hr)
    as ((Hlen & Hpts) & _).
  split; [rewrite Hlen; apply BallPivoting_new_length|].
  intros v V HV. destruct (Hpts v V HV) as (V0 & HV0 & Hi & Hp & Hnm).
  simpl in HV0. rewrite list_lookup_imap in HV0.
  destruct (points_ pcd !! v) as [p|]; [|discriminate].
  injection HV0 as <-. simpl in *. rewrite Hi, Hp, Hnm. auto.
Qed.

(** X21. In every reachable state the classification stored in a vertex is the
    one its incident edges give now: Orphan without edges, Inner when all
    its edges are Inner, Front when one of them is not. *)
Theorem vertex_types_fresh pcd bp v V :
  length (points_ pcd) = nv → reachable pcd bp →
  vertices bp !! v = Some V →
  (∀ e, e ∈ edges_ V ↔ ∃ E, edge_heap bp !! e = Some E ∧ incident E v)
  ∧ (vtype_ V = Vertex.Orphan ↔ edges_ V = [])
  ∧ (vtype_ V = Vertex.Inner ↔
       edges_ V ≠ [] ∧ ∀ e, e ∈ edges_ V → type_ (edge_at (edge_heap bp) e) = Edge.Inner)
  ∧ (vtype_ V = Vertex.Front ↔
       ∃ e, e ∈ edges_ V ∧ type_ (edge_at (edge_heap bp) e) ≠ Edge.Inner).
Proof.
  intros Hn Hr HV. destruct (reachable_Inv pcd bp Hn Hr) as (HInv & Hnv & _).
  destruct (BallPivoting_new_fresh pcd) as [Hf0 Ht0].
  destruct (evolves_front_types (BallPivoting_new pcd) bp (BallPivoting_new_Inv pcd)
              ltac:(rewrite BallPivoting_new_length; exact Hn) Hf0 Ht0 Hr)
    as (_ & Ht).
  destruct HInv as [Hok Htri].
  split; [exact (ok_inc _ Hok v V HV)|].
  pose proof (Ht v V HV) as Hu. apply (f_equal vtype_) in Hu.
  rewrite UpdateType_vtype in Hu. rewrite <- Hu.
  destruct (edges_ V) as [|a l] eqn:Hl.
  - split; [tauto|]. split.
    + split; [discriminate | intros [Hc _]; contradiction].
    + split; [discriminate | intros (e & He & _); inversion He].
  - pose proof (UpdateType_loop_Front (edge_heap bp) (a :: l)) as HF.
    pose proof (UpdateType_loop_cases (edge_heap bp) (a :: l)) as HC.
    split; [split; [intros Ho; destruct HC; congruence | discriminate]|].
    split; [|exact HF]. split.
    + intros Hi. split; [discriminate|]. intros e He.
      destruct (decide (type_ (edge_at (edge_heap bp) e) = Edge.Inner)) as [|Hne];
        [assumption|].
      assert (UpdateType_loop (edge_heap bp) (a :: l) = Vertex.Front)
        by (apply HF; eauto).
      congruence.
    + intros [_ Hall]. destruct HC as [Hc|Hc]; [|exact Hc].
      apply HF in Hc as (e & He & Hne). exfalso. exact (Hne (Hall e He)).
Qed.

(** *** The front is exhausted when Run returns *)

Lemma ExpandTriangulation_empties fuel bp radius bp' :
  ExpandTriangulation' fuel bp radius = Ok bp' → edge_front_ bp' = [].
Proof.
  revert bp. induction fuel as [|fuel IH]; intros bp; simpl.
  - destruct (edge_front_ bp) eqn:Hq; [|discriminate]. intros [= <-]. exact Hq.
  - destruct (edge_front_ bp) as [|edge rest] eqn:Hq.
    + intros [= <-]. exact Hq.
    + destruct (ExpandTriangulation_body' (with_edge_front bp rest) edge radius)
        as [b1|]; [|discriminate].
      cbn [rbind]. apply IH.
Qed.

Lemma FindSeedTriangle_loop_empties pcd fuel bp radius vidxs bp' :
  length (points_ pcd) = nv → (∀ v, v ∈ vidxs → v < nv) →
  reachable pcd bp → edge_front_ bp = [] →
  FindSeedTriangle_loop' fuel bp radius vidxs = Ok bp' →
  edge_front_ bp' = [].
Proof.
  intros Hn. revert bp. induction vidxs as [|v vidxs IH]; intros bp Hv Hr Hq H.
  - simpl in H. injection H as <-. exact Hq.
  - assert (Hv' : ∀ x, x ∈ vidxs → x < nv)
      by (intros x Hx; apply Hv; right; exact Hx).
    simpl in H. destruct (is_orphan bp v); [|exact (IH bp Hv' Hr Hq H)].
    destruct (TrySeed' bp v radius) as [[sd bp1]|] eqn:Hs; [|discriminate].
    cbn [rbind] in H.
    destruct (reachable_Inv pcd bp Hn Hr) as (HInv & Hnv & _).
    assert (Hvn : v < nv) by (apply Hv; left).
    assert (Hr1 : reachable pcd bp1).
    { apply (ev_seed _ _ _ _ _ bp v radius sd bp1 Hr); [rewrite Hnv; exact Hvn | exact Hs]. }
    destruct sd.
    + destruct (ExpandTriangulation' fuel bp1 radius) as [bp2|] eqn:He; [|discriminate].
      cbn [rbind] in H. apply (IH bp2 Hv'); [| |exact H].
      * exact (ExpandTriangulation_reachable pcd fuel bp1 radius bp2 Hr1 He).
      * exact (ExpandTriangulation_empties _ _ _ _ He).
    + destruct (seed_step bp v radius false bp1 HInv Hnv Hvn Hs) as [[_ ->]|[Hc _]];
        [|discriminate].
      exact (IH bp Hv' Hr Hq H).
Qed.

Lemma Run_loop_empties pcd fuel bp radii bp' :
  length (points_ pcd) = nv → reachable pcd bp → edge_front_ bp = [] →
  Run_loop' fuel bp radii = Ok bp' → edge_front_ bp' = [].
Proof.
  intros Hn. revert bp. induction radii as [|r radii IH]; intros bp Hr Hq H.
  - simpl in H. injection H as <-. exact Hq.
  - simpl in H. destruct (Run_radius' fuel bp r) as [bp1|] eqn:H1; [|discriminate].
    cbn [rbind] in H.
    pose proof (Run_radius_reachable pcd fuel bp r bp1 Hn Hr H1) as Hr1.
    apply (IH bp1 Hr1); [|exact H].
    unfold Run_radius in H1. destruct (dleb r d0); [discriminate|].
    destruct (update_border_edges SearchRadius bp r) as [b1|] eqn:Hu; [|discriminate].
    cbn [rbind] in H1.
    assert (Hrb : reachable pcd b1) by exact (ev_border _ _ _ _ _ bp r b1 Hr Hu).
    destruct (edge_front_ b1) as [|e q] eqn:Hq1.
    + unfold FindSeedTriangle in H1.
      apply (FindSeedTriangle_loop_empties pcd fuel b1 r
               (seq 0 (length (vertices b1))) bp1 Hn); auto.
      intros v Hv. apply elem_of_seq in Hv.
      destruct (reachable_Inv pcd b1 Hn Hrb) as (_ & Hnv & _). lia.
    + exact (ExpandTriangulation_empties _ _ _ _ H1).
Qed.

(** X13. When Run returns, the front queue is empty and no edge is Front: every
    edge is shared by two triangles, or is a Border edge of the border
    list. *)
Theorem Run_front_exhausted pcd fuel radii bp' :
  length (points_ pcd) = nv →
  Run' fuel (BallPivoting_new pcd) radii = Ok bp' →
  edge_front_ bp' = []
  ∧ ∀ e E, edge_heap bp' !! e = Some E →
      (type_ E = Edge.Inner ∧ is_Some (triangle0_ E) ∧ is_Some (triangle1_ E)
       ∧ e ∉ border_edges_ bp')
      ∨ (type_ E = Edge.Border ∧ is_Some (triangle0_ E) ∧ triangle1_ E = None
         ∧ e ∈ border_edges_ bp').
Proof.
  intros Hn H. pose proof (Run_reachable pcd fuel radii bp' Hn H) as Hr.
  assert (Hq : edge_front_ bp' = []).
  { unfold Run in H. destruct (negb _); [discriminate|].
    apply (Run_loop_empties pcd fuel (BallPivoting_new pcd) radii bp' Hn);
      [apply ev_refl | reflexivity | exact H]. }
  split; [exact Hq|].
  destruct (reachable_Inv pcd bp' Hn Hr) as ([Hok Htri] & Hnv & _).
  destruct (BallPivoting_new_fresh pcd) as [Hf0 Ht0].
  destruct (evolves_front_types (BallPivoting_new pcd) bp' (BallPivoting_new_Inv pcd)
              ltac:(rewrite BallPivoting_new_length; exact Hn) Hf0 Ht0 Hr)
    as (Hf & _).
  intros e E HE.
  destruct (ok_slot0 _ Hok e E HE) as (t0 & T0 & H0 & _).
  destruct (type_ E) eqn:Hty.
  - right. split; [reflexivity|]. split; [rewrite H0; eauto|].
    split; [apply (Front_slot1 bp' e E Hok HE); rewrite Hty; discriminate|].
    apply (ok_border _ Hok). eauto.
  - exfalso. pose proof (Hf e E HE Hty) as Hin. rewrite Hq in Hin. inversion Hin.
  - left. split; [reflexivity|]. split; [rewrite H0; eauto|].
    split.
    + destruct (triangle1_ E) eqn:H1; [eauto|].
      exfalso. apply (ok_type _ Hok e E HE) in Hty. contradiction.
    + intros Hin. apply (ok_border _ Hok) in Hin as (E' & HE' & Hb). congruence.
Qed.

(** X19. Between two states the engine passes through, nothing is taken from the
    mesh: the triangles, their normals and the triangle heap only grow at
    the end, and no point changes. *)
Theorem mesh_append_only pcd bp bp' :
  length (points_ pcd) = nv → reachable pcd bp → evolves bp bp' →
  mesh_triangles_ bp `prefix_of` mesh_triangles_ bp'
  ∧ mesh_triangle_normals_ bp `prefix_of` mesh_triangle_normals_ bp'
  ∧ triangle_heap bp `prefix_of` triangle_heap bp'
  ∧ length (edge_heap bp) ≤ length (edge_heap bp')
  ∧ (∀ e E, edge_heap bp !! e = Some E → type_ E = Edge.Inner →
       edge_heap bp' !! e = Some E)
  ∧ ∀ v V', vertices bp' !! v = Some V' →
      ∃ V, vertices bp !! v = Some V ∧ point_ V' = point_ V
           ∧ normal_ V' = normal_ V.
Proof.
  intros Hn Hr Hev. destruct (reachable_Inv pcd bp Hn Hr) as (HInv & Hnv & _).
  destruct (evolves_same_points bp bp' HInv Hnv Hev)
    as ((Hlen & Hpts) & (ms & ns & ts & Hm & Hns & Hts & _)).
  destruct (evolves_Inv bp bp' HInv Hnv Hev) as (HInv' & _ & _ & Hinner).
  split; [exists ms; exact Hm|]. split; [exists ns; exact Hns|].
  split; [exists ts; exact Hts|].
  split.
  { apply (evolves_invariant (λ b, length (edge_heap bp) ≤ length (edge_heap b))
             bp bp' HInv Hnv); [|lia|exact Hev].
    intros b b' HI Hl Hle Hs. transitivity (length (edge_heap b)); [exact Hle|].
    clear - Hs HI. destruct Hs as [edge rest Hq Hnf
      |edge rest E Hq HE Hty
      |edge rest E c ctr bp1 pushed Hq HE Hty Hcr Hps
      |v nb0 nb1 ctr bp1 pushed Ho0 Ho1 Hcr Hps
      |radius bp1 kept Hp]; simpl.
    - lia.
    - rewrite length_insert. lia.
    - pose proof (cr_post _ _ _ _ _ _ Hcr) as Hp.
      destruct (Nat.le_gt_cases (length (edge_heap b)) (length (edge_heap bp1)))
        as [?|Hlt]; [assumption|]. exfalso.
      destruct (lookup_lt_is_Some_2 (edge_heap b) _ Hlt) as [Ex HEx].
      assert (Hin1 : is_Some (edge_heap bp1 !! length (edge_heap bp1))).
      { destruct (decide (on_side (source_ E) (target_ E) c Ex)) as [Hy|Hn].
        - eexists. exact (cp_filled _ _ _ _ _ _ Hp _ _ HEx Hy).
        - eexists. exact (cp_other _ _ _ _ _ _ Hp _ _ HEx Hn). }
      apply lookup_lt_is_Some_1 in Hin1. lia.
    - pose proof (cr_post _ _ _ _ _ _ Hcr) as Hp.
      destruct (Nat.le_gt_cases (length (edge_heap b)) (length (edge_heap bp1)))
        as [?|Hlt]; [assumption|]. exfalso.
      destruct (lookup_lt_is_Some_2 (edge_heap b) _ Hlt) as [Ex HEx].
      assert (Hin1 : is_Some (edge_heap bp1 !! length (edge_heap bp1))).
      { destruct (decide (on_side v nb0 nb1 Ex)) as [Hy|Hn].
        - eexists. exact (cp_filled _ _ _ _ _ _ Hp _ _ HEx Hy).
        - eexists. exact (cp_other _ _ _ _ _ _ Hp _ _ HEx Hn). }
      apply lookup_lt_is_Some_1 in Hin1. lia.
    - rewrite (rp_len _ _ _ _ _ Hp). lia. }
  split; [exact Hinner|].
  intros v V' HV'. destruct (Hpts v V' HV') as (V & HV & _ & Hp & Hnm).
  exists V. auto.
Qed.

(** X12. The expansion loop ends: from a reachable state with [n] vertices it
    makes at most [2 n n] turns more than the queue is long, and returns
    with the queue empty and the earlier triangles kept. *)
Theorem ExpandTriangulation_terminates pcd bp fuel radius :
  length (points_ pcd) = nv → reachable pcd bp →
  2 * (nv * nv) + length (edge_front_ bp) ≤ fuel →
  ∃ bp', ExpandTriangulation' fuel bp radius = Ok bp'
         ∧ reachable pcd bp'
         ∧ edge_front_ bp' = []
         ∧ mesh_triangles_ bp `prefix_of` mesh_triangles_ bp'.
Proof.
  intros Hn Hr Hfuel. destruct (reachable_Inv pcd bp Hn Hr) as (HInv & Hnv & _).
  pose proof (potential_bound bp Hnv) as Hpot.
  destruct (ExpandTriangulation_total fuel bp radius HInv Hnv ltac:(lia))
    as (bp' & He & HInv' & Hnv' & _ & Hq).
  exists bp'. split; [exact He|].
  pose proof (ExpandTriangulation_reachable pcd fuel bp radius bp' Hr He) as Hr'.
  split; [exact Hr'|]. split; [exact Hq|].
  clear Hfuel Hpot Hq HInv' Hnv' Hr'.
  revert bp Hr HInv Hnv He. induction fuel as [|fuel IH]; intros bp Hr HInv Hnv He.
  - simpl in He. destruct (edge_front_ bp); [|discriminate]. injection He as <-.
    reflexivity.
  - simpl in He. destruct (edge_front_ bp) as [|edge rest] eqn:Hq.
    { injection He as <-. reflexivity. }
    destruct (ExpandTriangulation_body' (with_edge_front bp rest) edge radius)
      as [b1|] eqn:Hb; [|discriminate].
    cbn [rbind] in He.
    assert (Hr1 : reachable pcd b1)
      by exact (ev_turn _ _ _ _ _ bp edge rest radius b1 Hr Hq Hb).
    destruct (reachable_Inv pcd b1 Hn Hr1) as (HInv1 & Hnv1 & _).
    pose proof (IH b1 Hr1 HInv1 Hnv1 He) as Hm.
    pose proof (turn_step bp edge rest radius b1 HInv Hnv Hq Hb) as Hs.
    destruct (step_same_points bp b1 Hs) as (_ & (ms & _ & _ & Hms & _)).
    transitivity (mesh_triangles_ b1); [exists ms; exact Hms | exact Hm].
Qed.

(** *** Seeds *)

Lemma seed_ball_loop_true (vs : list (BallPivotingVertex D)) v0 v1 v2 ctr radius indices :
  seed_ball_loop vs v0 v1 v2 ctr radius indices = true ↔
  ∀ i, i ∈ indices → i ≠ v0 → i ≠ v1 → i ≠ v2 →
       dltb (norm (vsub ctr (point_ (vertex_at vs i)))) (dsub radius deps16) = false.
Proof.
  induction indices as [|x l IH]; simpl.
  - split; [intros _ i Hi; inversion Hi | reflexivity].
  - destruct (Nat.eqb_spec x v0) as [E0|N0]; simpl.
    { rewrite IH. split.
      - intros H i Hi. apply elem_of_cons in Hi as [->|Hi]; [congruence | auto].
      - intros H i Hi. apply H. right. exact Hi. }
    destruct (Nat.eqb_spec x v1) as [E1|N1]; simpl.
    { rewrite IH. split.
      - intros H i Hi. apply elem_of_cons in Hi as [->|Hi]; [congruence | auto].
      - intros H i Hi. apply H. right. exact Hi. }
    destruct (Nat.eqb_spec x v2) as [E2|N2]; simpl.
    { rewrite IH. split.
      - intros H i Hi. apply elem_of_cons in Hi as [->|Hi]; [congruence | auto].
      - intros H i Hi. apply H. right. exact Hi. }
    destruct (dltb (norm (vsub ctr (point_ (vertex_at vs x)))) (dsub radius deps16))
      eqn:Hd.
    + split; [discriminate|]. intros H.
      assert (Hx : x ∈ x :: l) by left.
      specialize (H x Hx N0 N1 N2). congruence.
    + rewrite IH. split.
      * intros H i Hi. apply elem_of_cons in Hi as [->|Hi]; [intros; exact Hd | auto].
      * intros H i Hi. apply H. right. exact Hi.
Qed.

Lemma TryTriangleSeed_Some bp v0 v1 v2 indices radius ctr :
  TryTriangleSeed bp v0 v1 v2 indices radius = Some ctr →
  IsCompatible (vertex_at (vertices bp) v0) (vertex_at (vertices bp) v1)
               (vertex_at (vertices bp) v2) = true
  ∧ ComputeBallCenter (vertices bp) v0 v1 v2 radius = Some ctr
  ∧ seed_ball_loop (vertices bp) v0 v1 v2 ctr radius indices = true.
Proof.
  unfold TryTriangleSeed. destruct (IsCompatible _ _ _); [|discriminate]. simpl.
  destruct (is_inner bp _); [discriminate|].
  destruct (is_inner bp _); [discriminate|].
  destruct (ComputeBallCenter _ _ _ _ _) as [c|]; [|discriminate].
  destruct (seed_ball_loop _ _ _ _ _ _ _) eqn:Hs; [|discriminate].
  intros [= <-]. auto.
Qed.

(** X11. [TrySeed] does all or nothing.  When it returns false the state is as
    it was.  When it returns true, it has created exactly one triangle, on
    the vertex and two Orphan vertices of the search of radius
    [2 * radius]: the three are compatible, the ball of [ComputeBallCenter]
    on them holds no other vertex of the search deeper than [1e-16], and
    the three sides are new edges, pushed at the head of the queue. *)
Theorem TrySeed_all_or_nothing pcd bp v radius b bp' :
  length (points_ pcd) = nv → reachable pcd bp → v < nv →
  TrySeed' bp v radius = Ok (b, bp') →
  (b = false ∧ bp' = bp)
  ∨ (b = true ∧ ∃ nb0 nb1 ctr e0 e1 e2,
       let vs := vertices bp in
       let indices := SearchRadius (point_ (vertex_at vs v)) (dmul d2 radius) in
       3 ≤ length indices ∧ nb0 ∈ indices ∧ nb1 ∈ indices
       ∧ nb0 ≠ v ∧ nb1 ≠ v ∧ nb0 ≠ nb1
       ∧ vtype_ (vertex_at vs nb0) = Vertex.Orphan
       ∧ vtype_ (vertex_at vs nb1) = Vertex.Orphan
       ∧ IsCompatible (vertex_at vs v) (vertex_at vs nb0) (vertex_at vs nb1) = true
       ∧ ComputeBallCenter vs v nb0 nb1 radius = Some ctr
       ∧ (∀ i, i ∈ indices → i ≠ v → i ≠ nb0 → i ≠ nb1 →
            dltb (norm (vsub ctr (point_ (vertex_at vs i)))) (dsub radius deps16)
            = false)
       ∧ triangle_heap bp' = triangle_heap bp ++ [mkTriangle v nb0 nb1 ctr]
       ∧ length (mesh_triangles_ bp') = S (length (mesh_triangles_ bp))
       ∧ (∀ e E, edge_heap bp !! e = Some E → edge_heap bp' !! e = Some E)
       ∧ length (edge_heap bp') = 3 + length (edge_heap bp)
       ∧ edge_front_ bp' = e2 :: e1 :: e0 :: edge_front_ bp
       ∧ NoDup [e2; e1; e0]
       ∧ ∀ e, e ∈ [e2; e1; e0] →
           length (edge_heap bp) ≤ e
           ∧ ∃ E, edge_heap bp' !! e = Some E ∧ type_ E = Edge.Front
                  ∧ on_side v nb0 nb1 E).
Proof.
  intros Hn Hr Hv H. destruct (reachable_Inv pcd bp Hn Hr) as (HInv & Hnv & _).
  unfold TrySeed in H.
  destruct (length (SearchRadius (point_ (vertex_at (vertices bp) v)) (dmul d2 radius))
            <? 3) eqn:Hlen3.
  { injection H as <- <-. left. auto. }
  apply Nat.ltb_ge in Hlen3.
  destruct (TrySeed_loop_step bp v _ radius _ b bp' HInv Hnv Hv
              (λ i Hi, SearchRadius_range _ _ i Hi) (SearchRadius_NoDup _ _) H)
    as [?|(Hb & nb0 & nb1 & ctr & bp1 & e0 & e1 & e2 & Hi0 & Hi1 & N0 & N1 & N01
           & Ho0 & Ho1 & Hseed & Hcr & Hps & Hnd & ->)];
    [left; assumption|].
  right. split; [exact Hb|]. exists nb0, nb1, ctr, e0, e1, e2. cbv zeta.
  destruct (TryTriangleSeed_Some _ _ _ _ _ _ _ Hseed) as (Hcomp & Hball & Hempty).
  pose proof (cr_post _ _ _ _ _ _ Hcr) as Hp.
  destruct (CreateTriangle_emits bp v nb0 nb1 ctr bp1 (cr_call _ _ _ _ _ _ Hcr))
    as (_ & Hm & Ht & _).
  assert (Hnone : ∀ e E, edge_heap bp !! e = Some E → ¬ on_side v nb0 nb1 E).
  { rewrite <- Hnv in Hv.
    assert (H0 : nb0 < length (vertices bp))
      by (rewrite Hnv; eapply SearchRadius_range; exact Hi0).
    assert (H1 : nb1 < length (vertices bp))
      by (rewrite Hnv; eapply SearchRadius_range; exact Hi1).
    pose proof (orphan_no_edge bp nb0 HInv H0 Ho0) as Hno0.
    pose proof (orphan_no_edge bp nb1 HInv H1 Ho1) as Hno1.
    intros e E HE [He|[He|He]].
    - apply (Hno0 e E HE). destruct He as [[_ ?]|[? _]]; [right|left]; assumption.
    - apply (Hno0 e E HE). destruct He as [[? _]|[_ ?]]; [left|right]; assumption.
    - apply (Hno1 e E HE). destruct He as [[? _]|[_ ?]]; [left|right]; assumption. }
  assert (Hnew : ∀ e, e ∈ [e2; e1; e0] →
            length (edge_heap bp) ≤ e
            ∧ ∃ E, edge_heap bp1 !! e = Some E ∧ type_ E = Edge.Front
                   ∧ on_side v nb0 nb1 E).
  { intros e He. apply Hps in He as (E & HE & Hty & Hs).
    split; [|eauto].
    destruct (Nat.le_gt_cases (length (edge_heap bp)) e) as [?|Hlt]; [assumption|].
    exfalso. destruct (lookup_lt_is_Some_2 _ _ Hlt) as [E0 HE0].
    pose proof (cp_other _ _ _ _ _ _ Hp e E0 HE0 (Hnone e E0 HE0)) as Hk.
    assert (E = E0) by congruence. subst. exact (Hnone e E0 HE0 Hs). }
  split; [exact Hlen3|]. split; [exact Hi0|]. split; [exact Hi1|].
  split; [exact N0|]. split; [exact N1|]. split; [exact N01|].
  split; [unfold is_orphan in Ho0; apply bool_decide_eq_true in Ho0; exact Ho0|].
  split; [unfold is_orphan in Ho1; apply bool_decide_eq_true in Ho1; exact Ho1|].
  split; [exact Hcomp|]. split; [exact Hball|].
  split; [apply seed_ball_loop_true; exact Hempty|].
  split; [exact Ht|].
  split; [simpl; rewrite Hm, length_app; simpl; lia|].
  split; [intros e E HE; exact (cp_other _ _ _ _ _ _ Hp e E HE (Hnone e E HE))|].
  split.
  { (* exactly three edges are new *)
    simpl.
    assert (Hle : length (edge_heap bp) ≤ length (edge_heap bp1)).
    { destruct (Nat.le_gt_cases (length (edge_heap bp)) (length (edge_heap bp1)))
        as [?|Hlt]; [assumption|]. exfalso.
      destruct (lookup_lt_is_Some_2 (edge_heap bp) _ Hlt) as [Ex HEx].
      pose proof (cp_other _ _ _ _ _ _ Hp _ Ex HEx (Hnone _ Ex HEx)) as Hk.
      apply lookup_lt_Some in Hk. lia. }
    assert (Hall : ∀ e, length (edge_heap bp) ≤ e < length (edge_heap bp1) ↔
                        e ∈ [e2; e1; e0]).
    { intros e. split.
      - intros [Hge Hlt]. destruct (lookup_lt_is_Some_2 _ _ Hlt) as [E HE].
        assert (Hnone0 : edge_heap bp !! e = None) by (apply lookup_ge_None; lia).
        destruct (cp_new _ _ _ _ _ _ Hp e E Hnone0 HE) as (Hs & _ & _ & Hty).
        apply Hps. eauto.
      - intros He. destruct (Hnew e He) as (Hge & E & HE & _).
        split; [exact Hge | eapply lookup_lt_Some; exact HE]. }
    assert (Hperm : [e2; e1; e0] ≡ₚ seq (length (edge_heap bp))
                      (length (edge_heap bp1) - length (edge_heap bp))).
    { apply NoDup_Permutation; [exact Hnd | apply NoDup_seq|].
      intros e. rewrite <- Hall, elem_of_seq. lia. }
    apply Permutation_length in Hperm. rewrite length_seq in Hperm. simpl in Hperm.
    lia. }
  split; [reflexivity|]. split; [exact Hnd | exact Hnew].
Qed.

(** *** A cloud too sparse for a seed *)

Lemma FindSeedTriangle_loop_sparse fuel bp radius vidxs :
  (∀ q r, length (SearchRadius q r) < 3) →
  FindSeedTriangle_loop' fuel bp radius vidxs = Ok bp.
Proof.
  intros Hs. induction vidxs as [|v vidxs IH]; simpl; [reflexivity|].
  destruct (is_orphan bp v); [|exact IH].
  unfold TrySeed.
  destruct (Nat.ltb_spec (length (SearchRadius (point_ (vertex_at (vertices bp) v))
                                    (dmul d2 radius))) 3) as [_|Hge].
  - cbn [rbind]. exact IH.
  - exfalso. specialize (Hs (point_ (vertex_at (vertices bp) v)) (dmul d2 radius)). lia.
Qed.

(** X14. Where no radius search returns three points, among them every cloud
    of fewer than three points, Run creates nothing: for radii above zero
    it returns the engine as the constructor made it, with an empty mesh. *)
Theorem Run_sparse pcd fuel radii :
  (∀ q r, length (SearchRadius q r) < 3) →
  HasNormals pcd = true → (∀ r, r ∈ radii → dleb r d0 = false) →
  Run' fuel (BallPivoting_new pcd) radii = Ok (BallPivoting_new pcd)
  ∧ mesh_triangles_ (BallPivoting_new pcd) = []
  ∧ edge_heap (BallPivoting_new pcd) = [].
Proof.
  intros Hs Hh Hr. split; [|split; reflexivity].
  unfold Run. simpl. rewrite Hh. simpl.
  change (with_mesh (BallPivoting_new pcd) [] []) with (BallPivoting_new pcd).
  induction radii as [|r radii IH]; simpl; [reflexivity|].
  unfold Run_radius. rewrite (Hr r) by left.
  unfold update_border_edges. simpl. unfold FindSeedTriangle.
  change (with_border_edges (BallPivoting_new pcd) []) with (BallPivoting_new pcd).
  rewrite (FindSeedTriangle_loop_sparse fuel (BallPivoting_new pcd) r _ Hs).
  cbn [rbind]. apply IH. intros r' Hr'. apply Hr. right. exact Hr'.
Qed.

(** *** The ball of every triangle *)

Lemma same_points_at bp bp' v :
  same_points bp bp' →
  point_ (vertex_at (vertices bp') v) = point_ (vertex_at (vertices bp) v)
  ∧ normal_ (vertex_at (vertices bp') v) = normal_ (vertex_at (vertices bp) v).
Proof.
  intros [Hlen Hpts]. destruct (vertices bp' !! v) as [V'|] eqn:HV'.
  - destruct (Hpts v V' HV') as (V & HV & _ & Hp & Hn).
    rewrite (vertex_at_lookup _ _ _ HV'), (vertex_at_lookup _ _ _ HV). auto.
  - assert (HV : vertices bp !! v = None).
    { apply lookup_ge_None. apply lookup_ge_None in HV'. lia. }
    unfold vertex_at. rewrite HV, HV'. auto.
Qed.

Lemma ComputeBallCenter_ext (vs vs' : list (BallPivotingVertex D)) i j k radius :
  (∀ v, point_ (vertex_at vs' v) = point_ (vertex_at vs v)
        ∧ normal_ (vertex_at vs' v) = normal_ (vertex_at vs v)) →
  ComputeBallCenter vs' i j k radius = ComputeBallCenter vs i j k radius.
Proof.
  intros H. unfold ComputeBallCenter.
  rewrite !(proj1 (H _)), !(proj2 (H _)). reflexivity.
Qed.

Lemma empty_ball_at_ext (vs vs' : list (BallPivotingVertex D)) q q' radius T :
  (∀ v, point_ (vertex_at vs' v) = point_ (vertex_at vs v)
        ∧ normal_ (vertex_at vs' v) = normal_ (vertex_at vs v)) →
  q' = q →
  empty_ball_at SearchRadius vs q radius T → empty_ball_at SearchRadius vs' q' radius T.
Proof.
  intros H -> [Hc He]. split.
  - rewrite (ComputeBallCenter_ext vs vs' _ _ _ _ H). exact Hc.
  - intros i Hi N0 N1 N2. rewrite (proj1 (H i)). exact (He i Hi N0 N1 N2).
Qed.

Lemma balls_empty_ext bp bp' :
  same_points bp bp' → triangle_heap bp' = triangle_heap bp →
  balls_empty SearchRadius bp → balls_empty SearchRadius bp'.
Proof.
  intros Hsp Hts HJ t T HT. rewrite Hts in HT.
  destruct (HJ t T HT) as (radius & q & Hq & Hb).
  pose proof (λ v, same_points_at bp bp' v Hsp) as Hat.
  destruct Hq as [-> | ->].
  - exists radius, (point_ (vertex_at (vertices bp') (vert0_ T))).
    split; [left; reflexivity|].
    apply (empty_ball_at_ext (vertices bp) (vertices bp') _ _ radius T Hat
             (proj1 (Hat _)) Hb).
  - exists radius, (vscale dhalf (vadd (point_ (vertex_at (vertices bp') (vert0_ T)))
                                       (point_ (vertex_at (vertices bp') (vert1_ T))))).
    split; [right; reflexivity|].
    refine (empty_ball_at_ext (vertices bp) (vertices bp') _ _ radius T Hat _ Hb).
    rewrite !(proj1 (Hat _)). reflexivity.
Qed.

Lemma balls_empty_grow bp bp1 v0 v1 v2 ctr radius q :
  balls_empty SearchRadius bp → created bp v0 v1 v2 ctr bp1 →
  (q = point_ (vertex_at (vertices bp) v0)
   ∨ q = vscale dhalf (vadd (point_ (vertex_at (vertices bp) v0))
                            (point_ (vertex_at (vertices bp) v1)))) →
  empty_ball_at SearchRadius (vertices bp) q radius (mkTriangle v0 v1 v2 ctr) →
  balls_empty SearchRadius bp1.
Proof.
  intros HJ Hcr Hq Hb t T HT.
  pose proof (proj1 (created_same_points _ _ _ _ _ _ Hcr)) as Hsp.
  pose proof (λ v, same_points_at bp bp1 v Hsp) as Hat.
  rewrite (cp_ts _ _ _ _ _ _ (cr_post _ _ _ _ _ _ Hcr)) in HT.
  apply lookup_app_Some in HT as [HT|[_ HT]].
  - destruct (HJ t T HT) as (r & q' & Hq' & Hb').
    destruct Hq' as [-> | ->].
    + exists r, (point_ (vertex_at (vertices bp1) (vert0_ T))).
      split; [left; reflexivity|].
      apply (empty_ball_at_ext (vertices bp) (vertices bp1) _ _ r T Hat
               (proj1 (Hat _)) Hb').
    + exists r, (vscale dhalf (vadd (point_ (vertex_at (vertices bp1) (vert0_ T)))
                                    (point_ (vertex_at (vertices bp1) (vert1_ T))))).
      split; [right; reflexivity|].
      refine (empty_ball_at_ext (vertices bp) (vertices bp1) _ _ r T Hat _ Hb').
      rewrite !(proj1 (Hat _)). reflexivity.
  - apply list_lookup_singleton_Some in HT as [_ <-].
    destruct Hq as [-> | ->].
    + exists radius, (point_ (vertex_at (vertices bp1) v0)).
      split; [left; reflexivity|].
      apply (empty_ball_at_ext (vertices bp) (vertices bp1) _ _ radius _ Hat
               (proj1 (Hat _)) Hb).
    + exists radius, (vscale dhalf (vadd (point_ (vertex_at (vertices bp1) v0))
                                         (point_ (vertex_at (vertices bp1) v1)))).
      split; [right; reflexivity|].
      refine (empty_ball_at_ext (vertices bp) (vertices bp1) _ _ radius _ Hat _ Hb).
      simpl. rewrite !(proj1 (Hat _)). reflexivity.
Qed.

Lemma step_balls_empty b b' :
  balls_empty SearchRadius b → step b b' → balls_empty SearchRadius b'.
Proof.
  intros HJ Hs. destruct Hs as [edge rest Hq Hnf
    |edge rest E Hq HE Hty
    |edge rest E c ctr bp1 pushed Hq HE Hty Hcr Hps [radius Hfind]
    |v nb0 nb1 ctr bp1 pushed Ho0 Ho1 Hcr Hps [radius Hseed]
    |radius bp1 kept Hp].
  - exact HJ.
  - exact HJ.
  - change (balls_empty SearchRadius bp1).
    destruct (FindCandidateVertex_center _ _ _ _ _ _ _ _ _ Hfind) as [Hc He].
    cbv zeta in Hc, He.
    change (edge_heap (with_edge_front b rest)) with (edge_heap b) in Hc, He.
    rewrite (edge_at_lookup _ _ _ HE) in Hc, He.
    apply (balls_empty_grow (with_edge_front b rest) bp1 (source_ E) (target_ E) c ctr
             radius _ HJ Hcr (or_intror eq_refl)).
    split; [exact Hc|]. simpl. apply empty_ball_loop_true. exact He.
  - change (balls_empty SearchRadius bp1).
    destruct (TryTriangleSeed_Some _ _ _ _ _ _ _ Hseed) as (_ & Hc & He).
    apply (balls_empty_grow b bp1 v nb0 nb1 ctr radius _ HJ Hcr (or_introl eq_refl)).
    split; [exact Hc|]. simpl. apply seed_ball_loop_true. exact He.
  - intros t T HT. simpl in HT. rewrite (rp_ts _ _ _ _ _ Hp) in HT.
    destruct (HJ t T HT) as (r & q & Hq & Hb).
    exists r, q. simpl. rewrite (rp_vertices _ _ _ _ _ Hp). split; assumption.
Qed.

(** X18. Every triangle of the mesh was made by a ball that held no other
    point: the triangle heap stores, at the same position, its three
    indices with the center [ComputeBallCenter] gives for them and some
    radius, and no other vertex returned by the search of twice that
    radius, around the first vertex or around the middle of the first
    side, lies deeper than [1e-16] inside that ball. *)
Theorem mesh_triangles_empty_ball pcd bp i m :
  length (points_ pcd) = nv → reachable pcd bp →
  mesh_triangles_ bp !! i = Some m →
  let vs := vertices bp in
  ∃ T radius q,
    triangle_heap bp !! i = Some T
    ∧ (m = (vert0_ T, vert1_ T, vert2_ T) ∨ m = (vert0_ T, vert2_ T, vert1_ T))
    ∧ (q = point_ (vertex_at vs (vert0_ T))
       ∨ q = vscale dhalf (vadd (point_ (vertex_at vs (vert0_ T)))
                                (point_ (vertex_at vs (vert1_ T)))))
    ∧ ComputeBallCenter vs (vert0_ T) (vert1_ T) (vert2_ T) radius
      = Some (ball_center_ T)
    ∧ ∀ j, j ∈ SearchRadius q (dmul d2 radius) →
           j ≠ vert0_ T → j ≠ vert1_ T → j ≠ vert2_ T →
           dltb (norm (vsub (ball_center_ T) (point_ (vertex_at vs j))))
                (dsub radius deps16) = false.
Proof.
  intros Hn Hr Hm vs.
  destruct (reachable_Inv pcd bp Hn Hr) as (HInv & Hnv & _).
  destruct (mesh_entry bp i m HInv Hm) as (T & HT & He & _).
  assert (HJ : balls_empty SearchRadius bp).
  { apply (evolves_invariant (balls_empty SearchRadius) (BallPivoting_new pcd) bp
             (BallPivoting_new_Inv pcd)).
    - rewrite BallPivoting_new_length. exact Hn.
    - intros b b' _ _ HJ Hs. exact (step_balls_empty b b' HJ Hs).
    - intros t T' HT'. simpl in HT'. rewrite lookup_nil in HT'. discriminate.
    - exact Hr. }
  destruct (HJ i T HT) as (radius & q & Hq & Hc & Hb).
  exists T, radius, q. split; [exact HT|]. split; [exact He|].
  split; [exact Hq|]. split; [exact Hc | exact Hb].
Qed.

(** X22. The Orphan vertices are the points the mesh does not use: in a state
    the engine passes through, a vertex is Orphan exactly when no triangle
    of the mesh names it. *)
Theorem orphan_iff_unused pcd bp v V :
  length (points_ pcd) = nv → reachable pcd bp →
  vertices bp !! v = Some V →
  (vtype_ V = Vertex.Orphan
   ↔ ∀ i m, mesh_triangles_ bp !! i = Some m → ¬ triple_has m v).
Proof.
  intros Hn Hr HV. destruct (reachable_Inv pcd bp Hn Hr) as (HInv & Hnv & _).
  pose proof HInv as [Hok Htri].
  rewrite (ok_orphan _ Htri v V HV). split.
  - intros Hnil i m Hm Hv.
    destruct (mesh_entry bp i m HInv Hm) as (T & HT & _ & Hiff).
    apply Hiff in Hv.
    destruct (ok_tri _ Htri i T HT) as (_ & _ & H01 & H12 & H20).
    assert (He : ∃ e E, edge_heap bp !! e = Some E ∧ incident E v).
    { destruct Hv as [Hv|[Hv|Hv]].
      - destruct H01 as (e & E & HE & [[Ha Hb]|[Ha Hb]] & _); exists e, E;
          (split; [exact HE|]); unfold incident; [left | right]; congruence.
      - destruct H12 as (e & E & HE & [[Ha Hb]|[Ha Hb]] & _); exists e, E;
          (split; [exact HE|]); unfold incident; [left | right]; congruence.
      - destruct H20 as (e & E & HE & [[Ha Hb]|[Ha Hb]] & _); exists e, E;
          (split; [exact HE|]); unfold incident; [left | right]; congruence. }
    destruct He as (e & E & HE & Hinc).
    assert (Hin : e ∈ edges_ V).
    { apply (ok_inc _ Hok v V HV). exists E. split; assumption. }
    rewrite Hnil in Hin. inversion Hin.
  - intros Hno. destruct (edges_ V) as [|e l] eqn:Hl; [reflexivity|]. exfalso.
    assert (Hin : e ∈ edges_ V) by (rewrite Hl; left).
    apply (ok_inc _ Hok v V HV) in Hin as (E & HE & Hinc).
    destruct (ok_slot0 _ Hok e E HE) as (t & T & _ & HT & Hs & Ht).
    destruct (Forall2_lookup_r _ _ _ _ _ (ok_mesh _ Htri) HT) as (m & Hm & Hem).
    apply (Hno t m Hm).
    destruct (mesh_entry bp t m HInv Hm) as (T' & HT' & _ & Hiff).
    assert (T' = T) by congruence. subst T'.
    apply Hiff. destruct Hinc as [<-|<-]; assumption.
Qed.

End Steps.

(** ** The winding of the mesh *)

Section Winding.
Local Open Scope R_scope.
Variable SearchRadius : Vector3d R → R → list nat.
Variable PointsCoplanar :
  Vector3d R → Vector3d R → Vector3d R → Vector3d R → bool.
Variable LineSegmentsMinimumDistance :
  Vector3d R → Vector3d R → Vector3d R → Vector3d R → R.
Variable acos : R → R.
Variable nv : nat.
Hypothesis SearchRadius_range : ∀ q r i, i ∈ SearchRadius q r → (i < nv)%nat.
Hypothesis SearchRadius_NoDup : ∀ q r, NoDup (SearchRadius q r).
Implicit Types (bp : BallPivoting R).

Local Abbreviation reachable :=
  (reachable SearchRadius PointsCoplanar LineSegmentsMinimumDistance acos).

(** [CreateTriangle] emits the three indices in the order whose right-hand
    normal does not oppose the normal of the first vertex; the normal it
    stores is always that of the order given, so it is the opposite of the
    normal of the emitted triangle when the order was exchanged. *)
Lemma CreateTriangle_wound bp v0 v1 v2 c bp' :
  CreateTriangle bp v0 v1 v2 c = Ok bp' →
  let p := λ i, point_ (vertex_at (vertices bp) i) in
  ∃ a b,
    ((a = v1 ∧ b = v2) ∨ (a = v2 ∧ b = v1))
    ∧ mesh_triangles_ bp' = mesh_triangles_ bp ++ [(v0, a, b)]
    ∧ wound (vertices bp) (v0, a, b)
    ∧ mesh_triangle_normals_ bp' =
        mesh_triangle_normals_ bp ++ [ComputeFaceNormal (p v0) (p v1) (p v2)]
    ∧ (a = v1 → ComputeFaceNormal (p v0) (p v1) (p v2)
                = ComputeFaceNormal (p v0) (p a) (p b))
    ∧ (a ≠ v1 → ComputeFaceNormal (p v0) (p v1) (p v2)
                = vmuls (ComputeFaceNormal (p v0) (p a) (p b)) (-1)
                ∧ dot (ComputeFaceNormal (p v0) (p v1) (p v2))
                      (normal_ (vertex_at (vertices bp) v0)) <= - (1 / 10 ^ 16)).
Proof.
  intros H p. destruct (CreateTriangle_emits bp v0 v1 v2 c bp' H) as (Hn & Hm & _).
  cbv zeta in Hn, Hm. cbn [dltb dopp deps16 R_arith] in Hm. fold (p v0) (p v1) (p v2) in *.
  set (F := ComputeFaceNormal (p v0) (p v1) (p v2)) in *.
  destruct (Rltb (- (1 / 10 ^ 16)) (dot F (normal_ (vertex_at (vertices bp) v0))))
    eqn:Hlt.
  - apply Rltb_true in Hlt. exists v1, v2.
    split; [left; auto|]. split; [exact Hm|]. split; [exact Hlt|].
    split; [exact Hn|]. split; [reflexivity | intros Hc; contradiction].
  - apply Rltb_false in Hlt. exists v2, v1.
    assert (Hsw : ComputeFaceNormal (p v0) (p v2) (p v1) = vmuls F (-1))
      by apply ComputeFaceNormal_swap.
    assert (HF : F = vmuls (ComputeFaceNormal (p v0) (p v2) (p v1)) (-1)).
    { rewrite Hsw. destruct F; unfold vmuls; simpl. f_equal; ring. }
    split; [right; auto|]. split; [exact Hm|].
    split.
    { unfold wound. cbn [fst snd]. fold (p v0) (p v1) (p v2). rewrite Hsw, dot_vmuls_l.
      pose proof eps16_pos. lra. }
    split; [exact Hn|]. split.
    + intros Heq. unfold F. rewrite Heq. reflexivity.
    + intros _. split; [exact HF | exact Hlt].
Qed.

Lemma mesh_wound_grow bp bp1 v0 v1 v2 c :
  mesh_wound bp → same_points bp bp1 →
  CreateTriangle bp v0 v1 v2 c = Ok bp1 → mesh_wound bp1.
Proof.
  intros [Hlen HJ] Hsp Hc.
  destruct (CreateTriangle_wound bp v0 v1 v2 c bp1 Hc)
    as (a & b & Hab & Hm & Hw & Hn & Heq & Hne).
  cbv zeta in Hn, Heq, Hne.
  assert (Hat : ∀ v, point_ (vertex_at (vertices bp1) v) = point_ (vertex_at (vertices bp) v)
                     ∧ normal_ (vertex_at (vertices bp1) v)
                       = normal_ (vertex_at (vertices bp) v))
    by (intros v; apply same_points_at; exact Hsp).
  assert (Hfn : ∀ m : nat * nat * nat,
            ComputeFaceNormal (point_ (vertex_at (vertices bp1) m.1.1))
              (point_ (vertex_at (vertices bp1) m.1.2))
              (point_ (vertex_at (vertices bp1) m.2))
            = ComputeFaceNormal (point_ (vertex_at (vertices bp) m.1.1))
                (point_ (vertex_at (vertices bp) m.1.2))
                (point_ (vertex_at (vertices bp) m.2))).
  { intros m. rewrite !(proj1 (Hat _)). reflexivity. }
  split; [rewrite Hm, Hn, !length_app, Hlen; reflexivity|].
  intros i m Hi. unfold wound. cbv zeta. rewrite Hfn, (proj2 (Hat _)).
  rewrite Hm in Hi. apply lookup_app_Some in Hi as [Hi|[Hge Hi]].
  - destruct (HJ i m Hi) as (Hwm & n & Hni & Hnf). split; [exact Hwm|].
    exists n. split; [|exact Hnf]. rewrite Hn. apply lookup_app_l_Some. exact Hni.
  - apply list_lookup_singleton_Some in Hi as [Hk <-].
    split; [exact Hw|].
    exists (ComputeFaceNormal (point_ (vertex_at (vertices bp) v0))
              (point_ (vertex_at (vertices bp) v1))
              (point_ (vertex_at (vertices bp) v2))).
    split.
    + rewrite Hn. rewrite lookup_app_r by lia.
      replace (i - length (mesh_triangle_normals_ bp))%nat with 0%nat by lia.
      reflexivity.
    + cbn [fst snd]. destruct (decide (a = v1)) as [Ha|Ha];
        [left; exact (Heq Ha) | right; exact (proj1 (Hne Ha))].
Qed.

Lemma step_mesh_wound b b' :
  mesh_wound b → step SearchRadius PointsCoplanar LineSegmentsMinimumDistance acos b b' → mesh_wound b'.
Proof.
  intros HJ Hs. destruct Hs as [edge rest Hq Hnf
    |edge rest E Hq HE Hty
    |edge rest E c ctr bp1 pushed Hq HE Hty Hcr Hps
    |v nb0 nb1 ctr bp1 pushed Ho0 Ho1 Hcr Hps
    |radius bp1 kept Hp].
  - exact HJ.
  - exact HJ.
  - change (mesh_wound bp1).
    apply (mesh_wound_grow (with_edge_front b rest) bp1 (source_ E) (target_ E) c ctr);
      [exact HJ | exact (proj1 (created_same_points _ _ _ _ _ _ Hcr))
       | exact (cr_call _ _ _ _ _ _ Hcr)].
  - change (mesh_wound bp1).
    apply (mesh_wound_grow b bp1 v nb0 nb1 ctr);
      [exact HJ | exact (proj1 (created_same_points _ _ _ _ _ _ Hcr))
       | exact (cr_call _ _ _ _ _ _ Hcr)].
  - destruct HJ as [Hlen HJ]. unfold mesh_wound. simpl.
    rewrite (rp_mesh _ _ _ _ _ _ Hp), (rp_meshn _ _ _ _ _ _ Hp),
      (rp_vertices _ _ _ _ _ _ Hp).
    split; [exact Hlen | exact HJ].
Qed.

(** X17. Every triangle of the mesh is wound so that its right-hand normal
    does not oppose the normal of its first vertex, and the normal stored
    with it is that right-hand normal or the opposite vector. *)
Theorem mesh_triangles_wound (pcd : PointCloud R) bp i m :
  length (points_ pcd) = nv → reachable pcd bp →
  mesh_triangles_ bp !! i = Some m →
  let p := λ v, point_ (vertex_at (vertices bp) v) in
  - (1 / 10 ^ 16) <
    dot (ComputeFaceNormal (p m.1.1) (p m.1.2) (p m.2))
        (normal_ (vertex_at (vertices bp) m.1.1))
  ∧ ∃ n, mesh_triangle_normals_ bp !! i = Some n
         ∧ (n = ComputeFaceNormal (p m.1.1) (p m.1.2) (p m.2)
            ∨ n = vmuls (ComputeFaceNormal (p m.1.1) (p m.1.2) (p m.2)) (-1)).
Proof.
  intros Hn Hr Hi p.
  assert (HJ : mesh_wound bp).
  { apply (evolves_invariant SearchRadius PointsCoplanar LineSegmentsMinimumDistance
             acos nv SearchRadius_range SearchRadius_NoDup mesh_wound
             (BallPivoting_new pcd) bp (BallPivoting_new_Inv pcd)).
    - rewrite BallPivoting_new_length. exact Hn.
    - intros b b' _ _ HJ Hs. exact (step_mesh_wound b b' HJ Hs).
    - split; [reflexivity|]. intros j m' Hj. simpl in Hj. rewrite lookup_nil in Hj.
      discriminate.
    - exact Hr. }
  destruct HJ as [_ HJ]. exact (HJ i m Hi).
Qed.
End Winding.

(** ** The theorems on the concrete inputs *)

Section SearchFacts.
Context {D : Type} {AR : Arith D}.
Lemma exhaustive_search_range (points : list (Vector3d D)) q r i :
  i ∈ exhaustive_search points q r → i < length points.
Proof.
  unfold exhaustive_search. intros H. apply list_elem_of_filter in H as [_ H].
  apply elem_of_seq in H. lia.
Qed.
Lemma exhaustive_search_NoDup (points : list (Vector3d D)) q r :
  NoDup (exhaustive_search points q r).
Proof. unfold exhaustive_search. apply NoDup_filter, NoDup_seq. Qed.
End SearchFacts.

Lemma tri_seeded_reachable :
  reachable tri_search never_coplanar far_apart acos_stand_in tri_cloud tri_seeded.
Proof.
  eapply (ev_seed _ _ _ _ _ _ 0 1%float true); [apply ev_refl | simpl; lia | ].
  vm_compute. reflexivity.
Qed.
Lemma quad_seeded_reachable :
  reachable quad_search never_coplanar far_apart acos_stand_in quad_cloud quad_seeded.
Proof.
  eapply (ev_seed _ _ _ _ _ _ 0 1%float true); [apply ev_refl | simpl; lia | ].
  vm_compute. reflexivity.
Qed.

Lemma ComputeBallCenter_spec_witness :
  ComputeBallCenter (vertices tri_bp0) 0 1 2 1%float
    = Some (V 0.5 0.5 0.70710678118654735)
  ∧ ComputeBallCenter (right_triangle (D := float)) 0 1 2 1%float = None.
Proof.
  split.
  - apply (proj1 (ComputeBallCenter_spec (vertices tri_bp0) 0 1 2 1%float)).
    split; [vm_compute; reflexivity|]. split; vm_compute; reflexivity.
  - apply (proj2 (ComputeBallCenter_spec (right_triangle (D := float)) 0 1 2 1%float)).
    right. vm_compute. reflexivity.
Defined.

Lemma edge_classification_witness :
  length (points_ tri_cloud) = 3
  ∧ ∃ E, edge_heap tri_seeded !! 0 = Some E
         ∧ is_Some (triangle0_ E)
         ∧ (type_ E = Edge.Inner ↔ is_Some (triangle0_ E) ∧ is_Some (triangle1_ E))
         ∧ (type_ E = Edge.Border ↔ 0 ∈ border_edges_ tri_seeded)
         ∧ (type_ E = Edge.Border → triangle1_ E = None)
         ∧ (type_ E = Edge.Front ↔ triangle1_ E = None ∧ 0 ∉ border_edges_ tri_seeded).
Proof.
  split; [reflexivity|]. eexists. split; [reflexivity|].
  refine (proj1 (edge_classification tri_search never_coplanar far_apart acos_stand_in 3
            (exhaustive_search_range _) (exhaustive_search_NoDup _)
            tri_cloud tri_seeded eq_refl tri_seeded_reachable) 0 _ eq_refl).
Defined.

Lemma ExpandTriangulation_body_decision_witness :
  is_front (with_edge_front tri_seeded [1; 2]) 0 = true
  ∧ 0 < length (edge_heap (with_edge_front tri_seeded [1; 2]))
  ∧ FindCandidateVertex tri_search never_coplanar far_apart acos_stand_in
      (with_edge_front tri_seeded [1; 2]) 0 1%float = Ok None
  ∧ ∃ bp', ExpandTriangulation_body tri_search never_coplanar far_apart acos_stand_in
             (with_edge_front tri_seeded [1; 2]) 0 1%float = Ok bp'
           ∧ type_ (edge_at (edge_heap bp') 0) = Edge.Border
           ∧ border_edges_ bp' = border_edges_ (with_edge_front tri_seeded [1; 2]) ++ [0]
           ∧ triangle_heap bp' = triangle_heap (with_edge_front tri_seeded [1; 2])
           ∧ mesh_triangles_ bp' = mesh_triangles_ (with_edge_front tri_seeded [1; 2]).
Proof.
  assert (H1 : is_front (with_edge_front tri_seeded [1; 2]) 0 = true)
    by (vm_compute; reflexivity).
  assert (H2 : 0 < length (edge_heap (with_edge_front tri_seeded [1; 2])))
    by (vm_compute; lia).
  assert (H3 : FindCandidateVertex tri_search never_coplanar far_apart acos_stand_in
                 (with_edge_front tri_seeded [1; 2]) 0 1%float = Ok None)
    by (vm_compute; reflexivity).
  split; [exact H1|]. split; [exact H2|]. split; [exact H3|].
  exact (proj1 (ExpandTriangulation_body_decision tri_search never_coplanar far_apart
                  acos_stand_in _ 0 1%float None H1 H2 H3) eq_refl).
Defined.

Lemma tri_final_border e :
  e ∈ border_edges_ tri_final →
  ∃ E, edge_heap tri_final !! e = Some E
       ∧ type_ E = Edge.Border ∧ triangle0_ E ≠ None.
Proof.
  intros He. change (border_edges_ tri_final) with [0; 1; 2] in He.
  repeat (apply elem_of_cons in He as [->|He]);
    [| | | inversion He]; eexists; (split; [vm_compute; reflexivity|]);
    split; [reflexivity | discriminate | reflexivity | discriminate
            | reflexivity | discriminate].
Qed.

Lemma border_revisit_witness :
  (∀ e, e ∈ border_edges_ tri_final →
        ∃ E, edge_heap tri_final !! e = Some E
             ∧ type_ E = Edge.Border ∧ triangle0_ E ≠ None)
  ∧ ∃ bp', update_border_edges tri_search tri_final 1%float = Ok bp'
           ∧ edge_front_ bp' =
               edge_front_ tri_final ++
               filter (λ e, ready tri_search tri_final 1%float e = true)
                      (border_edges_ tri_final).
Proof.
  split; [exact tri_final_border|].
  destruct (border_revisit tri_search tri_final 1%float tri_final_border)
    as (bp' & H1 & H2 & _).
  exists bp'. split; [exact H1 | exact H2].
Defined.

Lemma Run_failure_witness :
  length (points_ tri_cloud) = 3 ∧ 3 * (3 * 3) + 3 ≤ 30
  ∧ HasNormals tri_cloud = true
  ∧ (∀ r, r ∈ [1%float] → (d0 >=? r)%D = false)
  ∧ ∃ bp', Run tri_search never_coplanar far_apart acos_stand_in 30
             (BallPivoting_new tri_cloud) [1%float] = Ok bp'
           ∧ reachable tri_search never_coplanar far_apart acos_stand_in tri_cloud bp'
           ∧ Forall2 emitted (mesh_triangles_ bp') (triangle_heap bp').
Proof.
  assert (Hr : ∀ r, r ∈ [1%float] → (d0 >=? r)%D = false).
  { intros r Hr. apply list_elem_of_singleton in Hr as ->. reflexivity. }
  split; [reflexivity|]. split; [simpl; lia|]. split; [reflexivity|].
  split; [exact Hr|].
  apply (Run_failure tri_search never_coplanar far_apart acos_stand_in 3
           (exhaustive_search_range _) (exhaustive_search_NoDup _)
           tri_cloud [1%float] 30 eq_refl); [simpl; lia | reflexivity | exact Hr].
Defined.

Lemma no_duplicate_triangles_witness :
  length (points_ quad_cloud) = 4
  ∧ Run quad_search never_coplanar far_apart acos_stand_in 51
      (BallPivoting_new quad_cloud) [1%float] = Ok quad_final
  ∧ ∀ i j m m', mesh_triangles_ quad_final !! i = Some m →
                mesh_triangles_ quad_final !! j = Some m' →
                same_triple m m' → i = j.
Proof.
  assert (HR : Run quad_search never_coplanar far_apart acos_stand_in 51
                 (BallPivoting_new quad_cloud) [1%float] = Ok quad_final)
    by (vm_compute; reflexivity).
  split; [reflexivity|]. split; [exact HR|].
  exact (proj2 (no_duplicate_triangles quad_search never_coplanar far_apart
                  acos_stand_in 4 (exhaustive_search_range _)
                  (exhaustive_search_NoDup _) quad_cloud eq_refl)
               51 [1%float] quad_final HR).
Defined.

Lemma front_queue_order_witness :
  Inv tri_bp0 ∧ length (vertices tri_bp0) = 3
  ∧ TrySeed tri_search tri_bp0 0 1%float = Ok (true, tri_seeded)
  ∧ ∃ nb0 nb1 ctr bp1 e0 e1 e2,
      CreateTriangle tri_bp0 0 nb0 nb1 ctr = Ok bp1
      ∧ GetLinkingEdge bp1 0 nb1 = Some e0
      ∧ GetLinkingEdge bp1 nb0 nb1 = Some e1
      ∧ GetLinkingEdge bp1 0 nb0 = Some e2
      ∧ edge_front_ tri_seeded = e2 :: e1 :: e0 :: edge_front_ tri_bp0.
Proof.
  assert (HT : TrySeed tri_search tri_bp0 0 1%float = Ok (true, tri_seeded))
    by (vm_compute; reflexivity).
  split; [apply BallPivoting_new_Inv|]. split; [reflexivity|]. split; [exact HT|].
  refine (proj1 (front_queue_order tri_search never_coplanar far_apart acos_stand_in 3
                   (exhaustive_search_range _) (exhaustive_search_NoDup _)
                   tri_bp0 (BallPivoting_new_Inv tri_cloud) eq_refl)
                0 1%float tri_seeded _ HT).
  lia.
Defined.

Lemma quad_turn_heap : triangle_heap quad_turn ≠ triangle_heap quad_seeded.
Proof. intros H. apply (f_equal length) in H. vm_compute in H. discriminate. Qed.

Lemma expanded_edge_becomes_inner_witness :
  length (points_ quad_cloud) = 4
  ∧ edge_front_ quad_seeded = 0 :: [1; 2]
  ∧ ExpandTriangulation_body quad_search never_coplanar far_apart acos_stand_in
      (with_edge_front quad_seeded [1; 2]) 0 1%float = Ok quad_turn
  ∧ triangle_heap quad_turn ≠ triangle_heap quad_seeded
  ∧ ∃ E E', edge_heap quad_seeded !! 0 = Some E
            ∧ type_ E = Edge.Front ∧ triangle1_ E = None
            ∧ edge_heap quad_turn !! 0 = Some E'
            ∧ type_ E' = Edge.Inner
            ∧ triangle1_ E' = Some (length (triangle_heap quad_seeded))
            ∧ length (triangle_heap quad_turn) = S (length (triangle_heap quad_seeded)).
Proof.
  assert (HF : edge_front_ quad_seeded = 0 :: [1; 2]) by (vm_compute; reflexivity).
  assert (HB : ExpandTriangulation_body quad_search never_coplanar far_apart
                 acos_stand_in (with_edge_front quad_seeded [1; 2]) 0 1%float
               = Ok quad_turn) by (vm_compute; reflexivity).
  split; [reflexivity|]. split; [exact HF|]. split; [exact HB|].
  split; [exact quad_turn_heap|].
  exact (proj1 (expanded_edge_becomes_inner quad_search never_coplanar far_apart
                  acos_stand_in 4 (exhaustive_search_range _)
                  (exhaustive_search_NoDup _) quad_cloud quad_seeded 0 [1; 2]
                  1%float quad_turn eq_refl quad_seeded_reachable HF HB
                  quad_turn_heap)).
Defined.

(** In exact arithmetic the right triangle has [S = 16] and [h2 = 0] for the
    radius 1, so that the criterion of the claim holds and the program run
    without rounding returns a center; in binary64 the program returns none.
    Three points of a line have [S = 0], and in binary64 the program returns
    a center for them, whose coordinates are not numbers. *)
Lemma ComputeBallCenter_counterexample :
  (let p := λ i, point_ (vertex_at (right_triangle (D := R)) i) in
   (1 / 10 ^ 16 <= bc_S (p 0%nat) (p 1%nat) (p 2%nat))%R
   ∧ (0 <= bc_h2 (p 0%nat) (p 1%nat) (p 2%nat) 1)%R
   ∧ is_Some (ComputeBallCenter (right_triangle (D := R)) 0 1 2 1%R))
  ∧ ComputeBallCenter (right_triangle (D := float)) 0 1 2 1%float = None
  ∧ (∀ x1 x2 : R,
       let p := λ i, point_ (vertex_at (on_the_x_axis x1 x2) i) in
       bc_S (p 0) (p 1) (p 2) = 0%R)
  ∧ ∃ center,
      ComputeBallCenter (on_the_x_axis 0.4%float 1.7%float) 0 1 2 1%float
        = Some center
      ∧ PrimFloat.is_nan (vx center) = true.
Proof.
  assert (HS : (bc_S (Vec3 1 0 0) (Vec3 (-1) 0 0) (Vec3 0 1 0) = 16)%R).
  { unfold bc_S, bc_alpha, bc_beta, bc_gamma, bc_a, bc_b, bc_c, squaredNorm, dot, vsub.
    simpl. ring. }
  assert (Hh : (bc_h2 (Vec3 1 0 0) (Vec3 (-1) 0 0) (Vec3 0 1 0) 1 = 0)%R).
  { unfold bc_h2. rewrite bc_circumradius2_S, HS.
    unfold bc_a, bc_b, bc_c, squaredNorm, dot, vsub. simpl. field. }
  assert (He : (1 / 10 ^ 16 <= 16)%R).
  { assert (Hp : (1 <= 10 ^ 16)%R) by (apply pow_R1_Rle; lra).
    assert (1 / 10 ^ 16 <= 1)%R; [|lra].
    unfold Rdiv. rewrite Rmult_1_l, <- Rinv_1. apply Rinv_le_contravar; lra. }
  split; [|split; [|split]].
  - cbv beta zeta.
    change (point_ (vertex_at (right_triangle (D := R)) 0)) with (Vec3 1 0 0 : Vector3d R)%R.
    change (point_ (vertex_at (right_triangle (D := R)) 1))
      with (Vec3 (-1) 0 0 : Vector3d R)%R.
    change (point_ (vertex_at (right_triangle (D := R)) 2)) with (Vec3 0 1 0 : Vector3d R)%R.
    rewrite HS, Hh. split; [exact He|]. split; [lra|].
    pose proof (ComputeBallCenter_R (right_triangle (D := R)) 0 1 2 1%R) as E.
    cbv zeta in E.
    change (point_ (vertex_at (right_triangle (D := R)) 0))
      with (Vec3 1 0 0 : Vector3d R)%R in E.
    change (point_ (vertex_at (right_triangle (D := R)) 1))
      with (Vec3 (-1) 0 0 : Vector3d R)%R in E.
    change (point_ (vertex_at (right_triangle (D := R)) 2))
      with (Vec3 0 1 0 : Vector3d R)%R in E.
    rewrite HS, Hh in E.
    rewrite (proj2 (Rltb_false 16 (1 / 10 ^ 16)) He) in E.
    rewrite (proj2 (Rleb_true 0 0)) in E by lra.
    rewrite E. eexists. reflexivity.
  - vm_compute. reflexivity.
  - intros x1 x2. cbv beta zeta.
    unfold bc_S, bc_alpha, bc_beta, bc_gamma, bc_a, bc_b, bc_c, squaredNorm, dot, vsub.
    simpl. ring.
  - eexists. split; vm_compute; reflexivity.
Qed.

Lemma UpdateType_counterexample :
  vtype_ (UpdateType (edge_heap tri_final) (vertex_at (vertices tri_final) 0))
    = Vertex.Front
  ∧ edges_ (vertex_at (vertices tri_final) 0) = [0; 2]
  ∧ type_ (edge_at (edge_heap tri_final) 0) = Edge.Border
  ∧ type_ (edge_at (edge_heap tri_final) 2) = Edge.Border
  ∧ ¬ ∃ e, e ∈ edges_ (vertex_at (vertices tri_final) 0)
           ∧ type_ (edge_at (edge_heap tri_final) e) = Edge.Front.
Proof.
  split; [vm_compute; reflexivity|]. split; [vm_compute; reflexivity|].
  split; [vm_compute; reflexivity|]. split; [vm_compute; reflexivity|].
  intros (e & He & Hf).
  change (edges_ (vertex_at (vertices tri_final) 0)) with [0; 2] in He.
  repeat (apply elem_of_cons in He as [->|He]); [| |inversion He];
    vm_compute in Hf; discriminate.
Qed.

Lemma IsCompatible_counterexample :
  IsCompatible (vertex_at skew_vertices 0) (vertex_at skew_vertices 1)
               (vertex_at skew_vertices 2) = true
  ∧ IsCompatible_claimed (vertex_at skew_vertices 0) (vertex_at skew_vertices 1)
                         (vertex_at skew_vertices 2) = false.
Proof. split; vm_compute; reflexivity. Qed.

Lemma TrySeed_counterexample :
  TrySeed tri_search tri_bp0 0 1%float = Ok (true, tri_seeded)
  ∧ GetLinkingEdge tri_seeded 0 2 = Some 2
  ∧ GetLinkingEdge tri_seeded 1 2 = Some 1
  ∧ GetLinkingEdge tri_seeded 0 1 = Some 0
  ∧ edge_front_ tri_bp0 = []
  ∧ edge_front_ tri_seeded = [0; 1; 2]
  ∧ edge_front_ tri_seeded ≠ [2; 1; 0].
Proof.
  split; [vm_compute; reflexivity|]. split; [vm_compute; reflexivity|].
  split; [vm_compute; reflexivity|]. split; [vm_compute; reflexivity|].
  split; [vm_compute; reflexivity|]. split; [vm_compute; reflexivity|].
  vm_compute. discriminate.
Qed.

(** ** The further properties on the concrete inputs *)

Lemma quad_turn_reachable :
  reachable quad_search never_coplanar far_apart acos_stand_in quad_cloud quad_turn.
Proof.
  apply (ev_turn _ _ _ _ _ quad_seeded 0 [1; 2] 1%float quad_turn
           quad_seeded_reachable); vm_compute; reflexivity.
Qed.

Lemma quad_final_run :
  Run quad_search never_coplanar far_apart acos_stand_in 51
    (BallPivoting_new quad_cloud) [1%float] = Ok quad_final.
Proof. vm_compute. reflexivity. Qed.

Lemma quad_final_reachable :
  reachable quad_search never_coplanar far_apart acos_stand_in quad_cloud quad_final.
Proof.
  exact (Run_reachable quad_search never_coplanar far_apart acos_stand_in 4
           (exhaustive_search_range _) (exhaustive_search_NoDup _)
           quad_cloud 51 [1%float] quad_final eq_refl quad_final_run).
Qed.

Lemma tri_seeded_core : core_ok tri_seeded.
Proof.
  exact (proj1 (proj1 (reachable_Inv tri_search never_coplanar far_apart acos_stand_in 3
                         (exhaustive_search_range _) (exhaustive_search_NoDup _)
                         tri_cloud tri_seeded eq_refl tri_seeded_reachable))).
Qed.

Lemma exhaustive_search_length {D} {AR : Arith D} (points : list (Vector3d D)) q r :
  length (exhaustive_search points q r) ≤ length points.
Proof.
  unfold exhaustive_search.
  etransitivity; [apply length_filter|]. rewrite length_seq. reflexivity.
Qed.

Lemma GetOppositeVertex_opposite_witness :
  triangle0_ (edge_at (edge_heap tri_seeded) 0) = Some 0
  ∧ GetOppositeVertex (triangle_heap tri_seeded) (edge_at (edge_heap tri_seeded) 0)
    = Some 2
  ∧ GetOppositeVertex (triangle_heap tri_seeded)
      (set_type (edge_at (edge_heap tri_seeded) 0) Edge.Border) = Some 2.
Proof.
  destruct (GetOppositeVertex_opposite (triangle_heap tri_seeded)
              (edge_at (edge_heap tri_seeded) 0) 0
              (triangle_at (triangle_heap tri_seeded) 0))
    as (opp & H & Hin & N1 & N2 & _ & Hb & _).
  - vm_compute. reflexivity.
  - vm_compute. reflexivity.
  - vm_compute. repeat split; discriminate.
  - vm_compute. auto.
  - vm_compute. auto.
  - vm_compute. discriminate.
  - assert (Ho : opp = 2).
    { vm_compute in Hin, N1, N2. destruct Hin as [<-|[<-|<-]]; congruence. }
    rewrite Ho in H, Hb. split; [reflexivity|]. split; [exact H | exact Hb].
Defined.

Lemma AddAdjacentTriangle_slots_witness :
  let E := mkEdge 0 1 None None Edge.Border in
  ∃ E', AddAdjacentTriangle (vertices tri_seeded) (triangle_heap tri_seeded) E 0 = Ok E'
        ∧ ends_are E' 0 1 ∧ triangle0_ E' = Some 0 ∧ type_ E' = Edge.Front
        ∧ AddAdjacentTriangle (vertices tri_seeded) (triangle_heap tri_seeded) E' 0 = Ok E'.
Proof.
  intros E.
  assert (H : AddAdjacentTriangle (vertices tri_seeded) (triangle_heap tri_seeded) E 0
              = Ok (mkEdge 0 1 (Some 0) None Edge.Front)) by (vm_compute; reflexivity).
  destruct (AddAdjacentTriangle_slots _ _ _ _ _ H)
    as (He & _ & _ & _ & _ & Hfirst & _ & Hidem).
  eexists. split; [exact H|]. split; [exact He|].
  destruct Hfirst as [H0 Hty]; [reflexivity | intros [Hl|Hl]; discriminate |].
  split; [exact H0|]. split; [exact Hty | exact Hidem].
Defined.

Lemma GetLinkingEdge_finds_witness :
  GetLinkingEdge tri_seeded 0 1 = Some 0
  ∧ (∃ E, edge_heap tri_seeded !! 0 = Some E ∧ ends_are E 0 1)
  ∧ GetLinkingEdge tri_seeded 1 0 = GetLinkingEdge tri_seeded 0 1.
Proof.
  destruct (GetLinkingEdge_finds tri_seeded 0 1 tri_seeded_core)
    as (Hs & _ & Hsym); [vm_compute; lia | vm_compute; lia | lia |].
  assert (H : GetLinkingEdge tri_seeded 0 1 = Some 0) by (vm_compute; reflexivity).
  split; [exact H|]. split; [exact (proj1 (Hs 0) H) | exact Hsym].
Defined.

Lemma CreateTriangle_links_witness :
  ∃ bp', CreateTriangle tri_bp0 0 1 2 (V 0.5 0.5 1) = Ok bp'
         ∧ triangle_heap bp' = [mkTriangle 0 1 2 (V 0.5 0.5 1)]
         ∧ (∃ e E, GetLinkingEdge bp' 2 0 = Some e ∧ GetLinkingEdge bp' 0 2 = Some e
                   ∧ edge_heap bp' !! e = Some E ∧ ends_are E 2 0 ∧ lists E 0)
         ∧ vtype_ (vertex_at (vertices bp') 1) ≠ Vertex.Orphan
         ∧ edge_front_ bp' = [] ∧ border_edges_ bp' = [].
Proof.
  destruct (CreateTriangle_links tri_bp0 0 1 2 (V 0.5 0.5 1)
              (proj1 (BallPivoting_new_Inv tri_cloud)))
    as (bp' & Hc & Hh & Hl & Ho & _ & Hf & Hb);
    [lia | lia | lia | simpl; lia | simpl; lia | simpl; lia
     | intros e E He; simpl in He; rewrite lookup_nil in He; discriminate |].
  exists bp'. split; [exact Hc|]. split; [exact Hh|].
  split; [apply (Hl 2 0); right; right; split; reflexivity|].
  split; [apply Ho; right; left; reflexivity|].
  split; [exact Hf | exact Hb].
Defined.

Lemma FindCandidateVertex_ball_witness :
  let bp := with_edge_front quad_seeded [1; 2] in
  ∃ ctr, FindCandidateVertex quad_search never_coplanar far_apart acos_stand_in bp 0
           1%float = Ok (Some (3, ctr))
         ∧ source_ (edge_at (edge_heap bp) 0) = 0 ∧ target_ (edge_at (edge_heap bp) 0) = 1
         ∧ GetOppositeVertex (triangle_heap bp) (edge_at (edge_heap bp) 0) ≠ Some 3
         ∧ ComputeBallCenter (vertices bp) 0 1 3 1%float = Some ctr.
Proof.
  intros bp.
  assert (H : ∃ ctr, FindCandidateVertex quad_search never_coplanar far_apart
                       acos_stand_in bp 0 1%float = Ok (Some (3, ctr)))
    by (eexists; vm_compute; reflexivity).
  destruct H as [ctr H]. exists ctr. split; [exact H|].
  destruct (FindCandidateVertex_ball quad_search never_coplanar far_apart acos_stand_in
              bp 0 1%float 3 ctr H) as (_ & _ & _ & Hopp & Hc & _).
  split; [reflexivity|]. split; [reflexivity|]. split; [exact Hopp | exact Hc].
Defined.

Lemma mesh_triangles_valid_witness :
  length (points_ quad_cloud) = 4
  ∧ mesh_triangles_ quad_final !! 2 = Some (1, 3, 2)
  ∧ length (mesh_triangle_normals_ quad_final) = length (mesh_triangles_ quad_final)
  ∧ length (triangle_heap quad_final) = length (mesh_triangles_ quad_final)
  ∧ 1 < 4 ∧ 3 < 4 ∧ 2 < 4 ∧ 1 ≠ 3 ∧ 3 ≠ 2 ∧ 1 ≠ 2.
Proof.
  destruct (mesh_triangles_valid quad_search never_coplanar far_apart acos_stand_in 4
              (exhaustive_search_range _) (exhaustive_search_NoDup _)
              quad_cloud quad_final eq_refl quad_final_reachable) as (H1 & H2 & H3).
  split; [reflexivity|]. split; [vm_compute; reflexivity|].
  split; [exact H1|]. split; [exact H2|].
  apply (H3 2 1 3 2). vm_compute. reflexivity.
Defined.

Lemma mesh_edge_manifold_witness :
  length (points_ quad_cloud) = 4
  ∧ mesh_triangles_ quad_final !! 0 = Some (0, 1, 2)
  ∧ mesh_triangles_ quad_final !! 1 = Some (0, 1, 3)
  ∧ (0 = 1 ∨ 1 = 1 ∨ 0 = 1).
Proof.
  split; [reflexivity|]. split; [vm_compute; reflexivity|].
  split; [vm_compute; reflexivity|].
  apply (mesh_edge_manifold quad_search never_coplanar far_apart acos_stand_in 4
           (exhaustive_search_range _) (exhaustive_search_NoDup _)
           quad_cloud quad_final 0 1 1 (0, 1, 2) (0, 1, 3) (0, 1, 3) 0 1 eq_refl
           quad_final_reachable);
    [vm_compute; reflexivity | vm_compute; reflexivity | vm_compute; reflexivity
     | lia | | | | | | ]; unfold triple_has; simpl; auto.
Defined.

Lemma vertex_data_fixed_witness :
  length (points_ quad_cloud) = 4
  ∧ length (vertices quad_final) = 4
  ∧ ∃ V, vertices quad_final !! 3 = Some V
         ∧ idx_ V = 3 ∧ points_ quad_cloud !! 3 = Some (point_ V)
         ∧ normal_ V = default vzero (normals_ quad_cloud !! 3).
Proof.
  destruct (vertex_data_fixed quad_search never_coplanar far_apart acos_stand_in 4
              (exhaustive_search_range _) (exhaustive_search_NoDup _)
              quad_cloud quad_final eq_refl quad_final_reachable) as (H1 & H2).
  split; [reflexivity|]. split; [exact H1|].
  exists (vertex_at (vertices quad_final) 3).
  assert (H : vertices quad_final !! 3 = Some (vertex_at (vertices quad_final) 3))
    by (vm_compute; reflexivity).
  split; [exact H | exact (H2 3 _ H)].
Defined.

Lemma vertex_types_fresh_witness :
  length (points_ quad_cloud) = 4
  ∧ ∃ V, vertices quad_turn !! 0 = Some V
         ∧ (vtype_ V = Vertex.Orphan ↔ edges_ V = [])
         ∧ (vtype_ V = Vertex.Inner
            ↔ edges_ V ≠ []
              ∧ ∀ e, e ∈ edges_ V → type_ (edge_at (edge_heap quad_turn) e) = Edge.Inner)
         ∧ (vtype_ V = Vertex.Front
            ↔ ∃ e, e ∈ edges_ V ∧ type_ (edge_at (edge_heap quad_turn) e) ≠ Edge.Inner).
Proof.
  split; [reflexivity|].
  exists (vertex_at (vertices quad_turn) 0).
  assert (H : vertices quad_turn !! 0 = Some (vertex_at (vertices quad_turn) 0))
    by (vm_compute; reflexivity).
  split; [exact H|].
  exact (proj2 (vertex_types_fresh quad_search never_coplanar far_apart acos_stand_in 4
                  (exhaustive_search_range _) (exhaustive_search_NoDup _)
                  quad_cloud quad_turn 0 _ eq_refl quad_turn_reachable H)).
Defined.

Lemma Run_front_exhausted_witness :
  length (points_ quad_cloud) = 4
  ∧ Run quad_search never_coplanar far_apart acos_stand_in 51
      (BallPivoting_new quad_cloud) [1%float] = Ok quad_final
  ∧ edge_front_ quad_final = []
  ∧ ∀ e E, edge_heap quad_final !! e = Some E →
           (type_ E = Edge.Inner ∧ is_Some (triangle0_ E) ∧ is_Some (triangle1_ E)
            ∧ e ∉ border_edges_ quad_final)
           ∨ (type_ E = Edge.Border ∧ is_Some (triangle0_ E) ∧ triangle1_ E = None
              ∧ e ∈ border_edges_ quad_final).
Proof.
  split; [reflexivity|]. split; [exact quad_final_run|].
  exact (Run_front_exhausted quad_search never_coplanar far_apart acos_stand_in 4
           (exhaustive_search_range _) (exhaustive_search_NoDup _)
           quad_cloud 51 [1%float] quad_final eq_refl quad_final_run).
Defined.

Lemma mesh_append_only_witness :
  length (points_ quad_cloud) = 4
  ∧ evolves quad_search never_coplanar far_apart acos_stand_in quad_seeded quad_turn
  ∧ mesh_triangles_ quad_seeded `prefix_of` mesh_triangles_ quad_turn
  ∧ mesh_triangle_normals_ quad_seeded `prefix_of` mesh_triangle_normals_ quad_turn
  ∧ triangle_heap quad_seeded `prefix_of` triangle_heap quad_turn
  ∧ length (edge_heap quad_seeded) ≤ length (edge_heap quad_turn).
Proof.
  assert (He : evolves quad_search never_coplanar far_apart acos_stand_in
                 quad_seeded quad_turn).
  { apply (ev_turn _ _ _ _ _ quad_seeded 0 [1; 2] 1%float quad_turn (ev_refl _ _ _ _ _));
      vm_compute; reflexivity. }
  destruct (mesh_append_only quad_search never_coplanar far_apart acos_stand_in 4
              (exhaustive_search_range _) (exhaustive_search_NoDup _)
              quad_cloud quad_seeded quad_turn eq_refl quad_seeded_reachable He)
    as (H1 & H2 & H3 & H4 & _).
  split; [reflexivity|]. split; [exact He|]. auto.
Defined.

Lemma ExpandTriangulation_terminates_witness :
  length (points_ quad_cloud) = 4
  ∧ 2 * (4 * 4) + length (edge_front_ quad_seeded) ≤ 35
  ∧ ∃ bp', ExpandTriangulation quad_search never_coplanar far_apart acos_stand_in 35
             quad_seeded 1%float = Ok bp'
           ∧ reachable quad_search never_coplanar far_apart acos_stand_in quad_cloud bp'
           ∧ edge_front_ bp' = []
           ∧ mesh_triangles_ quad_seeded `prefix_of` mesh_triangles_ bp'.
Proof.
  assert (Hf : 2 * (4 * 4) + length (edge_front_ quad_seeded) ≤ 35)
    by (vm_compute; lia).
  split; [reflexivity|]. split; [exact Hf|].
  exact (ExpandTriangulation_terminates quad_search never_coplanar far_apart
           acos_stand_in 4 (exhaustive_search_range _) (exhaustive_search_NoDup _)
           quad_cloud quad_seeded 35 1%float eq_refl quad_seeded_reachable Hf).
Defined.

Lemma TrySeed_all_or_nothing_witness :
  length (points_ tri_cloud) = 3
  ∧ TrySeed tri_search tri_bp0 0 1%float = Ok (true, tri_seeded)
  ∧ ∃ nb0 nb1 ctr e0 e1 e2,
      IsCompatible (vertex_at (vertices tri_bp0) 0) (vertex_at (vertices tri_bp0) nb0)
        (vertex_at (vertices tri_bp0) nb1) = true
      ∧ ComputeBallCenter (vertices tri_bp0) 0 nb0 nb1 1%float = Some ctr
      ∧ triangle_heap tri_seeded = triangle_heap tri_bp0 ++ [mkTriangle 0 nb0 nb1 ctr]
      ∧ length (edge_heap tri_seeded) = 3 + length (edge_heap tri_bp0)
      ∧ edge_front_ tri_seeded = e2 :: e1 :: e0 :: edge_front_ tri_bp0.
Proof.
  assert (HT : TrySeed tri_search tri_bp0 0 1%float = Ok (true, tri_seeded))
    by (vm_compute; reflexivity).
  split; [reflexivity|]. split; [exact HT|].
  destruct (TrySeed_all_or_nothing tri_search never_coplanar far_apart acos_stand_in 3
              (exhaustive_search_range _) (exhaustive_search_NoDup _)
              tri_cloud tri_bp0 0 1%float true tri_seeded eq_refl
              (ev_refl _ _ _ _ _) ltac:(lia) HT)
    as [[Hb _]|(_ & nb0 & nb1 & ctr & e0 & e1 & e2 & H)]; [discriminate|].
  cbv zeta in H.
  destruct H as (_ & _ & _ & _ & _ & _ & _ & _ & Hc & Hbc & _ & Hh & _ & _ & Hl & Hf & _).
  exists nb0, nb1, ctr, e0, e1, e2. auto.
Defined.

Lemma Run_sparse_witness :
  (∀ q r, length (pair_search q r) < 3)
  ∧ HasNormals pair_cloud = true
  ∧ Run pair_search never_coplanar far_apart acos_stand_in 7
      (BallPivoting_new pair_cloud) [1%float; 2%float] = Ok (BallPivoting_new pair_cloud)
  ∧ mesh_triangles_ (BallPivoting_new pair_cloud) = [].
Proof.
  assert (Hs : ∀ q r, length (pair_search q r) < 3).
  { intros q r. pose proof (exhaustive_search_length (points_ pair_cloud) q r) as H.
    change (length (points_ pair_cloud)) with 2 in H. unfold pair_search. lia. }
  split; [exact Hs|]. split; [reflexivity|].
  destruct (Run_sparse pair_search never_coplanar far_apart acos_stand_in pair_cloud 7
              [1%float; 2%float] Hs eq_refl) as (H1 & H2 & _).
  - intros r Hr. apply elem_of_cons in Hr as [->|Hr]; [reflexivity|].
    apply list_elem_of_singleton in Hr as ->. reflexivity.
  - split; [exact H1 | exact H2].
Defined.

Lemma mesh_triangles_empty_ball_witness :
  length (points_ quad_cloud) = 4
  ∧ mesh_triangles_ quad_final !! 1 = Some (0, 1, 3)
  ∧ ∃ T radius q,
      triangle_heap quad_final !! 1 = Some T
      ∧ ComputeBallCenter (vertices quad_final) (vert0_ T) (vert1_ T) (vert2_ T) radius
        = Some (ball_center_ T)
      ∧ ∀ j, j ∈ quad_search q (d2 * radius)%D →
             j ≠ vert0_ T → j ≠ vert1_ T → j ≠ vert2_ T →
             (norm (vsub (ball_center_ T) (point_ (vertex_at (vertices quad_final) j)))
              <? radius - deps16)%D = false.
Proof.
  assert (Hm : mesh_triangles_ quad_final !! 1 = Some (0, 1, 3))
    by (vm_compute; reflexivity).
  split; [reflexivity|]. split; [exact Hm|].
  destruct (mesh_triangles_empty_ball quad_search never_coplanar far_apart acos_stand_in 4
              (exhaustive_search_range _) (exhaustive_search_NoDup _)
              quad_cloud quad_final 1 (0, 1, 3) eq_refl quad_final_reachable Hm)
    as (T & radius & q & HT & _ & _ & Hc & Hb).
  exists T, radius, q. split; [exact HT|]. split; [exact Hc | exact Hb].
Defined.

Lemma orphan_iff_unused_witness :
  length (points_ quad_cloud) = 4
  ∧ ∃ V, vertices quad_seeded !! 3 = Some V
         ∧ vtype_ V = Vertex.Orphan
         ∧ (vtype_ V = Vertex.Orphan
            ↔ ∀ i m, mesh_triangles_ quad_seeded !! i = Some m → ¬ triple_has m 3).
Proof.
  split; [reflexivity|].
  exists (vertex_at (vertices quad_seeded) 3).
  assert (H : vertices quad_seeded !! 3 = Some (vertex_at (vertices quad_seeded) 3))
    by (vm_compute; reflexivity).
  split; [exact H|]. split; [vm_compute; reflexivity|].
  exact (orphan_iff_unused quad_search never_coplanar far_apart acos_stand_in 4
           (exhaustive_search_range _) (exhaustive_search_NoDup _)
           quad_cloud quad_seeded 3 _ eq_refl quad_seeded_reachable H).
Defined.

Lemma FindCandidateVertex_least_angle_witness :
  let c3 := default vzero (ComputeBallCenter (vertices fan_seeded) 0 1 3 1%float) in
  let c4 := default vzero (ComputeBallCenter (vertices fan_seeded) 0 1 4 1%float) in
  FindCandidateVertex fan_search never_coplanar far_apart acos_stand_in fan_seeded 0
    1%float = Ok (Some (4, c4))
  ∧ let E := edge_at (edge_heap fan_seeded) 0 in
    let vs := vertices fan_seeded in
    let src := source_ E in
    let tgt := target_ E in
    let mp := vscale dhalf (vadd (point_ (vertex_at vs src))
                                 (point_ (vertex_at vs tgt))) in
    let indices := fan_search mp (d2 * 1%float)%D in
    ∃ opp t,
      GetOppositeVertex (triangle_heap fan_seeded) E = Some opp
      ∧ triangle0_ E = Some t
      ∧ let center := ball_center_ (triangle_at (triangle_heap fan_seeded) t) in
        let v := vdivs (vsub (point_ (vertex_at vs tgt)) (point_ (vertex_at vs src)))
                       (norm (vsub (point_ (vertex_at vs tgt))
                                   (point_ (vertex_at vs src)))) in
        let a := vdivs (vsub center mp) (norm (vsub center mp)) in
        (3 ∈ indices
         ∧ admissible never_coplanar far_apart vs src tgt opp mp 1%float indices 3 c3)
        ∧ (4 ∈ indices
           ∧ admissible never_coplanar far_apart vs src tgt opp mp 1%float indices 4 c4)
        ∧ (pivot_angle acos_stand_in mp a v c4
           <=? pivot_angle acos_stand_in mp a v c3)%D = true
        ∧ (pivot_angle acos_stand_in mp a v c3
           <=? pivot_angle acos_stand_in mp a v c4)%D = false
        ∧ (d2 * dpi <=? pivot_angle acos_stand_in mp a v c4)%D = false.
Proof.
  intros c3 c4.
  assert (Hf : FindCandidateVertex fan_search never_coplanar far_apart acos_stand_in
                 fan_seeded 0 1%float = Ok (Some (4, c4)))
    by (vm_compute; reflexivity).
  split; [exact Hf|].
  pose proof (FindCandidateVertex_least_angle fan_search never_coplanar far_apart
                acos_stand_in fan_seeded 0 1%float (Some (4, c4)) Hf) as T.
  cbv zeta in T |- *.
  destruct T as (opp & t & Ho & Ht & T).
  exists opp, t. split; [exact Ho|]. split; [exact Ht|].
  assert (Eo : opp = 2) by (vm_compute in Ho; congruence).
  assert (Et : t = 0) by (vm_compute in Ht; congruence).
  subst opp t.
  match type of T with
  | context [fan_search ?q ?r] =>
      assert (Hidx : fan_search q r = [0; 1; 2; 3; 4]) by (vm_compute; reflexivity)
  end.
  rewrite Hidx in T |- *.
  assert (K3 : ∀ l, 3 ∈ 0 :: 1 :: 2 :: 3 :: l)
    by (intros l; do 3 apply list_elem_of_further; apply list_elem_of_here).
  assert (K4 : ∀ l, 4 ∈ 0 :: 1 :: 2 :: 3 :: 4 :: l)
    by (intros l; do 4 apply list_elem_of_further; apply list_elem_of_here).
  match goal with
  | |- ?K3 ∧ ?K4 ∧ _ => assert (A3 : K3); [|assert (A4 : K4)]
  end.
  { split; [apply K3|]. unfold admissible.
    split; [vm_compute; discriminate|]. split; [vm_compute; discriminate|].
    split; [vm_compute; discriminate|]. split; [vm_compute; reflexivity|].
    split; vm_compute; reflexivity. }
  { split; [apply K4|]. unfold admissible.
    split; [vm_compute; discriminate|]. split; [vm_compute; discriminate|].
    split; [vm_compute; discriminate|]. split; [vm_compute; reflexivity|].
    split; vm_compute; reflexivity. }
  split; [exact A3|]. split; [exact A4|].
  match type of T with
  | ?P → _ => assert (Hord : P)
  end.
  { match goal with
    | |- ordered_on ?A =>
        match A with
        | context [pivot_angle acos_stand_in ?mp ?a ?v] =>
            assert (HL : ∀ x, A x →
                      x = (d2 * dpi)%D
                      ∨ x = pivot_angle acos_stand_in mp a v c3
                      ∨ x = pivot_angle acos_stand_in mp a v c4)
        end
    end.
    { intros x [->|(i & ctr & (Hi & (N1 & N2 & N3 & _ & Hc & _)) & ->)];
        [left; reflexivity|].
      repeat (apply elem_of_cons in Hi as [->|Hi]).
      - exfalso. apply N1. vm_compute. reflexivity.
      - exfalso. apply N2. vm_compute. reflexivity.
      - exfalso. apply N3. reflexivity.
      - right. left. vm_compute in Hc. injection Hc as <- . vm_compute. reflexivity.
      - right. right. vm_compute in Hc. injection Hc as <- . vm_compute. reflexivity.
      - inversion Hi. }
    split.
    - intros x y Hx Hy.
      destruct (HL x Hx) as [->|[->| ->]], (HL y Hy) as [->|[->| ->]];
        vm_compute; first [left; reflexivity | right; reflexivity].
    - intros x y z Hx Hy Hz.
      destruct (HL x Hx) as [->|[->| ->]], (HL y Hy) as [->|[->| ->]],
               (HL z Hz) as [->|[->| ->]];
        vm_compute; intros H1 H2; first [reflexivity | discriminate]. }
  destruct (T Hord) as (_ & Hlt & Hmin).
  split; [|split; [|exact Hlt]].
  - exact (Hmin 3 c3 A3).
  - vm_compute. reflexivity.
Defined.

Section RealInputs.
Local Open Scope R_scope.

Lemma real_S :
  bc_S (Vec3 0 0 0) (Vec3 1 0 0) (Vec3 0 1 0) = 4.
Proof.
  unfold bc_S, bc_alpha, bc_beta, bc_gamma, bc_a, bc_b, bc_c, squaredNorm, dot, vsub.
  simpl. ring.
Qed.

Lemma real_h2 :
  bc_h2 (Vec3 0 0 0) (Vec3 1 0 0) (Vec3 0 1 0) 1 = 1 / 2.
Proof.
  unfold bc_h2. rewrite bc_circumradius2_S, real_S.
  unfold bc_a, bc_b, bc_c, squaredNorm, dot, vsub. simpl. field.
Qed.

Lemma real_center :
  ∃ ctr, ComputeBallCenter (vertices real_bp0) 0 1 2 1 = Some ctr.
Proof.
  pose proof (ComputeBallCenter_R (vertices real_bp0) 0 1 2 1) as H.
  cbv zeta in H.
  change (point_ (vertex_at (vertices real_bp0) 0)) with (Vec3 0 0 0 : Vector3d R) in H.
  change (point_ (vertex_at (vertices real_bp0) 1)) with (Vec3 1 0 0 : Vector3d R) in H.
  change (point_ (vertex_at (vertices real_bp0) 2)) with (Vec3 0 1 0 : Vector3d R) in H.
  rewrite real_S, real_h2 in H.
  assert (H1 : Rltb 4 (1 / 10 ^ 16) = false).
  { apply Rltb_false. pose proof eps16_pos.
    assert (Hp : 1 <= 10 ^ 16) by (apply pow_R1_Rle; lra).
    assert (1 / 10 ^ 16 <= 1); [|lra].
    unfold Rdiv. rewrite Rmult_1_l, <- Rinv_1. apply Rinv_le_contravar; lra. }
  assert (H2 : Rleb 0 (1 / 2) = true) by (apply Rleb_true; lra).
  rewrite H1, H2 in H. eexists. exact H.
Qed.

Lemma real_search_all :
  real_search (point_ (vertex_at (vertices real_bp0) 0)) (d2 * 1)%D = [0; 1; 2]%nat.
Proof.
  unfold real_search, exhaustive_search.
  change (seq 0 (length (points_ real_cloud))) with [0; 1; 2]%nat.
  rewrite !filter_cons_True, filter_nil; [reflexivity | ..];
    apply Rleb_true; unfold squaredNorm, dot, vsub; simpl; lra.
Qed.

Lemma real_compatible :
  IsCompatible (vertex_at (vertices real_bp0) 0) (vertex_at (vertices real_bp0) 1)
               (vertex_at (vertices real_bp0) 2) = true.
Proof.
  apply IsCompatible_unfold.
  change (point_ (vertex_at (vertices real_bp0) 0)) with (Vec3 0 0 0 : Vector3d R).
  change (point_ (vertex_at (vertices real_bp0) 1)) with (Vec3 1 0 0 : Vector3d R).
  change (point_ (vertex_at (vertices real_bp0) 2)) with (Vec3 0 1 0 : Vector3d R).
  change (normal_ (vertex_at (vertices real_bp0) 0)) with (Vec3 0 0 1 : Vector3d R).
  change (normal_ (vertex_at (vertices real_bp0) 1)) with (Vec3 0 0 1 : Vector3d R).
  change (normal_ (vertex_at (vertices real_bp0) 2)) with (Vec3 0 0 1 : Vector3d R).
  assert (HF : ComputeFaceNormal (Vec3 0 0 0) (Vec3 1 0 0) (Vec3 0 1 0)
               = (Vec3 0 0 1 : Vector3d R)).
  { rewrite ComputeFaceNormal_R. cbv zeta.
    assert (Hc : cross (vsub (Vec3 1 0 0) (Vec3 0 0 0)) (vsub (Vec3 0 1 0) (Vec3 0 0 0))
                 = (Vec3 0 0 1 : Vector3d R)).
    { unfold cross, vsub. simpl. f_equal; ring. }
    rewrite Hc.
    assert (Hn : norm (Vec3 0 0 1 : Vector3d R) = 1).
    { unfold norm, squaredNorm, dot. simpl.
      replace (0 * 0 + 0 * 0 + 1 * 1) with 1 by ring. apply sqrt_1. }
    rewrite Hn. rewrite (proj2 (Rltb_true 0 1)) by lra.
    unfold vdivs. simpl. f_equal; field. }
  rewrite HF. pose proof eps16_pos as He.
  assert (Hd : dot (Vec3 0 0 1 : Vector3d R) (Vec3 0 0 1) = 1)
    by (unfold dot; simpl; ring).
  rewrite Hd.
  assert (Hlt : (1 <? - deps16)%D = false).
  { apply Rltb_false. simpl. lra. }
  rewrite Hlt, Hd.
  assert (Hgt : (- deps16 <? 1)%D = true).
  { apply Rltb_true. simpl. lra. }
  rewrite Hgt. auto.
Qed.

Lemma real_seed :
  ∃ ctr bp1 e0 e1 e2,
    TrySeed real_search real_bp0 0 1
    = Ok (true, with_edge_front bp1 [e2; e1; e0])
    ∧ created real_bp0 0 1 2 ctr bp1.
Proof.
  destruct real_center as [ctr Hctr].
  assert (Hseed : TryTriangleSeed real_bp0 0 1 2 [0; 1; 2]%nat 1 = Some ctr).
  { unfold TryTriangleSeed. cbv zeta. rewrite real_compatible, Hctr. reflexivity. }
  destruct (seed_created real_search real_coplanar real_distance real_acos 3
              (exhaustive_search_range _) real_bp0 0 1 2 ctr
              (BallPivoting_new_Inv real_cloud) eq_refl)
    as (bp1 & e0 & e1 & e2 & Hcr & Hg0 & Hfr0 & Hg1 & Hfr1 & Hg2 & Hfr2 & _);
    [lia | lia | lia | lia | lia | lia | reflexivity | reflexivity |].
  exists ctr, bp1, e0, e1, e2. split; [|exact Hcr].
  unfold TrySeed. rewrite real_search_all.
  change ((length [0; 1; 2] <? 3)%nat) with false. cbv iota.
  cbn [TrySeed_loop].
  change (is_orphan real_bp0 0) with true.
  change (is_orphan real_bp0 1) with true.
  cbn [negb Nat.eqb TrySeed_inner].
  change (is_orphan real_bp0 2) with true. cbn [negb Nat.eqb].
  rewrite Hseed.
  change (not_front real_bp0 (GetLinkingEdge real_bp0 0 2)) with false.
  change (not_front real_bp0 (GetLinkingEdge real_bp0 1 2)) with false.
  change (not_front real_bp0 (GetLinkingEdge real_bp0 0 1)) with false.
  cbv iota.
  rewrite (cr_call _ _ _ _ _ _ Hcr). cbn [rbind]. rewrite Hg0, Hg1, Hg2.
  rewrite (push_front_if_front_true bp1 e0 Hfr0). cbn [rbind].
  rewrite (push_front_if_front_true _ e1) by exact Hfr1. cbn [rbind].
  rewrite (push_front_if_front_true _ e2) by exact Hfr2. cbn [rbind].
  simpl. rewrite (cp_front _ _ _ _ _ _ (cr_post _ _ _ _ _ _ Hcr)). reflexivity.
Qed.
End RealInputs.

Lemma real_seeded_state :
  ∃ bp m, reachable real_search real_coplanar real_distance real_acos real_cloud bp
          ∧ mesh_triangles_ bp !! 0 = Some m.
Proof.
  destruct real_seed as (ctr & bp1 & e0 & e1 & e2 & HT & Hcr).
  destruct (CreateTriangle_wound real_bp0 0 1 2 ctr bp1 (cr_call _ _ _ _ _ _ Hcr))
    as (a & b & _ & Hm & _).
  exists (with_edge_front bp1 [e2; e1; e0]), (0, a, b). split.
  - apply (ev_seed _ _ _ _ _ real_bp0 0 1%R true _ (ev_refl _ _ _ _ _)); [|exact HT].
    simpl. lia.
  - simpl. rewrite Hm. reflexivity.
Qed.

Lemma mesh_triangles_wound_witness :
  length (points_ real_cloud) = 3
  ∧ ∃ bp m n,
      reachable real_search real_coplanar real_distance real_acos real_cloud bp
      ∧ mesh_triangles_ bp !! 0 = Some m
      ∧ mesh_triangle_normals_ bp !! 0 = Some n
      ∧ (- (1 / 10 ^ 16) <
         dot (ComputeFaceNormal (point_ (vertex_at (vertices bp) m.1.1))
                (point_ (vertex_at (vertices bp) m.1.2))
                (point_ (vertex_at (vertices bp) m.2)))
             (normal_ (vertex_at (vertices bp) m.1.1)))%R.
Proof.
  split; [reflexivity|].
  destruct real_seeded_state as (bp & m & Hr & Hm).
  destruct (mesh_triangles_wound real_search real_coplanar real_distance real_acos 3
              (exhaustive_search_range _) (exhaustive_search_NoDup _)
              real_cloud bp 0 m eq_refl Hr Hm) as (Hw & n & Hn & _).
  exists bp, m, n. auto.
Defined.

